(** * ragkit-ts: a shallow embedding of the index lifecycle engine and the
    query path, with the properties of its specification.

    JavaScript values are modelled as follows.  A [number] is an IEEE 754
    binary64 value, Rocq's primitive [float]; counters the code only ever
    increments or reads off a [length] are [nat] or [Z].  A JavaScript string
    is a Rocq [string] (a sequence of 8-bit code units, which covers the
    Latin-1 range).  A [Map<string, V>] and a [Set<string>] are association
    lists in insertion order ([JsMap], [JsSet]); the disk is a [gmap] from
    paths to file contents.  The asynchronous indexing job is a state and
    error monad over the folder's cache, the disk and a counter of the
    suspension points passed, against which the cancellation token is read. *)

From Stdlib Require Import ZArith Uint63 Floats Ascii String Lia.
From stdpp Require Import base option list gmap strings pretty.

#[local] Set Warnings "-register-all".

Local Open Scope Z_scope.

(** ** JavaScript string primitives *)

Module Js.

Definition LF : ascii := ascii_of_nat 10.
Definition CR : ascii := ascii_of_nat 13.

(** [WhiteSpace] and [LineTerminator] code units below U+0100: TAB, LF, VT,
    FF, CR, SP and NBSP.  These are what [String.prototype.trim] strips and
    what the regular expression class [\s] matches. *)
Definition isWhiteSpace (c : ascii) : bool :=
  let n := N_of_ascii c in
  ((9 <=? n)%N && (n <=? 13)%N) || (n =? 32)%N || (n =? 160)%N.

Fixpoint trimStart (l : list ascii) : list ascii :=
  match l with
  | c :: t => if isWhiteSpace c then trimStart t else l
  | [] => []
  end.

Definition trimEnd (l : list ascii) : list ascii := rev (trimStart (rev l)).

(** [s.trim()] *)
Definition trim (l : list ascii) : list ascii := trimEnd (trimStart l).

(** [s.replace(/\r\n/g, "\n")] *)
Fixpoint replaceCrLf (l : list ascii) : list ascii :=
  match l with
  | c1 :: ((c2 :: t) as r) =>
      if Ascii.eqb c1 CR && Ascii.eqb c2 LF then LF :: replaceCrLf t
      else c1 :: replaceCrLf r
  | _ => l
  end.

(** [s.replace(/\s+/g, " ")]: every maximal run of white space becomes one
    space.  [inRun] tells whether the previous code unit was white space. *)
Fixpoint collapseWhiteSpace (inRun : bool) (l : list ascii) : list ascii :=
  match l with
  | [] => []
  | c :: t =>
      if isWhiteSpace c
      then (if inRun then collapseWhiteSpace true t
            else " "%char :: collapseWhiteSpace true t)
      else c :: collapseWhiteSpace false t
  end.

(** [s.toLowerCase()] on Latin-1 code units: A-Z, and U+00C0-U+00DE except
    the multiplication sign U+00D7, move up by 32. *)
Definition toLowerChar (c : ascii) : ascii :=
  let n := N_of_ascii c in
  if ((65 <=? n)%N && (n <=? 90)%N)
     || ((192 <=? n)%N && (n <=? 222)%N && negb (n =? 215)%N)
  then ascii_of_N (n + 32) else c.

Definition toLowerCase (l : list ascii) : list ascii := map toLowerChar l.

(** [s.slice(a, b)], negative indices counting from the end. *)
Definition slice {A} (l : list A) (a b : Z) : list A :=
  let n := Z.of_nat (length l) in
  let from := if a <? 0 then Z.max (n + a) 0 else Z.min a n in
  let to := if b <? 0 then Z.max (n + b) 0 else Z.min b n in
  take (Z.to_nat (to - from)) (drop (Z.to_nat from) l).

(** The largest index [i <= k] with [l[i] = c], or [-1]. *)
Fixpoint lastIndexFrom (l : list ascii) (c : ascii) (k : nat) {struct k} : Z :=
  if match l !! k with Some x => Ascii.eqb x c | None => false end
  then Z.of_nat k
  else match k with
       | O => -1
       | S k' => lastIndexFrom l c k'
       end.

(** [s.lastIndexOf(c, pos)] for a one-character search string: the search
    starts at [pos] clamped into [0, s.length - 1]. *)
Definition lastIndexOf (l : list ascii) (c : ascii) (pos : Z) : Z :=
  let n := Z.of_nat (length l) in
  if n =? 0 then -1
  else lastIndexFrom l c (Z.to_nat (Z.min (Z.max pos 0) (n - 1))).

(** The same operations on [string]. *)
Definition chars (s : string) : list ascii := list_ascii_of_string s.
Definition str (l : list ascii) : string := string_of_list_ascii l.

Definition strTrim (s : string) : string := str (trim (chars s)).
Definition strLength (s : string) : Z := Z.of_nat (length (chars s)).

(** [Math.floor] and [Math.round] on binary64.  Below 2^52 in magnitude,
    adding and subtracting 2^52 rounds to an integer (to nearest, ties to
    even), which is then corrected downwards; from 2^52 on every value is an
    integer already.  [Math.round] resolves ties towards plus infinity, and
    yields -0 for arguments in [-0.5, -0]. *)
Definition two52 : float := 4503599627370496%float.

Definition floorAbs (a : float) : float :=
  let r := PrimFloat.sub (PrimFloat.add a two52) two52 in
  if PrimFloat.ltb a r then PrimFloat.sub r 1%float else r.

Definition mathRound (x : float) : float :=
  let a := PrimFloat.abs x in
  if PrimFloat.ltb a two52 then
    let f := floorAbs a in
    let frac := PrimFloat.sub a f in
    if PrimFloat.ltb x 0%float then
      PrimFloat.opp (if PrimFloat.ltb 0.5%float frac then PrimFloat.add f 1%float else f)
    else if PrimFloat.eqb x 0%float then x
    else if PrimFloat.leb 0.5%float frac then PrimFloat.add f 1%float else f
  else x.

(** [s.includes(sub)] *)
Definition includes (sub s : string) : bool :=
  match String.index 0 sub s with Some _ => true | None => false end.

(** [`${i}`] for a non-negative integer index. *)
Definition numberToString (i : nat) : string := pretty i.

(** [ToIntegerOrInfinity(x)] of ECMA-262, which [slice] applies to its
    arguments and [Array.from] to a [length]: NaN gives 0, a finite number
    its integer part.  The two infinities are given as the integers of
    magnitude 2^1024, beyond every finite binary64 number and every
    length. *)
Definition toIntegerOrInfinity (x : float) : Z :=
  match Prim2SF x with
  | SpecFloat.S754_finite s m e =>
      let magnitude := if 0 <=? e then Zpos m * 2 ^ e else Zpos m / 2 ^ (- e) in
      if s then - magnitude else magnitude
  | SpecFloat.S754_infinity s => if s then - 2 ^ 1024 else 2 ^ 1024
  | _ => 0
  end.

(** The [length] of an array as a number (a length is below 2^32). *)
Definition ofLength (n : nat) : float := PrimFloat.of_uint63 (Uint63.of_Z (Z.of_nat n)).

End Js.

(** ** Shared record types (types.ts) *)

(** A symbol is produced by the external extractor and carried through
    unchanged; positions are JavaScript numbers. *)
Record Position := { line : float; column : float; offset : float }.
Record Range := { rstart : Position; rend : Position }.

Inductive SymbolKind :=
| KFunction | KClass | KMethod | KInterface | KType | KEnum | KModule
| KVariable | KImport | KExport | KOther.

Record CodeSymbol := {
  sym_name : string;
  sym_kind : SymbolKind;
  nameRange : Range;
  contentRange : Range
}.

Record ChunkResult := {
  cr_content : string;
  cr_symbols : option (list CodeSymbol)
}.

(** ** TextChunker (chunking/text-chunker.ts) *)

Module TextChunker.

Record t := { chunkSize : Z; chunkOverlap : Z }.

(** [Math.floor(this.chunkSize * 0.2)].  For an integer [chunkSize] (of
    magnitude below 2^52) the binary64 product, rounded down, is the integer
    quotient by 5: the constant 0.2 exceeds 1/5 by less than 2^-54
    relatively. *)
Definition searchBack (tc : t) : Z := chunkSize tc / 5.

(** The end of the window that starts at [start]: at most [chunkSize]
    further, moved back to just after the last newline found in the trailing
    fifth of the window when the window does not reach the end. *)
Definition windowEnd (tc : t) (clean : list ascii) (start : Z) : Z :=
  let len := Z.of_nat (length clean) in
  let end0 := Z.min len (start + chunkSize tc) in
  if end0 <? len then
    let searchStart := Z.max start (end0 - searchBack tc) in
    let lastNewline := Js.lastIndexOf clean Js.LF end0 in
    if lastNewline >=? searchStart then lastNewline + 1 else end0
  else end0.

(** The [while (start < clean.length)] loop, as the list of the windows
    [(start, end)] of its iterations.  [None]: the fuel ran out. *)
Fixpoint windows (fuel : nat) (tc : t) (clean : list ascii) (start : Z)
  : option (list (Z * Z)) :=
  match fuel with
  | O => None
  | S fuel' =>
      let len := Z.of_nat (length clean) in
      if start <? len then
        let end_ := windowEnd tc clean start in
        if end_ >=? len then Some [(start, end_)]
        else
          match windows fuel' tc clean (Z.max (start + 1) (end_ - chunkOverlap tc)) with
          | Some rest => Some ((start, end_) :: rest)
          | None => None
          end
      else Some []
  end.

(** [const text = clean.slice(start, end).trim()] *)
Definition windowText (clean : list ascii) (w : Z * Z) : list ascii :=
  Js.trim (Js.slice clean (fst w) (snd w)).

(** [if (text) results.push({ content: text })] for each window in turn. *)
Definition emit (clean : list ascii) (ws : list (Z * Z)) : list ChunkResult :=
  omap (fun w =>
          match windowText clean w with
          | [] => None
          | text => Some {| cr_content := Js.str text; cr_symbols := None |}
          end) ws.

(** [const clean = content.replace(/\r\n/g, "\n").trim()] *)
Definition clean (content : string) : list ascii :=
  Js.trim (Js.replaceCrLf (Js.chars content)).

(** [chunk(content)].  Every iteration advances [start] by at least one, so
    [length clean + 1] iterations always suffice (lemma [windows_total]). *)
Definition chunk (tc : t) (content : string) : option (list ChunkResult) :=
  let cl := clean content in
  match cl with
  | [] => Some []
  | _ => emit cl <$> windows (S (length cl)) tc cl 0
  end.

End TextChunker.

(** The earlier text chunker kept beside it in the sources: no newline
    search, and the next window starts at [max(0, end - chunkOverlap)]. *)
Module TextChunker0.

Definition windowEnd (tc : TextChunker.t) (clean : list ascii) (start : Z) : Z :=
  Z.min (Z.of_nat (length clean)) (start + TextChunker.chunkSize tc).

Fixpoint windows (fuel : nat) (tc : TextChunker.t) (clean : list ascii) (start : Z)
  : option (list (Z * Z)) :=
  match fuel with
  | O => None
  | S fuel' =>
      let len := Z.of_nat (length clean) in
      if start <? len then
        let end_ := windowEnd tc clean start in
        if end_ >=? len then Some [(start, end_)]
        else
          match windows fuel' tc clean (Z.max 0 (end_ - TextChunker.chunkOverlap tc)) with
          | Some rest => Some ((start, end_) :: rest)
          | None => None
          end
      else Some []
  end.

Definition chunk (fuel : nat) (tc : TextChunker.t) (content : string)
  : option (list ChunkResult) :=
  let cl := TextChunker.clean content in
  match cl with
  | [] => Some []
  | _ => TextChunker.emit cl <$> windows fuel tc cl 0
  end.

End TextChunker0.

(** ** JavaScript [Map] and [Set] keyed by strings

    Both iterate in insertion order.  A map is the list of its entries, oldest
    first; [set] on a present key replaces the value in place, as in
    JavaScript, and [delete] removes the entry. *)

Module JsMap.

Abbreviation t V := (list (string * V)) (only parsing).

Definition empty {V} : t V := [].

Fixpoint get {V} (k : string) (m : t V) : option V :=
  match m with
  | [] => None
  | (k', v) :: r => if decide (k' = k) then Some v else get k r
  end.

Definition has {V} (k : string) (m : t V) : bool :=
  match get k m with Some _ => true | None => false end.

Fixpoint set {V} (k : string) (v : V) (m : t V) : t V :=
  match m with
  | [] => [(k, v)]
  | (k', v') :: r => if decide (k' = k) then (k, v) :: r else (k', v') :: set k v r
  end.

Definition delete {V} (k : string) (m : t V) : t V :=
  filter (fun e => e.1 <> k) m.

Definition keys {V} (m : t V) : list string := m.*1.
Definition values {V} (m : t V) : list V := m.*2.
Definition size {V} (m : t V) : nat := length m.

End JsMap.

Module JsSet.

Abbreviation t := (list string) (only parsing).

Definition has (x : string) (s : t) : bool := bool_decide (x ∈ s).
Definition add (x : string) (s : t) : t := if has x s then s else s ++ [x].
Definition ofList (l : list string) : t := foldl (fun s x => add x s) [] l.
Definition size (s : t) : nat := length s.

End JsSet.

(** ** [Array.prototype.sort] *)

(** Stable sort: [before x y] holds when the comparator is negative on
    [(x, y)], and equal elements keep their order. *)
Fixpoint insertSorted {A} (before : A -> A -> bool) (x : A) (l : list A) : list A :=
  match l with
  | [] => [x]
  | y :: r => if before y x then y :: insertSorted before x r else x :: y :: r
  end.

Definition sortBy {A} (before : A -> A -> bool) (l : list A) : list A :=
  foldr (insertSorted before) [] l.

(** ** Records of types.ts *)

Module RagChunk.
Record t := {
  id : string;
  filePath : string;
  modifiedAt : float;
  content : string;
  embedding : list float;
  symbols : option (list CodeSymbol)
}.
End RagChunk.

Module RagFileState.
Record t := {
  modifiedAt : float;
  size : float;
  contentHash : string;
  chunkIds : list string
}.
End RagFileState.

Module CandidateFile.
Record t := {
  relativePath : string;
  fullPath : string;
  modifiedAt : float;
  size : float
}.
End CandidateFile.

Module LshAnnIndex.
Record t := {
  dimensions : nat;
  projection : list (list float);
  buckets : JsMap.t (list string)
}.
End LshAnnIndex.

(** ** defaults.ts *)

Module Defaults.
Definition CHUNK_SIZE : Z := 1200.
Definition CHUNK_OVERLAP : Z := 200.
Definition EMBED_BATCH_SIZE : float := 16%float.
Definition FILE_EMBED_CONCURRENCY : float := 2%float.
Definition TOP_K : Z := 6.
Definition QUERY_CACHE_TTL_MS : Z := 10 * 60 * 1000.
Definition QUERY_EMBED_CACHE_MAX : Z := 128.
Definition QUERY_RESULT_CACHE_MAX : Z := 64.
Definition QUERY_RESULT_CACHE_TOP_K : Z := 24.
Definition ANN_PROJECTION_DIM : Z := 16.
Definition ANN_MAX_HAMMING_DISTANCE : Z := 3.
Definition ANN_FALLBACK_MIN_CANDIDATES : Z := 32.
Definition ANN_MAX_RERANK_CANDIDATES : Z := 1200.
Definition RAG_STORAGE_DIR : string := ".rag-ts".
Definition RAG_DB_FILE : string := ".rag-db".
Definition RAG_INDEX_FILE : string := ".rag-index".
Definition RAG_DB_VERSION : float := 1%float.
Definition RAG_INDEX_VERSION : float := 1%float.
Definition DEFAULT_SKIP_FOLDERS : list string :=
  ["node_modules"; ".git"; "dist"; "build"; ".next"; "coverage"; "__pycache__"; ".venv";
   ".rag-ts"].
Definition DEFAULT_INCLUDE_EXTENSIONS : list string :=
  [".json"; ".css"; ".scss"; ".py"; ".pyi"; ".pyw"; ".go"; ".js"; ".mjs"; ".cjs"; ".jsx";
   ".ts"; ".mts"; ".cts"; ".tsx"; ".cpp"; ".hpp"; ".cc"; ".hh"; ".cxx"; ".hxx"; ".h";
   ".html"; ".htm"; ".md"; ".markdown"; ".mdx"; ".yaml"; ".yml"; ".xml"; ".xsd"; ".xsl";
   ".xslt"; ".svg"; ".java"; ".cs"; ".csx"; ".rs"; ".rb"; ".rake"; ".gemspec"; ".php";
   ".phtml"; ".php8"; ".kt"; ".kts"; ".swift"; ".sh"; ".bash"; ".zsh"; ".ksh"; ".sql";
   ".toml"].
End Defaults.

(** ** vector/similarity.ts *)

(** The accumulation loop of [cosineSimilarity]; the lists have equal
    lengths when it runs. *)
Fixpoint cosineSums (a b : list float) (dot normA normB : float)
  : float * float * float :=
  match a, b with
  | x :: a', y :: b' =>
      cosineSums a' b' (PrimFloat.add dot (PrimFloat.mul x y))
        (PrimFloat.add normA (PrimFloat.mul x x))
        (PrimFloat.add normB (PrimFloat.mul y y))
  | _, _ => (dot, normA, normB)
  end.

Definition cosineSimilarity (a b : list float) : float :=
  if bool_decide (length a = 0%nat) || bool_decide (length b = 0%nat)
     || negb (bool_decide (length a = length b))
  then (-1)%float
  else
    let '(dot, normA, normB) := cosineSums a b 0%float 0%float 0%float in
    if PrimFloat.eqb normA 0%float || PrimFloat.eqb normB 0%float then (-1)%float
    else PrimFloat.div dot (PrimFloat.mul (PrimFloat.sqrt normA) (PrimFloat.sqrt normB)).

(** ** vector/lsh.ts *)

Module Lsh.

(** *** Mulberry32

    The generator state [t] is a JavaScript number that only grows by
    [0x6d2b79f5] per draw; it is an exact integer while below 2^53, and is
    modelled as [Z].  The 32-bit operators first wrap their operands. *)
Definition toUint32 (z : Z) : Z := z mod 2 ^ 32.
Definition toInt32 (z : Z) : Z :=
  let u := z mod 2 ^ 32 in if u <? 2 ^ 31 then u else u - 2 ^ 32.
Definition imul (a b : Z) : Z := toInt32 (toInt32 a * toInt32 b).
Definition xor32 (a b : Z) : Z := Z.lxor (toInt32 a) (toInt32 b).
Definition or32 (a b : Z) : Z := Z.lor (toInt32 a) (toInt32 b).
Definition ushr (a n : Z) : Z := Z.shiftr (toUint32 a) n.

(** One call of the closure [mulberry32(seed)] returns: the new state and
    the draw, an integer in [0, 2^32) still to be divided by 2^32. *)
Definition mulberry32 (t : Z) : Z * Z :=
  let t' := t + 1831565813 in
  let x1 := imul (xor32 t' (ushr t' 15)) (or32 1 t') in
  let x2 := xor32 x1 (x1 + imul (xor32 x1 (ushr x1 7)) (or32 61 x1)) in
  (t', toUint32 (xor32 x2 (ushr x2 14))).

Definition floatOfZ (z : Z) : float := PrimFloat.of_uint63 (Uint63.of_Z z).

(** [rand() * 2 - 1] *)
Definition entryOf (draw : Z) : float :=
  PrimFloat.sub
    (PrimFloat.mul (PrimFloat.div (floatOfZ draw) 4294967296%float) 2%float)
    1%float.

Fixpoint projectionRow (n : nat) (t : Z) : list float * Z :=
  match n with
  | O => ([], t)
  | S n' =>
      let '(t', draw) := mulberry32 t in
      let '(row, t'') := projectionRow n' t' in
      (entryOf draw :: row, t'')
  end.

Fixpoint projectionRows (rows : nat) (dimensions : nat) (t : Z) : list (list float) :=
  match rows with
  | O => []
  | S rows' =>
      let '(row, t') := projectionRow dimensions t in
      row :: projectionRows rows' dimensions t'
  end.

Definition createProjection (dimensions : nat) (projectionDim : Z) : list (list float) :=
  projectionRows (Z.to_nat projectionDim) dimensions
    (Z.of_nat dimensions * 73856093 + projectionDim * 19349663).

(** [row[i]] past the end of a row is [undefined], which multiplies to NaN. *)
Fixpoint dotRow (embedding row : list float) (dot : float) : float :=
  match embedding with
  | [] => dot
  | x :: e' =>
      dotRow e' (tl row)
        (PrimFloat.add dot (PrimFloat.mul x (match row with y :: _ => y | [] => PrimFloat.nan end)))
  end.

Definition signatureForEmbedding (embedding : list float) (projection : list (list float))
  : list ascii :=
  map (fun row => if PrimFloat.leb 0%float (dotRow embedding row 0%float)
                  then "1"%char else "0"%char) projection.

Definition MAX_SAFE_INTEGER : Z := 9007199254740991.

Fixpoint countDiff (a b : list ascii) : Z :=
  match a, b with
  | x :: a', y :: b' => (if Ascii.eqb x y then 0 else 1) + countDiff a' b'
  | _, _ => 0
  end.

Definition hammingDistance (a b : list ascii) : Z :=
  if bool_decide (length a = length b) then countDiff a b else MAX_SAFE_INTEGER.

(** [flipSignatureBits]; its callers only pass indices below the length. *)
Definition flipSignatureBits (signature : list ascii) (indices : list nat) : list ascii :=
  foldl (fun chars index =>
           <[index := if match chars !! index with
                         | Some c => Ascii.eqb c "1"%char
                         | None => false
                         end then "0"%char else "1"%char]> chars)
        signature indices.

(** A [Set] of signatures in insertion order. *)
Definition addVariant (v : list ascii) (variants : list (list ascii)) : list (list ascii) :=
  if bool_decide (v ∈ variants) then variants else variants ++ [v].

Definition buildNearbySignatures (signature : list ascii) (maxDistance : Z)
  : list (list ascii) :=
  let len := length signature in
  let v0 := [signature] in
  let v1 :=
    if 1 <=? maxDistance
    then foldl (fun vs i => addVariant (flipSignatureBits signature [i]) vs) v0 (seq 0 len)
    else v0 in
  if 2 <=? maxDistance
  then foldl (fun vs i =>
                foldl (fun vs j => addVariant (flipSignatureBits signature [i; j]) vs)
                      vs (seq (S i) (len - S i)))
             v1 (seq 0 len)
  else v1.

Record t := {
  projectionDim : Z;
  maxHammingDistance : Z;
  fallbackMinCandidates : Z;
  maxRerankCandidates : Z
}.

(** [new LshIndex()] *)
Definition default : t := {|
  projectionDim := Defaults.ANN_PROJECTION_DIM;
  maxHammingDistance := Defaults.ANN_MAX_HAMMING_DISTANCE;
  fallbackMinCandidates := Defaults.ANN_FALLBACK_MIN_CANDIDATES;
  maxRerankCandidates := Defaults.ANN_MAX_RERANK_CANDIDATES
|}.

(** [build(chunks)]; [None] is [undefined]. *)
Definition build (lsh : t) (chunks : JsMap.t RagChunk.t) : option LshAnnIndex.t :=
  match JsMap.values chunks with
  | [] => None
  | firstChunk :: _ =>
      if bool_decide (length (RagChunk.embedding firstChunk) = 0%nat) then None
      else
        let dimensions := length (RagChunk.embedding firstChunk) in
        let projection := createProjection dimensions (projectionDim lsh) in
        let buckets :=
          foldl (fun buckets chunk =>
                   if bool_decide (length (RagChunk.embedding chunk) = dimensions) then
                     let signature :=
                       Js.str (signatureForEmbedding (RagChunk.embedding chunk) projection) in
                     match JsMap.get signature buckets with
                     | Some existing =>
                         JsMap.set signature (existing ++ [RagChunk.id chunk]) buckets
                     | None => JsMap.set signature [RagChunk.id chunk] buckets
                     end
                   else buckets)
                JsMap.empty (JsMap.values chunks) in
        Some {| LshAnnIndex.dimensions := dimensions;
                LshAnnIndex.projection := projection;
                LshAnnIndex.buckets := buckets |}
  end.

(** The inner loop over one bucket: add ids until the set is full. *)
Fixpoint addIds (lsh : t) (ids : list string) (cands : JsSet.t) : JsSet.t :=
  match ids with
  | [] => cands
  | i :: rest =>
      let cands' := JsSet.add i cands in
      if maxRerankCandidates lsh <=? Z.of_nat (JsSet.size cands') then cands'
      else addIds lsh rest cands'
  end.

(** The outer loop over the nearby signatures. *)
Fixpoint gather (lsh : t) (index : LshAnnIndex.t) (querySignature : list ascii)
    (nearby : list (list ascii)) (cands : JsSet.t) : JsSet.t :=
  match nearby with
  | [] => cands
  | candidateSignature :: rest =>
      if maxHammingDistance lsh <? hammingDistance querySignature candidateSignature
      then gather lsh index querySignature rest cands
      else
        match JsMap.get (Js.str candidateSignature) (LshAnnIndex.buckets index) with
        | None => gather lsh index querySignature rest cands
        | Some ids =>
            let cands' := addIds lsh ids cands in
            if maxRerankCandidates lsh <=? Z.of_nat (JsSet.size cands') then cands'
            else gather lsh index querySignature rest cands'
        end
  end.

(** The candidate set [candidatesById] that [query] collects. *)
Definition candidateIds (lsh : t) (index : LshAnnIndex.t) (queryEmbedding : list float)
  : JsSet.t :=
  let querySignature := signatureForEmbedding queryEmbedding (LshAnnIndex.projection index) in
  let nearby := buildNearbySignatures querySignature (maxHammingDistance lsh) in
  gather lsh index querySignature nearby [].

(** [query]; [None] is JavaScript's [null]. *)
Definition query (lsh : t) (index : LshAnnIndex.t) (queryEmbedding : list float)
    (chunks : JsMap.t RagChunk.t) : option (list RagChunk.t) :=
  if negb (bool_decide (LshAnnIndex.dimensions index = length queryEmbedding)) then None
  else
    let candidatesById := candidateIds lsh index queryEmbedding in
    if Z.of_nat (JsSet.size candidatesById) <? fallbackMinCandidates lsh then None
    else Some (omap (fun i => JsMap.get i chunks) candidatesById).

(** [rank(candidates, queryEmbedding, topK)] *)
Definition rank (candidates : list RagChunk.t) (queryEmbedding : list float) (topK : Z)
  : list (RagChunk.t * float) :=
  Js.slice
    (sortBy (fun a b => PrimFloat.ltb (PrimFloat.sub b.2 a.2) 0%float)
       (filter (fun item => PrimFloat.ltb 0%float item.2 = true)
          (map (fun c => (c, cosineSimilarity queryEmbedding (RagChunk.embedding c)))
               candidates)))
    0 topK.

End Lsh.

(** ** Thrown values *)

(** What a [throw] can carry: a [DOMException] (an [Error] with a name), any
    other [Error], or a value that is no [Error] at all. *)
Inductive Exn :=
| DOMException (name message : string)
| Error (message : string)
| Thrown (value : string).

(** ** LruCache (cache/lru-cache.ts) *)

Module LruCache.

Record entry (V : Type) := { value : V; createdAt : float }.
Arguments value {V}.
Arguments createdAt {V}.

Record t (V : Type) := {
  cache : JsMap.t (entry V);
  maxEntries : Z;
  ttlMs : float
}.
Arguments cache {V}.
Arguments maxEntries {V}.
Arguments ttlMs {V}.

Definition create {V} (maxEntries : Z) (ttlMs : float) : t V :=
  {| cache := JsMap.empty; maxEntries := maxEntries; ttlMs := ttlMs |}.

Definition withCache {V} (c : t V) (m : JsMap.t (entry V)) : t V :=
  {| cache := m; maxEntries := maxEntries c; ttlMs := ttlMs c |}.

(** [get(key)] at clock reading [now]: a stale entry is deleted. *)
Definition get {V} (now : float) (key : string) (c : t V) : option V * t V :=
  match JsMap.get key (cache c) with
  | None => (None, c)
  | Some e =>
      if PrimFloat.ltb 0%float (ttlMs c)
         && PrimFloat.ltb (ttlMs c) (PrimFloat.sub now (createdAt e))
      then (None, withCache c (JsMap.delete key (cache c)))
      else (Some (value e), c)
  end.

(** [evict()].  The flag tells whether it threw: with more entries to
    remove than there are (a negative [maxEntries]) the loop deletes every
    entry and then reads past the sorted array, a [TypeError]. *)
Definition evict {V} (c : t V) : bool * t V :=
  let size := Z.of_nat (JsMap.size (cache c)) in
  if size <=? maxEntries c then (false, c)
  else
    let entries :=
      sortBy (fun a b => PrimFloat.ltb (PrimFloat.sub (createdAt a.2) (createdAt b.2)) 0%float)
             (cache c) in
    let toRemove := size - maxEntries c in
    (size <? toRemove,
     withCache c (foldl (fun m e => JsMap.delete e.1 m) (cache c)
                        (take (Z.to_nat toRemove) entries))).

(** [set(key, value)] at clock reading [now]. *)
Definition set {V} (now : float) (key : string) (v : V) (c : t V) : bool * t V :=
  evict (withCache c (JsMap.set key {| value := v; createdAt := now |} (cache c))).

Definition has {V} (now : float) (key : string) (c : t V) : bool * t V :=
  let '(r, c') := get now key c in
  (match r with Some _ => true | None => false end, c').

Definition delete {V} (key : string) (c : t V) : bool * t V :=
  (JsMap.has key (cache c), withCache c (JsMap.delete key (cache c))).

Definition clear {V} (c : t V) : t V := withCache c JsMap.empty.

Definition size {V} (c : t V) : nat := JsMap.size (cache c).

End LruCache.

(** ** Status and folder cache (types.ts) *)

Inductive RagPhase := PhaseIdle | PhaseScanning | PhaseEmbedding | PhaseReady | PhaseError.

Module RagStatus.
Record t := {
  folderPath : string;
  enabled : bool;
  phase : RagPhase;
  totalFiles : nat;
  filesToEmbed : nat;
  embeddedFiles : nat;
  skippedUnchanged : nat;
  totalChunks : nat;
  dbSizeBytes : nat;
  lastIndexedAt : option float;
  fileChangeDrift : nat;
  driftAddedFiles : nat;
  driftModifiedFiles : nat;
  driftDeletedFiles : nat;
  driftCheckedAt : option float;
  message : option string
}.
End RagStatus.

Module RagFolderConfig.
Record t := {
  enabled : bool;
  includeExtensions : list string;
  excludeFolders : list string
}.
End RagFolderConfig.

Module CachedQueryEmbedding.
Record t := { embedding : list float; createdAt : float }.
End CachedQueryEmbedding.

Module CachedQueryResult.
Record t := { chunkIds : list string; scores : list float; createdAt : float; revision : nat }.
End CachedQueryResult.

(** The promise fields [runningIndex] and [runningHealthRefresh] are absent:
    operations are modelled one at a time, so both are [undefined] whenever
    one starts. *)
Module FolderCache.
Record t := {
  folderPath : string;
  storagePath : option string;
  config : RagFolderConfig.t;
  status : RagStatus.t;
  chunks : JsMap.t RagChunk.t;
  fileStates : JsMap.t RagFileState.t;
  persistedLoaded : bool;
  queryEmbeddingCache : JsMap.t CachedQueryEmbedding.t;
  queryResultCache : JsMap.t CachedQueryResult.t;
  indexRevision : nat;
  annIndex : option LshAnnIndex.t
}.
End FolderCache.

(** ** CodebaseSearcher (search/searcher.ts) *)

Module CodebaseSearcher.

Definition normalizeQuery (value : string) : string :=
  Js.str (Js.toLowerCase (Js.collapseWhiteSpace false (Js.trim (Js.chars value)))).

Record CachedRanking := {
  chunkIds : list string;
  scores : list float;
  revision : nat
}.

(** The searcher's own state: its two LRU caches.  They are keyed by the
    normalized query alone and shared by every folder searched. *)
Record t := {
  embeddingCache : LruCache.t (list float);
  resultCache : LruCache.t CachedRanking
}.

Definition create : t := {|
  embeddingCache := LruCache.create Defaults.QUERY_EMBED_CACHE_MAX 600000%float;
  resultCache := LruCache.create Defaults.QUERY_RESULT_CACHE_MAX 600000%float
|}.

Record Ranked := { chunk : RagChunk.t; score : float }.

(** The embedding provider as this query meets it: its reply to one call. *)
Definition EmbedReply : Type := Exn + list (list float).

(** A step of the searcher: the value returned or the value thrown, and the
    state left behind either way. *)
Definition Step (A : Type) : Type := (Exn + A) * t.

Definition TypeError : Exn := Error "Cannot read properties of undefined".

(** [getQueryEmbedding(queryKey, query)] *)
Definition getQueryEmbedding (s : t) (embed : list string -> EmbedReply) (now : float)
    (queryKey query : string) : Step (option (list float)) :=
  let '(cached, ec) := LruCache.get now queryKey (embeddingCache s) in
  let s1 := {| embeddingCache := ec; resultCache := resultCache s |} in
  match cached with
  | Some e => (inr (Some e), s1)
  | None =>
      match embed [query] with
      | inl err => (inl err, s1)
      | inr [] => (inr None, s1)
      | inr (embedded :: _) =>
          let '(threw, ec') := LruCache.set now queryKey embedded ec in
          let s2 := {| embeddingCache := ec'; resultCache := resultCache s |} in
          if threw then (inl TypeError, s2) else (inr (Some embedded), s2)
      end
  end.

(** The rerank pool: the ANN candidates, or every chunk when there is no
    index or the index answers [null]. *)
Definition searchPool (cache : FolderCache.t) (queryEmbedding : list float)
  : list RagChunk.t :=
  let annCandidates :=
    match FolderCache.annIndex cache with
    | Some index => Lsh.query Lsh.default index queryEmbedding (FolderCache.chunks cache)
    | None => None
    end in
  match annCandidates with
  | Some pool => pool
  | None => JsMap.values (FolderCache.chunks cache)
  end.

(** [.map(score).filter(score > 0).sort(descending)] *)
Definition rankPool (queryEmbedding : list float) (pool : list RagChunk.t) : list Ranked :=
  sortBy (fun a b => PrimFloat.ltb (PrimFloat.sub (score b) (score a)) 0%float)
    (filter (fun item => PrimFloat.ltb 0%float (score item) = true)
       (map (fun c => {| chunk := c;
                         score := cosineSimilarity queryEmbedding (RagChunk.embedding c) |})
            pool)).

(** The loop that rebuilds a ranking from a cached entry; a missing score is
    [undefined], read as NaN. *)
Definition materialize (cache : FolderCache.t) (cr : CachedRanking) (topK : Z) : list Ranked :=
  omap (fun i =>
          match chunkIds cr !! i with
          | Some cid =>
              match JsMap.get cid (FolderCache.chunks cache) with
              | Some c => Some {| chunk := c;
                                  score := default PrimFloat.nan (scores cr !! i) |}
              | None => None
              end
          | None => None
          end)
       (seq 0 (Z.to_nat (Z.min topK (Z.of_nat (length (chunkIds cr)))))).

(** The guard in front of the result cache. *)
Definition cacheUsable (cache : FolderCache.t) (cr : CachedRanking) (topK : Z) : bool :=
  bool_decide (revision cr = FolderCache.indexRevision cache)
  && (topK <=? Z.of_nat (length (chunkIds cr))).

(** The part of [getRankedChunks] after the result-cache check: embed the
    query, rank the pool, store the top of the ranking under the current
    revision, return the first [topK]. *)
Definition computeRanked (s : t) (embed : list string -> EmbedReply) (now : float)
    (cache : FolderCache.t) (queryKey rawQuery : string) (topK : Z) : Step (list Ranked) :=
  match getQueryEmbedding s embed now queryKey (Js.strTrim rawQuery) with
  | (inl err, s2) => (inl err, s2)
  | (inr None, s2) => (inr [], s2)
  | (inr (Some queryEmbedding), s2) =>
      let cacheTopK := Z.max topK Defaults.QUERY_RESULT_CACHE_TOP_K in
      let ranked :=
        Js.slice (rankPool queryEmbedding (searchPool cache queryEmbedding)) 0 cacheTopK in
      let '(threw, rc) :=
        LruCache.set now queryKey
          {| chunkIds := map (fun item => RagChunk.id (chunk item)) ranked;
             scores := map score ranked;
             revision := FolderCache.indexRevision cache |}
          (resultCache s2) in
      let s3 := {| embeddingCache := embeddingCache s2; resultCache := rc |} in
      if threw then (inl TypeError, s3) else (inr (Js.slice ranked 0 topK), s3)
  end.

(** [getRankedChunks(cache, rawQuery, topK)] *)
Definition getRankedChunks (s : t) (embed : list string -> EmbedReply) (now : float)
    (cache : FolderCache.t) (rawQuery : string) (topK : Z) : Step (list Ranked) :=
  let queryKey := normalizeQuery rawQuery in
  if bool_decide (queryKey = "") then (inr [], s)
  else
    let '(cachedResult, rc) := LruCache.get now queryKey (resultCache s) in
    let s1 := {| embeddingCache := embeddingCache s; resultCache := rc |} in
    match cachedResult with
    | Some cr =>
        if cacheUsable cache cr topK then (inr (materialize cache cr topK), s1)
        else computeRanked s1 embed now cache queryKey rawQuery topK
    | None => computeRanked s1 embed now cache queryKey rawQuery topK
    end.

Record RagSearchMatch := {
  match_filePath : string;
  match_score : float;
  match_content : string
}.

Record RagSearchResult := {
  result_folderPath : string;
  result_query : string;
  result_durationMs : float;
  result_totalChunks : nat;
  matches : list RagSearchMatch
}.

(** The two readings of [performance.now()] in a call of [search]. *)
Record Platform := {
  startedAt : float;
  finishedAt : float
}.

Definition duration (p : Platform) : float :=
  PrimFloat.div
    (Js.mathRound (PrimFloat.mul (PrimFloat.sub (finishedAt p) (startedAt p)) 100%float))
    100%float.

Definition emptyResult (p : Platform) (cache : FolderCache.t) (query : string)
  : RagSearchResult :=
  {| result_folderPath := FolderCache.folderPath cache;
     result_query := query;
     result_durationMs := duration p;
     result_totalChunks := JsMap.size (FolderCache.chunks cache);
     matches := [] |}.

(** [search(folderPath, query, options)], from the folder cache that
    [indexer.ensureLoaded(folderPath)] returned. *)
Definition search (p : Platform) (s : t) (embed : list string -> EmbedReply) (now : float)
    (cache : FolderCache.t) (query : string) (topKOption : option Z) : Step RagSearchResult :=
  let topK := default Defaults.TOP_K topKOption in
  if negb (RagFolderConfig.enabled (FolderCache.config cache))
     || bool_decide (JsMap.size (FolderCache.chunks cache) = 0%nat)
  then (inr (emptyResult p cache query), s)
  else
    let trimmedQuery := Js.strTrim query in
    if bool_decide (trimmedQuery = "") then (inr (emptyResult p cache query), s)
    else
      match getRankedChunks s embed now cache trimmedQuery (Z.max 1 topK) with
      | (inl err, s') => (inl err, s')
      | (inr ranked, s') =>
          (inr {| result_folderPath := FolderCache.folderPath cache;
                  result_query := query;
                  result_durationMs := duration p;
                  result_totalChunks := JsMap.size (FolderCache.chunks cache);
                  matches :=
                    map (fun item =>
                           {| match_filePath := RagChunk.filePath (chunk item);
                              match_score :=
                                PrimFloat.div
                                  (Js.mathRound (PrimFloat.mul (score item) 1000%float))
                                  1000%float;
                              match_content := RagChunk.content (chunk item) |})
                        ranked |},
           s')
      end.

(** [lines.join("\n")] *)
Fixpoint joinLines (lines : list string) : string :=
  match lines with
  | [] => ""
  | [l] => l
  | l :: rest => l +:+ String Js.LF (joinLines rest)
  end.

(** [getContextForQuery(folderPath, query)], from the loaded folder cache. *)
Definition getContextForQuery (s : t) (embed : list string -> EmbedReply) (now : float)
    (cache : FolderCache.t) (query : string) : Step string :=
  if negb (RagFolderConfig.enabled (FolderCache.config cache))
     || bool_decide (JsMap.size (FolderCache.chunks cache) = 0%nat)
     || bool_decide (Js.strTrim query = "")
  then (inr "", s)
  else
    match getRankedChunks s embed now cache query Defaults.TOP_K with
    | (inl err, s') => (inl err, s')
    | (inr [], s') => (inr "", s')
    | (inr ranked, s') =>
        let lines :=
          ["## RAG Context (project files)";
           "Use the following snippets as additional project context when relevant:";
           ""]
          ++ concat (map (fun item =>
                            ["### " +:+ RagChunk.filePath (chunk item);
                             RagChunk.content (chunk item);
                             ""]) ranked) in
        (inr (Js.strTrim (joinLines lines)), s')
    end.

End CodebaseSearcher.

(** The searcher state with the result-cache entry of [key] removed. *)
Definition forgetResult (key : string) (s : CodebaseSearcher.t) : CodebaseSearcher.t :=
  {| CodebaseSearcher.embeddingCache := CodebaseSearcher.embeddingCache s;
     CodebaseSearcher.resultCache :=
       LruCache.withCache (CodebaseSearcher.resultCache s)
         (JsMap.delete key (LruCache.cache (CodebaseSearcher.resultCache s))) |}.

(** ** Fixtures of the repository's test suite (tests/vector/vector.test.ts) *)

Module Tests.

Definition chunkOf (id file content : string) (embedding : list float) : RagChunk.t :=
  {| RagChunk.id := id; RagChunk.filePath := file; RagChunk.modifiedAt := 1%float;
     RagChunk.content := content; RagChunk.embedding := embedding;
     RagChunk.symbols := None |}.

(** "falls back when dimensions mismatch or candidate count too low" *)
Definition xChunks : JsMap.t RagChunk.t :=
  [("x", chunkOf "x" "x.ts" "X" [1%float; 2%float])].

Definition strict : Lsh.t :=
  {| Lsh.projectionDim := 6; Lsh.maxHammingDistance := 0;
     Lsh.fallbackMinCandidates := 2;
     Lsh.maxRerankCandidates := Defaults.ANN_MAX_RERANK_CANDIDATES |}.

Definition emptyIndex : LshAnnIndex.t :=
  {| LshAnnIndex.dimensions := 0; LshAnnIndex.projection := [];
     LshAnnIndex.buckets := JsMap.empty |}.

Definition strictIndex : LshAnnIndex.t :=
  Eval vm_compute in default emptyIndex (Lsh.build strict xChunks).

Definition defaultIndex : LshAnnIndex.t :=
  Eval vm_compute in default emptyIndex (Lsh.build Lsh.default xChunks).

Definition idleStatus (folderPath : string) : RagStatus.t :=
  {| RagStatus.folderPath := folderPath; RagStatus.enabled := false;
     RagStatus.phase := PhaseIdle; RagStatus.totalFiles := 0;
     RagStatus.filesToEmbed := 0; RagStatus.embeddedFiles := 0;
     RagStatus.skippedUnchanged := 0; RagStatus.totalChunks := 0;
     RagStatus.dbSizeBytes := 0; RagStatus.lastIndexedAt := None;
     RagStatus.fileChangeDrift := 0; RagStatus.driftAddedFiles := 0;
     RagStatus.driftModifiedFiles := 0; RagStatus.driftDeletedFiles := 0;
     RagStatus.driftCheckedAt := None; RagStatus.message := None |}.

(** An enabled, loaded folder cache holding [chunks] at [revision]. *)
Definition folderOf (folderPath : string) (chunks : JsMap.t RagChunk.t) (revision : nat)
    (annIndex : option LshAnnIndex.t) : FolderCache.t :=
  {| FolderCache.folderPath := folderPath;
     FolderCache.storagePath := None;
     FolderCache.config :=
       {| RagFolderConfig.enabled := true;
          RagFolderConfig.includeExtensions := [".md"];
          RagFolderConfig.excludeFolders := [] |};
     FolderCache.status := idleStatus folderPath;
     FolderCache.chunks := chunks;
     FolderCache.fileStates := JsMap.empty;
     FolderCache.persistedLoaded := true;
     FolderCache.queryEmbeddingCache := JsMap.empty;
     FolderCache.queryResultCache := JsMap.empty;
     FolderCache.indexRevision := revision;
     FolderCache.annIndex := annIndex |}.

Definition xFolder : FolderCache.t := folderOf "/x" xChunks 1 (Some defaultIndex).

End Tests.

(** ** JSON documents *)

Inductive JSON :=
| JNull
| JBool (b : bool)
| JNum (n : float)
| JStr (s : string)
| JArr (items : list JSON)
| JObj (fields : list (string * JSON)).

Module Json.

(** How [JSON.stringify] writes a number: a finite one as itself (negative
    zero as [0]), anything else as [null]. *)
Definition ofNumber (n : float) : JSON :=
  if is_finite n then JNum (if PrimFloat.eqb n 0%float then 0%float else n) else JNull.

(** A number that [JSON.stringify] and [JSON.parse] give back unchanged. *)
Definition stable (n : float) : Prop := ofNumber n = JNum n.

(** What [JSON.parse] reads of what [JSON.stringify] wrote for a finite
    number: the number, a negative zero as zero. *)
Definition reread (n : float) : float :=
  if PrimFloat.eqb n 0%float then 0%float else n.

(** Property order of an object: integer-like keys first, ascending, then the
    other keys in insertion order. *)
Fixpoint parseDigits (l : list ascii) (acc : N) : option N :=
  match l with
  | [] => Some acc
  | c :: t =>
      let d := N_of_ascii c in
      if ((48 <=? d)%N && (d <=? 57)%N)%bool then parseDigits t (acc * 10 + (d - 48))%N
      else None
  end.

Definition arrayIndex (key : string) : option N :=
  match Js.chars key with
  | [] => None
  | l =>
      match parseDigits l 0%N with
      | Some n =>
          if ((n <? 4294967295)%N && bool_decide (pretty n = key))%bool then Some n else None
      | None => None
      end
  end.

Definition propertyOrder {V} (fields : list (string * V)) : list (string * V) :=
  sortBy (fun a b =>
            match arrayIndex a.1, arrayIndex b.1 with
            | Some x, Some y => (x <? y)%N
            | _, _ => false
            end)
         (filter (fun e => is_Some (arrayIndex e.1)) fields)
  ++ filter (fun e => ~ is_Some (arrayIndex e.1)) fields.

(** [Object.fromEntries(map.entries())] *)
Definition fromEntries {V} (entries : list (string * V)) : list (string * V) :=
  propertyOrder (foldl (fun o e => JsMap.set e.1 e.2 o) [] entries).

(** Property access on a parsed value; [None] is [undefined]. *)
Definition field (name : string) (j : JSON) : option JSON :=
  match j with
  | JObj fields => JsMap.get name fields
  | _ => None
  end.

(** Values read at their declared TypeScript type.  The loader does not
    check these; a document that breaks the declared type is outside the
    persisted schema, and is read here through [ToString]-free defaults:
    a string field as [""], a number through [null -> 0], else NaN. *)
Definition asString (j : option JSON) : string :=
  match j with Some (JStr s) => s | _ => "" end.

Definition asNumber (j : option JSON) : float :=
  match j with
  | Some (JNum n) => n
  | Some JNull => 0%float
  | _ => PrimFloat.nan
  end.

Definition ofPosition (p : Position) : JSON :=
  JObj [("line", ofNumber (line p)); ("column", ofNumber (column p));
        ("offset", ofNumber (offset p))].

Definition ofRange (r : Range) : JSON :=
  JObj [("start", ofPosition (rstart r)); ("end", ofPosition (rend r))].

Definition kindName (k : SymbolKind) : string :=
  match k with
  | KFunction => "function" | KClass => "class" | KMethod => "method"
  | KInterface => "interface" | KType => "type" | KEnum => "enum"
  | KModule => "module" | KVariable => "variable" | KImport => "import"
  | KExport => "export" | KOther => "other"
  end.

Definition kindOfName (s : string) : SymbolKind :=
  if bool_decide (s = "function") then KFunction
  else if bool_decide (s = "class") then KClass
  else if bool_decide (s = "method") then KMethod
  else if bool_decide (s = "interface") then KInterface
  else if bool_decide (s = "type") then KType
  else if bool_decide (s = "enum") then KEnum
  else if bool_decide (s = "module") then KModule
  else if bool_decide (s = "variable") then KVariable
  else if bool_decide (s = "import") then KImport
  else if bool_decide (s = "export") then KExport
  else KOther.

Definition ofSymbol (s : CodeSymbol) : JSON :=
  JObj [("name", JStr (sym_name s)); ("kind", JStr (kindName (sym_kind s)));
        ("nameRange", ofRange (nameRange s)); ("contentRange", ofRange (contentRange s))].

Definition toPosition (j : option JSON) : Position :=
  {| line := asNumber (j ≫= field "line");
     column := asNumber (j ≫= field "column");
     offset := asNumber (j ≫= field "offset") |}.

Definition toRange (j : option JSON) : Range :=
  {| rstart := toPosition (j ≫= field "start"); rend := toPosition (j ≫= field "end") |}.

Definition toSymbol (j : JSON) : CodeSymbol :=
  {| sym_name := asString (field "name" j);
     sym_kind := kindOfName (asString (field "kind" j));
     nameRange := toRange (field "nameRange" j);
     contentRange := toRange (field "contentRange" j) |}.

(** A chunk as [JSON.stringify] writes it: an absent [symbols] is left out. *)
Definition ofChunk (c : RagChunk.t) : JSON :=
  JObj ([("id", JStr (RagChunk.id c));
         ("filePath", JStr (RagChunk.filePath c));
         ("modifiedAt", ofNumber (RagChunk.modifiedAt c));
         ("content", JStr (RagChunk.content c));
         ("embedding", JArr (map ofNumber (RagChunk.embedding c)))]
        ++ match RagChunk.symbols c with
           | Some syms => [("symbols", JArr (map ofSymbol syms))]
           | None => []
           end).

Definition ofFileState (s : RagFileState.t) : JSON :=
  JObj [("modifiedAt", ofNumber (RagFileState.modifiedAt s));
        ("size", ofNumber (RagFileState.size s));
        ("contentHash", JStr (RagFileState.contentHash s));
        ("chunkIds", JArr (map JStr (RagFileState.chunkIds s)))].

End Json.

(** ** path.join (Node's [path], on a POSIX system)

    [join] is a built-in of the runtime; this is [path.posix.join] with its
    [normalize]: empty and [.] segments are dropped, a [..] segment takes
    the segment before it away (or stays, in a relative path with nothing
    left to take), a trailing slash is kept. *)

Module Path.

(** What lies between the slashes of a path. *)
Fixpoint segments (path : list ascii) : list (list ascii) :=
  match path with
  | [] => [[]]
  | c :: rest =>
      if Ascii.eqb c "/"%char then [] :: segments rest
      else match segments rest with
           | seg :: more => (c :: seg) :: more
           | [] => [[c]]
           end
  end.

Fixpoint unsegments (segs : list (list ascii)) : list ascii :=
  match segs with
  | [] => []
  | [seg] => seg
  | seg :: more => seg ++ "/"%char :: unsegments more
  end.

Definition dot : list ascii := ["."%char].
Definition dotdot : list ascii := ["."%char; "."%char].

(** One segment met by [normalizeString]; [res] is what was kept so far,
    the last segment first. *)
Definition step (allowAboveRoot : bool) (res : list (list ascii)) (seg : list ascii)
  : list (list ascii) :=
  if bool_decide (seg = [] \/ seg = dot) then res
  else if bool_decide (seg = dotdot) then
    match res with
    | top :: below =>
        if bool_decide (top = dotdot)
        then (if allowAboveRoot then seg :: res else res)
        else below
    | [] => if allowAboveRoot then [seg] else []
    end
  else seg :: res.

Definition normalizeString (path : list ascii) (allowAboveRoot : bool) : list ascii :=
  unsegments (rev (foldl (step allowAboveRoot) [] (segments path))).

(** [path.normalize(path)] *)
Definition normalize (path : list ascii) : list ascii :=
  match path with
  | [] => dot
  | first :: _ =>
      let isAbsolute := Ascii.eqb first "/"%char in
      let trailingSeparator :=
        match last path with Some c => Ascii.eqb c "/"%char | None => false end in
      match normalizeString path (negb isAbsolute) with
      | [] => if isAbsolute then ["/"%char]
              else if trailingSeparator then ["."%char; "/"%char] else dot
      | kept =>
          let kept' := if trailingSeparator then kept ++ ["/"%char] else kept in
          if isAbsolute then "/"%char :: kept' else kept'
      end
  end.

(** [path.join(a, b)]: the arguments that are not empty, joined by a slash
    and normalized; [.] when both are empty. *)
Definition join (a b : string) : string :=
  Js.str (normalize
    (match Js.chars a, Js.chars b with
     | [], l => l
     | l, [] => l
     | la, lb => la ++ "/"%char :: lb
     end)).

End Path.

(** ** Disk storage (storage/disk-storage.ts) *)

(** A file holds text; what matters of it is whether it is empty, and what
    [JSON.parse] makes of it. *)
Inductive FileContent :=
| EmptyFile
| Unparsable
| JsonText (j : JSON).

(** How a [writeFile] ends: the file holds the new text, or the call
    rejects and the file is as it was ([None]) or holds what got written of
    it. *)
Inductive WriteResult :=
| Written
| WriteFailed (e : Exn) (partial : option FileContent).

Module Storage.

(** The files, by the path the program hands to the file system, which is
    always one [path.join] made.  Different strings that name one file
    (through the working directory or a link) are not identified. *)
Abbreviation Disk := (gmap string FileContent).

(** What the file system does with the calls that can fail: [mkdir] and
    [writeFile] by their arguments, and [rm] by the directory: [None] when
    it removes everything, otherwise it rejects and the paths it marks are
    still there. *)
Record FileSystem := {
  mkdir : string -> option Exn;
  writeFile : string -> FileContent -> WriteResult;
  rm : string -> option (string -> bool)
}.

(** A file system on which these calls do not fail. *)
Definition reliable : FileSystem :=
  {| mkdir := fun _ => None; writeFile := fun _ _ => Written; rm := fun _ => None |}.

Record Paths := { ragDir : string; dbPath : string; indexPath : string }.

Definition getPaths (folderPath : string) : Paths :=
  let ragDir := Path.join folderPath Defaults.RAG_STORAGE_DIR in
  {| ragDir := ragDir;
     dbPath := Path.join ragDir Defaults.RAG_DB_FILE;
     indexPath := Path.join ragDir Defaults.RAG_INDEX_FILE |}.

Record LoadResult := {
  chunks : JsMap.t RagChunk.t;
  fileStates : JsMap.t RagFileState.t;
  lastIndexedAt : option float
}.

Definition emptyResult : LoadResult :=
  {| chunks := JsMap.empty; fileStates := JsMap.empty; lastIndexedAt := None |}.

(** [readFile(path, "utf-8").catch(() => "")] *)
Definition readOrEmpty (disk : Disk) (path : string) : FileContent :=
  default EmptyFile (disk !! path).

(** One element of [parsedDb.chunks]: kept when it is an object with a
    truthy [id] and an array [embedding].  (An [id] that is truthy without
    being a string is outside the persisted schema and is dropped here.) *)
Definition loadChunk (j : JSON) : option RagChunk.t :=
  match Json.field "id" j, Json.field "embedding" j with
  | Some (JStr id), Some (JArr embedding) =>
      if bool_decide (id = "") then None
      else Some {| RagChunk.id := id;
                   RagChunk.filePath := Json.asString (Json.field "filePath" j);
                   RagChunk.modifiedAt := Json.asNumber (Json.field "modifiedAt" j);
                   RagChunk.content := Json.asString (Json.field "content" j);
                   RagChunk.embedding := map (fun x => Json.asNumber (Some x)) embedding;
                   RagChunk.symbols :=
                     match Json.field "symbols" j with
                     | Some (JArr syms) => Some (map Json.toSymbol syms)
                     | _ => None
                     end |}
  | _, _ => None
  end.

(** The [if (rawDb)] block.  [None]: it threw ([JSON.parse] on bad text, or
    a property read on [null]). *)
Definition loadDb (raw : FileContent) : option (JsMap.t RagChunk.t) :=
  match raw with
  | EmptyFile => Some JsMap.empty
  | Unparsable => None
  | JsonText JNull => None
  | JsonText parsedDb =>
      match Json.field "version" parsedDb, Json.field "chunks" parsedDb with
      | Some (JNum version), Some (JArr items) =>
          if PrimFloat.eqb version Defaults.RAG_DB_VERSION
          then Some (foldl (fun m j =>
                              match loadChunk j with
                              | Some c => JsMap.set (RagChunk.id c) c m
                              | None => m
                              end) JsMap.empty items)
          else Some JsMap.empty
      | _, _ => Some JsMap.empty
      end
  end.

(** One entry of [parsedIndex.files]. *)
Definition loadFileState (j : JSON) : option RagFileState.t :=
  match Json.field "modifiedAt" j, Json.field "chunkIds" j with
  | Some (JNum modifiedAt), Some (JArr ids) =>
      Some {| RagFileState.modifiedAt := modifiedAt;
              RagFileState.size :=
                match Json.field "size" j with Some (JNum n) => n | _ => (-1)%float end;
              RagFileState.contentHash :=
                match Json.field "contentHash" j with Some (JStr s) => s | _ => "" end;
              RagFileState.chunkIds :=
                omap (fun x => match x with JStr s => Some s | _ => None end) ids |}
  | _, _ => None
  end.

(** [Object.entries(parsedIndex.files)] *)
Definition entriesOf (files : JSON) : option (list (string * JSON)) :=
  match files with
  | JObj fields => Some fields
  | JArr items => Some (imap (fun i x => (pretty i, x)) items)
  | _ => None
  end.

(** The [if (rawIndex)] block. *)
Definition loadIndex (raw : FileContent)
  : option (JsMap.t RagFileState.t * option float) :=
  match raw with
  | EmptyFile => Some (JsMap.empty, None)
  | Unparsable => None
  | JsonText JNull => None
  | JsonText parsedIndex =>
      match Json.field "version" parsedIndex, Json.field "files" parsedIndex ≫= entriesOf with
      | Some (JNum version), Some entries =>
          if PrimFloat.eqb version Defaults.RAG_INDEX_VERSION
          then Some (foldl (fun m e =>
                              match loadFileState e.2 with
                              | Some st => JsMap.set e.1 st m
                              | None => m
                              end) JsMap.empty entries,
                     match Json.field "updatedAt" parsedIndex with
                     | Some (JNum updatedAt) =>
                         if is_finite updatedAt then Some updatedAt else None
                     | _ => None
                     end)
          else Some (JsMap.empty, None)
      | _, _ => Some (JsMap.empty, None)
      end
  end.

(** [loadFromDisk(folderPath)] *)
Definition loadFromDisk (disk : Disk) (folderPath : string) : LoadResult :=
  let paths := getPaths folderPath in
  match loadDb (readOrEmpty disk (dbPath paths)) with
  | None => emptyResult
  | Some chunks =>
      match loadIndex (readOrEmpty disk (indexPath paths)) with
      | None => emptyResult
      | Some (fileStates, lastIndexedAt) =>
          {| chunks := chunks; fileStates := fileStates; lastIndexedAt := lastIndexedAt |}
      end
  end.

Definition dbPayload (chunks : JsMap.t RagChunk.t) : JSON :=
  JObj [("version", Json.ofNumber Defaults.RAG_DB_VERSION);
        ("chunks", JArr (map Json.ofChunk (JsMap.values chunks)))].

Definition indexPayload (now : float) (fileStates : JsMap.t RagFileState.t) : JSON :=
  JObj [("version", Json.ofNumber Defaults.RAG_INDEX_VERSION);
        ("updatedAt", Json.ofNumber now);
        ("files", JObj (Json.fromEntries (prod_map id Json.ofFileState <$> fileStates)))].

(** The file once a [writeFile] of [content] to it has ended. *)
Definition afterWrite (path : string) (content : FileContent) (w : WriteResult)
    (disk : Disk) : Disk :=
  match w with
  | Written => <[path := content]> disk
  | WriteFailed _ (Some partial) => <[path := partial]> disk
  | WriteFailed _ None => disk
  end.

Definition rejection (w : WriteResult) : option Exn :=
  match w with
  | Written => None
  | WriteFailed e _ => Some e
  end.

(** [saveToDisk(folderPath, chunks, fileStates)] at clock reading [now]:
    the exception it rejects with, if any, and the disk once both writes
    have ended.  A failed [mkdir] rejects before anything is written; of the
    two writes, started together, either can fail, and [Promise.all]
    rejects with the first failure (here that of the chunk file when both
    fail). *)
Definition saveToDisk (fs : FileSystem) (disk : Disk) (now : float) (folderPath : string)
    (chunks : JsMap.t RagChunk.t) (fileStates : JsMap.t RagFileState.t)
  : option Exn * Disk :=
  let paths := getPaths folderPath in
  match mkdir fs (ragDir paths) with
  | Some e => (Some e, disk)
  | None =>
      let db := JsonText (dbPayload chunks) in
      let index := JsonText (indexPayload now fileStates) in
      let dbWrite := writeFile fs (dbPath paths) db in
      let indexWrite := writeFile fs (indexPath paths) index in
      (match rejection dbWrite with
       | Some e => Some e
       | None => rejection indexWrite
       end,
       afterWrite (indexPath paths) index indexWrite
         (afterWrite (dbPath paths) db dbWrite disk))
  end.

(** [getDbSizeBytes(folderPath)]; [byteLength] gives the size of a file. *)
Definition getDbSizeBytes (byteLength : FileContent -> nat) (disk : Disk)
    (folderPath : string) : nat :=
  match disk !! dbPath (getPaths folderPath) with
  | Some f => byteLength f
  | None => 0%nat
  end.

(** The path is the directory or lies below it. *)
Definition within (dir path : string) : Prop :=
  path = dir \/ String.prefix (dir +:+ "/") path = true.

(** [clearStorage(folderPath)]: [rm] takes the directory and everything
    below it away; when it rejects, the exception is swallowed and what it
    did not remove stays. *)
Definition clearStorage (fs : FileSystem) (disk : Disk) (folderPath : string) : Disk :=
  let dir := ragDir (getPaths folderPath) in
  match rm fs dir with
  | None => filter (fun e => ~ within dir e.1) disk
  | Some remains => filter (fun e => ~ within dir e.1 \/ remains e.1 = true) disk
  end.

End Storage.

(** ** CodebaseIndexer (indexer/indexer.ts) *)

Module Indexer.

(** *** Field updates *)

Definition setStatus (f : RagStatus.t -> RagStatus.t) (c : FolderCache.t) : FolderCache.t :=
  {| FolderCache.folderPath := FolderCache.folderPath c;
     FolderCache.storagePath := FolderCache.storagePath c;
     FolderCache.config := FolderCache.config c;
     FolderCache.status := f (FolderCache.status c);
     FolderCache.chunks := FolderCache.chunks c;
     FolderCache.fileStates := FolderCache.fileStates c;
     FolderCache.persistedLoaded := FolderCache.persistedLoaded c;
     FolderCache.queryEmbeddingCache := FolderCache.queryEmbeddingCache c;
     FolderCache.queryResultCache := FolderCache.queryResultCache c;
     FolderCache.indexRevision := FolderCache.indexRevision c;
     FolderCache.annIndex := FolderCache.annIndex c |}.

Definition setMaps (chunks : JsMap.t RagChunk.t) (fileStates : JsMap.t RagFileState.t)
    (c : FolderCache.t) : FolderCache.t :=
  {| FolderCache.folderPath := FolderCache.folderPath c;
     FolderCache.storagePath := FolderCache.storagePath c;
     FolderCache.config := FolderCache.config c;
     FolderCache.status := FolderCache.status c;
     FolderCache.chunks := chunks;
     FolderCache.fileStates := fileStates;
     FolderCache.persistedLoaded := FolderCache.persistedLoaded c;
     FolderCache.queryEmbeddingCache := FolderCache.queryEmbeddingCache c;
     FolderCache.queryResultCache := FolderCache.queryResultCache c;
     FolderCache.indexRevision := FolderCache.indexRevision c;
     FolderCache.annIndex := FolderCache.annIndex c |}.

Definition setConfig (config : RagFolderConfig.t) (storagePath : option string)
    (c : FolderCache.t) : FolderCache.t :=
  {| FolderCache.folderPath := FolderCache.folderPath c;
     FolderCache.storagePath := storagePath;
     FolderCache.config := config;
     FolderCache.status := FolderCache.status c;
     FolderCache.chunks := FolderCache.chunks c;
     FolderCache.fileStates := FolderCache.fileStates c;
     FolderCache.persistedLoaded := FolderCache.persistedLoaded c;
     FolderCache.queryEmbeddingCache := FolderCache.queryEmbeddingCache c;
     FolderCache.queryResultCache := FolderCache.queryResultCache c;
     FolderCache.indexRevision := FolderCache.indexRevision c;
     FolderCache.annIndex := FolderCache.annIndex c |}.

(** [persistedLoaded], [indexRevision] and [annIndex] together. *)
Definition setIndex (persistedLoaded : bool) (indexRevision : nat)
    (annIndex : option LshAnnIndex.t) (c : FolderCache.t) : FolderCache.t :=
  {| FolderCache.folderPath := FolderCache.folderPath c;
     FolderCache.storagePath := FolderCache.storagePath c;
     FolderCache.config := FolderCache.config c;
     FolderCache.status := FolderCache.status c;
     FolderCache.chunks := FolderCache.chunks c;
     FolderCache.fileStates := FolderCache.fileStates c;
     FolderCache.persistedLoaded := persistedLoaded;
     FolderCache.queryEmbeddingCache := FolderCache.queryEmbeddingCache c;
     FolderCache.queryResultCache := FolderCache.queryResultCache c;
     FolderCache.indexRevision := indexRevision;
     FolderCache.annIndex := annIndex |}.

(** The status fields one statement of [index] assigns. *)
Record StatusPatch := {
  p_enabled : option bool;
  p_phase : option RagPhase;
  p_message : option string;
  p_totalFiles : option nat;
  p_filesToEmbed : option nat;
  p_embeddedFiles : option nat;
  p_skippedUnchanged : option nat;
  p_totalChunks : option nat;
  p_dbSizeBytes : option nat;
  p_lastIndexedAt : option float;
  p_drift : option (nat * float)
}.

Definition noPatch : StatusPatch :=
  {| p_enabled := None; p_phase := None; p_message := None; p_totalFiles := None;
     p_filesToEmbed := None; p_embeddedFiles := None; p_skippedUnchanged := None;
     p_totalChunks := None; p_dbSizeBytes := None; p_lastIndexedAt := None;
     p_drift := None |}.

Definition patch (p : StatusPatch) (s : RagStatus.t) : RagStatus.t :=
  {| RagStatus.folderPath := RagStatus.folderPath s;
     RagStatus.enabled := default (RagStatus.enabled s) (p_enabled p);
     RagStatus.phase := default (RagStatus.phase s) (p_phase p);
     RagStatus.totalFiles := default (RagStatus.totalFiles s) (p_totalFiles p);
     RagStatus.filesToEmbed := default (RagStatus.filesToEmbed s) (p_filesToEmbed p);
     RagStatus.embeddedFiles := default (RagStatus.embeddedFiles s) (p_embeddedFiles p);
     RagStatus.skippedUnchanged := default (RagStatus.skippedUnchanged s) (p_skippedUnchanged p);
     RagStatus.totalChunks := default (RagStatus.totalChunks s) (p_totalChunks p);
     RagStatus.dbSizeBytes := default (RagStatus.dbSizeBytes s) (p_dbSizeBytes p);
     RagStatus.lastIndexedAt :=
       match p_lastIndexedAt p with Some t => Some t | None => RagStatus.lastIndexedAt s end;
     RagStatus.fileChangeDrift :=
       match p_drift p with Some d => d.1 | None => RagStatus.fileChangeDrift s end;
     RagStatus.driftAddedFiles :=
       match p_drift p with Some d => d.1 | None => RagStatus.driftAddedFiles s end;
     RagStatus.driftModifiedFiles :=
       match p_drift p with Some d => d.1 | None => RagStatus.driftModifiedFiles s end;
     RagStatus.driftDeletedFiles :=
       match p_drift p with Some d => d.1 | None => RagStatus.driftDeletedFiles s end;
     RagStatus.driftCheckedAt :=
       match p_drift p with Some d => Some d.2 | None => RagStatus.driftCheckedAt s end;
     RagStatus.message :=
       match p_message p with Some m => Some m | None => RagStatus.message s end |}.

(** The assignments to [cache.status], by the place that makes them. *)
Definition scanningPatch : StatusPatch :=
  {| p_enabled := Some true; p_phase := Some PhaseScanning;
     p_message := Some "Scanning files...";
     p_totalFiles := None; p_filesToEmbed := None; p_embeddedFiles := None;
     p_skippedUnchanged := None; p_totalChunks := None; p_dbSizeBytes := None;
     p_lastIndexedAt := None; p_drift := None |}.

Definition preparingPatch (totalFiles : nat) : StatusPatch :=
  {| p_enabled := None; p_phase := Some PhaseEmbedding;
     p_message := Some "Preparing embeddings...";
     p_totalFiles := Some totalFiles; p_filesToEmbed := Some 0%nat;
     p_embeddedFiles := None; p_skippedUnchanged := Some 0%nat;
     p_totalChunks := None; p_dbSizeBytes := None; p_lastIndexedAt := None;
     p_drift := None |}.

Definition skippedPatch (skippedUnchanged : nat) : StatusPatch :=
  {| p_enabled := None; p_phase := None; p_message := None; p_totalFiles := None;
     p_filesToEmbed := None; p_embeddedFiles := None;
     p_skippedUnchanged := Some skippedUnchanged;
     p_totalChunks := None; p_dbSizeBytes := None; p_lastIndexedAt := None;
     p_drift := None |}.

Definition toEmbedPatch (filesToEmbed : nat) : StatusPatch :=
  {| p_enabled := None; p_phase := None; p_message := None; p_totalFiles := None;
     p_filesToEmbed := Some filesToEmbed; p_embeddedFiles := Some 0%nat;
     p_skippedUnchanged := None; p_totalChunks := None; p_dbSizeBytes := None;
     p_lastIndexedAt := None; p_drift := None |}.

Definition embeddedPatch (message : string) (embeddedFiles totalChunks : nat) : StatusPatch :=
  {| p_enabled := None; p_phase := None; p_message := Some message;
     p_totalFiles := None; p_filesToEmbed := None;
     p_embeddedFiles := Some embeddedFiles; p_skippedUnchanged := None;
     p_totalChunks := Some totalChunks; p_dbSizeBytes := None;
     p_lastIndexedAt := None; p_drift := None |}.

Definition readyPatch (totalChunks : nat) (t : float) : StatusPatch :=
  {| p_enabled := None; p_phase := Some PhaseReady;
     p_message := Some "RAG index is ready";
     p_totalFiles := None; p_filesToEmbed := None; p_embeddedFiles := None;
     p_skippedUnchanged := None; p_totalChunks := Some totalChunks;
     p_dbSizeBytes := None; p_lastIndexedAt := Some t; p_drift := Some (0%nat, t) |}.

Definition loadedPatch (totalChunks dbSizeBytes : nat) : StatusPatch :=
  {| p_enabled := None; p_phase := None; p_message := None; p_totalFiles := None;
     p_filesToEmbed := None; p_embeddedFiles := None; p_skippedUnchanged := None;
     p_totalChunks := Some totalChunks; p_dbSizeBytes := Some dbSizeBytes;
     p_lastIndexedAt := None; p_drift := None |}.

Definition lastIndexedPatch (t : float) : StatusPatch :=
  {| p_enabled := None; p_phase := None; p_message := None; p_totalFiles := None;
     p_filesToEmbed := None; p_embeddedFiles := None; p_skippedUnchanged := None;
     p_totalChunks := None; p_dbSizeBytes := None; p_lastIndexedAt := Some t;
     p_drift := None |}.

Definition dbSizePatch (dbSizeBytes : nat) : StatusPatch :=
  {| p_enabled := None; p_phase := None; p_message := None; p_totalFiles := None;
     p_filesToEmbed := None; p_embeddedFiles := None; p_skippedUnchanged := None;
     p_totalChunks := None; p_dbSizeBytes := Some dbSizeBytes;
     p_lastIndexedAt := None; p_drift := None |}.

Definition endedPatch (phase : RagPhase) (message : string) : StatusPatch :=
  {| p_enabled := None; p_phase := Some phase; p_message := Some message;
     p_totalFiles := None; p_filesToEmbed := None; p_embeddedFiles := None;
     p_skippedUnchanged := None; p_totalChunks := None; p_dbSizeBytes := None;
     p_lastIndexedAt := None; p_drift := None |}.

(** *** Helpers *)

Fixpoint dropSlashes (l : list ascii) : list ascii :=
  match l with
  | c :: t => if Ascii.eqb c "/"%char then dropSlashes t else l
  | [] => []
  end.

(** [path.replace(/\\/g, "/").replace(/\/+$/, "")] *)
Definition normalizeFolderPath (path : string) : string :=
  Js.str (rev (dropSlashes (rev
    (map (fun c => if Ascii.eqb c (ascii_of_nat 92) then "/"%char else c) (Js.chars path))))).

Definition dedupe (l : list string) : list string := JsSet.ofList l.

Definition normalizeExtensions (values : list string) : list string :=
  match values with
  | [] => Defaults.DEFAULT_INCLUDE_EXTENSIONS
  | _ =>
      dedupe
        (map (fun v => if String.prefix "." v then v else "." +:+ v)
           (filter (fun v => v <> "")
              (map (fun v => Js.str (Js.toLowerCase (Js.trim (Js.chars v)))) values)))
  end.

Definition normalizeFolders (values : list string) : list string :=
  match values with
  | [] => Defaults.DEFAULT_SKIP_FOLDERS
  | _ => dedupe (filter (fun v => v <> "") (map Js.strTrim values))
  end.

(** [path.extname(p)]: from the last dot of the last segment, unless that
    dot starts the segment. *)
Fixpoint lastSegment (l acc : list ascii) : list ascii :=
  match l with
  | [] => acc
  | c :: t => if Ascii.eqb c "/"%char then lastSegment t [] else lastSegment t (acc ++ [c])
  end.

Fixpoint fromLastDot (l : list ascii) (first : bool) (found : option (list ascii))
  : option (list ascii) :=
  match l with
  | [] => found
  | c :: t =>
      if Ascii.eqb c "."%char && negb first then fromLastDot t false (Some l)
      else fromLastDot t false found
  end.

Definition extname (p : string) : string :=
  let base := lastSegment (Js.chars p) [] in
  if bool_decide (base = [".";"."]%char) then ""
  else Js.str (default [] (fromLastDot base true None)).

(** [`${file.relativePath}::${i}`] *)
Definition chunkId (relativePath : string) (i : nat) : string :=
  relativePath +:+ "::" +:+ Js.numberToString i.

(** *** Collaborators and options *)

(** A cancellation token: its [aborted] flag reads [true] from the
    [abortedAt]-th suspension point of the call on, and [reason] is what
    [signal.reason] holds ([None]: [undefined]). *)
Record AbortSignal := { abortedAt : nat; reason : option Exn }.

Definition AbortError : Exn := DOMException "AbortError" "Aborted".

(** [signal.reason ?? new DOMException("Aborted", "AbortError")] *)
Definition abortException (s : AbortSignal) : Exn := default AbortError (reason s).

(** The [onProgress] callback only observes; it is left out. *)
Record IndexOptions := {
  includeExtensions : option (list string);
  excludeFolders : option (list string);
  maxFileSize : option float;
  concurrency : option float;
  embedBatchSize : option float;
  outputFolder : option string;
  signal : option AbortSignal
}.

Definition noOptions : IndexOptions :=
  {| includeExtensions := None; excludeFolders := None; maxFileSize := None;
     concurrency := None; embedBatchSize := None; outputFolder := None; signal := None |}.

(** What [index] is given from outside: the scanner's answer, file
    contents, the SHA-1 digest, the code chunker, the embedding provider
    (its reply to its [k]-th call), the clock at each suspension point, the
    size of a stored file, the order in which the runtime resumes the
    runners of [runWithConcurrency], and what the file system does with the
    calls of the storage functions that can fail. *)
Record Env := {
  scanDirectory :
    string -> list string -> list string -> option float -> Exn + list CandidateFile.t;
  readFile : string -> Exn + string;
  computeContentHash : string -> string;
  chunk : string -> string -> list ChunkResult;
  embed : nat -> list string -> Exn + list (list float);
  dateNow : nat -> float;
  byteLength : FileContent -> nat;
  schedule : list nat;
  fs : Storage.FileSystem
}.

(** *** The job: state, outcomes, sequencing *)

Record Job := {
  cache : FolderCache.t;
  disk : Storage.Disk;
  tick : nat;
  embedCalls : nat
}.

Inductive Result (A : Type) :=
| Ok (a : A)
| Throw (e : Exn)
| Hang.
Arguments Ok {A}.
Arguments Throw {A}.
Arguments Hang {A}.

Definition M (A : Type) : Type := Job -> Result A * Job.

Definition ret {A} (a : A) : M A := fun j => (Ok a, j).

Definition bind {A B} (m : M A) (f : A -> M B) : M B :=
  fun j =>
    match m j with
    | (Ok a, j') => f a j'
    | (Throw e, j') => (Throw e, j')
    | (Hang, j') => (Hang, j')
    end.

Definition throw {A} (e : Exn) : M A := fun j => (Throw e, j).
Definition hang {A} : M A := fun j => (Hang, j).

Notation "x <- m ;; k" := (bind m (fun x => k))
  (at level 100, m at next level, right associativity).
Notation "m ;;; k" := (bind m (fun _ => k))
  (at level 100, right associativity).

Definition getCache : M FolderCache.t := fun j => (Ok (cache j), j).

Definition modifyCache (f : FolderCache.t -> FolderCache.t) : M unit :=
  fun j => (Ok tt, {| cache := f (cache j); disk := disk j; tick := tick j;
                      embedCalls := embedCalls j |}).

Definition patchStatus (p : StatusPatch) : M unit := modifyCache (setStatus (patch p)).

(** An [await]: one suspension point passes. *)
Definition suspend : M unit :=
  fun j => (Ok tt, {| cache := cache j; disk := disk j; tick := S (tick j);
                      embedCalls := embedCalls j |}).

Definition now (env : Env) : M float := fun j => (Ok (dateNow env (tick j)), j).

Definition lift {A} (r : Exn + A) : M A :=
  match r with inl e => throw e | inr a => ret a end.

(** [if (signal?.aborted) throw signal.reason ?? new DOMException(...)] *)
Definition checkSignal (sig : option AbortSignal) : M unit :=
  fun j =>
    match sig with
    | Some s => if abortedAt s <=? tick j then (Throw (abortException s), j) else (Ok tt, j)
    | None => (Ok tt, j)
    end%nat.

(** *** Loading *)

Definition rebuildAnnIndex (c : FolderCache.t) : FolderCache.t :=
  setIndex (FolderCache.persistedLoaded c) (FolderCache.indexRevision c)
    (Lsh.build Lsh.default (FolderCache.chunks c)) c.

Definition truthyNumber (n : float) : bool :=
  negb (PrimFloat.eqb n 0%float) && negb (is_nan n).

(** [ensurePersistedLoaded(cache)], the cache part: [loadFromDisk] cannot
    throw, so the [catch] branch never runs.  The call passes
    [cache.storagePath] as a second argument, which [loadFromDisk] and
    [getDbSizeBytes] do not declare. *)
Definition loadInto (env : Env) (d : Storage.Disk) (c : FolderCache.t) : FolderCache.t :=
  if FolderCache.persistedLoaded c then c
  else
    let loaded := Storage.loadFromDisk d (FolderCache.folderPath c) in
    let c1 := setMaps (Storage.chunks loaded) (Storage.fileStates loaded) c in
    let c2 :=
      match Storage.lastIndexedAt loaded with
      | Some t =>
          if truthyNumber t
          then setStatus (patch (lastIndexedPatch t)) c1
          else c1
      | None => c1
      end in
    let c3 :=
      setStatus (patch (loadedPatch (JsMap.size (FolderCache.chunks c2))
                                    (Storage.getDbSizeBytes (byteLength env) d
                                       (FolderCache.folderPath c2)))) c2 in
    setIndex true (FolderCache.indexRevision c3)
      (Lsh.build Lsh.default (FolderCache.chunks c3)) c3.

Definition ensurePersistedLoaded (env : Env) : M unit :=
  fun j => (Ok tt, {| cache := loadInto env (disk j) (cache j); disk := disk j;
                      tick := S (tick j); embedCalls := embedCalls j |}).

(** *** The passes of a transaction *)

(** The chunks map once the chunks listed for [path] are deleted from it. *)
Definition withoutChunksOf (path : string) (c : FolderCache.t) : JsMap.t RagChunk.t :=
  match JsMap.get path (FolderCache.fileStates c) with
  | Some state =>
      foldl (fun m cid => JsMap.delete cid m) (FolderCache.chunks c)
            (RagFileState.chunkIds state)
  | None => FolderCache.chunks c
  end.

(** "Remove deleted files": over a snapshot of the tracked paths. *)
Definition dropFile (path : string) (c : FolderCache.t) : FolderCache.t :=
  setMaps (withoutChunksOf path c) (JsMap.delete path (FolderCache.fileStates c)) c.

Definition deletionPass (currentFiles : list string) (c : FolderCache.t)
  : FolderCache.t * bool :=
  foldl (fun acc existingFilePath =>
           if bool_decide (existingFilePath ∈ currentFiles) then acc
           else (dropFile existingFilePath acc.1, true))
        (c, false) (JsMap.keys (FolderCache.fileStates c)).

(** "Detect changed files": the metadata fast path. *)
Definition metadataUnchanged (c : FolderCache.t) (file : CandidateFile.t) : bool :=
  match JsMap.get (CandidateFile.relativePath file) (FolderCache.fileStates c) with
  | Some previous =>
      PrimFloat.eqb (RagFileState.modifiedAt previous) (CandidateFile.modifiedAt file)
      && PrimFloat.eqb (RagFileState.size previous) (CandidateFile.size file)
  | None => false
  end.

Definition changedFiles (c : FolderCache.t) (candidates : list CandidateFile.t)
  : list CandidateFile.t :=
  filter (fun file => metadataUnchanged c file = false) candidates.

Definition addSkipped (n : nat) (c : FolderCache.t) : FolderCache.t :=
  setStatus (fun s => patch (skippedPatch (RagStatus.skippedUnchanged s + n)%nat) s) c.

Record ToProcess := {
  tp_file : CandidateFile.t;
  tp_content : string;
  tp_contentHash : string
}.

(** [{ ...previous, modifiedAt: file.modifiedAt, size: file.size }] stored
    back, and one more file counted as skipped. *)
Definition refreshState (file : CandidateFile.t) (previous : RagFileState.t)
    (c : FolderCache.t) : FolderCache.t :=
  addSkipped 1
    (setMaps (FolderCache.chunks c)
       (JsMap.set (CandidateFile.relativePath file)
          {| RagFileState.modifiedAt := CandidateFile.modifiedAt file;
             RagFileState.size := CandidateFile.size file;
             RagFileState.contentHash := RagFileState.contentHash previous;
             RagFileState.chunkIds := RagFileState.chunkIds previous |}
          (FolderCache.fileStates c)) c).

(** "Content-hash check": one changed file.  An unchanged hash refreshes
    the file state's [modifiedAt] and [size] and counts as skipped. *)
Definition hashCheck (env : Env) (file : CandidateFile.t) : M (option ToProcess) :=
  suspend ;;;
  content <- lift (readFile env (CandidateFile.fullPath file)) ;;
  c <- getCache ;;
  let contentHash := computeContentHash env content in
  match JsMap.get (CandidateFile.relativePath file) (FolderCache.fileStates c) with
  | Some previous =>
      if negb (bool_decide (RagFileState.contentHash previous = ""))
         && bool_decide (RagFileState.contentHash previous = contentHash)
      then
        modifyCache (refreshState file previous) ;;;
        ret None
      else ret (Some {| tp_file := file; tp_content := content; tp_contentHash := contentHash |})
  | None => ret (Some {| tp_file := file; tp_content := content; tp_contentHash := contentHash |})
  end.

Fixpoint hashPass (env : Env) (files : list CandidateFile.t) : M (list ToProcess) :=
  match files with
  | [] => ret []
  | file :: rest =>
      r <- hashCheck env file ;;
      more <- hashPass env rest ;;
      ret (match r with Some p => p :: more | None => more end)
  end.

(** The chunks of one file: one for every chunk result that got a vector. *)
Definition newChunks (file : CandidateFile.t) (chunkResults : list ChunkResult)
    (vectors : list (list float)) : list RagChunk.t :=
  omap (fun '(i, r) =>
          match vectors !! i with
          | Some vector =>
              Some {| RagChunk.id := chunkId (CandidateFile.relativePath file) i;
                      RagChunk.filePath := CandidateFile.relativePath file;
                      RagChunk.modifiedAt := CandidateFile.modifiedAt file;
                      RagChunk.content := cr_content r;
                      RagChunk.embedding := vector;
                      RagChunk.symbols := cr_symbols r |}
          | None => None
          end)
       (imap (fun i r => (i, r)) chunkResults).

(** The synchronous tail of the worker: replace the file's chunks and state. *)
Definition commitFile (p : ToProcess) (chunkResults : list ChunkResult)
    (vectors : list (list float)) (c : FolderCache.t) : FolderCache.t :=
  let file := tp_file p in
  let rel := CandidateFile.relativePath file in
  let added := newChunks file chunkResults vectors in
  let chunks :=
    foldl (fun m ch => JsMap.set (RagChunk.id ch) ch m) (withoutChunksOf rel c) added in
  let c1 :=
    setMaps chunks
      (JsMap.set rel
         {| RagFileState.modifiedAt := CandidateFile.modifiedAt file;
            RagFileState.size := CandidateFile.size file;
            RagFileState.contentHash := tp_contentHash p;
            RagFileState.chunkIds := map RagChunk.id added |}
         (FolderCache.fileStates c)) c in
  setStatus (fun s =>
    patch (embeddedPatch
             ("Embedding " +:+ Js.numberToString (S (RagStatus.embeddedFiles s))
              +:+ "/" +:+ Js.numberToString (RagStatus.filesToEmbed s) +:+ " files...")
             (S (RagStatus.embeddedFiles s)) (JsMap.size chunks)) s) c1.

(** *** [runWithConcurrency]

    The runners share the cache and the counter [nextIndex]; each runs
    until its next [await] and is resumed by the runtime in an order the
    program does not fix.  A runner between two awaits is in one of these
    states. *)
Inductive Runner :=
| LoopHead
    (* at the head of [while (true)]: about to read the token and take an item *)
| Chunking (p : ToProcess)
    (* in the worker, awaiting [this.codeChunker.chunk] *)
| Embedding (p : ToProcess) (chunkResults : list ChunkResult) (i : float)
            (vectors : list (list float)) (reply : Exn + list (list float))
    (* in the batch loop at index [i], awaiting [this.embed(batch)] *)
| Returned.

Definition isReturned (r : Runner) : bool :=
  match r with Returned => true | _ => false end.

(** [this.embed(batch, { signal })]: the provider's reply to this call. *)
Definition callEmbed (env : Env) (batch : list string) : M (Exn + list (list float)) :=
  fun j => (Ok (embed env (embedCalls j) batch),
            {| cache := cache j; disk := disk j; tick := tick j;
               embedCalls := S (embedCalls j) |}).

(** The batch loop [for (let i = 0; i < texts.length; i += batchSize)] from
    index [i] up to its next [await]; when the loop is over (also when [i]
    is NaN), the synchronous tail of the worker, after which the runner is
    back at its loop head.  [i] and [batchSize] are numbers; [slice] takes
    their integer parts. *)
Definition batchLoop (env : Env) (sig : option AbortSignal) (batchSize : float)
    (p : ToProcess) (chunkResults : list ChunkResult) (i : float)
    (vectors : list (list float)) : M Runner :=
  let texts := map cr_content chunkResults in
  if PrimFloat.ltb i (Js.ofLength (length texts)) then
    checkSignal sig ;;;
    reply <- callEmbed env
               (Js.slice texts (Js.toIntegerOrInfinity i)
                  (Js.toIntegerOrInfinity (PrimFloat.add i batchSize))) ;;
    ret (Embedding p chunkResults i vectors reply)
  else
    modifyCache (commitFile p chunkResults vectors) ;;;
    ret LoopHead.

(** One runner resumed: from its state to its next [await], its return or
    its exception.  Returns the shared counter and the runner's new state. *)
Definition resume (env : Env) (sig : option AbortSignal) (batchSize : float)
    (items : list ToProcess) (nextIndex : nat) (r : Runner) : M (nat * Runner) :=
  match r with
  | LoopHead =>
      checkSignal sig ;;;
      match items !! nextIndex with
      | Some p =>
          (* the worker, up to [await this.codeChunker.chunk(...)] *)
          checkSignal sig ;;;
          ret (S nextIndex, Chunking p)
      | None => ret (S nextIndex, Returned)
      end
  | Chunking p =>
      let ext := Js.str (Js.toLowerCase (Js.chars
                   (extname (CandidateFile.relativePath (tp_file p))))) in
      r' <- batchLoop env sig batchSize p (chunk env (tp_content p) ext) 0%float [] ;;
      ret (nextIndex, r')
  | Embedding p chunkResults i vectors reply =>
      embedded <- lift reply ;;
      r' <- batchLoop env sig batchSize p chunkResults (PrimFloat.add i batchSize)
              (vectors ++ embedded) ;;
      ret (nextIndex, r')
  | Returned => ret (nextIndex, Returned)
  end.

(** [Array.from({ length }, () => runWorker())]: every runner is started in
    turn and runs to its first [await]. *)
Fixpoint startRunners (env : Env) (sig : option AbortSignal) (batchSize : float)
    (items : list ToProcess) (count : nat) (nextIndex : nat) : M (nat * list Runner) :=
  match count with
  | O => ret (nextIndex, [])
  | S count' =>
      st <- resume env sig batchSize items nextIndex LoopHead ;;
      rest <- startRunners env sig batchSize items count' st.1 ;;
      ret (rest.1, st.2 :: rest.2)
  end.

(** [await Promise.all(...)]: the runners are resumed in the order of
    [schedule] until all have returned (the promise resolves) or one throws
    (it rejects: the call goes on to its [catch] clause, and what the other
    runners do later is after the call).  A schedule that ends before that
    stands for a call that never settles. *)
Fixpoint runScheduled (env : Env) (sig : option AbortSignal) (batchSize : float)
    (items : list ToProcess) (schedule : list nat) (nextIndex : nat)
    (runners : list Runner) : M unit :=
  if forallb isReturned runners then ret tt
  else
    match schedule with
    | [] => hang
    | k :: later =>
        match runners !! k with
        | Some r =>
            if isReturned r
            then runScheduled env sig batchSize items later nextIndex runners
            else
              suspend ;;;
              st <- resume env sig batchSize items nextIndex r ;;
              runScheduled env sig batchSize items later st.1 (<[k := st.2]> runners)
        | None => runScheduled env sig batchSize items later nextIndex runners
        end
    end.

(** The number of runners: [Math.min(Math.max(1, concurrency), length)]
    read as the [length] of an array.  With [concurrency] NaN both
    [Math.max] and [Math.min] give NaN, and a length of NaN is 0: no runner
    is started.  Otherwise the length is the integer part of that number,
    and since 1 and [length] are integers, taking the integer part of
    [concurrency] first gives the same. *)
Definition runnerCount (concurrency : float) (length : nat) : nat :=
  if is_nan concurrency then 0%nat
  else
    let limit := Z.max 1 (Js.toIntegerOrInfinity concurrency) in
    Z.to_nat (Z.min limit (Z.of_nat length)).

(** [runWithConcurrency(items, concurrency, worker, signal)] *)
Definition runWithConcurrency (env : Env) (sig : option AbortSignal) (batchSize : float)
    (concurrency : float) (items : list ToProcess) : M unit :=
  match items with
  | [] => ret tt
  | _ =>
      st <- startRunners env sig batchSize items
              (runnerCount concurrency (length items)) 0 ;;
      runScheduled env sig batchSize items (schedule env) st.1 st.2
  end.

(** "if (changedIndex)": rebuild the ANN index, bump the revision, save;
    when [saveToDisk] rejects, the exception goes to the [catch] clause with
    the revision advanced.  The call passes [cache.storagePath] as a fourth
    argument, which [saveToDisk] does not declare. *)
Definition persist (env : Env) : M unit :=
  fun j =>
    let c := rebuildAnnIndex (cache j) in
    let c' := setIndex (FolderCache.persistedLoaded c) (S (FolderCache.indexRevision c))
                (FolderCache.annIndex c) c in
    let saved := Storage.saveToDisk (fs env) (disk j) (dateNow env (tick j))
                   (FolderCache.folderPath c') (FolderCache.chunks c')
                   (FolderCache.fileStates c') in
    (match saved.1 with
     | Some e => Throw e
     | None => Ok tt
     end,
     {| cache := c';
        disk := saved.2;
        tick := S (tick j);
        embedCalls := embedCalls j |}).

(** The body of the [try] block, in four stretches. *)

(** Scan, read the token, reset the counters. *)
Definition scanPhase (env : Env) (options : IndexOptions) : M (list CandidateFile.t) :=
  c0 <- getCache ;;
  suspend ;;;
  candidates <- lift (scanDirectory env (FolderCache.folderPath c0)
                        (RagFolderConfig.includeExtensions (FolderCache.config c0))
                        (RagFolderConfig.excludeFolders (FolderCache.config c0))
                        (maxFileSize options)) ;;
  checkSignal (signal options) ;;;
  patchStatus (preparingPatch (length candidates)) ;;;
  ret candidates.

(** The content-hash pass over the files whose metadata changed.  Returns
    [changedIndex] and [filesToProcess]. *)
Definition hashPhase (env : Env) (deleted : bool) (changed : list CandidateFile.t)
  : M (bool * list ToProcess) :=
  filesToProcess <- hashPass env changed ;;
  patchStatus (toEmbedPatch (length filesToProcess)) ;;;
  ret (deleted || negb (bool_decide (filesToProcess = [])), filesToProcess).

(** Drop deleted files, skip the unchanged ones by metadata and then by
    content hash. *)
Definition selectPhase (env : Env) (candidates : list CandidateFile.t)
  : M (bool * list ToProcess) :=
  c1 <- getCache ;;
  let currentFiles := map CandidateFile.relativePath candidates in
  let '(c2, deleted) := deletionPass currentFiles c1 in
  let changed := changedFiles c2 candidates in
  modifyCache (fun _ => addSkipped (length candidates - length changed) c2) ;;;
  hashPhase env deleted changed.

(** Chunk and embed the selected files. *)
Definition embedPhase (env : Env) (options : IndexOptions) (sel : bool * list ToProcess)
  : M bool :=
  runWithConcurrency env (signal options)
    (default Defaults.EMBED_BATCH_SIZE (embedBatchSize options))
    (default Defaults.FILE_EMBED_CONCURRENCY (concurrency options)) sel.2 ;;;
  ret sel.1.

Definition process (env : Env) (options : IndexOptions) (candidates : list CandidateFile.t)
  : M bool :=
  sel <- selectPhase env candidates ;;
  embedPhase env options sel.

(** Everything before the status turns to "ready". *)
Definition prepare (env : Env) (options : IndexOptions) : M bool :=
  ensurePersistedLoaded env ;;;
  candidates <- scanPhase env options ;;
  process env options candidates.

Definition setDbSize (env : Env) : M unit :=
  fun j =>
    (Ok tt,
     {| cache :=
          setStatus (patch (dbSizePatch
                              (Storage.getDbSizeBytes (byteLength env) (disk j)
                                 (FolderCache.folderPath (cache j))))) (cache j);
        disk := disk j; tick := tick j; embedCalls := embedCalls j |}).

(** Mark the index ready, persist when it changed, read the file size. *)
Definition finish (env : Env) (changedIndex : bool) : M unit :=
  t <- now env ;;
  c3 <- getCache ;;
  patchStatus (readyPatch (JsMap.size (FolderCache.chunks c3)) t) ;;;
  (if changedIndex then persist env else ret tt) ;;;
  suspend ;;;
  setDbSize env.

Definition transaction (env : Env) (options : IndexOptions) : M unit :=
  changedIndex <- prepare env options ;;
  finish env changedIndex.

(** The [catch] clause. *)
Definition isAbortError (e : Exn) : bool :=
  match e with
  | DOMException name _ => bool_decide (name = "AbortError")
  | _ => false
  end.

Definition onError (e : Exn) (c : FolderCache.t) : FolderCache.t :=
  if isAbortError e then
    setStatus (patch (endedPatch PhaseIdle "Indexing was cancelled")) c
  else
    setStatus (patch (endedPatch PhaseError
                        (match e with
                         | DOMException _ m => m
                         | Error m => m
                         | Thrown _ => "Failed to build RAG index"
                         end))) c.

(** *** The indexer *)

Record t := { caches : JsMap.t FolderCache.t }.

Definition create : t := {| caches := JsMap.empty |}.

Definition newCache (folderPath : string) : FolderCache.t :=
  {| FolderCache.folderPath := folderPath;
     FolderCache.storagePath := None;
     FolderCache.config :=
       {| RagFolderConfig.enabled := false;
          RagFolderConfig.includeExtensions := Defaults.DEFAULT_INCLUDE_EXTENSIONS;
          RagFolderConfig.excludeFolders := Defaults.DEFAULT_SKIP_FOLDERS |};
     FolderCache.status :=
       {| RagStatus.folderPath := folderPath; RagStatus.enabled := false;
          RagStatus.phase := PhaseIdle; RagStatus.totalFiles := 0;
          RagStatus.filesToEmbed := 0; RagStatus.embeddedFiles := 0;
          RagStatus.skippedUnchanged := 0; RagStatus.totalChunks := 0;
          RagStatus.dbSizeBytes := 0; RagStatus.lastIndexedAt := None;
          RagStatus.fileChangeDrift := 0; RagStatus.driftAddedFiles := 0;
          RagStatus.driftModifiedFiles := 0; RagStatus.driftDeletedFiles := 0;
          RagStatus.driftCheckedAt := None; RagStatus.message := None |};
     FolderCache.chunks := JsMap.empty;
     FolderCache.fileStates := JsMap.empty;
     FolderCache.persistedLoaded := false;
     FolderCache.queryEmbeddingCache := JsMap.empty;
     FolderCache.queryResultCache := JsMap.empty;
     FolderCache.indexRevision := 0;
     FolderCache.annIndex := None |}.

(** [ensureCache(folderPathInput)]: the folder's cache, created on first use. *)
Definition ensureCache (ix : t) (folderPathInput : string) : FolderCache.t :=
  let folderPath := normalizeFolderPath folderPathInput in
  default (newCache folderPath) (JsMap.get folderPath (caches ix)).

Definition store (c : FolderCache.t) (ix : t) : t :=
  {| caches := JsMap.set (FolderCache.folderPath c) c (caches ix) |}.

(** The options applied to the cache before the job starts. *)
Definition configure (options : IndexOptions) (c : FolderCache.t) : FolderCache.t :=
  let config0 := FolderCache.config c in
  let config :=
    {| RagFolderConfig.enabled := true;
       RagFolderConfig.includeExtensions :=
         match includeExtensions options with
         | Some v => normalizeExtensions v
         | None => RagFolderConfig.includeExtensions config0
         end;
       RagFolderConfig.excludeFolders :=
         match excludeFolders options with
         | Some v => normalizeFolders v
         | None => RagFolderConfig.excludeFolders config0
         end |} in
  let storagePath :=
    match outputFolder options with
    | Some o => if bool_decide (o = "") then FolderCache.storagePath c
                else Some (normalizeFolderPath o)
    | None => FolderCache.storagePath c
    end in
  setStatus (patch scanningPatch) (setConfig config storagePath c).

(** The job of one call, from the configured cache: its outcome and the
    state it leaves. *)
Definition run (env : Env) (ix : t) (d : Storage.Disk) (folderPath : string)
    (options : IndexOptions) : Result unit * Job :=
  transaction env options
    {| cache := configure options (ensureCache ix folderPath); disk := d;
       tick := 0; embedCalls := 0 |}.

(** The folder cache when the call is over: the [catch] clause applied. *)
Definition finalCache (r : Result unit * Job) : FolderCache.t :=
  match r.1 with
  | Throw e => onError e (cache r.2)
  | _ => cache r.2
  end.

(** The folder cache the passes of the call start from: configured, and
    loaded from the disk when it was not yet. *)
Definition loaded (env : Env) (ix : t) (d : Storage.Disk) (folderPath : string)
    (options : IndexOptions) : FolderCache.t :=
  loadInto env d (configure options (ensureCache ix folderPath)).

(** The scanner's answer for the call. *)
Definition scanned (env : Env) (c : FolderCache.t) (options : IndexOptions)
  : Exn + list CandidateFile.t :=
  scanDirectory env (FolderCache.folderPath c)
    (RagFolderConfig.includeExtensions (FolderCache.config c))
    (RagFolderConfig.excludeFolders (FolderCache.config c))
    (maxFileSize options).

(** The token's flag as read right after the scan, the second suspension
    point of the call. *)
Definition abortedAfterScan (options : IndexOptions) : bool :=
  match signal options with
  | Some s => (abortedAt s <=? 2)%nat
  | None => false
  end.

(** The tracked paths the scan no longer lists. *)
Definition deletedPaths (c : FolderCache.t) (candidates : list CandidateFile.t)
  : list string :=
  filter (fun p => p ∉ map CandidateFile.relativePath candidates)
         (JsMap.keys (FolderCache.fileStates c)).

(** [index(folderPath, options)]: the status the promise resolves to
    ([None] when it never settles), the indexer and the disk afterwards. *)
Definition index (env : Env) (ix : t) (d : Storage.Disk) (folderPath : string)
    (options : IndexOptions) : option RagStatus.t * t * Storage.Disk :=
  let r := run env ix d folderPath options in
  (match r.1 with
   | Hang => None
   | _ => Some (FolderCache.status (finalCache r))
   end,
   store (finalCache r) ix,
   disk r.2).

(** [clearFolder(folderPath, outputFolder)].  [clearStorage] declares one
    parameter; the storage path passed second is not read. *)
Definition clearFolder (env : Env) (ix : t) (d : Storage.Disk) (folderPath : string)
    (outputFolder : option string) : t * Storage.Disk :=
  let normalized := normalizeFolderPath folderPath in
  ({| caches := JsMap.delete normalized (caches ix) |},
   Storage.clearStorage (fs env) d normalized).

(** [ensureLoaded(folderPath, storagePath)] *)
Definition ensureLoaded (env : Env) (ix : t) (d : Storage.Disk) (folderPath : string)
    (storagePath : option string) : FolderCache.t * t :=
  let c := ensureCache ix folderPath in
  let c1 :=
    match storagePath with
    | Some p => if bool_decide (p = "") then c
                else setConfig (FolderCache.config c) (Some (normalizeFolderPath p)) c
    | None => c
    end in
  let c2 := loadInto env d c1 in
  (c2, store c2 ix).

Definition getCachedFolders (ix : t) : list string :=
  sortBy String.ltb (JsMap.keys (caches ix)).

End Indexer.

(** ** Vocabulary for reasoning about the job *)

(** [keeps R m]: whatever [m] does (return, throw, hang), the state it
    leaves is [R]-related to the state it started from. *)
Definition keeps (R : relation Indexer.Job) {A} (m : Indexer.M A) : Prop :=
  forall j, R j (m j).2.

(** [returns m Q]: when [m] returns a value, the value satisfies [Q]. *)
Definition returns {A} (m : Indexer.M A) (Q : A -> Prop) : Prop :=
  forall j, match (m j).1 with Indexer.Ok a => Q a | _ => True end.

(** A relation on jobs that only looks at the folder cache. *)
Definition onCache (P : relation FolderCache.t) (j j' : Indexer.Job) : Prop :=
  P (Indexer.cache j) (Indexer.cache j').

(** The disk is not written. *)
Definition sameDisk (j j' : Indexer.Job) : Prop := Indexer.disk j' = Indexer.disk j.

(** The revision of a folder's cache is the same in both. *)
Definition sameRevision (c c' : FolderCache.t) : Prop :=
  FolderCache.indexRevision c' = FolderCache.indexRevision c.

(** The chunks map is the same in both. *)
Definition sameChunks (c c' : FolderCache.t) : Prop :=
  FolderCache.chunks c' = FolderCache.chunks c.

(** What [m] returns and the state it leaves, when it returns. *)
Definition post {A} (m : Indexer.M A) (Q : A -> Indexer.Job -> Indexer.Job -> Prop) : Prop :=
  forall j, match m j with (Indexer.Ok a, j') => Q a j j' | _ => True end.

(** The status counts as many files to embed in both. *)
Definition sameFilesToEmbed (c c' : FolderCache.t) : Prop :=
  RagStatus.filesToEmbed (FolderCache.status c')
  = RagStatus.filesToEmbed (FolderCache.status c).

(** The tracked paths that the scan of the call no longer lists. *)
Definition deletedByCall (env : Indexer.Env) (ix : Indexer.t) (d : Storage.Disk)
    (folderPath : string) (options : Indexer.IndexOptions) : list string :=
  match Indexer.scanned env (Indexer.loaded env ix d folderPath options) options with
  | inr candidates =>
      Indexer.deletedPaths (Indexer.loaded env ix d folderPath options) candidates
  | inl _ => []
  end.

(** [changedIndex] as the final status and the scan tell it: a file was
    queued for embedding or a tracked file is gone. *)
Definition indexChanged (env : Indexer.Env) (ix : Indexer.t) (d : Storage.Disk)
    (folderPath : string) (options : Indexer.IndexOptions) : bool :=
  negb (bool_decide (deletedByCall env ix d folderPath options = []))
  || (0 <? RagStatus.filesToEmbed
             (FolderCache.status
                (Indexer.finalCache (Indexer.run env ix d folderPath options))))%nat.

(** The [try] block of a call up to the point where the status turns to
    "ready": loading, the scan, the selection and the embedding, with every
    check of the token.  What is left after it is the save. *)
Definition attempt (env : Indexer.Env) (ix : Indexer.t) (d : Storage.Disk)
    (folderPath : string) (options : Indexer.IndexOptions)
  : Indexer.Result bool * Indexer.Job :=
  Indexer.prepare env options
    {| Indexer.cache := Indexer.configure options (Indexer.ensureCache ix folderPath);
       Indexer.disk := d; Indexer.tick := 0; Indexer.embedCalls := 0 |}.

(** What [saveToDisk] does when the call reaches it in state [j]. *)
Definition saveOf (env : Indexer.Env) (j : Indexer.Job) : option Exn * Storage.Disk :=
  Storage.saveToDisk (Indexer.fs env) (Indexer.disk j)
    (Indexer.dateNow env (Indexer.tick j))
    (FolderCache.folderPath (Indexer.cache j)) (FolderCache.chunks (Indexer.cache j))
    (FolderCache.fileStates (Indexer.cache j)).

(** How the last stretch of the call ends: it throws what a save throws. *)
Definition finishOutcome (env : Indexer.Env) (changedIndex : bool) (j : Indexer.Job)
  : Indexer.Result unit :=
  if changedIndex then
    match (saveOf env j).1 with
    | Some e => Indexer.Throw e
    | None => Indexer.Ok tt
    end
  else Indexer.Ok tt.

(** The runner reads the token before its next [await] when it is resumed:
    at the head of its loop, and in the batch loop when a batch is left to
    embed (after the chunking when there is a chunk, after a call of the
    provider that did not fail when the next index is below the number of
    texts). *)
Definition readsToken (env : Indexer.Env) (batchSize : float) (r : Indexer.Runner) : Prop :=
  match r with
  | Indexer.LoopHead => True
  | Indexer.Chunking p =>
      PrimFloat.ltb 0
        (Js.ofLength
           (length (Indexer.chunk env (Indexer.tp_content p)
                      (Js.str (Js.toLowerCase
                                 (Js.chars (Indexer.extname
                                              (CandidateFile.relativePath
                                                 (Indexer.tp_file p)))))))))
      = true
  | Indexer.Embedding p chunkResults i vectors (inr _) =>
      PrimFloat.ltb (PrimFloat.add i batchSize) (Js.ofLength (length chunkResults)) = true
  | _ => False
  end.

(** The content-hash test of the indexer on one file: the file is tracked
    with a hash, it can be read, and its content hashes to the same. *)
Definition hashUnchanged (env : Indexer.Env) (c : FolderCache.t) (file : CandidateFile.t)
  : bool :=
  match JsMap.get (CandidateFile.relativePath file) (FolderCache.fileStates c),
        Indexer.readFile env (CandidateFile.fullPath file) with
  | Some previous, inr content =>
      negb (bool_decide (RagFileState.contentHash previous = ""))
      && bool_decide (RagFileState.contentHash previous
                      = Indexer.computeContentHash env content)
  | _, _ => false
  end.

(** Same [modifiedAt] and [size], or same content hash. *)
Definition unchangedFile (env : Indexer.Env) (c : FolderCache.t) (file : CandidateFile.t)
  : bool :=
  Indexer.metadataUnchanged c file || hashUnchanged env c file.

(** [n] more files were skipped by their hash between [c] and [c']. *)
Definition refreshed (env : Indexer.Env) (n : nat) (c c' : FolderCache.t) : Prop :=
  FolderCache.indexRevision c' = FolderCache.indexRevision c
  /\ FolderCache.chunks c' = FolderCache.chunks c
  /\ RagStatus.totalFiles (FolderCache.status c') = RagStatus.totalFiles (FolderCache.status c)
  /\ RagStatus.skippedUnchanged (FolderCache.status c')
     = (RagStatus.skippedUnchanged (FolderCache.status c) + n)%nat
  /\ forall f, hashUnchanged env c' f = hashUnchanged env c f.

(** The string has a colon among its characters. *)
Fixpoint hasColon (s : string) : bool :=
  match s with
  | EmptyString => false
  | String a s' => bool_decide (a = ":"%char) || hasColon s'
  end.

(** The state after the deletion pass and the metadata pass. *)
Definition afterDeletion (candidates : list CandidateFile.t) (j : Indexer.Job)
  : Indexer.Job :=
  let c2 :=
    (Indexer.deletionPass (map CandidateFile.relativePath candidates)
       (Indexer.cache j)).1 in
  {| Indexer.cache :=
       Indexer.addSkipped
         (length candidates - length (Indexer.changedFiles c2 candidates)) c2;
     Indexer.disk := Indexer.disk j; Indexer.tick := Indexer.tick j;
     Indexer.embedCalls := Indexer.embedCalls j |}.

(** The two maps of a folder agree: the ids a file state lists are ids of
    that file and keys of the chunks map, and every key of the chunks map is
    listed by a file state. *)
Definition consistent (c : FolderCache.t) : Prop :=
  (forall p st id,
      JsMap.get p (FolderCache.fileStates c) = Some st ->
      id ∈ RagFileState.chunkIds st ->
      is_Some (JsMap.get id (FolderCache.chunks c)) /\ exists i, id = Indexer.chunkId p i)
  /\ (forall id,
        is_Some (JsMap.get id (FolderCache.chunks c)) ->
        exists p st,
          JsMap.get p (FolderCache.fileStates c) = Some st
          /\ id ∈ RagFileState.chunkIds st).

(** [c'] is consistent when [c] is. *)
Definition staysConsistent (c c' : FolderCache.t) : Prop := consistent c -> consistent c'.

(** [path] is not tracked in [c'] when it is not in [c]. *)
Definition staysUntracked (path : string) (c c' : FolderCache.t) : Prop :=
  JsMap.get path (FolderCache.fileStates c) = None ->
  JsMap.get path (FolderCache.fileStates c') = None.

(** The folder of the cache is the same in both. *)
Definition sameFolderPath (c c' : FolderCache.t) : Prop :=
  FolderCache.folderPath c' = FolderCache.folderPath c.

(** ** Vocabulary for paths *)

(** A segment that [normalize] keeps as it is: not empty, not [.] or [..],
    without a slash. *)
Definition plainName (seg : list ascii) : Prop :=
  seg <> [] /\ seg <> Path.dot /\ seg <> Path.dotdot /\ "/"%char ∉ seg.

(** What [normalizeString] has kept at any time, the last segment first:
    plain names, and below them, in a path that may go above its root, a
    run of [..]. *)
Fixpoint keptShape (allowAboveRoot : bool) (res : list (list ascii)) : Prop :=
  match res with
  | [] => True
  | seg :: below =>
      (plainName seg
       \/ (seg = Path.dotdot /\ allowAboveRoot = true /\ Forall (fun s => s = Path.dotdot) below))
      /\ keptShape allowAboveRoot below
  end.

(** ** Records that survive [JSON.stringify] and [JSON.parse] *)

Definition stablePosition (p : Position) : Prop :=
  Json.stable (line p) /\ Json.stable (column p) /\ Json.stable (offset p).

Definition stableRange (r : Range) : Prop :=
  stablePosition (rstart r) /\ stablePosition (rend r).

Definition stableSymbol (s : CodeSymbol) : Prop :=
  stableRange (nameRange s) /\ stableRange (contentRange s).

(** A chunk with an id, whose numbers are finite (and not the negative
    zero, which comes back as zero). *)
Definition validChunk (c : RagChunk.t) : Prop :=
  RagChunk.id c <> ""
  /\ Json.stable (RagChunk.modifiedAt c)
  /\ Forall Json.stable (RagChunk.embedding c)
  /\ match RagChunk.symbols c with
     | Some syms => Forall stableSymbol syms
     | None => True
     end.

Definition validFileState (s : RagFileState.t) : Prop :=
  Json.stable (RagFileState.modifiedAt s) /\ Json.stable (RagFileState.size s).

(** Records whose numbers are finite, and what is read back of them: every
    number through [Json.reread]. *)
Definition finite (n : float) : Prop := is_finite n = true.

Definition finitePosition (p : Position) : Prop :=
  finite (line p) /\ finite (column p) /\ finite (offset p).

Definition finiteRange (r : Range) : Prop :=
  finitePosition (rstart r) /\ finitePosition (rend r).

Definition finiteSymbol (s : CodeSymbol) : Prop :=
  finiteRange (nameRange s) /\ finiteRange (contentRange s).

Definition finiteChunk (c : RagChunk.t) : Prop :=
  RagChunk.id c <> ""
  /\ finite (RagChunk.modifiedAt c)
  /\ Forall finite (RagChunk.embedding c)
  /\ match RagChunk.symbols c with
     | Some syms => Forall finiteSymbol syms
     | None => True
     end.

Definition finiteFileState (s : RagFileState.t) : Prop :=
  finite (RagFileState.modifiedAt s) /\ finite (RagFileState.size s).

Definition finiteMaps (chunks : JsMap.t RagChunk.t) (fileStates : JsMap.t RagFileState.t)
  : Prop :=
  NoDup (JsMap.keys chunks)
  /\ Forall (fun e => e.1 = RagChunk.id e.2 /\ finiteChunk e.2) chunks
  /\ NoDup (JsMap.keys fileStates)
  /\ Forall (fun e => finiteFileState e.2) fileStates.

Definition rereadPosition (p : Position) : Position :=
  {| line := Json.reread (line p); column := Json.reread (column p);
     offset := Json.reread (offset p) |}.

Definition rereadRange (r : Range) : Range :=
  {| rstart := rereadPosition (rstart r); rend := rereadPosition (rend r) |}.

Definition rereadSymbol (s : CodeSymbol) : CodeSymbol :=
  {| sym_name := sym_name s; sym_kind := sym_kind s;
     nameRange := rereadRange (nameRange s); contentRange := rereadRange (contentRange s) |}.

Definition rereadChunk (c : RagChunk.t) : RagChunk.t :=
  {| RagChunk.id := RagChunk.id c;
     RagChunk.filePath := RagChunk.filePath c;
     RagChunk.modifiedAt := Json.reread (RagChunk.modifiedAt c);
     RagChunk.content := RagChunk.content c;
     RagChunk.embedding := map Json.reread (RagChunk.embedding c);
     RagChunk.symbols := map rereadSymbol <$> RagChunk.symbols c |}.

Definition rereadFileState (s : RagFileState.t) : RagFileState.t :=
  {| RagFileState.modifiedAt := Json.reread (RagFileState.modifiedAt s);
     RagFileState.size := Json.reread (RagFileState.size s);
     RagFileState.contentHash := RagFileState.contentHash s;
     RagFileState.chunkIds := RagFileState.chunkIds s |}.

(** Two maps as the indexer keeps them: every chunk under its own id. *)
Definition validMaps (chunks : JsMap.t RagChunk.t) (fileStates : JsMap.t RagFileState.t)
  : Prop :=
  NoDup (JsMap.keys chunks)
  /\ Forall (fun e => e.1 = RagChunk.id e.2 /\ validChunk e.2) chunks
  /\ NoDup (JsMap.keys fileStates)
  /\ Forall (fun e => validFileState e.2) fileStates.

(** ** Windows of the text chunker *)

(** ** Vocabulary for the text chunker *)

(** A text of white space only, the empty one too. *)
Definition blank (l : list ascii) : Prop := Forall (fun c => Js.isWhiteSpace c = true) l.

(** Neither the first nor the last character is white space. *)
Definition edgesKept (l : list ascii) : Prop :=
  (forall c, head l = Some c -> Js.isWhiteSpace c = false)
  /\ (forall c, last l = Some c -> Js.isWhiteSpace c = false).

(** [inner] is [outer] without the white space at its two ends. *)
Definition stripped (outer inner : list ascii) : Prop :=
  edgesKept inner
  /\ exists pre post, blank pre /\ blank post /\ outer = pre ++ inner ++ post.

(** The text with every line feed written as carriage return, line feed. *)
Fixpoint lfToCrLf (l : list ascii) : list ascii :=
  match l with
  | [] => []
  | c :: t => if Ascii.eqb c Js.LF then Js.CR :: Js.LF :: lfToCrLf t else c :: lfToCrLf t
  end.

(** The windows that hold more than white space: the ones a chunk is pushed
    for. *)
Definition pushedWindows (cl : list ascii) (ws : list (Z * Z)) : list (Z * Z) :=
  filter (fun w => ~ blank (Js.slice cl (fst w) (snd w))) ws.

(** The chunk is the text of the window without the white space at its
    ends, and carries no symbols. *)
Definition chunkOfWindow (cl : list ascii) (c : ChunkResult) (w : Z * Z) : Prop :=
  cr_symbols c = None /\ stripped (Js.slice cl (fst w) (snd w)) (Js.chars (cr_content c)).

(** A window is non-empty, lies inside the text, ends where [windowEnd]
    says and yields at most [chunkSize] characters. *)
Definition window_ok (tc : TextChunker.t) (cl : list ascii) (w : Z * Z) : Prop :=
  0 <= fst w < snd w /\ snd w <= Z.of_nat (length cl) /\
  snd w = TextChunker.windowEnd tc cl (fst w) /\
  Z.of_nat (length (TextChunker.windowText cl w)) <= TextChunker.chunkSize tc.

(** Every window after the first starts where the previous one dictates. *)
Definition chained (tc : TextChunker.t) (ws : list (Z * Z)) : Prop :=
  forall i w1 w2, ws !! i = Some w1 -> ws !! S i = Some w2 ->
    fst w2 = Z.max (fst w1 + 1) (snd w1 - TextChunker.chunkOverlap tc).

(** The file a runner is working on, when it is working on one, satisfies [Q]. *)
Definition runnerFile (Q : CandidateFile.t -> Prop) (r : Indexer.Runner) : Prop :=
  match r with
  | Indexer.Chunking p | Indexer.Embedding p _ _ _ _ => Q (Indexer.tp_file p)
  | _ => True
  end.

(** * A small project tree

    The setting of the repository's indexer tests: two Markdown files, a
    deterministic embedding provider looking for three words, a fixed clock. *)

Module Scenario.
Import Indexer.

Definition embedText (text : string) : list float :=
  let n := Js.str (Js.toLowerCase (Js.chars text)) in
  [ if Js.includes "alpha" n then 1%float else 0%float;
    if Js.includes "beta" n then 1%float else 0%float;
    if Js.includes "gamma" n then 1%float else 0%float;
    PrimFloat.div (Lsh.floatOfZ (Js.strLength n)) 100%float ].

Definition textChunker : TextChunker.t :=
  {| TextChunker.chunkSize := Defaults.CHUNK_SIZE;
     TextChunker.chunkOverlap := Defaults.CHUNK_OVERLAP |}.

(** A tree as a list of (relative path, (content, modification time)). *)
Definition Tree : Type := list (string * (string * float)).

Definition candidateOf (root : string) (f : string * (string * float)) : CandidateFile.t :=
  {| CandidateFile.relativePath := f.1;
     CandidateFile.fullPath := root +:+ "/" +:+ f.1;
     CandidateFile.modifiedAt := f.2.2;
     CandidateFile.size := Lsh.floatOfZ (Js.strLength f.2.1) |}.

Definition envWith (embedOne : string -> list float) (root : string) (files : Tree) : Env :=
  {| scanDirectory := fun folder _ _ _ => inr (map (candidateOf folder) files);
     readFile := fun full =>
       match list_find (fun f => root +:+ "/" +:+ f.1 = full) files with
       | Some (_, f) => inr f.2.1
       | None => inl (Error "ENOENT")
       end;
     computeContentHash := fun content => "sha1:" +:+ content;
     chunk := fun content _ => default [] (TextChunker.chunk textChunker content);
     embed := fun _ texts => inr (map embedOne texts);
     dateNow := fun _ => 1000%float;
     byteLength := fun _ => 10%nat;
     schedule := concat (replicate 32 [0; 1]%nat);
     fs := Storage.reliable |}.

Definition envOf : string -> Tree -> Env := envWith embedText.

Definition tree : Tree :=
  [ ("docs/alpha.md", ("alpha system architecture", 100%float));
    ("docs/beta.md", ("beta deployment notes", 100%float)) ].

(** The same files, touched: later modification times, same contents. *)
Definition touched : Tree :=
  [ ("docs/alpha.md", ("alpha system architecture", 200%float));
    ("docs/beta.md", ("beta deployment notes", 200%float)) ].

Definition markdownOnly : IndexOptions :=
  {| includeExtensions := Some [".md"]; excludeFolders := Some [];
     maxFileSize := None; concurrency := None; embedBatchSize := None;
     outputFolder := None; signal := None |}.

Definition withOutputFolder (folder : string) : IndexOptions :=
  {| includeExtensions := Some [".md"]; excludeFolders := Some [];
     maxFileSize := None; concurrency := None; embedBatchSize := None;
     outputFolder := Some folder; signal := None |}.

Definition withSignal (s : AbortSignal) : IndexOptions :=
  {| includeExtensions := Some [".md"]; excludeFolders := Some [];
     maxFileSize := None; concurrency := None; embedBatchSize := None;
     outputFolder := None; signal := Some s |}.

(** The options of the cancellation test: one runner, and a token that
    aborts while the provider answers its second call, which is the ninth
    suspension point of the call. *)
Definition cancelling : IndexOptions :=
  {| includeExtensions := Some [".md"]; excludeFolders := Some [];
     maxFileSize := None; concurrency := Some 1%float; embedBatchSize := None;
     outputFolder := None;
     signal := Some {| abortedAt := 9; reason := None |} |}.

(** A file system on which the index file of [/root] cannot be written;
    the chunk file can. *)
Definition fullDisk : Storage.FileSystem :=
  {| Storage.mkdir := fun _ => None;
     Storage.writeFile := fun path _ =>
       if bool_decide (path = Storage.indexPath (Storage.getPaths "/root"))
       then WriteFailed (Error "ENOSPC") None
       else Written;
     Storage.rm := fun _ => None |}.

(** The tree on that file system. *)
Definition envFull : Env :=
  let e := envOf "/root" tree in
  {| scanDirectory := scanDirectory e; readFile := readFile e;
     computeContentHash := computeContentHash e; chunk := chunk e; embed := embed e;
     dateNow := dateNow e; byteLength := byteLength e; schedule := schedule e;
     fs := fullDisk |}.

(** The first indexing of the tree, from an empty disk. *)
Definition firstIndex : option RagStatus.t * Indexer.t * Storage.Disk :=
  Eval vm_compute in index (envOf "/root" tree) create ∅ "/root/" markdownOnly.

(** The disk after the first indexing, with the chunk file lost. *)
Definition dbLost : Storage.Disk :=
  delete (Storage.dbPath (Storage.getPaths "/root")) firstIndex.2.

(** The tree once [docs/beta.md] is removed. *)
Definition alphaOnly : Tree :=
  [ ("docs/alpha.md", ("alpha system architecture", 100%float)) ].

(** ** Two folders with the same file names

    An embedding provider that only looks for the three words, so that a
    text without the word of the query scores zero against it. *)
Definition embedWords (text : string) : list float :=
  let n := Js.str (Js.toLowerCase (Js.chars text)) in
  [ if Js.includes "alpha" n then 1%float else 0%float;
    if Js.includes "beta" n then 1%float else 0%float;
    if Js.includes "gamma" n then 1%float else 0%float ].

Definition notes (word : string) : Tree :=
  map (fun name => ("docs/" +:+ name +:+ ".md", (word +:+ " notes of " +:+ name, 100%float)))
      ["one"; "two"; "three"; "four"; "five"; "six"].

(** Both folders indexed once by the same indexer. *)
Definition twoFolders : Indexer.t :=
  Eval vm_compute in
    (index (envWith embedWords "/b" (notes "beta"))
       (index (envWith embedWords "/a" (notes "alpha")) create ∅ "/a" markdownOnly).1.2
       (index (envWith embedWords "/a" (notes "alpha")) create ∅ "/a" markdownOnly).2
       "/b" markdownOnly).1.2.

Definition folderA : FolderCache.t := Eval vm_compute in ensureCache twoFolders "/a".
Definition folderB : FolderCache.t := Eval vm_compute in ensureCache twoFolders "/b".

Definition embedQuery (texts : list string) : CodebaseSearcher.EmbedReply :=
  inr (map embedWords texts).

(** The searcher once it has answered the query on the first folder. *)
Definition afterQueryOnA : CodebaseSearcher.t :=
  (CodebaseSearcher.getContextForQuery CodebaseSearcher.create embedQuery 0%float
     folderA "alpha").2.

End Scenario.

(** * The maps of the storage test *)

Module StorageTest.

Definition chunks : JsMap.t RagChunk.t :=
  [ ("id-1",
     {| RagChunk.id := "id-1"; RagChunk.filePath := "a.ts";
        RagChunk.modifiedAt := 1%float; RagChunk.content := "hello";
        RagChunk.embedding := [1%float; 2%float; 3%float];
        RagChunk.symbols := None |}) ].

Definition states : JsMap.t RagFileState.t :=
  [ ("a.ts",
     {| RagFileState.modifiedAt := 1%float; RagFileState.size := 5%float;
        RagFileState.contentHash := "abc"; RagFileState.chunkIds := ["id-1"] |}) ].

(** A file state whose [modifiedAt] is not finite. *)
Definition unbounded : JsMap.t RagFileState.t :=
  [ ("a.ts",
     {| RagFileState.modifiedAt := PrimFloat.infinity; RagFileState.size := 5%float;
        RagFileState.contentHash := "abc"; RagFileState.chunkIds := ["id-1"] |}) ].

(** A chunk whose embedding holds the negative zero. *)
Definition signedZero : JsMap.t RagChunk.t :=
  [ ("id-1",
     {| RagChunk.id := "id-1"; RagChunk.filePath := "a.ts";
        RagChunk.modifiedAt := 1%float; RagChunk.content := "hello";
        RagChunk.embedding := [(-0)%float; 2%float];
        RagChunk.symbols := None |}) ].

End StorageTest.

(** ** Fixtures of tests/cache/lru-cache.test.ts *)

Module LruTest.

(** "evicts the oldest entries when max size is exceeded": a cache of two
    entries, written at clock readings 1 and 2. *)
Definition twoEntries : LruCache.t nat :=
  (LruCache.set 2%float "second" 2%nat
     (LruCache.set 1%float "first" 1%nat (LruCache.create 2 0%float)).2).2.

End LruTest.

(** ** Vocabulary for the signatures of the ANN index *)

(** What [flipSignatureBits] writes over a character. *)
Definition flipped (c : ascii) : ascii := if Ascii.eqb c "1" then "0"%char else "1"%char.

(** [v] has the length of [s] and differs from it in at most two positions,
    and in at most [maxDistance]. *)
Definition near (s v : list ascii) (maxDistance : Z) : Prop :=
  length v = length s /\ Lsh.hammingDistance s v <= Z.min 2 (Z.max 0 maxDistance).

(** The signature of a chunk under a projection, and the body of the loop
    of [build]: the chunk's id appended to the bucket of its signature. *)
Definition signatureOf (projection : list (list float)) (chunk : RagChunk.t) : string :=
  Js.str (Lsh.signatureForEmbedding (RagChunk.embedding chunk) projection).

Definition addToBucket (dimensions : nat) (projection : list (list float))
    (buckets : JsMap.t (list string)) (chunk : RagChunk.t) : JsMap.t (list string) :=
  if bool_decide (length (RagChunk.embedding chunk) = dimensions) then
    let signature :=
      Js.str (Lsh.signatureForEmbedding (RagChunk.embedding chunk) projection) in
    match JsMap.get signature buckets with
    | Some existing => JsMap.set signature (existing ++ [RagChunk.id chunk]) buckets
    | None => JsMap.set signature [RagChunk.id chunk] buckets
    end
  else buckets.

(** [id] is listed in the bucket of [signature]. *)
Definition listed (buckets : JsMap.t (list string)) (signature id : string) : Prop :=
  exists ids, JsMap.get signature buckets = Some ids /\ id ∈ ids.

(** ** Fixtures of tests/vector/vector.test.ts *)

Module VectorTest.

(** "builds LSH index and returns query candidates" *)
Definition lsh : Lsh.t :=
  {| Lsh.projectionDim := 8; Lsh.maxHammingDistance := 0;
     Lsh.fallbackMinCandidates := 1;
     Lsh.maxRerankCandidates := Defaults.ANN_MAX_RERANK_CANDIDATES |}.

Definition chunks : JsMap.t RagChunk.t :=
  [("c1", Tests.chunkOf "c1" "a.ts" "A" [1%float; 0%float; 0%float]);
   ("c2", Tests.chunkOf "c2" "b.ts" "B" [0%float; 1%float; 0%float])].

Definition index : LshAnnIndex.t :=
  Eval vm_compute in default Tests.emptyIndex (Lsh.build lsh chunks).

Definition pool : list RagChunk.t :=
  Eval vm_compute in default [] (Lsh.query lsh index [1%float; 0%float; 0%float] chunks).

(** "ranks candidates by positive cosine score" *)
Definition candidates : list RagChunk.t :=
  [Tests.chunkOf "a" "a" "A" [1%float; 0%float];
   Tests.chunkOf "b" "b" "B" [0.5%float; 0.5%float];
   Tests.chunkOf "c" "c" "C" [(-1)%float; 0%float]].

End VectorTest.

(** ** Vocabulary for strings *)

(** No white space at either end. *)
Definition trimmed (l : list ascii) : Prop :=
  Js.trimStart l = l /\ Js.trimStart (rev l) = rev l.

(** ** Vocabulary for the searcher *)

(** A ranking of at most [topK] items, each a chunk of the folder. *)
Definition fromFolder (cache : FolderCache.t) (topK : Z)
    (ranked : list CodebaseSearcher.Ranked) : Prop :=
  Z.of_nat (length ranked) <= topK
  /\ Forall (fun item =>
               CodebaseSearcher.chunk item ∈ JsMap.values (FolderCache.chunks cache)) ranked.

(** ** Vocabulary for folder paths *)

(** What [replace(/\\/g, "/")] makes of a character. *)
Definition slashed (c : ascii) : ascii :=
  if Ascii.eqb c (ascii_of_nat 92) then "/"%char else c.

(** ** Vocabulary for the status counters *)

(** The status counts as many files, as many skipped and as many to embed
    in both. *)
Definition sameCounts (c c' : FolderCache.t) : Prop :=
  RagStatus.totalFiles (FolderCache.status c') = RagStatus.totalFiles (FolderCache.status c)
  /\ RagStatus.filesToEmbed (FolderCache.status c')
     = RagStatus.filesToEmbed (FolderCache.status c)
  /\ RagStatus.skippedUnchanged (FolderCache.status c')
     = RagStatus.skippedUnchanged (FolderCache.status c).

(** The ANN index of a folder's cache is the same in both. *)
Definition sameAnnIndex (c c' : FolderCache.t) : Prop :=
  FolderCache.annIndex c' = FolderCache.annIndex c.

(** The ANN index of the cache is the one [build] makes of its chunks. *)
Definition annIndexFresh (c : FolderCache.t) : Prop :=
  FolderCache.annIndex c = Lsh.build Lsh.default (FolderCache.chunks c).

(** ** Vocabulary for the runners of [runWithConcurrency] *)

(** The item a runner is working on, between two awaits of its worker. *)
Definition itemOf (r : Indexer.Runner) : option Indexer.ToProcess :=
  match r with
  | Indexer.Chunking p | Indexer.Embedding p _ _ _ _ => Some p
  | _ => None
  end.

(** The number of runners that are inside a worker. *)
Definition working (runners : list Indexer.Runner) : nat := length (omap itemOf runners).

(** What one resumption of a runner that does not throw amounts to: the
    shared counter, the runner and the cache before and after.  The runner
    takes the next item, or finds none left and returns, or goes on with
    its item to the next await, or commits the item's chunks and is back at
    the head of its loop. *)
Inductive runnerStep (items : list Indexer.ToProcess)
  : nat -> Indexer.Runner -> FolderCache.t -> nat -> Indexer.Runner -> FolderCache.t -> Prop :=
| step_take n p c :
    items !! n = Some p ->
    runnerStep items n Indexer.LoopHead c (S n) (Indexer.Chunking p) c
| step_return n c :
    items !! n = None ->
    runnerStep items n Indexer.LoopHead c (S n) Indexer.Returned c
| step_await n r r' p c :
    itemOf r = Some p -> itemOf r' = Some p ->
    runnerStep items n r c n r' c
| step_commit n r p chunkResults vectors c :
    itemOf r = Some p ->
    runnerStep items n r c n Indexer.LoopHead (Indexer.commitFile p chunkResults vectors c)
| step_idle n c :
    runnerStep items n Indexer.Returned c n Indexer.Returned c.

(** The counter [embeddedFiles] of the folder's status. *)
Definition embeddedFiles (c : FolderCache.t) : nat :=
  RagStatus.embeddedFiles (FolderCache.status c).

(** [embeddedFiles] counts the items taken so far, less those still with a
    runner; and a runner has only returned once the items were used up. *)
Definition countInv (items : list Indexer.ToProcess) (n : nat)
    (runners : list Indexer.Runner) (c : FolderCache.t) : Prop :=
  (embeddedFiles c + working runners = n `min` length items)%nat
  /\ forall r, r ∈ runners -> Indexer.isReturned r = true -> (length items <= n)%nat.

(** ** Vocabulary for the file states after a call *)

(** The file is tracked with the [modifiedAt] and [size] the scan lists:
    the metadata test of the next call would skip it. *)
Definition settled (c : FolderCache.t) (file : CandidateFile.t) : Prop :=
  Indexer.metadataUnchanged c file = true.

(** [file] is settled in [c'] when it is in [c]. *)
Definition staysSettled (file : CandidateFile.t) (c c' : FolderCache.t) : Prop :=
  settled c file -> settled c' file.

(** The [modifiedAt] and [size] of the file are numbers equal to
    themselves, that is, not NaN. *)
Definition numbered (file : CandidateFile.t) : Prop :=
  PrimFloat.eqb (CandidateFile.modifiedAt file) (CandidateFile.modifiedAt file) = true
  /\ PrimFloat.eqb (CandidateFile.size file) (CandidateFile.size file) = true.

(** Every item taken so far is settled or still with a runner; a runner
    has only returned once the items were used up; and the runners work on
    candidates. *)
Definition settledInv (candidates : list CandidateFile.t) (items : list Indexer.ToProcess)
    (n : nat) (runners : list Indexer.Runner) (c : FolderCache.t) : Prop :=
  (forall k p, items !! k = Some p -> (k < n)%nat ->
     settled c (Indexer.tp_file p) \/ exists r, r ∈ runners /\ itemOf r = Some p)
  /\ (forall r, r ∈ runners -> Indexer.isReturned r = true -> (length items <= n)%nat)
  /\ (forall r p, r ∈ runners -> itemOf r = Some p -> Indexer.tp_file p ∈ candidates).

(** ** CodeChunker (chunking/code-chunker.ts): spans and small chunks *)

Module CodeChunker.

Definition MIN_CHUNK_SIZE : Z := 200.

(** A symbol as the external extractor ([tree-sitter-ts]) reports it: the
    name may be missing, the kind is any string. *)
Record TreeSitterCodeSymbol := {
  ts_name : option string;
  ts_kind : string;
  ts_nameRange : Range;
  ts_contentRange : Range
}.

Record SymbolSpan := {
  symbol : CodeSymbol;
  startIndex : Z;
  endIndex : Z
}.

(** [Math.trunc] of a finite binary64 number, as an integer. *)
Definition truncate (x : float) : Z :=
  match Prim2SF x with
  | SpecFloat.S754_finite s m e =>
      let magnitude := if 0 <=? e then Zpos m * 2 ^ e else Zpos m / 2 ^ (- e) in
      if s then - magnitude else magnitude
  | _ => 0
  end.

(** [clampOffset(offset, sourceLength)] *)
Definition clampOffset (offset : float) (sourceLength : Z) : Z :=
  if is_finite offset then Z.max 0 (Z.min (truncate offset) sourceLength) else 0.

(** The comparator of the sort is negative on [(left, right)]. *)
Definition startsBefore (left right : TreeSitterCodeSymbol) : bool :=
  let startDiff :=
    PrimFloat.sub (offset (rstart (ts_contentRange left)))
                  (offset (rstart (ts_contentRange right))) in
  if negb (PrimFloat.eqb startDiff 0%float) then PrimFloat.ltb startDiff 0%float
  else PrimFloat.ltb (PrimFloat.sub (offset (rend (ts_contentRange left)))
                                    (offset (rend (ts_contentRange right)))) 0%float.

(** [symbol.name?.trim() || `<${symbol.kind}>`] *)
Definition spanName (s : TreeSitterCodeSymbol) : string :=
  match ts_name s with
  | Some name => if bool_decide (Js.strTrim name = "") then "<" +:+ ts_kind s +:+ ">"
                 else Js.strTrim name
  | None => "<" +:+ ts_kind s +:+ ">"
  end.

(** The loop over the ordered symbols, with [lastEndIndex]. *)
Fixpoint spansFrom (sourceLength : Z) (ordered : list TreeSitterCodeSymbol)
    (lastEndIndex : Z) : list SymbolSpan :=
  match ordered with
  | [] => []
  | s :: rest =>
      let startIndex := clampOffset (offset (rstart (ts_contentRange s))) sourceLength in
      let endIndex := clampOffset (offset (rend (ts_contentRange s))) sourceLength in
      if endIndex <=? startIndex then spansFrom sourceLength rest lastEndIndex
      else
        let clampedStart := Z.max startIndex lastEndIndex in
        if endIndex <=? clampedStart then spansFrom sourceLength rest lastEndIndex
        else
          {| symbol := {| sym_name := spanName s;
                          sym_kind := Json.kindOfName (ts_kind s);
                          nameRange := ts_nameRange s;
                          contentRange := ts_contentRange s |};
             startIndex := clampedStart;
             endIndex := endIndex |}
          :: spansFrom sourceLength rest endIndex
  end.

(** [extractSymbolsFromTreeSitterTs(source, language)], from the symbols the
    extractor returned for the source. *)
Definition extractSymbolsFromTreeSitterTs (source : string)
    (symbols : list TreeSitterCodeSymbol) : list SymbolSpan :=
  spansFrom (Js.strLength source) (sortBy startsBefore symbols) 0.

(** [prev.content = prev.content + "\n" + chunk.content], and the symbols
    of [chunk] appended when it has any. *)
Definition absorb (prev chunk : ChunkResult) : ChunkResult :=
  {| cr_content := cr_content prev +:+ String Js.LF (cr_content chunk);
     cr_symbols :=
       match cr_symbols chunk with
       | Some syms => Some (default [] (cr_symbols prev) ++ syms)
       | None => cr_symbols prev
       end |}.

(** One iteration of the loop of [mergeSmallChunks].  The array [merged]
    is kept last element first, so that [merged[merged.length - 1]] is the
    head. *)
Definition mergeStep (merged : list ChunkResult) (chunk : ChunkResult) : list ChunkResult :=
  match merged with
  | [] => [chunk]
  | prev :: before =>
      if MIN_CHUNK_SIZE <=? Js.strLength (cr_content chunk) then chunk :: merged
      else absorb prev chunk :: before
  end.

(** "If the last chunk is still too small and there's a previous one, merge
    backward", on the array kept last element first. *)
Definition mergeBackward (merged : list ChunkResult) : list ChunkResult :=
  match merged with
  | last :: prev :: before =>
      if Js.strLength (cr_content last) <? MIN_CHUNK_SIZE then absorb prev last :: before
      else merged
  | _ => merged
  end.

(** [mergeSmallChunks(chunks)] *)
Definition mergeSmallChunks (chunks : list ChunkResult) : list ChunkResult :=
  if (length chunks <=? 1)%nat then chunks
  else rev (mergeBackward (foldl mergeStep [] chunks)).

(** A code chunker is its two sizes; its [textChunker] is made from them. *)
Definition t : Type := TextChunker.t.

(** The local state of [chunkWithAst]: [results], [pendingContent],
    [pendingSymbols] and [cursor]. *)
Record Pending := {
  results : list ChunkResult;
  pendingContent : string;
  pendingSymbols : list CodeSymbol;
  cursor : Z
}.

(** [content.slice(from, to)] *)
Definition sliceOf (content : string) (from to : Z) : string :=
  Js.str (Js.slice (Js.chars content) from to).

(** [pendingSymbols.length > 0 ? [...pendingSymbols] : undefined] *)
Definition symbolsField (pendingSymbols : list CodeSymbol) : option (list CodeSymbol) :=
  match pendingSymbols with
  | [] => None
  | _ => Some pendingSymbols
  end.

(** [flushPending()].  [None]: the text chunker ran out of fuel. *)
Definition flushPending (cc : t) (st : Pending) : option Pending :=
  if bool_decide (Js.strTrim (pendingContent st) = "") then
    Some {| results := results st; pendingContent := ""; pendingSymbols := [];
            cursor := cursor st |}
  else if TextChunker.chunkSize cc <? Js.strLength (pendingContent st) then
    subChunks ← TextChunker.chunk cc (pendingContent st);
    Some {| results :=
              results st
              ++ map (fun sub => {| cr_content := cr_content sub;
                                    cr_symbols := symbolsField (pendingSymbols st) |})
                     subChunks;
            pendingContent := ""; pendingSymbols := []; cursor := cursor st |}
  else
    Some {| results :=
              results st
              ++ [{| cr_content := Js.strTrim (pendingContent st);
                     cr_symbols := symbolsField (pendingSymbols st) |}];
            pendingContent := ""; pendingSymbols := []; cursor := cursor st |}.

(** [appendToPending(text)], on [pendingContent]. *)
Definition appendToPending (text : string) (st : Pending) : Pending :=
  {| results := results st;
     pendingContent :=
       if 0 <? Js.strLength (pendingContent st)
       then pendingContent st +:+ String Js.LF text
       else text;
     pendingSymbols := pendingSymbols st;
     cursor := cursor st |}.

(** "If adding this would exceed chunk size, flush first." *)
Definition flushIfOver (cc : t) (text : string) (st : Pending) : option Pending :=
  if (0 <? Js.strLength (pendingContent st))
     && (TextChunker.chunkSize cc <? Js.strLength (pendingContent st) + Js.strLength text + 1)
  then flushPending cc st
  else Some st.

(** One iteration of [for (const span of spans)]. *)
Definition spanStep (cc : t) (content : string) (st : Pending) (span : SymbolSpan)
  : option Pending :=
  st1 ← (if cursor st <? startIndex span then
           let gap := Js.strTrim (sliceOf content (cursor st) (startIndex span)) in
           if bool_decide (gap = "") then Some st
           else appendToPending gap <$> flushIfOver cc gap st
         else Some st);
  let symbolText := sliceOf content (startIndex span) (endIndex span) in
  if bool_decide (Js.strTrim symbolText = "") then
    Some {| results := results st1; pendingContent := pendingContent st1;
            pendingSymbols := pendingSymbols st1;
            cursor := Z.max (cursor st1) (endIndex span) |}
  else
    st2 ← appendToPending symbolText <$> flushIfOver cc symbolText st1;
    Some {| results := results st2; pendingContent := pendingContent st2;
            pendingSymbols := pendingSymbols st2 ++ [symbol span];
            cursor := Z.max (cursor st2) (endIndex span) |}.

Fixpoint spansLoop (cc : t) (content : string) (spans : list SymbolSpan) (st : Pending)
  : option Pending :=
  match spans with
  | [] => Some st
  | span :: rest => st' ← spanStep cc content st span; spansLoop cc content rest st'
  end.

(** "Cover trailing content after the last symbol": the chunks pushed. *)
Definition trailingChunks (cc : t) (content : string) (cursor : Z)
  : option (list ChunkResult) :=
  if cursor <? Js.strLength content then
    let trailing := Js.strTrim (sliceOf content cursor (Js.strLength content)) in
    if bool_decide (trailing = "") then Some []
    else map (fun chunk => {| cr_content := cr_content chunk; cr_symbols := None |})
           <$> TextChunker.chunk cc trailing
  else Some [].

(** [chunkWithAst(content, language)], from what the extractor did for the
    content and the language: it returned symbols, or threw ([None]). *)
Definition chunkWithAst (cc : t) (content : string)
    (extracted : option (list TreeSitterCodeSymbol)) : option (list ChunkResult) :=
  match extracted with
  | None => TextChunker.chunk cc content
  | Some symbols =>
      match extractSymbolsFromTreeSitterTs content symbols with
      | [] => TextChunker.chunk cc content
      | spans =>
          st ← spansLoop cc content spans
                 {| results := []; pendingContent := ""; pendingSymbols := []; cursor := 0 |};
          st' ← flushPending cc st;
          trailing ← trailingChunks cc content (cursor st');
          match results st' ++ trailing with
          | [] => TextChunker.chunk cc content
          | produced => Some (mergeSmallChunks produced)
          end
      end
  end.

End CodeChunker.

(** The symbols of a chunk, none when it has no list. *)
Definition symbolsOf (c : ChunkResult) : list CodeSymbol := default [] (cr_symbols c).

(** A chunk of at least [MIN_CHUNK_SIZE] characters. *)
Definition longEnough (c : ChunkResult) : Prop :=
  CodeChunker.MIN_CHUNK_SIZE <= Js.strLength (cr_content c).

(** A string with a character that is not white space. *)
Definition nonBlank (s : string) : Prop := Js.strTrim s <> "".

(** The symbol is in a chunk pushed already, or pending. *)
Definition kept (st : CodeChunker.Pending) (sym : CodeSymbol) : Prop :=
  sym ∈ concat (map symbolsOf (CodeChunker.results st))
  \/ sym ∈ CodeChunker.pendingSymbols st.

(** Pending symbols come with pending text that is not blank. *)
Definition pendingSound (st : CodeChunker.Pending) : Prop :=
  CodeChunker.pendingSymbols st <> [] -> nonBlank (CodeChunker.pendingContent st).

(** ** The health check of a folder (refreshHealth) *)

Module Health.
Import Indexer.

Definition HEALTH_REFRESH_INTERVAL_MS : float := 15000.

(** The drift fields of [cache.status] as [refreshHealth] assigns them. *)
Definition setDrift (added modified deleted : nat) (checkedAt : float) (s : RagStatus.t)
  : RagStatus.t :=
  {| RagStatus.folderPath := RagStatus.folderPath s;
     RagStatus.enabled := RagStatus.enabled s;
     RagStatus.phase := RagStatus.phase s;
     RagStatus.totalFiles := RagStatus.totalFiles s;
     RagStatus.filesToEmbed := RagStatus.filesToEmbed s;
     RagStatus.embeddedFiles := RagStatus.embeddedFiles s;
     RagStatus.skippedUnchanged := RagStatus.skippedUnchanged s;
     RagStatus.totalChunks := RagStatus.totalChunks s;
     RagStatus.dbSizeBytes := RagStatus.dbSizeBytes s;
     RagStatus.lastIndexedAt := RagStatus.lastIndexedAt s;
     RagStatus.fileChangeDrift := added + modified + deleted;
     RagStatus.driftAddedFiles := added;
     RagStatus.driftModifiedFiles := modified;
     RagStatus.driftDeletedFiles := deleted;
     RagStatus.driftCheckedAt := Some checkedAt;
     RagStatus.message := RagStatus.message s |}.

(** [cache.status.totalFiles = candidates.length] *)
Definition setTotalFiles (totalFiles : nat) (s : RagStatus.t) : RagStatus.t :=
  {| RagStatus.folderPath := RagStatus.folderPath s;
     RagStatus.enabled := RagStatus.enabled s;
     RagStatus.phase := RagStatus.phase s;
     RagStatus.totalFiles := totalFiles;
     RagStatus.filesToEmbed := RagStatus.filesToEmbed s;
     RagStatus.embeddedFiles := RagStatus.embeddedFiles s;
     RagStatus.skippedUnchanged := RagStatus.skippedUnchanged s;
     RagStatus.totalChunks := RagStatus.totalChunks s;
     RagStatus.dbSizeBytes := RagStatus.dbSizeBytes s;
     RagStatus.lastIndexedAt := RagStatus.lastIndexedAt s;
     RagStatus.fileChangeDrift := RagStatus.fileChangeDrift s;
     RagStatus.driftAddedFiles := RagStatus.driftAddedFiles s;
     RagStatus.driftModifiedFiles := RagStatus.driftModifiedFiles s;
     RagStatus.driftDeletedFiles := RagStatus.driftDeletedFiles s;
     RagStatus.driftCheckedAt := RagStatus.driftCheckedAt s;
     RagStatus.message := RagStatus.message s |}.

(** The loop over the candidates: [(driftAddedFiles, driftModifiedFiles)]. *)
Definition countChanged (c : FolderCache.t) (candidates : list CandidateFile.t) : nat * nat :=
  foldl (fun acc file =>
           match JsMap.get (CandidateFile.relativePath file) (FolderCache.fileStates c) with
           | None => (S acc.1, acc.2)
           | Some previous =>
               if negb (PrimFloat.eqb (RagFileState.modifiedAt previous)
                          (CandidateFile.modifiedAt file))
                  || negb (PrimFloat.eqb (RagFileState.size previous) (CandidateFile.size file))
               then (acc.1, S acc.2)
               else acc
           end)
        (0, 0)%nat candidates.

(** The loop over the tracked paths: [driftDeletedFiles]. *)
Definition countDeleted (c : FolderCache.t) (candidates : list CandidateFile.t) : nat :=
  foldl (fun n trackedFilePath =>
           if bool_decide (trackedFilePath ∈ map CandidateFile.relativePath candidates)
           then n else S n)
        0%nat (JsMap.keys (FolderCache.fileStates c)).

(** The scan of the health check: no [maxFileSize] is passed. *)
Definition healthScan (env : Env) (c : FolderCache.t) : Exn + list CandidateFile.t :=
  scanDirectory env (FolderCache.folderPath c)
    (RagFolderConfig.includeExtensions (FolderCache.config c))
    (RagFolderConfig.excludeFolders (FolderCache.config c))
    None.

(** [cache.status.driftCheckedAt && now - cache.status.driftCheckedAt <
    HEALTH_REFRESH_INTERVAL_MS] *)
Definition checkedLately (now : float) (s : RagStatus.t) : bool :=
  match RagStatus.driftCheckedAt s with
  | Some checkedAt =>
      truthyNumber checkedAt
      && PrimFloat.ltb (PrimFloat.sub now checkedAt) HEALTH_REFRESH_INTERVAL_MS
  | None => false
  end.

(** [!cache.config.enabled || phase === "scanning" || phase === "embedding"] *)
Definition notWatched (c : FolderCache.t) : bool :=
  negb (RagFolderConfig.enabled (FolderCache.config c))
  || match RagStatus.phase (FolderCache.status c) with
     | PhaseScanning | PhaseEmbedding => true
     | _ => false
     end.

(** [refreshHealth(cache)], no other health check running.  The staleness
    fields [updateStaleness] writes are not part of the status modelled. *)
Definition refreshHealth (env : Env) : M unit :=
  ensurePersistedLoaded env ;;;
  c <- getCache ;;
  if notWatched c then
    t <- now env ;;
    modifyCache (setStatus (setDrift 0 0 0 t))
  else
    t <- now env ;;
    if checkedLately t (FolderCache.status c) then ret tt
    else
      suspend ;;;
      c1 <- getCache ;;
      match healthScan env c with
      | inr candidates =>
          let changed := countChanged c1 candidates in
          let driftDeletedFiles := countDeleted c1 candidates in
          t' <- now env ;;
          modifyCache (setStatus (fun s =>
            setTotalFiles (length candidates)
              (setDrift changed.1 changed.2 driftDeletedFiles t' s)))
      | inl _ =>
          t' <- now env ;;
          modifyCache (setStatus (setDrift 0 0 0 t'))
      end ;;;
      suspend.

End Health.

(** What the health check is to see: the candidates, unless the scan
    fails. *)
Definition seesOnly (candidates : list CandidateFile.t)
    (scan : Exn + list CandidateFile.t) : Prop :=
  match scan with
  | inr seen => seen = candidates
  | inl _ => True
  end.

(** The four drift counts of a status are zero. *)
Definition noDrift (s : RagStatus.t) : Prop :=
  RagStatus.fileChangeDrift s = 0%nat /\ RagStatus.driftAddedFiles s = 0%nat
  /\ RagStatus.driftModifiedFiles s = 0%nat /\ RagStatus.driftDeletedFiles s = 0%nat.

(** The cache is marked as loaded in both or in neither. *)
Definition sameLoaded (c c' : FolderCache.t) : Prop :=
  FolderCache.persistedLoaded c' = FolderCache.persistedLoaded c.

(** * Properties *)

(** ** String primitives *)

Section JsFacts.
Import Js.

Lemma trimStart_length l : (length (trimStart l) <= length l)%nat.
Proof. induction l as [|c t IH]; simpl; [lia|]. destruct (isWhiteSpace c); simpl; lia. Qed.

Lemma trimStart_head l :
  trimStart l = [] \/ exists c t, trimStart l = c :: t /\ isWhiteSpace c = false.
Proof.
  induction l as [|c t IH]; simpl; [by left|].
  destruct (isWhiteSpace c) eqn:E; [done|]. right. by exists c, t.
Qed.

Lemma trimStart_fix c t : isWhiteSpace c = false -> trimStart (c :: t) = c :: t.
Proof. intros H. simpl. by rewrite H. Qed.

Lemma trimStart_idem l : trimStart (trimStart l) = trimStart l.
Proof.
  destruct (trimStart_head l) as [->|(c & t & -> & H)]; [done|].
  by apply trimStart_fix.
Qed.

Lemma trimStart_app_keep l c t :
  isWhiteSpace c = false -> exists p, trimStart (l ++ c :: t) = p ++ c :: t.
Proof.
  intros H. induction l as [|a l IH]; simpl.
  - rewrite H. by exists [].
  - destruct (isWhiteSpace a); [done|]. by exists (a :: l).
Qed.

Lemma trimEnd_length l : (length (trimEnd l) <= length l)%nat.
Proof.
  unfold trimEnd. rewrite length_rev.
  etrans; [apply trimStart_length|]. by rewrite length_rev.
Qed.

Lemma trimEnd_idem l : trimEnd (trimEnd l) = trimEnd l.
Proof. unfold trimEnd. by rewrite rev_involutive, trimStart_idem. Qed.

Lemma trimEnd_keeps_head c t :
  isWhiteSpace c = false -> exists t', trimEnd (c :: t) = c :: t'.
Proof.
  intros H. unfold trimEnd. simpl.
  destruct (trimStart_app_keep (rev t) c [] H) as [p ->].
  rewrite rev_app_distr. simpl. by eexists.
Qed.

Lemma trimEnd_snoc_ws l c : isWhiteSpace c = true -> trimEnd (l ++ [c]) = trimEnd l.
Proof. intros H. unfold trimEnd. rewrite rev_app_distr. simpl. by rewrite H. Qed.

Lemma trim_length l : (length (trim l) <= length l)%nat.
Proof. unfold trim. etrans; [apply trimEnd_length|apply trimStart_length]. Qed.

Lemma trim_head l :
  trim l = [] \/ exists c t, trim l = c :: t /\ isWhiteSpace c = false.
Proof.
  unfold trim. destruct (trimStart_head l) as [->|(c & t & -> & H)]; [by left|].
  destruct (trimEnd_keeps_head c t H) as [t' ->]. right. by exists c, t'.
Qed.

Lemma trim_idem l : trim (trim l) = trim l.
Proof.
  destruct (trim_head l) as [->|(c & t & E & H)]; [done|].
  unfold trim at 1. rewrite E, (trimStart_fix _ _ H), <- E.
  unfold trim. apply trimEnd_idem.
Qed.

Lemma trim_nonempty c t : isWhiteSpace c = false -> trim (c :: t) <> [].
Proof.
  intros H. unfold trim. rewrite (trimStart_fix _ _ H).
  by destruct (trimEnd_keeps_head c t H) as [t' ->].
Qed.

Lemma trimStart_snoc_ws l c :
  isWhiteSpace c = true ->
  trimStart (l ++ [c]) = [] \/
  exists s, trimStart (l ++ [c]) = s ++ [c] /\ (length s <= length l)%nat.
Proof.
  intros H. induction l as [|a l IH]; simpl.
  - rewrite H. by left.
  - destruct (isWhiteSpace a).
    + destruct IH as [->|(s & -> & Hs)]; [by left|]. right. exists s. split; [done|lia].
    + right. by exists (a :: l).
Qed.

Lemma trim_snoc_ws_length l c :
  isWhiteSpace c = true -> (length (trim (l ++ [c])) <= length l)%nat.
Proof.
  intros H. unfold trim.
  destruct (trimStart_snoc_ws l c H) as [->|(s & -> & Hs)]; [simpl; lia|].
  rewrite (trimEnd_snoc_ws _ _ H). etrans; [apply trimEnd_length|done].
Qed.

Lemma isWhiteSpace_LF : isWhiteSpace LF = true.
Proof. reflexivity. Qed.

Lemma slice_length {A} (l : list A) a b :
  0 <= a -> a <= b -> b <= Z.of_nat (length l) ->
  Z.of_nat (length (slice l a b)) = b - a.
Proof.
  intros Ha Hab Hb. unfold slice.
  destruct (Z.ltb_spec a 0); [lia|]. destruct (Z.ltb_spec b 0); [lia|].
  rewrite !Z.min_l by lia. rewrite length_take, length_drop.
  rewrite Nat.min_l by lia. lia.
Qed.

Lemma slice_length_le {A} (l : list A) a b :
  0 <= a -> 0 <= b -> Z.of_nat (length (slice l a b)) <= Z.max 0 (b - a).
Proof.
  intros Ha Hb. unfold slice.
  destruct (Z.ltb_spec a 0); [lia|]. destruct (Z.ltb_spec b 0); [lia|].
  rewrite length_take, length_drop.
  pose proof (Nat.le_min_l
                (Z.to_nat (Z.min b (Z.of_nat (length l)) - Z.min a (Z.of_nat (length l))))
                (length l - Z.to_nat (Z.min a (Z.of_nat (length l))))).
  lia.
Qed.

Lemma slice_snoc {A} (l : list A) a k x :
  0 <= a -> a <= Z.of_nat k -> l !! k = Some x ->
  slice l a (Z.of_nat k + 1) = slice l a (Z.of_nat k) ++ [x].
Proof.
  intros Ha Hak Hx. pose proof (lookup_lt_Some _ _ _ Hx) as Hlt. unfold slice.
  destruct (Z.ltb_spec a 0); [lia|].
  destruct (Z.ltb_spec (Z.of_nat k + 1) 0); [lia|].
  destruct (Z.ltb_spec (Z.of_nat k) 0); [lia|].
  rewrite !Z.min_l by lia.
  replace (Z.to_nat (Z.of_nat k + 1 - a)) with (S (Z.to_nat (Z.of_nat k - a))) by lia.
  erewrite take_S_r; [done|].
  rewrite lookup_drop. rewrite <- Hx. f_equal. lia.
Qed.

Lemma slice_from_0_head {A} (c : A) t b : 1 <= b -> exists t', slice (c :: t) 0 b = c :: t'.
Proof.
  intros Hb. unfold slice. change (0 <? 0) with false. cbv iota zeta.
  destruct (Z.ltb_spec b 0); [lia|].
  assert (Hn : 1 <= Z.of_nat (length (c :: t))) by (simpl length; lia).
  replace (Z.min 0 (Z.of_nat (length (c :: t)))) with 0 by lia.
  change (Z.to_nat 0) with 0%nat. rewrite drop_0.
  assert (E : exists m, Z.to_nat (Z.min b (Z.of_nat (length (c :: t))) - 0) = S m)
    by (exists (Z.to_nat (Z.min b (Z.of_nat (length (c :: t))) - 1)); lia).
  destruct E as [m ->]. simpl. by eexists.
Qed.

Lemma lastIndexFrom_spec l c k :
  lastIndexFrom l c k = -1 \/
  exists i, lastIndexFrom l c k = Z.of_nat i /\ (i <= k)%nat /\ l !! i = Some c.
Proof.
  induction k as [|k IH]; simpl.
  - destruct (l !! 0%nat) as [x|] eqn:E; [|by left].
    destruct (Ascii.eqb_spec x c) as [->|]; [|by left]. right. by exists 0%nat.
  - destruct (l !! S k) as [x|] eqn:E.
    + destruct (Ascii.eqb_spec x c) as [->|].
      * right. by exists (S k).
      * destruct IH as [->|(i & -> & ? & ?)]; [by left|]. right. exists i. eauto with lia.
    + destruct IH as [->|(i & -> & ? & ?)]; [by left|]. right. exists i. eauto with lia.
Qed.

Lemma lastIndexOf_spec l c pos :
  lastIndexOf l c pos = -1 \/
  exists i, lastIndexOf l c pos = Z.of_nat i /\ Z.of_nat i <= Z.max pos 0 /\ l !! i = Some c.
Proof.
  unfold lastIndexOf. destruct (Z.eqb_spec (Z.of_nat (length l)) 0); [by left|].
  destruct (lastIndexFrom_spec l c (Z.to_nat (Z.min (Z.max pos 0) (Z.of_nat (length l) - 1))))
    as [->|(i & -> & Hi & Hl)]; [by left|].
  right. exists i. split; [done|]. split; [lia|done].
Qed.

End JsFacts.

(** ** Texts: white space at the ends, line ends *)

Section TextFacts.
Import Js.

Lemma chars_append a b : chars (a +:+ b) = chars a ++ chars b.
Proof. unfold chars. induction a as [|x a IH]; [done|]. cbn. by rewrite <- IH. Qed.

Lemma chars_str l : chars (str l) = l.
Proof. apply list_ascii_of_string_of_list_ascii. Qed.

Lemma str_chars s : str (chars s) = s.
Proof. apply string_of_list_ascii_of_string. Qed.

Lemma str_app a b : str (a ++ b) = str a +:+ str b.
Proof. unfold str. induction a as [|x a IH]; [done|]. cbn. by rewrite IH. Qed.

Lemma str_nil l : str l = "" -> l = [].
Proof. by destruct l. Qed.

Lemma trim_cons_ws c l : isWhiteSpace c = true -> trim (c :: l) = trim l.
Proof. intros H. unfold trim. cbn [trimStart]. by rewrite H. Qed.

Lemma trim_nonempty_iff l :
  trim l <> [] <-> Exists (fun c => isWhiteSpace c = false) l.
Proof.
  induction l as [|c l IH].
  - split; [done|]. by intros H%Exists_nil.
  - destruct (isWhiteSpace c) eqn:E.
    + rewrite trim_cons_ws, IH, Exists_cons by done.
      split; [by right|]. intros [H|H]; [congruence|done].
    + split; [intros _; by apply Exists_cons_hd|]. intros _. by apply trim_nonempty.
Qed.

(** [trim] gives the empty text exactly on white space. *)
Lemma trim_blank l : trim l = [] <-> blank l.
Proof.
  unfold blank. split.
  - intros H. apply Forall_forall. intros c Hc.
    destruct (isWhiteSpace c) eqn:E; [done|]. exfalso.
    apply (proj2 (trim_nonempty_iff l)); [|done]. apply Exists_exists. by exists c.
  - intros H. destruct (trim l) as [|x t] eqn:E; [done|]. exfalso.
    assert (Hne : trim l <> []) by (by rewrite E).
    apply trim_nonempty_iff, Exists_exists in Hne as (c & Hc & Hw).
    rewrite Forall_forall in H. specialize (H c Hc). congruence.
Qed.

Lemma trimStart_blank l : blank l -> trimStart l = [].
Proof. induction 1 as [|c l Hc _ IH]; [done|]. cbn. by rewrite Hc. Qed.

Lemma trimStart_app l r :
  trimStart (l ++ r) = match trimStart l with [] => trimStart r | kept => kept ++ r end.
Proof.
  induction l as [|c l IH]; [done|]. cbn. destruct (isWhiteSpace c); [done|]. done.
Qed.

Lemma trim_snoc_ws l c : isWhiteSpace c = true -> trim (l ++ [c]) = trim l.
Proof.
  intros H. unfold trim. rewrite trimStart_app.
  destruct (trimStart l) as [|x t] eqn:E.
  - cbn. by rewrite H.
  - by rewrite trimEnd_snoc_ws.
Qed.

Lemma trim_app_blank l post : blank post -> trim (l ++ post) = trim l.
Proof.
  induction post as [|c post IH] using rev_ind; intros H; [by rewrite app_nil_r|].
  apply Forall_app in H as [Hp Hc]. apply Forall_cons in Hc as [Hc _].
  rewrite app_assoc, trim_snoc_ws by done. by apply IH.
Qed.

Lemma trimStart_split l : exists pre, blank pre /\ l = pre ++ trimStart l.
Proof.
  induction l as [|c l (pre & Hpre & E)]; [exists []; split; [constructor|done]|]. cbn.
  destruct (isWhiteSpace c) eqn:Hc.
  - exists (c :: pre). split; [by constructor|]. cbn. by rewrite <- E.
  - exists []. split; [constructor|done].
Qed.

Lemma trimEnd_split l : exists post, blank post /\ l = trimEnd l ++ post.
Proof.
  destruct (trimStart_split (rev l)) as (pre & Hpre & E). exists (rev pre).
  split; [by apply Forall_rev|]. unfold trimEnd.
  by rewrite <- rev_app_distr, <- E, rev_involutive.
Qed.

Lemma last_rev {A} (l : list A) : last (rev l) = head l.
Proof. destruct l as [|x l]; [done|]. cbn. apply last_snoc. Qed.

Lemma trimEnd_last l c : last (trimEnd l) = Some c -> isWhiteSpace c = false.
Proof.
  unfold trimEnd. rewrite last_rev.
  destruct (trimStart_head (rev l)) as [->|(x & t & -> & Hx)]; [done|]. by intros [= <-].
Qed.

(** [trim] takes the white space at the two ends away, and nothing else. *)
Lemma trim_stripped l : stripped l (trim l).
Proof.
  split; [split|].
  - intros c Hc. destruct (trim_head l) as [E|(x & t & E & Hx)]; rewrite E in Hc; [done|].
    by injection Hc as <-.
  - intros c. apply trimEnd_last.
  - destruct (trimStart_split l) as (pre & Hpre & E1).
    destruct (trimEnd_split (trimStart l)) as (post & Hpost & E2).
    exists pre, post. split_and!; [done|done|]. unfold trim. by rewrite <- E2.
Qed.

Lemma replaceCrLf_step c1 c2 t :
  replaceCrLf (c1 :: c2 :: t)
  = if Ascii.eqb c1 CR && Ascii.eqb c2 LF then LF :: replaceCrLf t
    else c1 :: replaceCrLf (c2 :: t).
Proof. done. Qed.

Lemma replaceCrLf_nonblank n : forall l,
  (length l <= n)%nat ->
  Exists (fun c => isWhiteSpace c = false) l ->
  Exists (fun c => isWhiteSpace c = false) (replaceCrLf l).
Proof.
  induction n as [|n IH]; intros l Hn H.
  { destruct l; [done|cbn in Hn; lia]. }
  destruct l as [|c1 [|c2 t]]; [done|done|]. rewrite replaceCrLf_step.
  destruct (Ascii.eqb c1 CR && Ascii.eqb c2 LF) eqn:E.
  - apply andb_prop in E as [->%Ascii.eqb_eq ->%Ascii.eqb_eq].
    apply Exists_cons_tl, IH; [cbn in Hn |- *; lia|].
    apply Exists_cons in H as [H|H]; [done|]. by apply Exists_cons in H as [H|H].
  - apply Exists_cons in H as [H|H]; [by apply Exists_cons_hd|].
    apply Exists_cons_tl, IH; [cbn in Hn |- *; lia|done].
Qed.

(** A character in front stays in front, unless it is the CR of a CR LF. *)
Lemma replaceCrLf_cons c l :
  replaceCrLf (c :: l) = c :: replaceCrLf l \/ replaceCrLf (c :: l) = replaceCrLf l.
Proof.
  destruct l as [|c2 t]; [by left|]. rewrite replaceCrLf_step.
  destruct (Ascii.eqb c CR && Ascii.eqb c2 LF) eqn:E; [|by left].
  right. apply andb_prop in E as [_ ->%Ascii.eqb_eq]. by destruct t.
Qed.

Lemma replaceCrLf_keeps_blank l : blank l -> blank (replaceCrLf l).
Proof.
  induction 1 as [|c l Hc Hl IH]; [constructor|].
  destruct (replaceCrLf_cons c l) as [-> | ->]; [by constructor|done].
Qed.

Lemma replaceCrLf_blank l : blank (replaceCrLf l) <-> blank l.
Proof.
  split.
  - intros H. apply trim_blank. destruct (trim l) as [|x t] eqn:E; [done|]. exfalso.
    assert (Hne : trim l <> []) by (by rewrite E).
    apply trim_nonempty_iff, (replaceCrLf_nonblank (length l)), trim_nonempty_iff in Hne;
      [|done].
    by apply Hne, trim_blank.
  - apply replaceCrLf_keeps_blank.
Qed.

(** The replacement works on the two parts of a text apart, unless the cut
    goes through a CR LF. *)
Lemma replaceCrLf_app n : forall a b,
  (length a <= n)%nat ->
  last a <> Some CR \/ head b <> Some LF ->
  replaceCrLf (a ++ b) = replaceCrLf a ++ replaceCrLf b.
Proof.
  induction n as [|n IH]; intros a b Hn Hcut.
  { destruct a; [done|cbn in Hn; lia]. }
  destruct a as [|c1 [|c2 a]]; [done| |].
  - destruct b as [|c2 b]; [done|]. cbn [app]. rewrite replaceCrLf_step.
    destruct (Ascii.eqb c1 CR && Ascii.eqb c2 LF) eqn:E; [|done].
    apply andb_prop in E as [->%Ascii.eqb_eq ->%Ascii.eqb_eq]. by destruct Hcut.
  - cbn [app]. rewrite !replaceCrLf_step.
    destruct (Ascii.eqb c1 CR && Ascii.eqb c2 LF).
    + cbn [app]. f_equal. destruct a as [|c3 a]; [done|].
      apply IH; [cbn in Hn |- *; lia|]. destruct Hcut as [H|H]; [left|by right].
      by rewrite !last_cons_cons in H.
    + cbn [app]. f_equal. change (c2 :: a ++ b) with ((c2 :: a) ++ b).
      apply IH; [cbn in Hn |- *; lia|]. destruct Hcut as [H|H]; [left|by right].
      by rewrite last_cons_cons in H.
Qed.

Lemma trim_replaceCrLf_cons c l :
  isWhiteSpace c = true -> trim (replaceCrLf (c :: l)) = trim (replaceCrLf l).
Proof.
  intros H. destruct (replaceCrLf_cons c l) as [-> | ->]; [by apply trim_cons_ws|done].
Qed.

Lemma trim_replaceCrLf_snoc l c :
  isWhiteSpace c = true -> trim (replaceCrLf (l ++ [c])) = trim (replaceCrLf l).
Proof.
  intros H. destruct (decide (last l = Some CR /\ c = LF)) as [[Hl ->]|Hn].
  - apply last_Some in Hl as [l' ->]. rewrite <- app_assoc. cbn [app].
    rewrite (replaceCrLf_app (length l') l' [CR; LF]), (replaceCrLf_app (length l') l' [CR])
      by (done || by right).
    change (replaceCrLf [CR; LF]) with [LF]. change (replaceCrLf [CR]) with [CR].
    by rewrite !trim_snoc_ws.
  - rewrite (replaceCrLf_app (length l)); [by apply trim_snoc_ws|done|].
    destruct (decide (last l = Some CR)) as [Hl|Hl]; [|by left]. right.
    intros [= ->]. by apply Hn.
Qed.

(** White space around a text does not change what is left of it. *)
Lemma trim_replaceCrLf_padded pre l post :
  blank pre -> blank post ->
  trim (replaceCrLf (pre ++ l ++ post)) = trim (replaceCrLf l).
Proof.
  intros Hpre Hpost. induction Hpre as [|c pre Hc _ IH].
  - cbn [app]. clear -Hpost. induction post as [|c post IH] using rev_ind.
    + by rewrite app_nil_r.
    + apply Forall_app in Hpost as [Hp Hc]. apply Forall_cons in Hc as [Hc _].
      rewrite app_assoc, trim_replaceCrLf_snoc by done. by apply IH.
  - cbn [app]. by rewrite trim_replaceCrLf_cons.
Qed.

Lemma lfToCrLf_head l : head (lfToCrLf l) <> Some LF.
Proof. destruct l as [|c l]; [done|]. cbn. by destruct (Ascii.eqb_spec c LF); [|intros [= ?]]. Qed.

(** A text written with CR LF line ends is read back as it was. *)
Lemma replaceCrLf_lfToCrLf l : replaceCrLf (lfToCrLf l) = l.
Proof.
  induction l as [|c l IH]; [done|]. cbn [lfToCrLf].
  destruct (Ascii.eqb_spec c LF) as [->|Hc].
  - rewrite replaceCrLf_step. cbn. by rewrite IH.
  - pose proof (lfToCrLf_head l) as Hh. destruct (lfToCrLf l) as [|c2 t] eqn:E.
    + cbn in IH. by subst l.
    + rewrite replaceCrLf_step.
      destruct (Ascii.eqb_spec c2 LF) as [->|Hc2]; [done|].
      by rewrite andb_false_r, IH.
Qed.

(** A text without carriage returns is left as it is. *)
Lemma replaceCrLf_noCR l : CR ∉ l -> replaceCrLf l = l.
Proof.
  induction l as [|c l IH]; [done|]. intros H. apply not_elem_of_cons in H as [Hc Hl].
  destruct l as [|c2 t]; [done|]. rewrite replaceCrLf_step.
  destruct (Ascii.eqb_spec c CR) as [->|_]; [done|]. cbn [andb]. by rewrite IH.
Qed.

End TextFacts.

(** ** TextChunker *)

Section TextChunkerFacts.
Import TextChunker.

Variable tc : TextChunker.t.
Variable cl : list ascii.
Hypothesis size_pos : 1 <= chunkSize tc.

Lemma windowEnd_bounds start :
  0 <= start < Z.of_nat (length cl) ->
  start < windowEnd tc cl start <= Z.of_nat (length cl) /\
  Z.of_nat (length (windowText cl (start, windowEnd tc cl start))) <= chunkSize tc.
Proof.
  intros Hs. unfold windowText, windowEnd. cbn [fst snd].
  set (len := Z.of_nat (length cl)) in *.
  destruct (Z.ltb_spec (Z.min len (start + chunkSize tc)) len) as [Hlt|Hge].
  - rewrite Z.min_r in * by lia.
    assert (Hplain :
      start < start + chunkSize tc <= len /\
      Z.of_nat (length (Js.trim (Js.slice cl start (start + chunkSize tc)))) <= chunkSize tc).
    { split; [lia|]. pose proof (trim_length (Js.slice cl start (start + chunkSize tc))).
      pose proof (slice_length cl start (start + chunkSize tc)). lia. }
    destruct (lastIndexOf_spec cl Js.LF (start + chunkSize tc)) as [->|(i & -> & Hi & Hl)].
    + destruct (Z.geb_spec (-1) (Z.max start (start + chunkSize tc - searchBack tc))); [lia|done].
    + destruct (Z.geb_spec (Z.of_nat i) (Z.max start (start + chunkSize tc - searchBack tc)));
        [|done].
      pose proof (lookup_lt_Some _ _ _ Hl). split; [lia|].
      rewrite (slice_snoc cl start i Js.LF) by (done || lia).
      pose proof (trim_snoc_ws_length (Js.slice cl start (Z.of_nat i)) Js.LF isWhiteSpace_LF).
      pose proof (slice_length cl start (Z.of_nat i)). lia.
  - split; [lia|].
    pose proof (trim_length (Js.slice cl start (Z.min len (start + chunkSize tc)))).
    pose proof (slice_length cl start (Z.min len (start + chunkSize tc))). lia.
Qed.

Lemma windows_spec fuel start ws :
  0 <= start ->
  windows fuel tc cl start = Some ws ->
  (forall w, head ws = Some w -> fst w = start) /\
  (start < Z.of_nat (length cl) -> ws <> []) /\
  Forall (window_ok tc cl) ws /\ chained tc ws.
Proof.
  revert start ws. induction fuel as [|fuel IH]; intros start ws Hs; simpl; [done|].
  destruct (Z.ltb_spec start (Z.of_nat (length cl))) as [Hlt|Hge].
  - destruct (windowEnd_bounds start) as [Hb Hlen]; [lia|].
    assert (Hw : window_ok tc cl (start, windowEnd tc cl start)) by (repeat split; simpl; lia).
    destruct (Z.geb_spec (windowEnd tc cl start) (Z.of_nat (length cl))) as [Hend|Hend].
    + intros [= <-]. split_and!.
      * by intros w [= <-].
      * done.
      * by constructor.
      * intros [|i] w1 w2 H1 H2; simpl in *; done.
    + destruct (windows fuel tc cl _) as [rest|] eqn:E; [|done].
      intros [= <-]. apply IH in E as (Hh & _ & Hf & Hc); [|lia].
      split_and!.
      * by intros w [= <-].
      * done.
      * by constructor.
      * intros [|i] w1 w2 H1 H2; simpl in *.
        -- injection H1 as <-. simpl. apply Hh. by destruct rest.
        -- by eapply Hc.
  - intros [= <-]. split_and!; [done|lia|done|by intros [|] ???].
Qed.

End TextChunkerFacts.

Lemma windows_total tc cl fuel start :
  (Z.to_nat (Z.of_nat (length cl) - start) < fuel)%nat ->
  is_Some (TextChunker.windows fuel tc cl start).
Proof.
  revert start. induction fuel as [|fuel IH]; intros start Hf; simpl; [lia|].
  destruct (Z.ltb_spec start (Z.of_nat (length cl))); [|done].
  destruct (Z.geb_spec (TextChunker.windowEnd tc cl start) (Z.of_nat (length cl))); [done|].
  destruct (IH (Z.max (start + 1)
                  (TextChunker.windowEnd tc cl start - TextChunker.chunkOverlap tc)))
    as [rest ->]; [lia|done].
Qed.

Lemma emit_elem cl ws c :
  c ∈ TextChunker.emit cl ws ->
  exists w, w ∈ ws /\ TextChunker.windowText cl w <> [] /\
            c = {| cr_content := Js.str (TextChunker.windowText cl w); cr_symbols := None |}.
Proof.
  unfold TextChunker.emit. rewrite list_elem_of_omap. intros (w & Hw & Hc).
  exists w. split; [done|]. destruct (TextChunker.windowText cl w); [done|].
  injection Hc as <-. done.
Qed.

(** The chunker reads its input through [clean] only. *)
Lemma chunk_clean tc a b :
  TextChunker.clean a = TextChunker.clean b -> TextChunker.chunk tc a = TextChunker.chunk tc b.
Proof. unfold TextChunker.chunk. by intros ->. Qed.

(** A chunk is pushed for every window that holds more than white space,
    in the order of the windows. *)
Lemma emit_pushed cl ws :
  Forall2 (chunkOfWindow cl) (TextChunker.emit cl ws) (pushedWindows cl ws).
Proof.
  unfold TextChunker.emit, pushedWindows.
  induction ws as [|w ws IH]; [constructor|]. cbn [omap list_omap].
  destruct (TextChunker.windowText cl w) as [|x t] eqn:E.
  - rewrite filter_cons_False; [done|]. intros H. apply H. by apply trim_blank.
  - rewrite filter_cons_True.
    + constructor; [|done]. split; [done|]. cbn [cr_content]. rewrite chars_str, <- E.
      apply trim_stripped.
    + intros H%trim_blank. unfold TextChunker.windowText in E. congruence.
Qed.

(** C7, counterexample.  With a chunk size of 2 and no overlap the text
    [a    b] is cut into the windows (0,2), (2,4) and (4,6); the second holds
    white space only and no chunk is pushed for it, so the second chunk
    starts at 4, which is not [max(0 + 1, 2 - 0)].  With a chunk size of 0
    every window is empty: the list returned for [a] is empty although the
    input is not. *)
Lemma chunk_starts_skip_blank_windows :
  TextChunker.chunk {| TextChunker.chunkSize := 2; TextChunker.chunkOverlap := 0 |} "a    b"
  = Some [ {| cr_content := "a"; cr_symbols := None |};
           {| cr_content := "b"; cr_symbols := None |} ]
  /\ TextChunker.windows 7 {| TextChunker.chunkSize := 2; TextChunker.chunkOverlap := 0 |}
       (TextChunker.clean "a    b") 0
     = Some [(0, 2); (2, 4); (4, 6)]
  /\ pushedWindows (TextChunker.clean "a    b") [(0, 2); (2, 4); (4, 6)] = [(0, 2); (4, 6)]
  /\ ~ chained {| TextChunker.chunkSize := 2; TextChunker.chunkOverlap := 0 |}
        [(0, 2); (4, 6)]
  /\ TextChunker.chunk {| TextChunker.chunkSize := 0; TextChunker.chunkOverlap := 0 |} "a"
     = Some []
  /\ ~ blank (Js.chars "a").
Proof.
  split_and!; [by vm_compute|by vm_compute|by vm_compute| |by vm_compute|].
  - intros H. specialize (H 0%nat (0, 2) (4, 6) eq_refl eq_refl). cbn in H. lia.
  - intros H. apply Forall_cons in H as [H _]. by vm_compute in H.
Qed.

(** C7, amended.  For a chunker whose [chunkSize] is at least one
    character, [chunk] returns, and what it returns is the same when white
    space is put around the input and when an input without carriage
    returns is written with CR LF line ends.  It returns the empty list
    exactly when the input is empty or white space only.  The windows of the
    loop are cut from the input with CR LF read as LF and without the white
    space at its ends; the first starts at 0 and each later one at
    [max(prevStart + 1, prevEnd - chunkOverlap)].  A chunk is pushed for every
    window that holds more than white space, in their order: the text of
    the window without the white space at its ends, so that it is not empty,
    neither starts nor ends with white space, and has at most [chunkSize]
    characters. *)
Theorem text_chunker_contract (tc : TextChunker.t) (content : string) :
  1 <= TextChunker.chunkSize tc ->
  exists (cl : list ascii) (ws : list (Z * Z)) (chunks : list ChunkResult),
    TextChunker.chunk tc content = Some chunks
    /\ (chunks = [] <-> blank (Js.chars content))
    /\ (forall pre post, blank pre -> blank post ->
          TextChunker.chunk tc (Js.str (pre ++ Js.chars content ++ post)) = Some chunks)
    /\ (Js.CR ∉ Js.chars content ->
          TextChunker.chunk tc (Js.str (lfToCrLf (Js.chars content))) = Some chunks)
    /\ stripped (Js.replaceCrLf (Js.chars content)) cl
    /\ TextChunker.windows (S (length cl)) tc cl 0 = Some ws
    /\ (forall w, head ws = Some w -> fst w = 0)
    /\ chained tc ws
    /\ Forall2 (chunkOfWindow cl) chunks (pushedWindows cl ws)
    /\ Forall (fun c => edgesKept (Js.chars (cr_content c))
                        /\ cr_content c <> ""
                        /\ Js.strTrim (cr_content c) = cr_content c
                        /\ Js.strLength (cr_content c) <= TextChunker.chunkSize tc) chunks.
Proof.
  intros Hsize. remember (TextChunker.clean content) as cl eqn:Ecl.
  destruct (windows_total tc cl (S (length cl)) 0) as [ws Hws]; [lia|].
  destruct (windows_spec tc cl Hsize _ _ _ (Z.le_refl 0) Hws) as (Hh & Hne & Hf & Hc).
  exists cl, ws, (TextChunker.emit cl ws).
  assert (Hchunk : TextChunker.chunk tc content = Some (TextChunker.emit cl ws)).
  { unfold TextChunker.chunk. rewrite <- Ecl. destruct cl; [|by rewrite Hws].
    simpl in Hws. by injection Hws as <-. }
  assert (Hempty : TextChunker.emit cl ws = [] <-> cl = []).
  { split.
    - intros Hemp. destruct cl as [|c t]; [done|]. exfalso.
      destruct ws as [|w ws'].
      { apply Hne; [simpl length; lia|done]. }
      apply Forall_cons in Hf as [(Hw1 & Hw2 & _) _].
      pose proof (Hh w eq_refl) as H0.
      destruct (trim_head (Js.replaceCrLf (Js.chars content)))
        as [Ht|(c' & t' & Ht & Hc')]; [unfold TextChunker.clean in Ecl; congruence|].
      assert (c' = c /\ t' = t) as [-> ->]
        by (unfold TextChunker.clean in Ecl; rewrite Ht in Ecl; by injection Ecl).
      unfold TextChunker.emit in Hemp. simpl in Hemp.
      destruct (TextChunker.windowText (c :: t) w) eqn:Etext; [|done].
      unfold TextChunker.windowText in Etext. rewrite H0 in Etext.
      destruct (slice_from_0_head c t (snd w)) as [t'' Hsl]; [lia|].
      rewrite Hsl in Etext. by apply trim_nonempty in Etext.
    - intros ->. simpl in Hws. by injection Hws as <-. }
  split_and!; try done.
  - rewrite Hempty, Ecl. unfold TextChunker.clean. by rewrite trim_blank, replaceCrLf_blank.
  - intros pre post Hpre Hpost. rewrite <- Hchunk. apply chunk_clean.
    unfold TextChunker.clean. rewrite chars_str. by apply trim_replaceCrLf_padded.
  - intros Hcr. rewrite <- Hchunk. apply chunk_clean. unfold TextChunker.clean.
    by rewrite chars_str, replaceCrLf_lfToCrLf, replaceCrLf_noCR.
  - rewrite Ecl. apply trim_stripped.
  - apply emit_pushed.
  - apply Forall_forall. intros c (w & Hw & Hne' & ->)%emit_elem. cbn [cr_content].
    rewrite chars_str. split_and!.
    + apply trim_stripped.
    + by intros ?%str_nil.
    + unfold Js.strTrim. rewrite chars_str.
      unfold TextChunker.windowText at 1 2. by rewrite trim_idem.
    + unfold Js.strLength. rewrite chars_str.
      rewrite Forall_forall in Hf. by destruct (Hf w Hw) as (_ & _ & _ & ?).
Qed.

(** The input of the counterexample between white space, with the sizes
    of the test suite. *)
Lemma text_chunker_contract_witness :
  exists chunks : list ChunkResult,
    TextChunker.chunk {| TextChunker.chunkSize := 6; TextChunker.chunkOverlap := 2 |}
      "  a    b  " = Some chunks
    /\ (chunks = [] <-> blank (Js.chars "  a    b  ")).
Proof.
  destruct (text_chunker_contract
              {| TextChunker.chunkSize := 6; TextChunker.chunkOverlap := 2 |} "  a    b  ")
    as (cl & ws & chunks & H1 & H2 & _).
  - simpl. lia.
  - by exists chunks.
Defined.

(** X4.  The earlier version of the chunker moves on to [max(0, end - chunkOverlap)];
    with an overlap below the chunk size that is the same position. *)
Lemma legacy_windows_chain tc cl fuel : forall start ws,
  0 <= start ->
  TextChunker.chunkOverlap tc < TextChunker.chunkSize tc ->
  TextChunker0.windows fuel tc cl start = Some ws ->
  (forall w, head ws = Some w -> fst w = start) /\ chained tc ws.
Proof.
  induction fuel as [|fuel IH]; intros start ws Hs Ho; simpl; [done|].
  destruct (Z.ltb_spec start (Z.of_nat (length cl))) as [Hlt|Hge].
  - destruct (Z.geb_spec (TextChunker0.windowEnd tc cl start) (Z.of_nat (length cl)))
      as [Hend|Hend].
    + intros [= <-]. split; [by intros w [= <-]|]. intros [|i] w1 w2 H1 H2; simpl in *; done.
    + destruct (TextChunker0.windows fuel tc cl _) as [rest|] eqn:E; [|done].
      intros [= <-]. apply IH in E as [Hh Hc]; [|lia|done].
      split; [by intros w [= <-]|]. intros [|i] w1 w2 H1 H2; simpl in *.
      * injection H1 as <-. simpl. rewrite (Hh w2) by by destruct rest.
        unfold TextChunker0.windowEnd in *. lia.
      * by eapply Hc.
  - intros [= <-]. split; [done|]. by intros [|] ???.
Qed.

(** The sizes of the test suite on its alphabet input. *)
Lemma legacy_windows_chain_witness :
  chained {| TextChunker.chunkSize := 6; TextChunker.chunkOverlap := 2 |}
    [(0, 6); (4, 10); (8, 14); (12, 18); (16, 22); (20, 26)].
Proof.
  apply (legacy_windows_chain
           {| TextChunker.chunkSize := 6; TextChunker.chunkOverlap := 2 |}
           (Js.chars "abcdefghijklmnopqrstuvwxyz") 27 0).
  - lia.
  - simpl. lia.
  - vm_compute. reflexivity.
Defined.

(** With an overlap that is not below the chunk size the earlier version
    does not advance: no fuel is enough for a text longer than a chunk. *)
Lemma legacy_windows_stall tc cl fuel :
  1 <= TextChunker.chunkSize tc ->
  TextChunker.chunkSize tc <= TextChunker.chunkOverlap tc ->
  TextChunker.chunkSize tc < Z.of_nat (length cl) ->
  TextChunker0.windows fuel tc cl 0 = None.
Proof.
  intros H1 H2 H3. induction fuel as [|fuel IH]; simpl; [done|].
  destruct (Z.ltb_spec 0 (Z.of_nat (length cl))); [|lia].
  unfold TextChunker0.windowEnd.
  destruct (Z.geb_spec (Z.min (Z.of_nat (length cl)) (0 + TextChunker.chunkSize tc))
              (Z.of_nat (length cl))); [lia|].
  replace (Z.max 0 (Z.min (Z.of_nat (length cl)) (0 + TextChunker.chunkSize tc)
                    - TextChunker.chunkOverlap tc)) with 0 by lia.
  by rewrite IH.
Qed.

(** ** JavaScript maps *)

Section JsMapFacts.
Context {V : Type}.
Implicit Types (m : JsMap.t V) (k : string) (v : V).

Lemma get_set_eq m k v : JsMap.get k (JsMap.set k v m) = Some v.
Proof.
  induction m as [|[k' v'] m IH]; simpl.
  - by rewrite decide_True.
  - destruct (decide (k' = k)) as [->|Hne]; simpl.
    + by rewrite decide_True.
    + by rewrite decide_False.
Qed.

Lemma get_set_ne m k k' v : k <> k' -> JsMap.get k' (JsMap.set k v m) = JsMap.get k' m.
Proof.
  intros Hne. induction m as [|[k0 v0] m IH]; simpl.
  - by rewrite decide_False.
  - destruct (decide (k0 = k)) as [->|Hne0]; simpl.
    + by rewrite !decide_False.
    + destruct (decide (k0 = k')); [done|apply IH].
Qed.

Lemma get_delete_eq m k : JsMap.get k (JsMap.delete k m) = None.
Proof.
  induction m as [|[k' v'] m IH]; [done|]. unfold JsMap.delete in *.
  rewrite filter_cons. simpl. destruct (decide (k' <> k)) as [Hne|Heq]; simpl.
  - by rewrite decide_False.
  - done.
Qed.

Lemma get_delete_ne m k k' : k <> k' -> JsMap.get k' (JsMap.delete k m) = JsMap.get k' m.
Proof.
  intros Hne. induction m as [|[k0 v0] m IH]; [done|]. unfold JsMap.delete in *.
  rewrite filter_cons. simpl. destruct (decide (k0 <> k)) as [Hne0|Heq]; simpl.
  - destruct (decide (k0 = k')); [done|apply IH].
  - apply dec_stable in Heq as ->. by rewrite decide_False.
Qed.

Lemma get_Some_elem m k v : JsMap.get k m = Some v -> (k, v) ∈ m.
Proof.
  induction m as [|[k' v'] m IH]; simpl; [done|].
  destruct (decide (k' = k)) as [->|Hne].
  - intros [= ->]. apply list_elem_of_here.
  - intros H. apply list_elem_of_further. by apply IH.
Qed.

Lemma get_None_keys m k : JsMap.get k m = None <-> k ∉ JsMap.keys m.
Proof.
  unfold JsMap.keys. induction m as [|[k' v'] m IH]; simpl.
  - split; [intros _; apply not_elem_of_nil|done].
  - rewrite not_elem_of_cons. destruct (decide (k' = k)) as [->|Hne].
    + split; [done|]. by intros [? _].
    + rewrite IH. split; [by intros ?; split|by intros [_ ?]].
Qed.

Lemma get_is_Some_keys m k : is_Some (JsMap.get k m) <-> k ∈ JsMap.keys m.
Proof.
  destruct (JsMap.get k m) as [v|] eqn:E.
  - split; [intros _|by eauto]. destruct (decide (k ∈ JsMap.keys m)) as [|Hn]; [done|].
    apply get_None_keys in Hn. congruence.
  - split; [by intros [? ?]|]. intros Hin. apply get_None_keys in E. done.
Qed.

Lemma elem_values_get m v :
  v ∈ JsMap.values m -> exists k, (k, v) ∈ m.
Proof.
  unfold JsMap.values. rewrite list_elem_of_fmap. intros ([k v'] & -> & Hin). by exists k.
Qed.

End JsMapFacts.

(** ** LSH query and the brute-force fallback *)

Lemma query_dimension_mismatch lsh index queryEmbedding chunks :
  LshAnnIndex.dimensions index <> length queryEmbedding ->
  Lsh.query lsh index queryEmbedding chunks = None.
Proof. intros H. unfold Lsh.query. by rewrite bool_decide_eq_false_2. Qed.

Lemma query_too_few_candidates lsh index queryEmbedding chunks :
  Z.of_nat (JsSet.size (Lsh.candidateIds lsh index queryEmbedding))
    < Lsh.fallbackMinCandidates lsh ->
  Lsh.query lsh index queryEmbedding chunks = None.
Proof.
  intros H. unfold Lsh.query. destruct (negb _); [done|].
  by destruct (Z.ltb_spec (Z.of_nat (JsSet.size (Lsh.candidateIds lsh index queryEmbedding)))
                 (Lsh.fallbackMinCandidates lsh)); [|lia].
Qed.

Lemma query_Some lsh index queryEmbedding chunks pool :
  Lsh.query lsh index queryEmbedding chunks = Some pool ->
  LshAnnIndex.dimensions index = length queryEmbedding /\
  Lsh.fallbackMinCandidates lsh
    <= Z.of_nat (JsSet.size (Lsh.candidateIds lsh index queryEmbedding)) /\
  pool = omap (fun i => JsMap.get i chunks) (Lsh.candidateIds lsh index queryEmbedding).
Proof.
  unfold Lsh.query. destruct (bool_decide_reflect
    (LshAnnIndex.dimensions index = length queryEmbedding)); simpl; [|done].
  destruct (Z.ltb_spec (Z.of_nat (JsSet.size (Lsh.candidateIds lsh index queryEmbedding)))
              (Lsh.fallbackMinCandidates lsh)); [done|].
  intros [= <-]. done.
Qed.

(** C8.  [LshIndex.query] answers [null] when the query embedding's length
    differs from the index's [dimensions], and when the candidate set it
    gathered has fewer than [fallbackMinCandidates] elements; in the
    searcher a [null] answer makes the rerank pool the full list of chunks. *)
Theorem lsh_query_null_falls_back (lsh : Lsh.t) (index : LshAnnIndex.t)
    (queryEmbedding : list float) (cache : FolderCache.t) :
  (LshAnnIndex.dimensions index <> length queryEmbedding ->
   Lsh.query lsh index queryEmbedding (FolderCache.chunks cache) = None) /\
  (Z.of_nat (JsSet.size (Lsh.candidateIds lsh index queryEmbedding))
     < Lsh.fallbackMinCandidates lsh ->
   Lsh.query lsh index queryEmbedding (FolderCache.chunks cache) = None) /\
  (FolderCache.annIndex cache = Some index ->
   Lsh.query Lsh.default index queryEmbedding (FolderCache.chunks cache) = None ->
   CodebaseSearcher.searchPool cache queryEmbedding
   = JsMap.values (FolderCache.chunks cache)).
Proof.
  split; [apply query_dimension_mismatch|]. split; [apply query_too_few_candidates|].
  intros Hidx Hq. unfold CodebaseSearcher.searchPool. by rewrite Hidx, Hq.
Qed.

Lemma strictIndex_built : Lsh.build Tests.strict Tests.xChunks = Some Tests.strictIndex.
Proof. vm_compute. reflexivity. Qed.

Lemma defaultIndex_built : Lsh.build Lsh.default Tests.xChunks = Some Tests.defaultIndex.
Proof. vm_compute. reflexivity. Qed.

(** The test "falls back when dimensions mismatch or candidate count too
    low", and the searcher's pool for the same single-chunk folder. *)
Lemma lsh_query_null_falls_back_witness :
  Lsh.query Tests.strict Tests.strictIndex [1%float; 2%float; 3%float] Tests.xChunks = None /\
  Lsh.query Tests.strict Tests.strictIndex [1%float; 2%float] Tests.xChunks = None /\
  CodebaseSearcher.searchPool Tests.xFolder [1%float; 2%float] = JsMap.values Tests.xChunks.
Proof.
  split; [|split].
  - apply (lsh_query_null_falls_back Tests.strict Tests.strictIndex
             [1%float; 2%float; 3%float] Tests.xFolder).
    simpl. lia.
  - apply (lsh_query_null_falls_back Tests.strict Tests.strictIndex
             [1%float; 2%float] Tests.xFolder).
    vm_compute. reflexivity.
  - apply (lsh_query_null_falls_back Lsh.default Tests.defaultIndex
             [1%float; 2%float] Tests.xFolder); vm_compute; reflexivity.
Defined.

(** ** The result cache and the index revision *)

Section SearcherFacts.
Import CodebaseSearcher.

Lemma evict_threw {V} (c : LruCache.t V) :
  fst (LruCache.evict c) = (LruCache.maxEntries c <? 0).
Proof.
  unfold LruCache.evict.
  destruct (Z.leb_spec (Z.of_nat (JsMap.size (LruCache.cache c))) (LruCache.maxEntries c));
    simpl.
  - symmetry. apply Z.ltb_ge. lia.
  - destruct (Z.ltb_spec (LruCache.maxEntries c) 0).
    + apply Z.ltb_lt. lia.
    + apply Z.ltb_ge. lia.
Qed.

Lemma set_threw {V} now key (v : V) (c : LruCache.t V) :
  fst (LruCache.set now key v c) = (LruCache.maxEntries c <? 0).
Proof. unfold LruCache.set. by rewrite evict_threw. Qed.

Lemma evict_maxEntries {V} (c : LruCache.t V) :
  LruCache.maxEntries (snd (LruCache.evict c)) = LruCache.maxEntries c.
Proof. unfold LruCache.evict. by destruct (_ <=? _). Qed.

Lemma get_maxEntries {V} now key (c : LruCache.t V) :
  LruCache.maxEntries (snd (LruCache.get now key c)) = LruCache.maxEntries c.
Proof.
  unfold LruCache.get. destruct (JsMap.get key (LruCache.cache c)); [|done].
  by destruct (_ && _).
Qed.

(** [getQueryEmbedding] reads and writes the embedding cache only. *)
Lemma getQueryEmbedding_frame s s' embed now key q :
  embeddingCache s = embeddingCache s' ->
  fst (getQueryEmbedding s embed now key q) = fst (getQueryEmbedding s' embed now key q) /\
  embeddingCache (snd (getQueryEmbedding s embed now key q))
  = embeddingCache (snd (getQueryEmbedding s' embed now key q)) /\
  resultCache (snd (getQueryEmbedding s embed now key q)) = resultCache s.
Proof.
  intros He. unfold getQueryEmbedding. rewrite <- He.
  destruct (LruCache.get now key (embeddingCache s)) as [[e|] ec]; [done|].
  destruct (embed [q]) as [err|[|embedded rest]]; [done|done|].
  destruct (LruCache.set now key embedded ec) as [[|] ec']; done.
Qed.

(** The outcome of the fresh computation does not depend on what the result
    cache holds. *)
Lemma computeRanked_frame s s' embed now cache key q topK :
  embeddingCache s = embeddingCache s' ->
  LruCache.maxEntries (resultCache s) = LruCache.maxEntries (resultCache s') ->
  fst (computeRanked s embed now cache key q topK)
  = fst (computeRanked s' embed now cache key q topK).
Proof.
  intros He Hm. unfold computeRanked.
  destruct (getQueryEmbedding_frame s s' embed now key (Js.strTrim q) He) as (H1 & _ & H3).
  destruct (getQueryEmbedding_frame s' s embed now key (Js.strTrim q) (eq_sym He)) as (_ & _ & H3').
  destruct (getQueryEmbedding s embed now key (Js.strTrim q)) as [r s2].
  destruct (getQueryEmbedding s' embed now key (Js.strTrim q)) as [r' s2'].
  simpl in *. subst r'. destruct r as [err|[qe|]]; [done| |done].
  rewrite H3, H3'.
  match goal with
  | |- context [LruCache.set now key ?v (resultCache s)] =>
      pose proof (set_threw now key v (resultCache s)) as T1;
      pose proof (set_threw now key v (resultCache s')) as T2
  end.
  rewrite <- Hm in T2.
  destruct (LruCache.set now key _ (resultCache s)) as [threw rc].
  destruct (LruCache.set now key _ (resultCache s')) as [threw' rc'].
  simpl in *. subst. by destruct (_ <? 0).
Qed.

Lemma cacheUsable_true cache cr topK :
  cacheUsable cache cr topK = true <->
  revision cr = FolderCache.indexRevision cache /\ topK <= Z.of_nat (length (chunkIds cr)).
Proof.
  unfold cacheUsable. rewrite andb_true_iff, bool_decide_eq_true, Z.leb_le. done.
Qed.

(** Every outcome of [getRankedChunks] is either a cached ranking that
    passed the guard, or the fresh computation. *)
Lemma getRankedChunks_cases s embed now cache rawQuery topK :
  normalizeQuery rawQuery = "" \/
  (exists cr rc,
     LruCache.get now (normalizeQuery rawQuery) (resultCache s) = (Some cr, rc) /\
     revision cr = FolderCache.indexRevision cache /\
     topK <= Z.of_nat (length (chunkIds cr)) /\
     fst (getRankedChunks s embed now cache rawQuery topK)
     = inr (materialize cache cr topK)) \/
  fst (getRankedChunks s embed now cache rawQuery topK)
  = fst (computeRanked (forgetResult (normalizeQuery rawQuery) s) embed now cache
           (normalizeQuery rawQuery) rawQuery topK).
Proof.
  unfold getRankedChunks.
  destruct (bool_decide_reflect (normalizeQuery rawQuery = "")) as [|Hne]; [by left|].
  right.
  pose proof (get_maxEntries now (normalizeQuery rawQuery) (resultCache s)) as Hmax.
  destruct (LruCache.get now (normalizeQuery rawQuery) (resultCache s)) as [[cr|] rc] eqn:Eg.
  - destruct (cacheUsable cache cr topK) eqn:Eu.
    + left. apply cacheUsable_true in Eu as [? ?]. by exists cr, rc.
    + right. by apply computeRanked_frame.
  - right. by apply computeRanked_frame.
Qed.

Lemma getRankedChunks_forget s embed now cache rawQuery topK e :
  JsMap.get (normalizeQuery rawQuery) (LruCache.cache (resultCache s)) = Some e ->
  cacheUsable cache (LruCache.value e) topK = false ->
  fst (getRankedChunks s embed now cache rawQuery topK)
  = fst (getRankedChunks (forgetResult (normalizeQuery rawQuery) s) embed now cache rawQuery topK).
Proof.
  intros Hget Hu. unfold getRankedChunks.
  destruct (bool_decide (normalizeQuery rawQuery = "")); [done|].
  unfold LruCache.get at 2. simpl. rewrite get_delete_eq.
  unfold LruCache.get. rewrite Hget.
  destruct (_ && _).
  - apply computeRanked_frame; done.
  - rewrite Hu. apply computeRanked_frame; done.
Qed.

End SearcherFacts.

(** C6.  A result-cache entry whose stored revision differs from the
    folder's [indexRevision], or whose list is shorter than the [topK] asked
    for, has no part in what [search] returns: the outcome is the one with
    that entry removed from the cache.  A cached ranking is therefore
    served only when its revision equals [indexRevision] and its list has
    at least [topK] ids. *)
Theorem stale_result_cache_entry_is_ignored (p : CodebaseSearcher.Platform)
    (s : CodebaseSearcher.t) (embed : list string -> CodebaseSearcher.EmbedReply)
    (now : float) (cache : FolderCache.t) (query : string) (topK : option Z)
    (e : LruCache.entry CodebaseSearcher.CachedRanking) :
  JsMap.get (CodebaseSearcher.normalizeQuery (Js.strTrim query))
    (LruCache.cache (CodebaseSearcher.resultCache s)) = Some e ->
  CodebaseSearcher.revision (LruCache.value e) <> FolderCache.indexRevision cache \/
  Z.of_nat (length (CodebaseSearcher.chunkIds (LruCache.value e)))
    < Z.max 1 (default Defaults.TOP_K topK) ->
  fst (CodebaseSearcher.search p s embed now cache query topK)
  = fst (CodebaseSearcher.search p
           (forgetResult (CodebaseSearcher.normalizeQuery (Js.strTrim query)) s)
           embed now cache query topK).
Proof.
  intros Hget Hstale. unfold CodebaseSearcher.search.
  destruct (_ || _); [done|]. destruct (bool_decide _); [done|].
  assert (Hu : CodebaseSearcher.cacheUsable cache (LruCache.value e)
                 (Z.max 1 (default Defaults.TOP_K topK)) = false).
  { apply not_true_is_false. rewrite cacheUsable_true. intros [? ?].
    destruct Hstale; [done|lia]. }
  pose proof (getRankedChunks_forget s embed now cache (Js.strTrim query) _ e Hget Hu) as H.
  destruct (CodebaseSearcher.getRankedChunks s _ _ _ _ _) as [r1 s1].
  destruct (CodebaseSearcher.getRankedChunks (forgetResult _ s) _ _ _ _ _) as [r2 s2].
  simpl in H. subst r2. by destruct r1.
Qed.

(** The searcher has answered "alpha" on a folder at revision 1; the same
    query on a folder at revision 0 does not see that entry. *)
Lemma stale_result_cache_entry_is_ignored_witness :
  fst (CodebaseSearcher.search
         {| CodebaseSearcher.startedAt := 0%float; CodebaseSearcher.finishedAt := 1%float |}
         Scenario.afterQueryOnA Scenario.embedQuery 1%float
         (Tests.folderOf "/x" Tests.xChunks 0 None) "alpha" None)
  = fst (CodebaseSearcher.search
           {| CodebaseSearcher.startedAt := 0%float; CodebaseSearcher.finishedAt := 1%float |}
           (forgetResult (CodebaseSearcher.normalizeQuery (Js.strTrim "alpha"))
              Scenario.afterQueryOnA)
           Scenario.embedQuery 1%float
           (Tests.folderOf "/x" Tests.xChunks 0 None) "alpha" None).
Proof.
  eapply stale_result_cache_entry_is_ignored.
  - vm_compute. reflexivity.
  - left. vm_compute. discriminate.
Defined.

(** ** Maps rebuilt from their entries *)

Section RebuildFacts.
Context {V : Type}.
Implicit Types (m : JsMap.t V) (k : string) (v : V).

Lemma set_fresh m k v : k ∉ JsMap.keys m -> JsMap.set k v m = m ++ [(k, v)].
Proof.
  unfold JsMap.keys. induction m as [|[k' v'] m IH]; intros Hk; [done|].
  cbn in Hk. apply not_elem_of_cons in Hk as [Hne Hk]. cbn.
  rewrite decide_False by done. by rewrite IH.
Qed.

Lemma foldl_set_fresh (l : JsMap.t V) : forall m,
  NoDup (JsMap.keys (m ++ l)) ->
  foldl (fun o e => JsMap.set e.1 e.2 o) m l = m ++ l.
Proof.
  induction l as [|[k v] l IH]; intros m Hnd; cbn [foldl].
  - by rewrite app_nil_r.
  - rewrite set_fresh.
    + rewrite IH; rewrite <- app_assoc; done.
    + unfold JsMap.keys in *. rewrite fmap_app in Hnd. apply NoDup_app in Hnd as (_ & H & _).
      intros Hin. apply (H k Hin). cbn. apply list_elem_of_here.
Qed.

Lemma get_elem_of m k v : NoDup (JsMap.keys m) -> JsMap.get k m = Some v <-> (k, v) ∈ m.
Proof.
  unfold JsMap.keys. induction m as [|[k' v'] m IH]; intros Hnd.
  - cbn. split; [done|]. intros H. by apply elem_of_nil in H.
  - cbn in Hnd. apply NoDup_cons in Hnd as [Hk Hnd]. cbn. rewrite elem_of_cons.
    destruct (decide (k' = k)) as [->|Hne].
    + split; [intros [= ->]; by left|]. intros [[= ->]|Hin]; [done|].
      exfalso. apply Hk. by apply (list_elem_of_fmap_2 fst _ (k, v)).
    + rewrite IH by done. split; [by right|]. intros [[= ? ?]|?]; [by subst|done].
Qed.

(** A map read through [get] does not depend on the order of its entries. *)
Lemma get_Permutation m m' k :
  NoDup (JsMap.keys m) -> m ≡ₚ m' -> JsMap.get k m = JsMap.get k m'.
Proof.
  intros Hnd Hp.
  assert (Hnd' : NoDup (JsMap.keys m')) by (unfold JsMap.keys in *; by rewrite <- Hp).
  destruct (JsMap.get k m) as [v|] eqn:E.
  - symmetry. apply get_elem_of; [done|]. rewrite <- Hp. by apply get_elem_of.
  - destruct (JsMap.get k m') as [v'|] eqn:E'; [|done].
    apply get_elem_of in E'; [|done]. rewrite <- Hp in E'. apply get_elem_of in E'; [|done].
    congruence.
Qed.

Lemma insertSorted_Permutation {A} (before : A -> A -> bool) x (l : list A) :
  insertSorted before x l ≡ₚ x :: l.
Proof.
  induction l as [|y l IH]; [done|]. cbn. destruct (before y x); [|done].
  rewrite IH. apply Permutation_swap.
Qed.

Lemma sortBy_Permutation {A} (before : A -> A -> bool) (l : list A) : sortBy before l ≡ₚ l.
Proof.
  unfold sortBy. induction l as [|x l IH]; [done|]. cbn.
  by rewrite insertSorted_Permutation, IH.
Qed.

Lemma propertyOrder_Permutation m : Json.propertyOrder m ≡ₚ m.
Proof.
  unfold Json.propertyOrder. rewrite sortBy_Permutation. apply filter_app_complement.
Qed.

End RebuildFacts.

Section OrderFacts.
Context {V W : Type} (g : V -> W).

Lemma filter_keys_fmap (P : string -> Prop) `{!forall k, Decision (P k)} (l : JsMap.t V) :
  filter (fun e : string * W => P e.1) (prod_map id g <$> l)
  = prod_map id g <$> filter (fun e : string * V => P e.1) l.
Proof.
  induction l as [|[k v] l IH]; [done|]. cbn [fmap list_fmap]. rewrite !filter_cons.
  cbn [prod_map fst id]. destruct (decide (P k)); cbn [fmap list_fmap]; by rewrite <- IH.
Qed.

Lemma insertSorted_fmap (before : string -> string -> bool) (x : string * V)
    (l : JsMap.t V) :
  insertSorted (fun a b : string * W => before a.1 b.1) (prod_map id g x) (prod_map id g <$> l)
  = prod_map id g <$> insertSorted (fun a b : string * V => before a.1 b.1) x l.
Proof.
  induction l as [|y l IH]; [done|]. cbn [fmap list_fmap insertSorted].
  destruct x as [kx vx], y as [ky vy]. cbn [prod_map fst id].
  destruct (before ky kx); [|done]. cbn [fmap list_fmap]. f_equal. apply IH.
Qed.

Lemma sortBy_fmap (before : string -> string -> bool) (l : JsMap.t V) :
  sortBy (fun a b : string * W => before a.1 b.1) (prod_map id g <$> l)
  = prod_map id g <$> sortBy (fun a b : string * V => before a.1 b.1) l.
Proof.
  unfold sortBy. induction l as [|x l IH]; [done|]. cbn [fmap list_fmap foldr].
  rewrite IH. apply insertSorted_fmap.
Qed.

(** The property order looks at the keys only. *)
Lemma propertyOrder_fmap (l : JsMap.t V) :
  Json.propertyOrder (prod_map id g <$> l) = prod_map id g <$> Json.propertyOrder l.
Proof.
  unfold Json.propertyOrder. rewrite fmap_app.
  rewrite (@filter_keys_fmap (fun k => is_Some (Json.arrayIndex k))
             (fun k => is_Some_dec (Json.arrayIndex k))).
  rewrite (@filter_keys_fmap (fun k => ~ is_Some (Json.arrayIndex k))
             (fun k => not_dec (is_Some_dec (Json.arrayIndex k)))).
  f_equal.
  apply (sortBy_fmap (fun a b => match Json.arrayIndex a, Json.arrayIndex b with
                                 | Some x, Some y => (x <? y)%N
                                 | _, _ => false
                                 end)).
Qed.

End OrderFacts.

(** ** The context for a query *)

Section ContextFacts.
Import CodebaseSearcher.

Lemma slice_nil {A} a b : Js.slice (@nil A) a b = [].
Proof. unfold Js.slice. cbv zeta. rewrite drop_nil. apply take_nil. Qed.

Lemma query_pool lsh index queryEmbedding chunks pool :
  Lsh.query lsh index queryEmbedding chunks = Some pool -> pool ⊆ JsMap.values chunks.
Proof.
  intros H. apply query_Some in H as (_ & _ & ->). intros c Hc.
  apply list_elem_of_omap in Hc as (i & _ & Hget). apply get_Some_elem in Hget.
  unfold JsMap.values. by apply (list_elem_of_fmap_2 snd _ (i, c)).
Qed.

(** X2.  The three tests in front: no provider call, no error, the searcher
    untouched. *)
Lemma getContextForQuery_nothing_to_search s embed now cache query :
  RagFolderConfig.enabled (FolderCache.config cache) = false
  \/ FolderCache.chunks cache = []
  \/ Js.strTrim query = "" ->
  getContextForQuery s embed now cache query = (inr "", s).
Proof.
  intros H. unfold getContextForQuery.
  assert (E : negb (RagFolderConfig.enabled (FolderCache.config cache))
              || bool_decide (JsMap.size (FolderCache.chunks cache) = 0%nat)
              || bool_decide (Js.strTrim query = "") = true); [|by rewrite E].
  destruct H as [H|[H|H]]; rewrite H.
  - reflexivity.
  - cbn [JsMap.size length]. rewrite (bool_decide_true (0%nat = 0%nat)) by done.
    by rewrite orb_true_r.
  - rewrite (bool_decide_true ("" = "")) by done. by rewrite orb_true_r.
Qed.

(** A query of blanks on the second folder of the scenario. *)
Lemma getContextForQuery_nothing_to_search_witness :
  getContextForQuery create Scenario.embedQuery 0%float Scenario.folderB "   "
  = (inr "", create).
Proof.
  apply getContextForQuery_nothing_to_search. right. right. vm_compute. reflexivity.
Defined.

(** With no entry for the query in the result cache, a folder in which
    no chunk scores above zero gives the empty context, unless the provider
    or the cache throws. *)
Lemma getContextForQuery_no_positive_score s embed now cache query queryEmbedding s' :
  JsMap.get (normalizeQuery query) (LruCache.cache (resultCache s)) = None ->
  getQueryEmbedding s embed now (normalizeQuery query) (Js.strTrim query)
  = (inr (Some queryEmbedding), s') ->
  rankPool queryEmbedding (JsMap.values (FolderCache.chunks cache)) = [] ->
  (getContextForQuery s embed now cache query).1 = inr ""
  \/ (getContextForQuery s embed now cache query).1 = inl TypeError.
Proof.
  intros Hnone Hemb Hrank.
  assert (Hpool : rankPool queryEmbedding (searchPool cache queryEmbedding) = []).
  { unfold searchPool. destruct (FolderCache.annIndex cache) as [index|]; [|done].
    destruct (Lsh.query _ _ _ _) as [pool|] eqn:Eq; [|done].
    unfold rankPool in *.
    assert (Hsub : pool ⊆ JsMap.values (FolderCache.chunks cache)) by by eapply query_pool.
    match goal with |- sortBy _ ?l = [] => assert (Hl : l = []) end; [|by rewrite Hl].
    match type of Hrank with sortBy _ ?l0 = [] => assert (Hl0 : l0 = []) end.
    { match goal with |- ?l0 = [] => pose proof (sortBy_Permutation
        (fun a b => PrimFloat.ltb (PrimFloat.sub (score b) (score a)) 0%float) l0) as Hp end.
      rewrite Hrank in Hp. by apply Permutation_nil_l in Hp. }
    apply elem_of_nil_inv. intros x Hx. apply list_elem_of_filter in Hx as [Hpos Hx].
    apply list_elem_of_fmap in Hx as (c & -> & Hc).
    assert (Hin : {| chunk := c;
                     score := cosineSimilarity queryEmbedding (RagChunk.embedding c) |}
                  ∈ @nil Ranked); [|by apply elem_of_nil in Hin].
    rewrite <- Hl0. apply list_elem_of_filter. split; [done|].
    apply list_elem_of_fmap. exists c. split; [done|]. by apply Hsub. }
  assert (Hs : {| embeddingCache := embeddingCache s; resultCache := resultCache s |} = s)
    by by destruct s.
  assert (H : forall r, (getContextForQuery s embed now cache query).1 = r ->
                r = inr "" \/ r = inl TypeError); [|by apply H].
  intros r Hr. unfold getContextForQuery in Hr.
  destruct (_ || _); [by left|]. unfold getRankedChunks in Hr.
  destruct (bool_decide (normalizeQuery query = "")); [by left|].
  unfold LruCache.get in Hr. rewrite Hnone in Hr.
  unfold computeRanked in Hr. rewrite Hs, Hemb in Hr. cbv zeta in Hr.
  rewrite Hpool in Hr. rewrite !slice_nil in Hr.
  destruct (LruCache.set _ _ _ _) as [[] rc]; [by right|by left].
Qed.

(** C10.  Two folders hold files of the same names and were indexed once
    each.  No chunk of the second scores above zero against the query, and a
    searcher that has seen nothing returns the empty context for it; the
    searcher that has answered the query on the first folder returns the
    six chunks of the second. *)
Theorem context_is_served_from_another_folder :
  rankPool (Scenario.embedWords "alpha")
    (JsMap.values (FolderCache.chunks Scenario.folderB)) = []
  /\ (getContextForQuery create Scenario.embedQuery 0%float Scenario.folderB "alpha").1
     = inr ""
  /\ exists context,
       (getContextForQuery Scenario.afterQueryOnA Scenario.embedQuery 1%float
          Scenario.folderB "alpha").1 = inr context
       /\ Js.includes "### docs/one.md" context = true
       /\ Js.includes "beta notes of six" context = true.
Proof.
  split; [vm_compute; reflexivity|]. split; [vm_compute; reflexivity|].
  eexists. split; [vm_compute; reflexivity|]. split; vm_compute; reflexivity.
Qed.

End ContextFacts.

(** ** The indexing job: what its steps leave alone *)

Section Keeps.
Import Indexer.

Context (R : relation Job) `{!PreOrder R}.

Lemma keeps_ret {A} (a : A) : keeps R (ret a).
Proof. intros j. reflexivity. Qed.

Lemma keeps_throw {A} e : keeps R (@throw A e).
Proof. intros j. reflexivity. Qed.

Lemma keeps_hang {A} : keeps R (@hang A).
Proof. intros j. reflexivity. Qed.

Lemma keeps_lift {A} (r : Exn + A) : keeps R (lift r).
Proof. destruct r; [apply keeps_throw|apply keeps_ret]. Qed.

Lemma keeps_getCache : keeps R getCache.
Proof. intros j. reflexivity. Qed.

Lemma keeps_now env : keeps R (now env).
Proof. intros j. reflexivity. Qed.

Lemma keeps_checkSignal sig : keeps R (checkSignal sig).
Proof.
  intros j. unfold checkSignal. destruct sig as [s|]; [|reflexivity].
  destruct (_ <=? _)%nat; reflexivity.
Qed.

Lemma keeps_bind {A B} (m : M A) (f : A -> M B) :
  keeps R m -> (forall a, keeps R (f a)) -> keeps R (bind m f).
Proof.
  intros Hm Hf j. unfold bind. specialize (Hm j).
  destruct (m j) as [[a|e|] j']; simpl in *; [|done|done].
  etrans; [exact Hm|apply Hf].
Qed.

Lemma keeps_getCache_bind {A} (f : FolderCache.t -> M A) :
  (forall j, R j (f (cache j) j).2) -> keeps R (bind getCache f).
Proof. intros H j. unfold bind, getCache. simpl. apply H. Qed.

End Keeps.

(** One step through the structure of a job. *)
Ltac keeps_step :=
  repeat first
    [ lazymatch goal with |- keeps ?R (Indexer.bind _ _) => apply (keeps_bind R) end; [|intros ?]
    | lazymatch goal with |- keeps ?R (Indexer.ret _) => apply (keeps_ret R) end
    | lazymatch goal with |- keeps ?R (Indexer.throw _) => apply (keeps_throw R) end
    | lazymatch goal with |- keeps ?R Indexer.hang => apply (keeps_hang R) end
    | lazymatch goal with |- keeps ?R (Indexer.lift _) => apply (keeps_lift R) end
    | lazymatch goal with |- keeps ?R Indexer.getCache => apply (keeps_getCache R) end
    | lazymatch goal with |- keeps ?R (Indexer.now _) => apply (keeps_now R) end
    | lazymatch goal with |- keeps ?R (Indexer.checkSignal _) => apply (keeps_checkSignal R) end ].

Section JobFacts.
Import Indexer.

Lemma keeps_modifyCache_disk f : keeps sameDisk (modifyCache f).
Proof. by intros j. Qed.

Lemma keeps_suspend_disk : keeps sameDisk suspend.
Proof. by intros j. Qed.

#[local] Instance sameDisk_preorder : PreOrder sameDisk.
Proof. split; [done|]. unfold sameDisk. intros ???. congruence. Qed.

Lemma keeps_hashPass_disk env files : keeps sameDisk (hashPass env files).
Proof.
  induction files as [|f files IH]; simpl; [by apply (keeps_ret sameDisk)|].
  apply (keeps_bind sameDisk).
  - unfold hashCheck. keeps_step; try done.
    destruct (JsMap.get _ _); [destruct (_ && _)|];
      keeps_step; done.
  - intros r. keeps_step. apply IH.
Qed.

Lemma keeps_callEmbed_disk env batch : keeps sameDisk (callEmbed env batch).
Proof. by intros j. Qed.

Lemma keeps_batchLoop_disk env sig b p crs i vectors :
  keeps sameDisk (batchLoop env sig b p crs i vectors).
Proof.
  unfold batchLoop. cbv zeta.
  destruct (PrimFloat.ltb _ _); keeps_step; first [apply keeps_callEmbed_disk|done].
Qed.

Lemma keeps_resume_disk env sig b items nextIndex r :
  keeps sameDisk (resume env sig b items nextIndex r).
Proof.
  destruct r; cbn [resume]; keeps_step; try apply keeps_batchLoop_disk.
  destruct (items !! nextIndex); keeps_step.
Qed.

Lemma keeps_startRunners_disk env sig b items count : forall nextIndex,
  keeps sameDisk (startRunners env sig b items count nextIndex).
Proof.
  induction count as [|count IH]; intros nextIndex; cbn [startRunners]; keeps_step.
  - apply keeps_resume_disk.
  - apply IH.
Qed.

Lemma keeps_runScheduled_disk env sig b items schedule : forall nextIndex runners,
  keeps sameDisk (runScheduled env sig b items schedule nextIndex runners).
Proof.
  induction schedule as [|k later IH]; intros nextIndex runners; cbn [runScheduled];
    destruct (forallb isReturned runners); keeps_step.
  destruct (runners !! k) as [r|]; [destruct (isReturned r)|]; try apply IH.
  keeps_step; [done|apply keeps_resume_disk|apply IH].
Qed.

Lemma keeps_scanPhase_disk env options : keeps sameDisk (scanPhase env options).
Proof. unfold scanPhase. keeps_step; done. Qed.

Lemma keeps_selectPhase_disk env candidates : keeps sameDisk (selectPhase env candidates).
Proof.
  unfold selectPhase. keeps_step.
  destruct (deletionPass _ _). keeps_step; try done.
  unfold hashPhase. keeps_step; try done. apply keeps_hashPass_disk.
Qed.

Lemma keeps_runWithConcurrency_disk env sig b concurrency items :
  keeps sameDisk (runWithConcurrency env sig b concurrency items).
Proof.
  unfold runWithConcurrency. destruct items; [by apply (keeps_ret sameDisk)|].
  cbv zeta. keeps_step; [apply keeps_startRunners_disk|apply keeps_runScheduled_disk].
Qed.

Lemma keeps_process_disk env options candidates :
  keeps sameDisk (process env options candidates).
Proof.
  unfold process, embedPhase. keeps_step.
  - apply keeps_selectPhase_disk.
  - apply keeps_runWithConcurrency_disk.
Qed.

Lemma keeps_prepare_disk env options : keeps sameDisk (prepare env options).
Proof.
  unfold prepare. keeps_step.
  - done.
  - apply keeps_scanPhase_disk.
  - apply keeps_process_disk.
Qed.

End JobFacts.

Section ProcessFacts.
Import Indexer.

#[local] Instance onCache_preorder (P : relation FolderCache.t) `{!PreOrder P} :
  PreOrder (onCache P).
Proof.
  split.
  - intros j. unfold onCache. reflexivity.
  - intros j1 j2 j3. unfold onCache. apply transitivity.
Qed.

Lemma returns_ret {A} (a : A) (Q : A -> Prop) : Q a -> returns (ret a) Q.
Proof. by intros H j. Qed.

Lemma returns_any {A} (m : M A) : returns m (fun _ => True).
Proof. intros j. by destruct (m j).1. Qed.

Lemma returns_bind {A B} (m : M A) (f : A -> M B) (Q1 : A -> Prop) (Q2 : B -> Prop) :
  returns m Q1 -> (forall a, Q1 a -> returns (f a) Q2) -> returns (bind m f) Q2.
Proof.
  intros Hm Hf j. unfold bind. specialize (Hm j).
  destruct (m j) as [[a|e|] j']; simpl in *; [|done|done]. by apply Hf.
Qed.

Lemma hashCheck_file env f :
  returns (hashCheck env f)
    (fun r => match r with Some p => tp_file p = f | None => True end).
Proof.
  unfold hashCheck.
  apply (returns_bind _ _ _ _ (returns_any _)). intros _ _.
  apply (returns_bind _ _ _ _ (returns_any _)). intros content _.
  apply (returns_bind _ _ _ _ (returns_any _)). intros c _.
  destruct (JsMap.get _ _); [destruct (_ && _)|].
  - apply (returns_bind _ _ _ _ (returns_any _)). intros _ _. by apply returns_ret.
  - by apply returns_ret.
  - by apply returns_ret.
Qed.

Lemma hashPass_files env files :
  returns (hashPass env files) (Forall (fun p => tp_file p ∈ files)).
Proof.
  induction files as [|f files IH]; simpl; [by apply returns_ret|].
  apply (returns_bind _ _ _ _ (hashCheck_file env f)). intros r Hr.
  apply (returns_bind _ _ _ _ IH). intros more Hmore.
  apply returns_ret.
  assert (Hmore' : Forall (fun p => tp_file p ∈ f :: files) more).
  { eapply Forall_impl; [exact Hmore|]. intros p Hp. by apply list_elem_of_further. }
  destruct r as [p|]; [|done]. constructor; [|done]. rewrite Hr. apply list_elem_of_here.
Qed.

Lemma keeps_bind_returns (R : relation Job) `{!PreOrder R} {A B}
    (m : M A) (f : A -> M B) (Q : A -> Prop) :
  keeps R m -> returns m Q -> (forall a, Q a -> keeps R (f a)) -> keeps R (bind m f).
Proof.
  intros Hm Hq Hf j. unfold bind. specialize (Hm j). specialize (Hq j).
  destruct (m j) as [[a|e|] j']; simpl in *; [|done|done].
  etrans; [exact Hm|]. by apply Hf.
Qed.

Lemma hashPhase_files env deleted changed :
  returns (hashPhase env deleted changed)
    (fun sel => Forall (fun p => tp_file p ∈ changed) sel.2).
Proof.
  unfold hashPhase.
  apply (returns_bind _ _ _ _ (hashPass_files env _)). intros ps Hps.
  apply (returns_bind _ _ _ _ (returns_any _)). intros _ _.
  by apply returns_ret.
Qed.

(** The rest of the processing runs from that state. *)
Lemma process_eq env options candidates j :
  process env options candidates j
  = (sel <- hashPhase env
              (deletionPass (map CandidateFile.relativePath candidates) (cache j)).2
              (changedFiles
                 (deletionPass (map CandidateFile.relativePath candidates) (cache j)).1
                 candidates) ;;
     embedPhase env options sel) (afterDeletion candidates j).
Proof.
  unfold process, selectPhase, afterDeletion.
  unfold bind at 1 2. unfold getCache at 1. cbv beta iota.
  destruct (deletionPass _ (cache j)) as [c2 deleted]. reflexivity.
Qed.

(** The runners only ever work on items of the list. *)
Section RunnerFacts.
Context (Q : CandidateFile.t -> Prop).

Lemma batchLoop_runner env sig b p crs i vectors :
  Q (tp_file p) -> returns (batchLoop env sig b p crs i vectors) (runnerFile Q).
Proof.
  intros Hp. unfold batchLoop. cbv zeta. destruct (PrimFloat.ltb _ _).
  - apply (returns_bind _ _ _ _ (returns_any _)). intros _ _.
    apply (returns_bind _ _ _ _ (returns_any _)). intros reply _. by apply returns_ret.
  - apply (returns_bind _ _ _ _ (returns_any _)). intros _ _. by apply returns_ret.
Qed.

Lemma resume_runner env sig b items nextIndex r :
  Forall (fun p => Q (tp_file p)) items -> runnerFile Q r ->
  returns (resume env sig b items nextIndex r) (fun st => runnerFile Q st.2).
Proof.
  intros Hitems Hr. destruct r as [|p|p crs i vectors reply|]; cbn [resume].
  - apply (returns_bind _ _ _ _ (returns_any _)). intros _ _.
    destruct (items !! nextIndex) as [p|] eqn:E; [|by apply returns_ret].
    apply (returns_bind _ _ _ _ (returns_any _)). intros _ _. apply returns_ret.
    cbn. rewrite Forall_forall in Hitems. apply Hitems. by eapply list_elem_of_lookup_2.
  - apply (returns_bind _ _ _ _ (batchLoop_runner _ _ _ _ _ _ _ Hr)). intros r' Hr'.
    by apply returns_ret.
  - apply (returns_bind _ _ _ _ (returns_any _)). intros embedded _.
    apply (returns_bind _ _ _ _ (batchLoop_runner _ _ _ _ _ _ _ Hr)). intros r' Hr'.
    by apply returns_ret.
  - by apply returns_ret.
Qed.

Lemma startRunners_runners env sig b items count : forall nextIndex,
  Forall (fun p => Q (tp_file p)) items ->
  returns (startRunners env sig b items count nextIndex)
    (fun st => Forall (runnerFile Q) st.2).
Proof.
  induction count as [|count IH]; intros nextIndex Hitems; cbn [startRunners].
  - by apply returns_ret.
  - apply (returns_bind _ _ _ _ (resume_runner env sig b items nextIndex LoopHead Hitems I)).
    intros st Hst. apply (returns_bind _ _ _ _ (IH st.1 Hitems)). intros rest Hrest.
    apply returns_ret. by constructor.
Qed.

End RunnerFacts.

(** A preorder on folder caches that every update of the passes respects
    is kept by the whole processing of a candidate list. *)
Section Generic.
Context (P : relation FolderCache.t) `{!PreOrder P}.
Variable candidates : list CandidateFile.t.
Hypothesis P_status : forall f c, P c (setStatus f c).
Hypothesis P_drop :
  forall path c, path ∉ map CandidateFile.relativePath candidates -> P c (dropFile path c).
Hypothesis P_refresh :
  forall file prev c,
    file ∈ candidates ->
    JsMap.get (CandidateFile.relativePath file) (FolderCache.fileStates c) = Some prev ->
    P c (refreshState file prev c).
Hypothesis P_commit :
  forall p crs vs c, tp_file p ∈ candidates -> P c (commitFile p crs vs c).

Lemma suspend_keeps : keeps (onCache P) suspend.
Proof. intros j. unfold onCache. simpl. reflexivity. Qed.

Lemma modifyCache_keeps f : (forall c, P c (f c)) -> keeps (onCache P) (modifyCache f).
Proof. intros H j. unfold onCache. simpl. apply H. Qed.

Lemma patchStatus_keeps p : keeps (onCache P) (patchStatus p).
Proof. apply modifyCache_keeps. intros c. apply P_status. Qed.

Lemma deletionPass_keeps c :
  P c (deletionPass (map CandidateFile.relativePath candidates) c).1.
Proof.
  unfold deletionPass.
  assert (H : forall ks acc, P c acc.1 ->
    P c (foldl (fun acc existingFilePath =>
                  if bool_decide (existingFilePath ∈ map CandidateFile.relativePath candidates)
                  then acc else (dropFile existingFilePath acc.1, true)) acc ks).1).
  { induction ks as [|k ks IH]; intros acc Hacc; simpl; [done|].
    apply IH. destruct (bool_decide_reflect
      (k ∈ map CandidateFile.relativePath candidates)); [done|].
    simpl. etrans; [exact Hacc|]. by apply P_drop. }
  apply H. simpl. reflexivity.
Qed.

Lemma hashPass_keeps env files :
  files ⊆ candidates -> keeps (onCache P) (hashPass env files).
Proof.
  induction files as [|f files IH]; intros Hsub; simpl; [by apply (keeps_ret _)|].
  apply (keeps_bind _).
  - unfold hashCheck. apply (keeps_bind _); [apply suspend_keeps|intros _].
    apply (keeps_bind _); [apply (keeps_lift _)|intros content].
    apply (keeps_getCache_bind _). intros j.
    destruct (JsMap.get _ _) as [prev|] eqn:E; [|unfold onCache; simpl; reflexivity].
    destruct (_ && _); [|unfold onCache; simpl; reflexivity].
    unfold onCache. simpl. apply P_refresh; [|done].
    apply Hsub, list_elem_of_here.
  - intros r. keeps_step. apply IH. intros x Hx. apply Hsub. by apply list_elem_of_further.
Qed.

Lemma callEmbed_keeps env batch : keeps (onCache P) (callEmbed env batch).
Proof. intros j. unfold onCache. simpl. reflexivity. Qed.

Lemma batchLoop_keeps env sig b p crs i vectors :
  tp_file p ∈ candidates -> keeps (onCache P) (batchLoop env sig b p crs i vectors).
Proof.
  intros Hp. unfold batchLoop. cbv zeta. destruct (PrimFloat.ltb _ _); keeps_step.
  - apply callEmbed_keeps.
  - apply modifyCache_keeps. intros c. by apply P_commit.
Qed.

Lemma resume_keeps env sig b items nextIndex r :
  runnerFile (.∈ candidates) r -> keeps (onCache P) (resume env sig b items nextIndex r).
Proof.
  intros Hr. destruct r; cbn [resume]; keeps_step; try by apply batchLoop_keeps.
  destruct (items !! nextIndex); keeps_step.
Qed.

Lemma startRunners_keeps env sig b items count : forall nextIndex,
  keeps (onCache P) (startRunners env sig b items count nextIndex).
Proof.
  induction count as [|count IH]; intros nextIndex; cbn [startRunners]; keeps_step.
  - by apply resume_keeps.
  - apply IH.
Qed.

Lemma runScheduled_keeps env sig b items schedule : forall nextIndex runners,
  Forall (fun p => tp_file p ∈ candidates) items ->
  Forall (runnerFile (.∈ candidates)) runners ->
  keeps (onCache P) (runScheduled env sig b items schedule nextIndex runners).
Proof.
  induction schedule as [|k later IH]; intros nextIndex runners Hitems Hrs;
    cbn [runScheduled]; destruct (forallb isReturned runners); keeps_step.
  destruct (runners !! k) as [r|] eqn:E; [destruct (isReturned r)|]; try by apply IH.
  assert (Hr : runnerFile (.∈ candidates) r).
  { rewrite Forall_forall in Hrs. apply Hrs. by eapply list_elem_of_lookup_2. }
  apply (keeps_bind _); [apply suspend_keeps|intros _].
  apply (keeps_bind_returns _ _ _ _ (resume_keeps env sig b items nextIndex r Hr)
           (resume_runner (.∈ candidates) env sig b items nextIndex r Hitems Hr)).
  intros st Hst. apply IH; [done|]. by apply Forall_insert.
Qed.

Lemma runWithConcurrency_keeps env sig b concurrency items :
  Forall (fun p => tp_file p ∈ candidates) items ->
  keeps (onCache P) (runWithConcurrency env sig b concurrency items).
Proof.
  intros H. unfold runWithConcurrency. destruct items eqn:E; [by apply (keeps_ret _)|].
  rewrite <- E in *. cbv zeta.
  apply (keeps_bind_returns _ _ _ _ (startRunners_keeps env sig b items _ 0%nat)
           (startRunners_runners (.∈ candidates) env sig b items _ 0%nat H)).
  intros st Hst. by apply runScheduled_keeps.
Qed.

(** What follows the deletion pass drops no file. *)
Lemma afterDeletion_keeps env options deleted changed :
  changed ⊆ candidates ->
  keeps (onCache P) (sel <- hashPhase env deleted changed ;; embedPhase env options sel).
Proof.
  intros Hsub.
  assert (Hk : keeps (onCache P) (hashPhase env deleted changed)).
  { unfold hashPhase. apply (keeps_bind _); [by apply hashPass_keeps|intros ps].
    apply (keeps_bind _); [apply patchStatus_keeps|intros _]. apply (keeps_ret _). }
  apply (keeps_bind_returns _ _ _ _ Hk (hashPhase_files env deleted changed)).
  intros sel Hsel. unfold embedPhase.
    apply (keeps_bind _); [|intros _; apply (keeps_ret _)].
    apply runWithConcurrency_keeps. eapply Forall_impl; [exact Hsel|].
    intros p Hp. by apply Hsub.
Qed.

Lemma changedFiles_subseteq c : changedFiles c candidates ⊆ candidates.
Proof. intros x Hx. unfold changedFiles in Hx. by apply list_elem_of_filter in Hx as [_ ?]. Qed.

Lemma process_keeps env options :
  keeps (onCache P) (process env options candidates).
Proof.
  intros j. rewrite process_eq.
  etrans; [|apply afterDeletion_keeps, changedFiles_subseteq].
  unfold onCache, afterDeletion. cbn [cache].
  etrans; [apply deletionPass_keeps|]. apply P_status.
Qed.

End Generic.
End ProcessFacts.

(** ** The call as a whole *)

Section RunFacts.
Import Indexer.

Context (env : Env) (ix : Indexer.t) (d : Storage.Disk) (folderPath : string)
        (options : IndexOptions).

(** The job after the scan: the counters are reset and two suspension
    points are behind. *)
Lemma run_cases :
  let c0 := loaded env ix d folderPath options in
  let j1 := {| cache := c0; disk := d; tick := 2; embedCalls := 0 |} in
  match scanned env c0 options with
  | inl e => run env ix d folderPath options = (Throw e, j1)
  | inr candidates =>
      if abortedAfterScan options
      then run env ix d folderPath options
           = (Throw (abortException (default {| abortedAt := 0; reason := None |}
                                             (signal options))), j1)
      else
        let j2 := {| cache := setStatus (patch (preparingPatch (length candidates))) c0;
                     disk := d; tick := 2; embedCalls := 0 |} in
        match process env options candidates j2 with
        | (Ok changedIndex, j3) =>
            run env ix d folderPath options = finish env changedIndex j3
        | (Throw e, j3) => run env ix d folderPath options = (Throw e, j3)
        | (Hang, j3) => run env ix d folderPath options = (Hang, j3)
        end
  end.
Proof.
  intros c0 j1. subst c0 j1. unfold loaded, scanned, abortedAfterScan.
  cbv beta iota zeta delta
    [run transaction prepare scanPhase bind ensurePersistedLoaded getCache suspend
     lift checkSignal patchStatus modifyCache ret throw cache disk tick embedCalls
     fst snd].
  destruct (scanDirectory env _ _ _ _) as [e|candidates]; [reflexivity|].
  destruct (signal options) as [s|]; cbn [default].
  - destruct (abortedAt s <=? 2)%nat; [reflexivity|].
    destruct (process env options candidates _) as [[ch| e |] j3]; reflexivity.
  - destruct (process env options candidates _) as [[ch| e |] j3]; reflexivity.
Qed.

(** The last stretch marks the index ready and, when the index changed,
    advances the revision and saves; it ends in an exception exactly when
    the save rejects. *)
Lemma finish_spec changedIndex (j : Job) :
  exists j', finish env changedIndex j = (finishOutcome env changedIndex j, j')
    /\ RagStatus.phase (FolderCache.status (cache j')) = PhaseReady
    /\ RagStatus.totalFiles (FolderCache.status (cache j'))
       = RagStatus.totalFiles (FolderCache.status (cache j))
    /\ RagStatus.filesToEmbed (FolderCache.status (cache j'))
       = RagStatus.filesToEmbed (FolderCache.status (cache j))
    /\ RagStatus.skippedUnchanged (FolderCache.status (cache j'))
       = RagStatus.skippedUnchanged (FolderCache.status (cache j))
    /\ FolderCache.chunks (cache j') = FolderCache.chunks (cache j)
    /\ FolderCache.fileStates (cache j') = FolderCache.fileStates (cache j)
    /\ FolderCache.folderPath (cache j') = FolderCache.folderPath (cache j)
    /\ FolderCache.indexRevision (cache j')
       = (if changedIndex then S (FolderCache.indexRevision (cache j))
          else FolderCache.indexRevision (cache j))
    /\ disk j' = (if changedIndex then (saveOf env j).2 else disk j).
Proof.
  unfold finishOutcome, saveOf. destruct changedIndex.
  - cbv beta iota zeta delta [finish bind now getCache patchStatus modifyCache persist
      suspend setDbSize ret cache disk tick embedCalls fst snd].
    cbn [rebuildAnnIndex setIndex setStatus FolderCache.folderPath FolderCache.chunks
         FolderCache.fileStates FolderCache.indexRevision FolderCache.persistedLoaded
         FolderCache.annIndex].
    destruct (Storage.saveToDisk _ _ _ _ _ _) as [[e|] d'];
      eexists; (split; [reflexivity|]); cbn; split_and!; reflexivity.
  - eexists. split; [reflexivity|]. cbn. split_and!; reflexivity.
Qed.

(** What the last stretch leaves in the status and of the ANN index,
    whether the save rejects or not. *)
Lemma finish_status changedIndex (j : Job) :
  let j' := (finish env changedIndex j).2 in
  RagStatus.totalChunks (FolderCache.status (cache j'))
  = JsMap.size (FolderCache.chunks (cache j'))
  /\ RagStatus.fileChangeDrift (FolderCache.status (cache j')) = 0%nat
  /\ FolderCache.annIndex (cache j')
     = (if changedIndex then Lsh.build Lsh.default (FolderCache.chunks (cache j))
        else FolderCache.annIndex (cache j))
  /\ FolderCache.persistedLoaded (cache j') = FolderCache.persistedLoaded (cache j)
  /\ FolderCache.config (cache j') = FolderCache.config (cache j)
  /\ RagStatus.embeddedFiles (FolderCache.status (cache j'))
     = RagStatus.embeddedFiles (FolderCache.status (cache j))
  /\ RagStatus.lastIndexedAt (FolderCache.status (cache j'))
     = Some (dateNow env (tick j)).
Proof.
  cbv zeta. destruct changedIndex.
  - cbv beta iota zeta delta [finish bind now getCache patchStatus modifyCache persist
      suspend setDbSize ret cache disk tick embedCalls fst snd].
    cbn [rebuildAnnIndex setIndex setStatus FolderCache.folderPath FolderCache.chunks
         FolderCache.fileStates FolderCache.indexRevision FolderCache.persistedLoaded
         FolderCache.annIndex].
    destruct (Storage.saveToDisk _ _ _ _ _ _) as [[e|] d']; cbn; split_and!; reflexivity.
  - cbn. split_and!; reflexivity.
Qed.

(** A call is its attempt followed by the last stretch. *)
Lemma run_attempt :
  run env ix d folderPath options
  = match attempt env ix d folderPath options with
    | (Ok changedIndex, j3) => finish env changedIndex j3
    | (Throw e, j3) => (Throw e, j3)
    | (Hang, j3) => (Hang, j3)
    end.
Proof.
  unfold run, transaction, attempt, bind.
  by destruct (prepare env options _) as [[ch|e|] j3].
Qed.

Lemma attempt_cases :
  let c0 := loaded env ix d folderPath options in
  let j1 := {| cache := c0; disk := d; tick := 2; embedCalls := 0 |} in
  match scanned env c0 options with
  | inl e => attempt env ix d folderPath options = (Throw e, j1)
  | inr candidates =>
      if abortedAfterScan options
      then attempt env ix d folderPath options
           = (Throw (abortException (default {| abortedAt := 0; reason := None |}
                                             (signal options))), j1)
      else
        attempt env ix d folderPath options
        = process env options candidates
            {| cache := setStatus (patch (preparingPatch (length candidates))) c0;
               disk := d; tick := 2; embedCalls := 0 |}
  end.
Proof.
  intros c0 j1. subst c0 j1. unfold loaded, scanned, abortedAfterScan.
  cbv beta iota zeta delta
    [attempt prepare scanPhase bind ensurePersistedLoaded getCache suspend
     lift checkSignal patchStatus modifyCache ret throw cache disk tick embedCalls
     fst snd].
  destruct (scanDirectory env _ _ _ _) as [e|candidates]; [reflexivity|].
  destruct (signal options) as [s|]; cbn [default].
  - destruct (abortedAt s <=? 2)%nat; [reflexivity|].
    destruct (process env options candidates _) as [[ch| e |] j3]; reflexivity.
  - destruct (process env options candidates _) as [[ch| e |] j3]; reflexivity.
Qed.

End RunFacts.

(** ** Calls that end in an exception *)

Section ThrowFacts.
Import Indexer.

#[local] Instance sameRevision_preorder : PreOrder sameRevision.
Proof. split; [by intros c|]. intros c1 c2 c3 H1 H2. unfold sameRevision in *. congruence. Qed.

Lemma process_revision env options candidates :
  keeps (onCache sameRevision) (process env options candidates).
Proof.
  apply (process_keeps sameRevision); unfold sameRevision; intros.
  - reflexivity.
  - unfold dropFile. reflexivity.
  - reflexivity.
  - reflexivity.
Qed.

Lemma loadInto_revision env d c :
  FolderCache.indexRevision (loadInto env d c) = FolderCache.indexRevision c.
Proof.
  unfold loadInto. destruct (FolderCache.persistedLoaded c); [reflexivity|].
  cbv zeta. destruct (Storage.lastIndexedAt _) as [t|]; [destruct (truthyNumber t)|];
    reflexivity.
Qed.

Lemma loaded_revision env ix d folderPath options :
  FolderCache.indexRevision (loaded env ix d folderPath options)
  = FolderCache.indexRevision (ensureCache ix folderPath).
Proof. unfold loaded. rewrite loadInto_revision. reflexivity. Qed.

Lemma onError_revision e c :
  FolderCache.indexRevision (onError e c) = FolderCache.indexRevision c.
Proof. unfold onError. destruct (isAbortError e); reflexivity. Qed.

Lemma onError_status e c :
  RagStatus.phase (FolderCache.status (onError e c))
  = (if isAbortError e then PhaseIdle else PhaseError)
  /\ (isAbortError e = true ->
      RagStatus.message (FolderCache.status (onError e c)) = Some "Indexing was cancelled").
Proof. unfold onError. destruct (isAbortError e); split; done. Qed.

Lemma onError_maps e c :
  FolderCache.chunks (onError e c) = FolderCache.chunks c
  /\ FolderCache.fileStates (onError e c) = FolderCache.fileStates c.
Proof. unfold onError. by destruct (isAbortError e). Qed.

Lemma onError_filesToEmbed e c :
  RagStatus.filesToEmbed (FolderCache.status (onError e c))
  = RagStatus.filesToEmbed (FolderCache.status c).
Proof. unfold onError. destruct (isAbortError e); reflexivity. Qed.

(** However the attempt of a call ends, it wrote nothing and kept the
    revision. *)
Lemma attempt_keeps env ix d folderPath options :
  disk (attempt env ix d folderPath options).2 = d
  /\ FolderCache.indexRevision (cache (attempt env ix d folderPath options).2)
     = FolderCache.indexRevision (ensureCache ix folderPath).
Proof.
  pose proof (attempt_cases env ix d folderPath options) as H.
  cbv zeta in H. rewrite <- (loaded_revision env ix d folderPath options).
  destruct (scanned env _ options) as [e'|candidates].
  { rewrite H. done. }
  destruct (abortedAfterScan options).
  { rewrite H. done. }
  match type of H with
  | _ = process _ _ _ ?j =>
      pose proof (keeps_process_disk env options candidates j) as Hd;
      pose proof (process_revision env options candidates j) as Hr
  end.
  rewrite H. unfold sameDisk, onCache, sameRevision in *. simpl in *. done.
Qed.

(** A call whose attempt ends in an exception ends in that exception, in
    the state the attempt left. *)
Lemma run_Throw env ix d folderPath options e :
  (attempt env ix d folderPath options).1 = Throw e ->
  run env ix d folderPath options = (Throw e, (attempt env ix d folderPath options).2).
Proof.
  intros H. rewrite run_attempt.
  destruct (attempt env ix d folderPath options) as [[ch|e'|] j3]; cbn in H; [done| |done].
  by injection H as ->.
Qed.

End ThrowFacts.

(** ** Cancellation *)

Section Cancellation.
Import Indexer.

(** X3.  A token that is already aborted when the scan returns ends the call
    with the token's reason, or with an [AbortError] when it has none. *)
Lemma aborted_token_throws env ix d folderPath options s candidates :
  signal options = Some s ->
  (abortedAt s <= 2)%nat ->
  scanned env (loaded env ix d folderPath options) options = inr candidates ->
  (run env ix d folderPath options).1 = Throw (abortException s).
Proof.
  intros Hs Ha Hscan. pose proof (run_cases env ix d folderPath options) as H.
  cbv zeta in H. rewrite Hscan in H. unfold abortedAfterScan in H. rewrite Hs in H.
  apply Nat.leb_le in Ha. rewrite Ha in H. rewrite H. reflexivity.
Qed.

(** A token aborted before the call, with no reason given. *)
Lemma aborted_token_throws_witness :
  (run (Scenario.envOf "/root" Scenario.tree) create ∅ "/root/"
       (Scenario.withSignal {| abortedAt := 0; reason := None |})).1
  = Throw AbortError.
Proof.
  apply (aborted_token_throws (Scenario.envOf "/root" Scenario.tree) create ∅ "/root/"
           (Scenario.withSignal {| abortedAt := 0; reason := None |})
           {| abortedAt := 0; reason := None |}
           (map (Scenario.candidateOf "/root") Scenario.tree)).
  - reflexivity.
  - simpl. lia.
  - vm_compute. reflexivity.
Defined.

(** C4, counterexample.  A token aborted with a reason of the caller's
    ([controller.abort(new Error("stop"))]) before the call: the status ends
    in phase "error" with the reason's message, not in "idle". *)
Lemma abort_with_reason_ends_in_error :
  RagStatus.phase <$>
    (index (Scenario.envOf "/root" Scenario.tree) create ∅ "/root/"
       (Scenario.withSignal {| abortedAt := 0; reason := Some (Error "stop") |})).1.1
  = Some PhaseError
  /\ (index (Scenario.envOf "/root" Scenario.tree) create ∅ "/root/"
        (Scenario.withSignal {| abortedAt := 0; reason := Some (Error "stop") |})).1.1
     ≫= RagStatus.message
     = Some "stop".
Proof. split; vm_compute; reflexivity. Qed.

End Cancellation.

(** ** What the selection of files reports *)

Section SelectFacts.
Import Indexer.

#[local] Instance sameFilesToEmbed_preorder : PreOrder sameFilesToEmbed.
Proof.
  split; [by intros c|]. intros c1 c2 c3 H1 H2. unfold sameFilesToEmbed in *. congruence.
Qed.

Lemma deletionPass_flag currentFiles c :
  (deletionPass currentFiles c).2
  = negb (bool_decide
            (filter (fun p => p ∉ currentFiles) (JsMap.keys (FolderCache.fileStates c)) = [])).
Proof.
  unfold deletionPass.
  assert (H : forall ks (acc : FolderCache.t * bool),
    (foldl (fun acc existingFilePath =>
              if bool_decide (existingFilePath ∈ currentFiles) then acc
              else (dropFile existingFilePath acc.1, true)) acc ks).2
    = acc.2 || negb (bool_decide (filter (fun p => p ∉ currentFiles) ks = []))).
  { induction ks as [|k ks IH]; intros acc; simpl.
    - by rewrite orb_false_r.
    - rewrite IH. rewrite filter_cons.
      destruct (bool_decide_reflect (k ∈ currentFiles)) as [Hk|Hk].
      + rewrite decide_False by (intros Hn; by apply Hn). done.
      + rewrite decide_True by done. simpl. by rewrite orb_true_r. }
  rewrite H. done.
Qed.

Lemma deletionPass_nothing currentFiles c :
  filter (fun p => p ∉ currentFiles) (JsMap.keys (FolderCache.fileStates c)) = [] ->
  deletionPass currentFiles c = (c, false).
Proof.
  unfold deletionPass. generalize (JsMap.keys (FolderCache.fileStates c)).
  induction l as [|k ks IH]; intros H; [reflexivity|]. simpl.
  rewrite filter_cons in H. destruct (decide (k ∉ currentFiles)) as [Hk|Hk]; [done|].
  rewrite bool_decide_true; [by apply IH|]. by apply dec_stable.
Qed.

#[local] Instance sameChunks_preorder : PreOrder sameChunks.
Proof.
  split; [by intros c|]. intros c1 c2 c3 H1 H2. unfold sameChunks in *. congruence.
Qed.

Lemma hashPass_chunks env files : keeps (onCache sameChunks) (hashPass env files).
Proof. apply (hashPass_keeps sameChunks files); [by intros|done]. Qed.

Lemma runWithConcurrency_filesToEmbed env sig b concurrency items :
  keeps (onCache sameFilesToEmbed) (runWithConcurrency env sig b concurrency items).
Proof.
  apply (runWithConcurrency_keeps sameFilesToEmbed (map tp_file items)).
  - intros p crs vs c _. reflexivity.
  - apply Forall_forall. intros p Hp. by apply list_elem_of_fmap_2.
Qed.

Lemma process_post env options candidates :
  post (process env options candidates)
    (fun changedIndex j j' =>
       changedIndex
       = negb (bool_decide (deletedPaths (cache j) candidates = []))
         || (0 <? RagStatus.filesToEmbed (FolderCache.status (cache j')))%nat).
Proof.
  intros j. rewrite process_eq. unfold deletedPaths.
  rewrite deletionPass_flag. unfold hashPhase, embedPhase.
  unfold bind at 1 2.
  destruct (hashPass env _ _) as [[fps|e|] j1]; [|done|done].
  cbv beta iota zeta delta [bind patchStatus modifyCache ret fst snd].
  match goal with
  | |- context [runWithConcurrency ?e ?s ?b ?n fps ?j0] =>
      pose proof (runWithConcurrency_filesToEmbed e s b n fps j0) as Hk;
      destruct (runWithConcurrency e s b n fps j0) as [[[]|e'|] j2]; [|done|done]
  end.
  unfold onCache, sameFilesToEmbed in Hk. simpl in Hk. rewrite Hk.
  f_equal. by destruct fps.
Qed.

(** A processing that reports no change left the chunks map as it was. *)
Lemma process_chunks env options candidates :
  post (process env options candidates)
    (fun changedIndex j j' =>
       changedIndex = false ->
       FolderCache.chunks (cache j') = FolderCache.chunks (cache j)).
Proof.
  intros j. rewrite process_eq. unfold afterDeletion.
  pose proof (deletionPass_flag (map CandidateFile.relativePath candidates) (cache j))
    as Hflag.
  destruct (bool_decide_reflect
              (filter (fun p => p ∉ map CandidateFile.relativePath candidates)
                      (JsMap.keys (FolderCache.fileStates (cache j))) = [])) as [Hnil|Hne].
  - rewrite (deletionPass_nothing _ _ Hnil). cbn [fst snd].
    unfold hashPhase, embedPhase. unfold bind at 1 2.
    match goal with
    | |- context [hashPass env ?fs ?j0] => pose proof (hashPass_chunks env fs j0) as Hc
    end.
    destruct (hashPass env _ _) as [[fps|e|] j1]; [|done|done].
    unfold onCache, sameChunks in Hc. cbn [snd cache addSkipped setStatus
      FolderCache.chunks] in Hc.
    destruct fps as [|p fps].
    + cbv beta iota zeta delta [bind patchStatus modifyCache ret runWithConcurrency
                                fst snd].
      intros _. exact Hc.
    + cbv beta iota zeta delta [bind patchStatus modifyCache ret fst snd].
      by destruct (runWithConcurrency _ _ _ _ _ _) as [[[]|e|] j2].
  - rewrite Hflag. cbn [negb]. unfold hashPhase, embedPhase. unfold bind at 1 2.
    destruct (hashPass env _ _) as [[fps|e|] j1]; [|done|done].
    cbv beta iota zeta delta [bind patchStatus modifyCache ret fst snd].
    by destruct (runWithConcurrency _ _ _ _ _ _) as [[[]|e|] j2].
Qed.

(** The final cache of a call whose last stretch ran from [j3] to [j']. *)
Lemma finalCache_finish env ch j3 j' :
  finish env ch j3 = (finishOutcome env ch j3, j') ->
  FolderCache.indexRevision (finalCache (finish env ch j3))
  = FolderCache.indexRevision (cache j')
  /\ RagStatus.filesToEmbed (FolderCache.status (finalCache (finish env ch j3)))
     = RagStatus.filesToEmbed (FolderCache.status (cache j')).
Proof.
  intros ->. unfold finalCache. cbn [fst snd].
  destruct (finishOutcome env ch j3); [done| |done].
  by rewrite onError_revision, onError_filesToEmbed.
Qed.

(** The revision after a call: one more when the attempt got through and
    the index changed, whether the save then succeeds or not; the same
    otherwise. *)
Lemma run_revision env ix d folderPath options :
  FolderCache.indexRevision (finalCache (run env ix d folderPath options))
  = match (attempt env ix d folderPath options).1 with
    | Ok _ =>
        if indexChanged env ix d folderPath options
        then S (FolderCache.indexRevision (ensureCache ix folderPath))
        else FolderCache.indexRevision (ensureCache ix folderPath)
    | _ => FolderCache.indexRevision (ensureCache ix folderPath)
    end.
Proof.
  unfold indexChanged, deletedByCall. rewrite run_attempt.
  pose proof (attempt_cases env ix d folderPath options) as H. cbv zeta in H.
  rewrite <- (loaded_revision env ix d folderPath options).
  destruct (scanned env _ options) as [e'|candidates].
  { rewrite H. unfold finalCache. simpl. apply onError_revision. }
  destruct (abortedAfterScan options).
  { rewrite H. unfold finalCache. simpl. apply onError_revision. }
  match type of H with
  | _ = process _ _ _ ?j =>
      pose proof (process_revision env options candidates j) as Hr;
      pose proof (process_post env options candidates j) as Hp
  end.
  rewrite H. destruct (process env options candidates _) as [[ch|e'|] j3].
  - destruct (finish_spec env ch j3) as (j' & Hf & _ & _ & Hn & _ & _ & _ & _ & Hrev & _).
    destruct (finalCache_finish env ch j3 j' Hf) as [-> ->]. cbn [fst]. rewrite Hrev, Hn.
    unfold onCache, sameRevision in Hr. simpl in Hr. rewrite Hr.
    change (deletedPaths (cache _) candidates)
      with (deletedPaths (loaded env ix d folderPath options) candidates) in Hp.
    rewrite <- Hp. reflexivity.
  - unfold finalCache. cbn [fst snd]. rewrite onError_revision.
    exact Hr.
  - unfold finalCache. cbn [fst snd]. exact Hr.
Qed.

(** A completed call that did not change the index has the chunks map it
    started from. *)
Lemma run_chunks env ix d folderPath options u :
  (run env ix d folderPath options).1 = Ok u ->
  indexChanged env ix d folderPath options = false ->
  FolderCache.chunks (finalCache (run env ix d folderPath options))
  = FolderCache.chunks (loaded env ix d folderPath options).
Proof.
  unfold indexChanged, deletedByCall.
  pose proof (run_cases env ix d folderPath options) as H. cbv zeta in H.
  destruct (scanned env _ options) as [e'|candidates]; [by rewrite H|].
  destruct (abortedAfterScan options); [by rewrite H|].
  match type of H with
  | match process _ _ _ ?j with _ => _ end =>
      pose proof (process_chunks env options candidates j) as Hc;
      pose proof (process_post env options candidates j) as Hp
  end.
  destruct (process env options candidates _) as [[ch|e'|] j3];
    [|by rewrite H|by rewrite H].
  destruct (finish_spec env ch j3) as (j' & Hf & _ & _ & Hn & _ & Hch & _).
  rewrite H, Hf. unfold finalCache. cbn [fst snd]. intros Hout Hno.
  rewrite Hout in *. rewrite Hn in Hno.
  change (deletedPaths (cache _) candidates)
    with (deletedPaths (loaded env ix d folderPath options) candidates) in Hp.
  rewrite <- Hp in Hno. rewrite Hch. by apply Hc.
Qed.

End SelectFacts.

(** ** The index revision *)

Section Revision.
Import Indexer.

(** C2, counterexample.  The two files are touched (a later modification
    time, the same content) and indexed again: the call completes, the
    tracked [modifiedAt] of [docs/alpha.md] goes from 100 to 200, and the
    revision is the one from before the call. *)
Lemma hash_fast_path_keeps_revision :
  (run (Scenario.envOf "/root" Scenario.touched) Scenario.firstIndex.1.2
       Scenario.firstIndex.2 "/root/" Scenario.markdownOnly).1 = Ok tt
  /\ RagFileState.modifiedAt <$>
       JsMap.get "docs/alpha.md"
         (FolderCache.fileStates (ensureCache Scenario.firstIndex.1.2 "/root/"))
     = Some 100%float
  /\ RagFileState.modifiedAt <$>
       JsMap.get "docs/alpha.md"
         (FolderCache.fileStates
            (finalCache (run (Scenario.envOf "/root" Scenario.touched)
                           Scenario.firstIndex.1.2 Scenario.firstIndex.2 "/root/"
                           Scenario.markdownOnly)))
     = Some 200%float
  /\ FolderCache.indexRevision
       (finalCache (run (Scenario.envOf "/root" Scenario.touched)
                      Scenario.firstIndex.1.2 Scenario.firstIndex.2 "/root/"
                      Scenario.markdownOnly))
     = FolderCache.indexRevision (ensureCache Scenario.firstIndex.1.2 "/root/").
Proof. split_and!; vm_compute; reflexivity. Qed.

(** A save that rejects: the first indexing on a file system that cannot
    take the index file ends in the exception of the write, in phase
    "error", with the revision advanced and the chunk file written. *)
Lemma rejected_save_advances_revision :
  (run Scenario.envFull create ∅ "/root/" Scenario.markdownOnly).1 = Throw (Error "ENOSPC")
  /\ FolderCache.indexRevision
       (finalCache (run Scenario.envFull create ∅ "/root/" Scenario.markdownOnly))
     = 1%nat
  /\ RagStatus.phase <$> (index Scenario.envFull create ∅ "/root/" Scenario.markdownOnly).1.1
     = Some PhaseError
  /\ is_Some ((index Scenario.envFull create ∅ "/root/" Scenario.markdownOnly).2
              !! Storage.dbPath (Storage.getPaths "/root"))
  /\ (index Scenario.envFull create ∅ "/root/" Scenario.markdownOnly).2
       !! Storage.indexPath (Storage.getPaths "/root")
     = None.
Proof.
  assert (E : exists j, run Scenario.envFull create ∅ "/root/" Scenario.markdownOnly
                        = (Throw (Error "ENOSPC"), j)
                        /\ FolderCache.indexRevision (cache j) = 1%nat
                        /\ is_Some (disk j !! Storage.dbPath (Storage.getPaths "/root"))
                        /\ disk j !! Storage.indexPath (Storage.getPaths "/root") = None).
  { eexists. split; [vm_compute; reflexivity|]. split; [reflexivity|].
    split; [vm_compute; by eexists|by vm_compute]. }
  destruct E as (j & E & Hr & Hdb & Hix). unfold index, finalCache. cbv zeta. rewrite E.
  cbn [fst snd]. split_and!; try done.
Qed.

(** C2, amended.  The revision of a folder advances by exactly one in a
    call of [index] that gets through the scan, the selection and the
    embedding after it dropped a deleted file or queued a file for
    embedding, whether the save that follows succeeds or rejects (the call
    then ends as the save ends); it stays as it was in every other call,
    completed or not; a completed call that leaves the revision as it was
    leaves the chunks map as it was.  The content-hash fast path stores the
    refreshed [modifiedAt] and [size] in the file state and leaves the
    revision alone. *)
Theorem indexRevision_advances_with_changedIndex env ix d folderPath options :
  FolderCache.indexRevision (finalCache (run env ix d folderPath options))
  = (match (attempt env ix d folderPath options).1 with
     | Ok _ =>
         if indexChanged env ix d folderPath options
         then S (FolderCache.indexRevision (ensureCache ix folderPath))
         else FolderCache.indexRevision (ensureCache ix folderPath)
     | _ => FolderCache.indexRevision (ensureCache ix folderPath)
     end)
  /\ (run env ix d folderPath options).1
     = (match (attempt env ix d folderPath options).1 with
        | Ok changedIndex =>
            finishOutcome env changedIndex (attempt env ix d folderPath options).2
        | Throw e => Throw e
        | Hang => Hang
        end)
  /\ (forall u,
        (run env ix d folderPath options).1 = Ok u ->
        indexChanged env ix d folderPath options = false ->
        FolderCache.chunks (finalCache (run env ix d folderPath options))
        = FolderCache.chunks (loaded env ix d folderPath options))
  /\ forall file previous c,
       FolderCache.indexRevision (refreshState file previous c)
       = FolderCache.indexRevision c
       /\ JsMap.get (CandidateFile.relativePath file)
            (FolderCache.fileStates (refreshState file previous c))
          = Some {| RagFileState.modifiedAt := CandidateFile.modifiedAt file;
                    RagFileState.size := CandidateFile.size file;
                    RagFileState.contentHash := RagFileState.contentHash previous;
                    RagFileState.chunkIds := RagFileState.chunkIds previous |}.
Proof.
  split; [apply run_revision|]. split; [|split; [apply run_chunks|]].
  - rewrite run_attempt.
    destruct (attempt env ix d folderPath options) as [[ch|e|] j3]; cbn [fst snd]; [|done..].
    destruct (finish_spec env ch j3) as (j' & -> & _). done.
  - intros file previous c. split; [reflexivity|].
    unfold refreshState. cbn [FolderCache.fileStates addSkipped setStatus setMaps].
    apply get_set_eq.
Qed.

End Revision.

(** ** Indexing an unchanged tree *)

Section UnchangedFacts.
Import Indexer.
Context (env : Env).

Lemma refreshState_hashUnchanged file previous c f :
  JsMap.get (CandidateFile.relativePath file) (FolderCache.fileStates c) = Some previous ->
  hashUnchanged env (refreshState file previous c) f = hashUnchanged env c f.
Proof.
  intros Hget. unfold hashUnchanged, refreshState.
  cbn [FolderCache.fileStates addSkipped setStatus setMaps].
  destruct (decide (CandidateFile.relativePath f = CandidateFile.relativePath file)) as [E|E].
  - rewrite E, get_set_eq, Hget. reflexivity.
  - rewrite get_set_ne by done. reflexivity.
Qed.

Lemma hashCheck_unchanged file j :
  hashUnchanged env (cache j) file = true ->
  exists j', hashCheck env file j = (Ok None, j')
    /\ disk j' = disk j /\ refreshed env 1 (cache j) (cache j').
Proof.
  destruct j as [c dk tk ec]. cbn [cache disk]. unfold hashUnchanged. intros H.
  destruct (JsMap.get _ _) as [previous|] eqn:Hget; [|done].
  destruct (readFile env _) as [e|content] eqn:Hread; [done|].
  unfold hashCheck.
  cbv beta iota zeta delta [bind suspend lift getCache modifyCache ret cache disk tick
                            embedCalls fst snd].
  rewrite Hread. cbv beta iota. rewrite Hget, H.
  eexists. split; [reflexivity|]. cbn [cache disk]. split; [reflexivity|].
  unfold refreshed. split_and!; try reflexivity.
  intros f. by apply refreshState_hashUnchanged.
Qed.

Lemma hashPass_unchanged files : forall j,
  Forall (fun f => hashUnchanged env (cache j) f = true) files ->
  exists j', hashPass env files j = (Ok [], j')
    /\ disk j' = disk j /\ refreshed env (length files) (cache j) (cache j').
Proof.
  induction files as [|file files IH]; intros j Hall.
  - exists j. split; [reflexivity|]. split; [reflexivity|].
    unfold refreshed. split_and!; try reflexivity. by rewrite Nat.add_0_r.
  - apply Forall_cons in Hall as [Hf Hall].
    destruct (hashCheck_unchanged file j Hf) as (j1 & E1 & Hd1 & Hr1).
    destruct (IH j1) as (j2 & E2 & Hd2 & Hr2).
    { eapply Forall_impl; [exact Hall|]. intros f Hf'. simpl in Hf'.
      destruct Hr1 as (_ & _ & _ & _ & Hh). by rewrite Hh. }
    exists j2. cbn [hashPass]. unfold bind at 1. rewrite E1.
    unfold bind at 1. rewrite E2. split; [reflexivity|]. split; [congruence|].
    destruct Hr1 as (A1 & B1 & C1 & D1 & E1'), Hr2 as (A2 & B2 & C2 & D2 & E2').
    unfold refreshed. split_and!; try congruence.
    all: first [ rewrite D2, D1; simpl; lia | intros f; by rewrite E2', E1' ].
Qed.

Lemma process_unchanged options candidates j :
  deletedPaths (cache j) candidates = [] ->
  Forall (fun f => unchangedFile env (cache j) f = true) candidates ->
  exists j', process env options candidates j = (Ok false, j')
    /\ disk j' = disk j
    /\ FolderCache.indexRevision (cache j') = FolderCache.indexRevision (cache j)
    /\ FolderCache.chunks (cache j') = FolderCache.chunks (cache j)
    /\ RagStatus.totalFiles (FolderCache.status (cache j'))
       = RagStatus.totalFiles (FolderCache.status (cache j))
    /\ RagStatus.skippedUnchanged (FolderCache.status (cache j'))
       = (RagStatus.skippedUnchanged (FolderCache.status (cache j)) + length candidates)%nat.
Proof.
  intros Hdel Hall. rewrite process_eq. unfold afterDeletion.
  unfold deletedPaths in Hdel. rewrite (deletionPass_nothing _ _ Hdel). cbn [fst snd].
  unfold hashPhase.
  match goal with
  | |- context [bind (hashPass env ?fs) _] =>
      match goal with
      | |- context [bind _ _ ?j0] =>
          destruct (hashPass_unchanged fs j0) as (j1 & E & Hd & Hr)
      end
  end.
  { cbn [cache]. apply Forall_forall. intros f Hf. unfold changedFiles in Hf.
    apply list_elem_of_filter in Hf as [Hm Hin].
    rewrite Forall_forall in Hall. specialize (Hall f Hin).
    unfold unchangedFile in Hall. rewrite Hm in Hall. exact Hall. }
  unfold bind at 1 2. rewrite E.
  cbv beta iota zeta delta [bind patchStatus modifyCache ret runWithConcurrency embedPhase
                            fst snd].
  eexists. split; [reflexivity|]. cbn [cache disk] in *.
  destruct Hr as (A & B & C & D & _). split_and!; try done.
  cbn. cbn in D. rewrite D.
  assert (length (changedFiles (cache j) candidates) <= length candidates)%nat
    by apply length_filter.
  lia.
Qed.

End UnchangedFacts.

(** ** Indexing again *)

Section Reindex.
Import Indexer.

(** C5.  A call of [index] whose scan lists every tracked path, each file
    with the tracked [modifiedAt] and [size] or with the tracked content
    hash, and whose token is not aborted when the scan returns, completes
    with [skippedUnchanged] equal to [totalFiles], with the revision and the
    chunks it started from and with the disk untouched. *)
Theorem reindex_unchanged_is_noop env ix d folderPath options candidates :
  scanned env (loaded env ix d folderPath options) options = inr candidates ->
  abortedAfterScan options = false ->
  deletedPaths (loaded env ix d folderPath options) candidates = [] ->
  Forall (fun f => unchangedFile env (loaded env ix d folderPath options) f = true)
         candidates ->
  (run env ix d folderPath options).1 = Ok tt
  /\ RagStatus.phase <$> (index env ix d folderPath options).1.1 = Some PhaseReady
  /\ RagStatus.skippedUnchanged <$> (index env ix d folderPath options).1.1
     = RagStatus.totalFiles <$> (index env ix d folderPath options).1.1
  /\ RagStatus.totalFiles <$> (index env ix d folderPath options).1.1
     = Some (length candidates)
  /\ FolderCache.indexRevision (finalCache (run env ix d folderPath options))
     = FolderCache.indexRevision (ensureCache ix folderPath)
  /\ FolderCache.chunks (finalCache (run env ix d folderPath options))
     = FolderCache.chunks (loaded env ix d folderPath options)
  /\ (index env ix d folderPath options).2 = d.
Proof.
  intros Hscan Habort Hdel Hall.
  pose proof (run_cases env ix d folderPath options) as H. cbv zeta in H.
  rewrite Hscan, Habort in H.
  match type of H with
  | match process _ _ _ ?j with _ => _ end =>
      destruct (process_unchanged env options candidates j Hdel Hall)
        as (j3 & E & Hd & Hrev & Hch & Htot & Hskip)
  end.
  rewrite E in H.
  destruct (finish_spec env false j3)
    as (j' & Hf & Hph & Htot' & _ & Hskip' & Hch' & _ & _ & Hrev' & Hd').
  change (finishOutcome env false j3) with (@Ok unit tt) in Hf.
  rewrite Hf in H. unfold index, finalCache. cbv zeta. rewrite H.
  cbn [fst snd fmap option_fmap option_map]. cbn in Htot, Hskip, Hd, Hrev, Hch.
  rewrite Hph, Htot', Hskip', Hrev', Hd', Hch', Htot, Hskip, Hrev, Hd, Hch.
  rewrite loaded_revision. done.
Qed.

(** The tree of the scenario indexed a second time. *)
Lemma reindex_unchanged_is_noop_witness :
  (run (Scenario.envOf "/root" Scenario.tree) Scenario.firstIndex.1.2
       Scenario.firstIndex.2 "/root/" Scenario.markdownOnly).1 = Ok tt
  /\ (index (Scenario.envOf "/root" Scenario.tree) Scenario.firstIndex.1.2
        Scenario.firstIndex.2 "/root/" Scenario.markdownOnly).2
     = Scenario.firstIndex.2.
Proof.
  pose proof (reindex_unchanged_is_noop (Scenario.envOf "/root" Scenario.tree)
                Scenario.firstIndex.1.2 Scenario.firstIndex.2 "/root/"
                Scenario.markdownOnly
                (map (Scenario.candidateOf "/root") Scenario.tree)) as H.
  destruct H as (Hrun & _ & _ & _ & _ & _ & Hd).
  - vm_compute. reflexivity.
  - reflexivity.
  - vm_compute. reflexivity.
  - repeat constructor.
  - split; [exact Hrun|exact Hd].
Defined.

End Reindex.

(** ** Chunk ids *)

Section ChunkIdFacts.
Import Indexer.

Lemma pretty_N_char_noColon x : pretty_N_char x <> ":"%char.
Proof. unfold pretty_N_char. by repeat case_match. Qed.

Lemma pretty_N_go_noColon x : forall s,
  hasColon s = false -> hasColon (pretty_N_go x s) = false.
Proof.
  induction (N.lt_wf_0 x) as [x _ IH]. intros s Hs.
  destruct (decide (x = 0)%N) as [->|Hx]; [by rewrite pretty_N_go_0|].
  rewrite pretty_N_go_step by lia. apply IH.
  - apply N.div_lt; lia.
  - simpl. rewrite Hs. rewrite bool_decide_false; [done|]. apply pretty_N_char_noColon.
Qed.

Lemma numberToString_noColon i : hasColon (Js.numberToString i) = false.
Proof.
  unfold Js.numberToString, pretty, pretty_nat, pretty, pretty_N.
  destruct (decide _); [done|]. by apply pretty_N_go_noColon.
Qed.

Lemma hasColon_after_colons q d : hasColon (q +:+ ":" +:+ d) = true.
Proof.
  induction q as [|a q IH]; [done|].
  change (String a q +:+ ":" +:+ d) with (String a (q +:+ ":" +:+ d)).
  simpl. rewrite IH. by rewrite orb_true_r.
Qed.

(** The text before the last [::] of an id is determined by the id when
    what follows has no colon. *)
Lemma colons_split p : forall p' d d',
  hasColon d = false -> hasColon d' = false ->
  p +:+ "::" +:+ d = p' +:+ "::" +:+ d' -> p = p'.
Proof.
  induction p as [|a p IH]; intros p' d d' Hd Hd' E.
  - destruct p' as [|b q]; [done|]. exfalso.
    change ("" +:+ "::" +:+ d) with (String ":" (String ":" d)) in E.
    change (String b q +:+ "::" +:+ d') with (String b (q +:+ "::" +:+ d')) in E.
    injection E as _ E. destruct q as [|b2 q2].
    + change ("" +:+ "::" +:+ d') with (String ":" (String ":" d')) in E.
      injection E as E. rewrite E in Hd. simpl in Hd. done.
    + change (String b2 q2 +:+ "::" +:+ d')
        with (String b2 (q2 +:+ ":" +:+ (String ":" d'))) in E.
      injection E as _ E. rewrite E in Hd. by rewrite hasColon_after_colons in Hd.
  - destruct p' as [|b q].
    + exfalso.
      change ("" +:+ "::" +:+ d') with (String ":" (String ":" d')) in E.
      change (String a p +:+ "::" +:+ d) with (String a (p +:+ "::" +:+ d)) in E.
      injection E as _ E. clear IH. destruct p as [|a2 p2].
      * change ("" +:+ "::" +:+ d) with (String ":" (String ":" d)) in E.
        injection E as E. rewrite <- E in Hd'. simpl in Hd'. done.
      * change (String a2 p2 +:+ "::" +:+ d)
          with (String a2 (p2 +:+ ":" +:+ (String ":" d))) in E.
        injection E as _ E. rewrite <- E in Hd'. by rewrite hasColon_after_colons in Hd'.
    + change (String a p +:+ "::" +:+ d) with (String a (p +:+ "::" +:+ d)) in E.
      change (String b q +:+ "::" +:+ d') with (String b (q +:+ "::" +:+ d')) in E.
      injection E as Hab E. f_equal; [exact Hab|]. exact (IH _ _ _ Hd Hd' E).
Qed.

Lemma chunkId_path rel rel' i i' : chunkId rel i = chunkId rel' i' -> rel = rel'.
Proof.
  unfold chunkId. apply colons_split; apply numberToString_noColon.
Qed.

End ChunkIdFacts.

(** ** The chunks map and the file states agree *)

Section ConsistencyFacts.
Import Indexer.

Lemma get_foldl_delete {V} ids : forall (m : JsMap.t V) id,
  JsMap.get id (foldl (fun m cid => JsMap.delete cid m) m ids)
  = if decide (id ∈ ids) then None else JsMap.get id m.
Proof.
  induction ids as [|x ids IH]; intros m id; cbn [foldl].
  - destruct (decide (id ∈ [])) as [H|_]; [|done]. by apply elem_of_nil in H.
  - rewrite IH. destruct (decide (id ∈ ids)) as [Hin|Hin].
    + rewrite decide_True; [done|]. by apply list_elem_of_further.
    + destruct (decide (x = id)) as [->|Hne].
      * rewrite decide_True by apply list_elem_of_here. apply get_delete_eq.
      * rewrite decide_False.
        { by apply get_delete_ne. }
        rewrite elem_of_cons. intros [?|?]; [by subst|done].
Qed.

Lemma get_foldl_set (added : list RagChunk.t) : forall (m : JsMap.t RagChunk.t) id,
  is_Some (JsMap.get id (foldl (fun m ch => JsMap.set (RagChunk.id ch) ch m) m added))
  <-> id ∈ map RagChunk.id added \/ is_Some (JsMap.get id m).
Proof.
  induction added as [|ch added IH]; intros m id; simpl.
  - split; [by right|]. intros [H|H]; [|done]. by apply elem_of_nil in H.
  - rewrite IH, elem_of_cons.
    destruct (decide (RagChunk.id ch = id)) as [<-|Hne].
    + rewrite get_set_eq. split; [intros _; by left; left|by eauto].
    + rewrite get_set_ne by done. split.
      * intros [?|?]; [by left; right|by right].
      * intros [[?|?]|?]; [by subst|by left|by right].
Qed.

Lemma newChunks_ids file chunkResults vectors id :
  id ∈ map RagChunk.id (newChunks file chunkResults vectors) ->
  exists i, id = chunkId (CandidateFile.relativePath file) i.
Proof.
  unfold newChunks. rewrite list_elem_of_fmap. intros (ch & -> & Hin).
  apply list_elem_of_omap in Hin as ([i r] & _ & Hch).
  destruct (vectors !! i); [|done]. injection Hch as <-. by exists i.
Qed.

(** What is left of the chunks map when the chunks of [path] are deleted. *)
Lemma withoutChunksOf_get path c id :
  JsMap.get id (withoutChunksOf path c)
  = match JsMap.get path (FolderCache.fileStates c) with
    | Some st =>
        if decide (id ∈ RagFileState.chunkIds st) then None
        else JsMap.get id (FolderCache.chunks c)
    | None => JsMap.get id (FolderCache.chunks c)
    end.
Proof.
  unfold withoutChunksOf. destruct (JsMap.get path _); [|done]. apply get_foldl_delete.
Qed.

(** In a consistent cache the chunks of another file stay. *)
Lemma withoutChunksOf_other path c p st id :
  consistent c -> p <> path ->
  JsMap.get p (FolderCache.fileStates c) = Some st ->
  id ∈ RagFileState.chunkIds st ->
  is_Some (JsMap.get id (withoutChunksOf path c)).
Proof.
  intros [HA HB] Hne Hp Hid. destruct (HA _ _ _ Hp Hid) as [Hsome [i Hi]].
  rewrite withoutChunksOf_get. destruct (JsMap.get path _) as [st'|] eqn:E; [|done].
  rewrite decide_False; [done|]. intros Hin.
  destruct (HA _ _ _ E Hin) as [_ [i' Hi']]. subst id. by apply chunkId_path in Hi'.
Qed.

(** What is left is listed by another file. *)
Lemma withoutChunksOf_listed path c id :
  consistent c ->
  is_Some (JsMap.get id (withoutChunksOf path c)) ->
  exists p st, p <> path
    /\ JsMap.get p (FolderCache.fileStates c) = Some st
    /\ id ∈ RagFileState.chunkIds st.
Proof.
  intros [HA HB]. rewrite withoutChunksOf_get. intros Hsome.
  assert (Hc : is_Some (JsMap.get id (FolderCache.chunks c))).
  { destruct (JsMap.get path _); [destruct (decide _)|]; [by destruct Hsome|done|done]. }
  destruct (HB _ Hc) as (p & st & Hp & Hid). exists p, st. split; [|done].
  intros ->. rewrite Hp in Hsome. rewrite decide_True in Hsome by done. by destruct Hsome.
Qed.

#[local] Instance staysConsistent_preorder : PreOrder staysConsistent.
Proof. split; [by intros c H|]. intros c1 c2 c3 H1 H2 H. by apply H2, H1. Qed.

Lemma setStatus_consistent f c : staysConsistent c (setStatus f c).
Proof. intros H. exact H. Qed.

Lemma dropFile_consistent path c : staysConsistent c (dropFile path c).
Proof.
  intros Hc. split.
  - intros p st id Hp Hid. cbn [dropFile setMaps FolderCache.fileStates FolderCache.chunks] in *.
    destruct (decide (path = p)) as [->|Hne]; [by rewrite get_delete_eq in Hp|].
    rewrite get_delete_ne in Hp by done. split.
    + by eapply withoutChunksOf_other.
    + destruct Hc as [HA _]. by destruct (HA _ _ _ Hp Hid).
  - intros id Hsome. cbn [dropFile setMaps FolderCache.fileStates FolderCache.chunks] in *.
    destruct (withoutChunksOf_listed _ _ _ Hc Hsome) as (p & st & Hne & Hp & Hid).
    exists p, st. by rewrite get_delete_ne.
Qed.

Lemma refreshState_consistent file previous c :
  JsMap.get (CandidateFile.relativePath file) (FolderCache.fileStates c) = Some previous ->
  staysConsistent c (refreshState file previous c).
Proof.
  intros Hprev [HA HB]. split.
  - intros p st id Hp Hid.
    cbn [refreshState addSkipped setStatus setMaps FolderCache.fileStates
         FolderCache.chunks] in *.
    destruct (decide (CandidateFile.relativePath file = p)) as [<-|Hne].
    + rewrite get_set_eq in Hp. injection Hp as <-. by apply (HA _ previous).
    + rewrite get_set_ne in Hp by done. by apply (HA _ st).
  - intros id Hsome.
    cbn [refreshState addSkipped setStatus setMaps FolderCache.fileStates
         FolderCache.chunks] in *.
    destruct (HB _ Hsome) as (p & st & Hp & Hid).
    destruct (decide (CandidateFile.relativePath file = p)) as [<-|Hne].
    + eexists _, _. rewrite get_set_eq. split; [reflexivity|].
      rewrite Hprev in Hp. by injection Hp as <-.
    + exists p, st. by rewrite get_set_ne.
Qed.

Lemma commitFile_consistent p crs vs c : staysConsistent c (commitFile p crs vs c).
Proof.
  intros Hc. split.
  - intros p' st id Hp Hid.
    cbn [commitFile setStatus setMaps FolderCache.fileStates FolderCache.chunks] in *.
    destruct (decide (CandidateFile.relativePath (tp_file p) = p')) as [<-|Hne].
    + rewrite get_set_eq in Hp. injection Hp as <-. cbn in Hid. split.
      * apply get_foldl_set. by left.
      * by eapply newChunks_ids.
    + rewrite get_set_ne in Hp by done. split.
      * apply get_foldl_set. right. eapply withoutChunksOf_other; eauto.
      * destruct Hc as [HA _]. by destruct (HA _ _ _ Hp Hid).
  - intros id Hsome.
    cbn [commitFile setStatus setMaps FolderCache.fileStates FolderCache.chunks] in *.
    apply get_foldl_set in Hsome as [Hnew|Hold].
    + eexists _, _. rewrite get_set_eq. split; [reflexivity|]. exact Hnew.
    + destruct (withoutChunksOf_listed _ _ _ Hc Hold) as (p' & st & Hne & Hp & Hid).
      exists p', st. by rewrite get_set_ne.
Qed.

Lemma process_consistent env options candidates :
  keeps (onCache staysConsistent) (process env options candidates).
Proof.
  apply (process_keeps staysConsistent); intros.
  - apply setStatus_consistent.
  - apply dropFile_consistent.
  - by apply refreshState_consistent.
  - apply commitFile_consistent.
Qed.

(** A chunk id is listed by one file state only. *)
Lemma consistent_one_file c p p' st st' id :
  consistent c ->
  JsMap.get p (FolderCache.fileStates c) = Some st -> id ∈ RagFileState.chunkIds st ->
  JsMap.get p' (FolderCache.fileStates c) = Some st' -> id ∈ RagFileState.chunkIds st' ->
  p = p'.
Proof.
  intros [HA _] Hp Hid Hp' Hid'.
  destruct (HA _ _ _ Hp Hid) as [_ [i Hi]]. destruct (HA _ _ _ Hp' Hid') as [_ [i' Hi']].
  rewrite Hi in Hi'. by apply chunkId_path in Hi'.
Qed.

End ConsistencyFacts.

(** ** Deleted files *)

Section DeletionFacts.
Import Indexer.

#[local] Instance staysUntracked_preorder path : PreOrder (staysUntracked path).
Proof.
  split; [by intros c H|]. intros c1 c2 c3 H1 H2 H. by apply H2, H1.
Qed.

Lemma deletionPass_untracks currentFiles c path :
  path ∈ JsMap.keys (FolderCache.fileStates c) -> path ∉ currentFiles ->
  JsMap.get path (FolderCache.fileStates (deletionPass currentFiles c).1) = None.
Proof.
  intros Hin Hcur. unfold deletionPass.
  assert (H : forall ks (acc : FolderCache.t * bool),
    JsMap.get path (FolderCache.fileStates acc.1) = None \/ path ∈ ks ->
    JsMap.get path
      (FolderCache.fileStates
         (foldl (fun acc existingFilePath =>
                   if bool_decide (existingFilePath ∈ currentFiles) then acc
                   else (dropFile existingFilePath acc.1, true)) acc ks).1) = None).
  { induction ks as [|k ks IH]; intros acc Hacc; cbn [foldl].
    - destruct Hacc as [?|Hk]; [done|]. by apply elem_of_nil in Hk.
    - apply IH. destruct (bool_decide_reflect (k ∈ currentFiles)) as [Hk|Hk].
      + destruct Hacc as [?|Hp]; [by left|].
        apply elem_of_cons in Hp as [->|?]; [done|by right].
      + cbn [fst dropFile setMaps FolderCache.fileStates].
        destruct (decide (k = path)) as [->|Hne].
        * left. apply get_delete_eq.
        * rewrite get_delete_ne by done. destruct Hacc as [?|Hp]; [by left|].
          apply elem_of_cons in Hp as [->|?]; [done|by right]. }
  apply H. by right.
Qed.

Lemma afterDeletion_untracked env options candidates path j :
  path ∈ deletedPaths (cache j) candidates ->
  JsMap.get path
    (FolderCache.fileStates (cache (process env options candidates j).2)) = None.
Proof.
  intros Hdel. unfold deletedPaths in Hdel. apply list_elem_of_filter in Hdel as [Hcur Hin].
  rewrite process_eq.
  match goal with
  | |- context [bind ?m ?k (afterDeletion candidates j)] =>
      assert (Hk : keeps (onCache (staysUntracked path)) (bind m k))
  end.
  { apply (afterDeletion_keeps (staysUntracked path) candidates).
    - intros f c H. exact H.
    - intros file prev c Hfile _ H.
      cbn [refreshState addSkipped setStatus setMaps FolderCache.fileStates].
      rewrite get_set_ne; [done|]. intros <-. apply Hcur. by apply list_elem_of_fmap_2.
    - intros p crs vs c Hfile H.
      cbn [commitFile setStatus setMaps FolderCache.fileStates].
      rewrite get_set_ne; [done|]. intros <-. apply Hcur.
      by apply (list_elem_of_fmap_2 CandidateFile.relativePath).
    - apply changedFiles_subseteq. }
  apply Hk. unfold afterDeletion. cbn [cache addSkipped setStatus FolderCache.fileStates].
  by apply deletionPass_untracks.
Qed.

Lemma consistent_ext c c' :
  FolderCache.chunks c' = FolderCache.chunks c ->
  FolderCache.fileStates c' = FolderCache.fileStates c ->
  consistent c -> consistent c'.
Proof. unfold consistent. intros -> ->. done. Qed.

Lemma consistent_empty c :
  FolderCache.chunks c = [] -> FolderCache.fileStates c = [] -> consistent c.
Proof.
  unfold consistent. intros -> ->. split; [done|]. intros id H. by destruct H.
Qed.

(** What [process] leaves goes through the end of the call unchanged in
    its two maps. *)
Lemma run_maps env ix d folderPath options candidates :
  scanned env (loaded env ix d folderPath options) options = inr candidates ->
  abortedAfterScan options = false ->
  let j2 := {| cache := setStatus (patch (preparingPatch (length candidates)))
                          (loaded env ix d folderPath options);
               disk := d; tick := 2; embedCalls := 0 |} in
  FolderCache.chunks (finalCache (run env ix d folderPath options))
  = FolderCache.chunks (cache (process env options candidates j2).2)
  /\ FolderCache.fileStates (finalCache (run env ix d folderPath options))
     = FolderCache.fileStates (cache (process env options candidates j2).2).
Proof.
  intros Hscan Habort j2. pose proof (run_cases env ix d folderPath options) as H.
  cbv zeta in H. rewrite Hscan, Habort in H. fold j2 in H.
  destruct (process env options candidates j2) as [[ch|e|] j3].
  - destruct (finish_spec env ch j3) as (j' & Hf & _ & _ & _ & _ & Hc & Hs & _).
    rewrite H, Hf. unfold finalCache. cbn [fst snd].
    destruct (finishOutcome env ch j3) as [u|e|]; [by rewrite Hc, Hs| |by rewrite Hc, Hs].
    destruct (onError_maps e (cache j')) as [-> ->]. by rewrite Hc, Hs.
  - rewrite H. unfold finalCache, onError. cbn [fst snd]. by destruct (isAbortError e).
  - rewrite H. done.
Qed.

Lemma run_consistent env ix d folderPath options :
  consistent (loaded env ix d folderPath options) ->
  consistent (finalCache (run env ix d folderPath options)).
Proof.
  intros Hc. pose proof (run_cases env ix d folderPath options) as H. cbv zeta in H.
  destruct (scanned env _ options) as [e|candidates] eqn:Hscan.
  { rewrite H. unfold finalCache, onError. cbn [fst snd]. by destruct (isAbortError e). }
  destruct (abortedAfterScan options) eqn:Habort.
  { rewrite H. unfold finalCache, onError. cbn [fst snd].
    by destruct (isAbortError _). }
  destruct (run_maps env ix d folderPath options candidates Hscan Habort) as [E1 E2].
  eapply consistent_ext; [exact E1|exact E2|].
  match goal with
  | |- consistent (cache (process _ _ _ ?j).2) =>
      apply (process_consistent env options candidates j)
  end.
  exact Hc.
Qed.

End DeletionFacts.

(** ** Agreement of the two maps *)

Section Agreement.
Import Indexer.

(** C3, counterexample.  A new indexer finds [.rag-index] on the disk and no
    [.rag-db]; the tree is as it was indexed.  The call completes, every
    file is skipped, and [docs/alpha.md] lists a chunk id that is no key of
    the chunks map. *)
Lemma lost_chunk_file_leaves_dangling_ids :
  (run (Scenario.envOf "/root" Scenario.tree) create Scenario.dbLost "/root/"
       Scenario.markdownOnly).1 = Ok tt
  /\ RagFileState.chunkIds <$>
       JsMap.get "docs/alpha.md"
         (FolderCache.fileStates
            (finalCache (run (Scenario.envOf "/root" Scenario.tree) create
                           Scenario.dbLost "/root/" Scenario.markdownOnly)))
     = Some ["docs/alpha.md::0"]
  /\ JsMap.get "docs/alpha.md::0"
       (FolderCache.chunks
          (finalCache (run (Scenario.envOf "/root" Scenario.tree) create
                         Scenario.dbLost "/root/" Scenario.markdownOnly)))
     = None.
Proof. split_and!; vm_compute; reflexivity. Qed.

(** C3, amended.  When the two maps agree in the state a call of [index]
    starts from (the folder's cache, loaded from the disk when it was not
    yet), they agree when the call is over, completed or not: every id
    listed by a file state is a key of the chunks map, every key of the
    chunks map is listed by a file state, and by one only.  When the scan
    succeeded and the token was not aborted by then, a tracked file that the
    scan no longer lists is not tracked afterwards and none of the ids it
    listed is a key of the chunks map. *)
Theorem index_keeps_maps_in_agreement env ix d folderPath options :
  consistent (loaded env ix d folderPath options) ->
  consistent (finalCache (run env ix d folderPath options))
  /\ (forall p p' st st' id,
        JsMap.get p (FolderCache.fileStates (finalCache (run env ix d folderPath options)))
        = Some st ->
        id ∈ RagFileState.chunkIds st ->
        JsMap.get p' (FolderCache.fileStates (finalCache (run env ix d folderPath options)))
        = Some st' ->
        id ∈ RagFileState.chunkIds st' ->
        p = p')
  /\ (forall candidates p st id,
        scanned env (loaded env ix d folderPath options) options = inr candidates ->
        abortedAfterScan options = false ->
        p ∈ deletedPaths (loaded env ix d folderPath options) candidates ->
        JsMap.get p (FolderCache.fileStates (loaded env ix d folderPath options)) = Some st ->
        id ∈ RagFileState.chunkIds st ->
        JsMap.get p (FolderCache.fileStates (finalCache (run env ix d folderPath options)))
        = None
        /\ JsMap.get id (FolderCache.chunks (finalCache (run env ix d folderPath options)))
           = None).
Proof.
  intros Hc. pose proof (run_consistent env ix d folderPath options Hc) as Hf.
  split; [exact Hf|]. split.
  - intros p p' st st' id. by apply consistent_one_file.
  - intros candidates p st id Hscan Habort Hdel Hp Hid.
    destruct (run_maps env ix d folderPath options candidates Hscan Habort) as [E1 E2].
    assert (Hnone : JsMap.get p
              (FolderCache.fileStates (finalCache (run env ix d folderPath options))) = None).
    { rewrite E2. by apply afterDeletion_untracked. }
    split; [exact Hnone|].
    destruct (JsMap.get id _) as [ch|] eqn:E; [exfalso|done].
    destruct Hf as [HA HB]. destruct (HB id) as (p' & st' & Hp' & Hid').
    { by rewrite E. }
    destruct (HA _ _ _ Hp' Hid') as [_ [i' Hi']].
    destruct Hc as [HA0 _]. destruct (HA0 _ _ _ Hp Hid) as [_ [i Hi]].
    rewrite Hi in Hi'. apply chunkId_path in Hi'. congruence.
Qed.

(** The first indexing of the tree starts from two empty maps. *)
Lemma index_keeps_maps_in_agreement_witness :
  consistent
    (finalCache (run (Scenario.envOf "/root" Scenario.tree) create ∅ "/root/"
                   Scenario.markdownOnly)).
Proof.
  apply (index_keeps_maps_in_agreement (Scenario.envOf "/root" Scenario.tree) create ∅
           "/root/" Scenario.markdownOnly).
  apply consistent_empty; vm_compute; reflexivity.
Defined.

End Agreement.

(** ** Where the index is written *)

Section WriteFacts.
Import Indexer.

#[local] Instance sameFolderPath_preorder : PreOrder sameFolderPath.
Proof.
  split; [by intros c|]. intros c1 c2 c3 H1 H2. unfold sameFolderPath in *. congruence.
Qed.

Lemma process_folderPath env options candidates :
  keeps (onCache sameFolderPath) (process env options candidates).
Proof. apply (process_keeps sameFolderPath); unfold sameFolderPath; intros; reflexivity. Qed.

Lemma loaded_folderPath env ix d folderPath options :
  FolderCache.folderPath (loaded env ix d folderPath options)
  = FolderCache.folderPath (ensureCache ix folderPath).
Proof.
  unfold loaded, loadInto. destruct (FolderCache.persistedLoaded _); [reflexivity|].
  cbv zeta. destruct (Storage.lastIndexedAt _) as [t|]; [destruct (truthyNumber t)|];
    reflexivity.
Qed.

Lemma afterWrite_other path' content w disk path :
  path <> path' -> Storage.afterWrite path' content w disk !! path = disk !! path.
Proof.
  intros H. destruct w as [|e [partial|]]; cbn [Storage.afterWrite];
    [by rewrite lookup_insert_ne|by rewrite lookup_insert_ne|done].
Qed.

(** Whether it succeeds or rejects, a save touches no other path. *)
Lemma saveToDisk_other fs disk now folderPath chunks fileStates path :
  path <> Storage.dbPath (Storage.getPaths folderPath) ->
  path <> Storage.indexPath (Storage.getPaths folderPath) ->
  (Storage.saveToDisk fs disk now folderPath chunks fileStates).2 !! path = disk !! path.
Proof.
  intros H1 H2. unfold Storage.saveToDisk. cbv zeta.
  destruct (Storage.mkdir fs _); [done|]. cbn [snd].
  by rewrite !afterWrite_other.
Qed.

(** X1.  A call writes no file but the two that [path.join] names under
    the folder being indexed, however the call ends and whatever the file
    system does to the save: [cache.storagePath] takes no part in it. *)
Lemma run_writes_under_folderPath env ix d folderPath options path :
  path <> Storage.dbPath
            (Storage.getPaths (FolderCache.folderPath (ensureCache ix folderPath))) ->
  path <> Storage.indexPath
            (Storage.getPaths (FolderCache.folderPath (ensureCache ix folderPath))) ->
  disk (run env ix d folderPath options).2 !! path = d !! path.
Proof.
  intros H1 H2. pose proof (run_cases env ix d folderPath options) as H. cbv zeta in H.
  rewrite <- (loaded_folderPath env ix d folderPath options) in H1, H2.
  destruct (scanned env _ options) as [e|candidates]; [by rewrite H|].
  destruct (abortedAfterScan options); [by rewrite H|].
  match type of H with
  | match process _ _ _ ?j with _ => _ end =>
      pose proof (keeps_process_disk env options candidates j) as Hd;
      pose proof (process_folderPath env options candidates j) as Hp
  end.
  unfold sameDisk, onCache, sameFolderPath in Hd, Hp. cbn [cache disk setStatus] in Hd, Hp.
  destruct (process env options candidates _) as [[ch|e|] j3]; cbn [snd] in Hd, Hp.
  - destruct (finish_spec env ch j3) as (j' & Hf & _ & _ & _ & _ & _ & _ & _ & _ & Hdisk).
    rewrite H, Hf. cbn [snd]. rewrite Hdisk. destruct ch; [|by rewrite Hd].
    unfold saveOf. rewrite saveToDisk_other; rewrite ?Hp; [by rewrite Hd|done|done].
  - rewrite H. cbn [snd]. by rewrite Hd.
  - rewrite H. cbn [snd]. by rewrite Hd.
Qed.

(** The tree indexed with an output folder: the path under [/out] is as it
    was on the empty disk. *)
Lemma run_writes_under_folderPath_witness :
  disk (run (Scenario.envOf "/root" Scenario.tree) create ∅ "/root/"
          (Scenario.withOutputFolder "/out")).2 !! "/out/.rag-ts/.rag-db"
  = (∅ : Storage.Disk) !! "/out/.rag-ts/.rag-db".
Proof.
  apply (run_writes_under_folderPath (Scenario.envOf "/root" Scenario.tree) create ∅
           "/root/" (Scenario.withOutputFolder "/out") "/out/.rag-ts/.rag-db");
    vm_compute; discriminate.
Defined.

End WriteFacts.

(** ** The output folder *)

Section OutputFolder.
Import Indexer.

(** C1.  The tree under [/root] indexed with [outputFolder: "/out"] on an
    empty disk: the call completes with phase "ready", the folder's cache
    records [/out] as its storage path, and the two files written are
    [/root/.rag-ts/.rag-db] and [/root/.rag-ts/.rag-index]; nothing is
    written under [/out]. *)
Theorem outputFolder_does_not_redirect_storage :
  RagStatus.phase <$>
    (index (Scenario.envOf "/root" Scenario.tree) create ∅ "/root/"
       (Scenario.withOutputFolder "/out")).1.1
  = Some PhaseReady
  /\ FolderCache.storagePath
       (ensureCache
          (index (Scenario.envOf "/root" Scenario.tree) create ∅ "/root/"
             (Scenario.withOutputFolder "/out")).1.2 "/root/")
     = Some "/out"
  /\ dom (index (Scenario.envOf "/root" Scenario.tree) create ∅ "/root/"
            (Scenario.withOutputFolder "/out")).2
     = {[ "/root/.rag-ts/.rag-db"; "/root/.rag-ts/.rag-index" ]}
  /\ (index (Scenario.envOf "/root" Scenario.tree) create ∅ "/root/"
        (Scenario.withOutputFolder "/out")).2 !! "/out/.rag-ts/.rag-db"
     = None
  /\ (index (Scenario.envOf "/root" Scenario.tree) create ∅ "/root/"
        (Scenario.withOutputFolder "/out")).2 !! "/out/.rag-ts/.rag-index"
     = None.
Proof. split_and!; vm_compute; reflexivity. Qed.

End OutputFolder.

(** ** path.join *)

Section PathFacts.
Import Path.

Lemma segments_nonempty path : segments path <> [].
Proof.
  induction path as [|c rest IH]; [done|]. cbn [segments].
  destruct (Ascii.eqb c "/"); [done|]. by destruct (segments rest).
Qed.

Lemma segments_app a b : segments (a ++ "/"%char :: b) = segments a ++ segments b.
Proof.
  induction a as [|c a IH]; [done|]. cbn [app segments]. rewrite IH.
  destruct (Ascii.eqb c "/"); [done|].
  pose proof (segments_nonempty a). by destruct (segments a).
Qed.

Lemma segments_plain seg : "/"%char ∉ seg -> segments seg = [seg].
Proof.
  induction seg as [|c seg IH]; [done|]. intros H. apply not_elem_of_cons in H as [Hc Hs].
  cbn [segments]. destruct (Ascii.eqb_spec c "/"); [done|]. by rewrite IH.
Qed.

Lemma segments_slashFree path : Forall (fun seg => "/"%char ∉ seg) (segments path).
Proof.
  induction path as [|c rest IH]; [repeat constructor; by apply not_elem_of_nil|].
  cbn [segments]. destruct (Ascii.eqb_spec c "/") as [->|Hc].
  - constructor; [apply not_elem_of_nil|done].
  - destruct (segments rest) as [|seg more].
    + repeat constructor. by intros [E|H%elem_of_nil]%elem_of_cons.
    + apply Forall_cons in IH as [Hs Hm]. constructor; [|done].
      by intros [E|H]%elem_of_cons.
Qed.

Lemma unsegments_snoc segs seg :
  segs <> [] -> unsegments (segs ++ [seg]) = unsegments segs ++ "/"%char :: seg.
Proof.
  induction segs as [|s segs IH]; [done|]. intros _. destruct segs as [|s' segs].
  - done.
  - change (unsegments ((s :: s' :: segs) ++ [seg]))
      with (s ++ "/"%char :: unsegments ((s' :: segs) ++ [seg])).
    rewrite IH by done. cbn [unsegments]. by rewrite <- app_assoc.
Qed.

Lemma segments_unsegments segs :
  segs <> [] -> Forall (fun seg => "/"%char ∉ seg) segs -> segments (unsegments segs) = segs.
Proof.
  induction segs as [|s segs IH]; [done|]. intros _ H. apply Forall_cons in H as [Hs Hm].
  destruct segs as [|s' segs]; [by apply segments_plain|].
  change (unsegments (s :: s' :: segs)) with (s ++ "/"%char :: unsegments (s' :: segs)).
  rewrite segments_app, (segments_plain s), IH by done. done.
Qed.

Lemma dotdot_slashFree : "/"%char ∉ dotdot.
Proof. by apply (bool_decide_unpack _). Qed.

Lemma plainName_step allowAboveRoot res seg :
  plainName seg -> step allowAboveRoot res seg = seg :: res.
Proof.
  intros (H1 & H2 & H3 & _). unfold step.
  rewrite bool_decide_eq_false_2 by (by intros [|]).
  by rewrite bool_decide_eq_false_2.
Qed.

Lemma keptShape_slashFree allowAboveRoot res :
  keptShape allowAboveRoot res -> Forall (fun seg => "/"%char ∉ seg) res.
Proof.
  induction res as [|seg below IH]; [done|]. intros [H Hb]. constructor; [|by apply IH].
  destruct H as [(_ & _ & _ & H)|(-> & _)]; [done|]. apply dotdot_slashFree.
Qed.

Lemma keptShape_step allowAboveRoot res seg :
  "/"%char ∉ seg -> keptShape allowAboveRoot res ->
  keptShape allowAboveRoot (step allowAboveRoot res seg).
Proof.
  intros Hs Hres. unfold step.
  destruct (bool_decide_reflect (seg = [] \/ seg = dot)) as [|Hn]; [done|].
  destruct (bool_decide_reflect (seg = dotdot)) as [->|Hdd].
  - destruct res as [|top below].
    + by destruct allowAboveRoot; cbn; [split; [right|]|].
    + destruct Hres as [Htop Hbelow].
      destruct (bool_decide_reflect (top = dotdot)) as [->|Hnt]; [|done].
      destruct allowAboveRoot; [|by split].
      split; [|by split]. right. split; [done|]. split; [done|].
      constructor; [done|]. destruct Htop as [(_ & _ & H & _)|(_ & _ & H)]; done.
  - split; [|done]. left.
    split_and!; [intros ->; apply Hn; by left|intros ->; apply Hn; by right|done|done].
Qed.

Lemma keptShape_foldl allowAboveRoot segs : forall res,
  Forall (fun seg => "/"%char ∉ seg) segs -> keptShape allowAboveRoot res ->
  keptShape allowAboveRoot (foldl (step allowAboveRoot) res segs).
Proof.
  induction segs as [|seg segs IH]; intros res Hs Hres; [done|].
  apply Forall_cons in Hs as [Hseg Hs]. cbn [foldl]. apply IH; [done|].
  by apply keptShape_step.
Qed.

Lemma keptShape_middle allowAboveRoot above seg below :
  keptShape allowAboveRoot (above ++ seg :: below) ->
  (plainName seg
   \/ (seg = dotdot /\ allowAboveRoot = true /\ Forall (fun s => s = dotdot) below))
  /\ keptShape allowAboveRoot below.
Proof.
  induction above as [|a above IH]; [done|]. intros [_ H]. by apply IH.
Qed.

(** What was kept is kept again, as it is, when met a second time. *)
Lemma foldl_step_kept allowAboveRoot segs : forall res,
  keptShape allowAboveRoot (rev segs ++ res) ->
  foldl (step allowAboveRoot) res segs = rev segs ++ res.
Proof.
  induction segs as [|seg segs IH]; intros res H; [done|].
  cbn [rev foldl] in *. rewrite <- app_assoc in *. cbn [app] in *.
  destruct (keptShape_middle _ _ _ _ H) as [Hseg Hres].
  assert (Hstep : step allowAboveRoot res seg = seg :: res).
  { destruct Hseg as [Hp|(-> & -> & Hall)]; [by apply plainName_step|].
    unfold step. cbn [bool_decide decide_rel]. rewrite bool_decide_eq_false_2 by (by intros [|]).
    rewrite bool_decide_eq_true_2 by done.
    destruct res as [|top below]; [done|].
    apply Forall_cons in Hall as [-> _]. by rewrite bool_decide_eq_true_2. }
  rewrite Hstep. by apply IH.
Qed.

Lemma unsegments_head segs c rest :
  Forall (fun seg => seg <> [] /\ "/"%char ∉ seg) segs ->
  unsegments segs = c :: rest -> c <> "/"%char.
Proof.
  destruct segs as [|[|c' s] segs]; [done| |].
  - intros [[H _] _]%Forall_cons. done.
  - intros [[_ H] _]%Forall_cons E.
    assert (c = c') as -> by (destruct segs; cbn in E; congruence).
    intros ->. apply H, list_elem_of_here.
Qed.

Lemma keptShape_named allowAboveRoot res :
  keptShape allowAboveRoot res -> Forall (fun seg => seg <> [] /\ "/"%char ∉ seg) res.
Proof.
  induction res as [|seg below IH]; [done|]. intros [H Hb]. constructor; [|by apply IH].
  destruct H as [(H & _ & _ & H')|(-> & _)]; [done|]. split; [done|].
  apply dotdot_slashFree.
Qed.

Lemma last_behind {A} (front : list A) (x : A) (l : list A) :
  l <> [] -> last (front ++ x :: l) = last l.
Proof.
  intros Hl. rewrite last_app, last_cons.
  destruct (last l) as [y|] eqn:E; [done|]. by apply last_None in E.
Qed.

Lemma last_not_slash (name : list ascii) :
  "/"%char ∉ name ->
  match last name with Some c => Ascii.eqb c "/"%char | None => false end = false.
Proof.
  intros Hfree. destruct (last name) as [c|] eqn:E; [|done].
  destruct (Ascii.eqb_spec c "/") as [->|]; [|done]. exfalso. apply Hfree.
  apply last_Some in E as [l' ->]. apply elem_of_app. right. apply list_elem_of_here.
Qed.

(** The normal form of a path that ends in a plain name: the segments
    kept, the name last, behind the slash of an absolute path. *)
Lemma normalize_named (front name : list ascii) :
  plainName name ->
  let path := match front with [] => name | _ => front ++ "/"%char :: name end in
  let isAbsolute := match path with c :: _ => Ascii.eqb c "/"%char | [] => false end in
  exists res,
    keptShape (negb isAbsolute) (name :: res)
    /\ normalize path
       = (if isAbsolute then ["/"%char] else []) ++ unsegments (rev (name :: res)).
Proof.
  intros Hname path isAbsolute.
  assert (Hsegs : exists before, segments path = before ++ [name]).
  { subst path. destruct Hname as (_ & _ & _ & Hfree). destruct front as [|c front].
    - exists []. by apply segments_plain.
    - exists (segments (c :: front)). by rewrite segments_app, (segments_plain name). }
  destruct Hsegs as [before Hsegs].
  assert (Hlast : last path = last name).
  { subst path. destruct Hname as (Hne & _). destruct front as [|c front]; [done|].
    by apply last_behind. }
  assert (Hnoslash : match last path with Some c => Ascii.eqb c "/"%char | None => false end
                     = false).
  { rewrite Hlast. apply last_not_slash. by destruct Hname as (_ & _ & _ & Hfree). }
  assert (Hpath : path <> []).
  { subst path. destruct Hname as (Hne & _). by destruct front. }
  set (res := foldl (step (negb isAbsolute)) [] before).
  assert (Hkept : keptShape (negb isAbsolute) (name :: res)).
  { pose proof (segments_slashFree path) as Hfree. rewrite Hsegs in Hfree.
    apply Forall_app in Hfree as [Hb _]. split; [by left|].
    by apply keptShape_foldl. }
  exists res. split; [exact Hkept|].
  unfold normalize, normalizeString. destruct path as [|first rest] eqn:Ep; [done|].
  rewrite <- Ep in *. cbv zeta. rewrite Hnoslash.
  change (Ascii.eqb first "/") with isAbsolute.
  rewrite Hsegs, foldl_app. cbn [foldl]. fold res. rewrite plainName_step by done.
  destruct (unsegments (rev (name :: res))) as [|u us] eqn:Eu.
  - exfalso. cbn [rev] in Eu. destruct Hname as (Hne & _).
    destruct (rev res) as [|r l]; [by destruct name|].
    rewrite unsegments_snoc in Eu by done. by destruct (unsegments (r :: l)).
  - by destruct isAbsolute.
Qed.

Lemma join_eq a b :
  Js.chars b <> [] ->
  join a b
  = Js.str (normalize match Js.chars a with
                      | [] => Js.chars b
                      | _ => Js.chars a ++ "/"%char :: Js.chars b
                      end).
Proof. intros Hb. unfold join. destruct (Js.chars a); [done|]. by destruct (Js.chars b). Qed.

(** Joining a plain name to a path that was joined to a plain name only
    appends it. *)
Lemma join_join (folder dir file : string) :
  plainName (Js.chars dir) -> plainName (Js.chars file) ->
  join (join folder dir) file = join folder dir +:+ "/" +:+ file.
Proof.
  intros Hdir Hfile.
  assert (Hd : Js.chars dir <> []) by by destruct Hdir.
  assert (Hf : Js.chars file <> []) by by destruct Hfile.
  destruct (normalize_named (Js.chars folder) (Js.chars dir) Hdir) as (res & Hkept & Hn).
  cbv zeta in Hn, Hkept.
  assert (Hj : Js.chars (join folder dir)
               = normalize match Js.chars folder with
                           | [] => Js.chars dir
                           | _ => Js.chars folder ++ "/"%char :: Js.chars dir
                           end).
  { by rewrite join_eq, chars_str. }
  rewrite Hn in Hj. clear Hn.
  set (path := match Js.chars folder with
               | [] => Js.chars dir
               | _ => Js.chars folder ++ "/"%char :: Js.chars dir
               end) in *.
  set (isAbsolute := match path with c :: _ => Ascii.eqb c "/"%char | [] => false end) in *.
  set (kept := unsegments (rev (Js.chars dir :: res))) in *.
  assert (Hkept_ne : kept <> []).
  { subst kept. cbn [rev]. destruct (rev res) as [|r l]; [done|].
    rewrite unsegments_snoc by done. by destruct (unsegments (r :: l)). }
  assert (Hhead : forall c rest, kept = c :: rest -> c <> "/"%char).
  { intros c rest. apply unsegments_head. apply Forall_rev.
    by apply (keptShape_named (negb isAbsolute)). }
  rewrite (join_eq (join folder dir) file) by done.
  assert (Hjoined : match Js.chars (join folder dir) with
                    | [] => Js.chars file
                    | _ => Js.chars (join folder dir) ++ "/"%char :: Js.chars file
                    end
                    = Js.chars (join folder dir) ++ "/"%char :: Js.chars file).
  { rewrite Hj. destruct isAbsolute; cbn [app]; [done|]. by destruct kept. }
  rewrite Hjoined. clear Hjoined.
  remember (Js.chars (join folder dir) ++ "/"%char :: Js.chars file) as joined eqn:Ejoined.
  assert (Hfirst : match joined with c :: _ => Ascii.eqb c "/"%char | [] => false end
                   = isAbsolute).
  { rewrite Ejoined, Hj. destruct isAbsolute; [done|]. cbn [app].
    destruct kept as [|c rest] eqn:E; [done|]. cbn [app].
    destruct (Ascii.eqb_spec c "/") as [->|]; [|done]. by destruct (Hhead _ _ eq_refl). }
  assert (Hsegs : foldl (step (negb isAbsolute)) [] (segments joined)
                  = Js.chars file :: Js.chars dir :: res).
  { destruct Hfile as (? & ? & ? & Hfree).
    rewrite Ejoined, segments_app, (segments_plain (Js.chars file)) by done.
    rewrite foldl_app. cbn [foldl].
    assert (Hfold : foldl (step (negb isAbsolute)) [] (segments (Js.chars (join folder dir)))
                    = Js.chars dir :: res).
    { rewrite Hj.
      assert (Hk : foldl (step (negb isAbsolute)) [] (segments kept) = Js.chars dir :: res).
      { subst kept. rewrite segments_unsegments.
        - rewrite (foldl_step_kept (negb isAbsolute) (rev (Js.chars dir :: res)) []);
            rewrite rev_involutive, app_nil_r; done.
        - cbn [rev]. by destruct (rev res).
        - apply Forall_rev. by apply (keptShape_slashFree (negb isAbsolute)). }
      destruct isAbsolute; [|exact Hk].
      change (["/"%char] ++ kept) with ("/"%char :: kept). cbn [segments].
      change (Ascii.eqb "/" "/") with true. cbv iota. cbn [foldl]. exact Hk. }
    rewrite Hfold. by apply plainName_step. }
  assert (Hlast : match last joined with
                  | Some c => Ascii.eqb c "/"%char
                  | None => false
                  end = false).
  { rewrite Ejoined, last_behind by done. apply last_not_slash.
    by destruct Hfile as (_ & _ & _ & Hfree). }
  assert (Hu : unsegments (rev (Js.chars file :: Js.chars dir :: res))
               = kept ++ "/"%char :: Js.chars file).
  { subst kept. change (rev (Js.chars file :: Js.chars dir :: res))
      with (rev (Js.chars dir :: res) ++ [Js.chars file]).
    apply unsegments_snoc. cbn [rev]. by destruct (rev res). }
  assert (Hgoal : normalize joined
                  = (if isAbsolute then ["/"%char] else []) ++ kept
                    ++ "/"%char :: Js.chars file).
  { unfold normalize, normalizeString.
    destruct joined as [|first rest]; [by destruct (Js.chars (join folder dir))|].
    cbv zeta. cbn in Hfirst. rewrite Hfirst, Hlast, Hsegs, Hu.
    destruct (kept ++ "/"%char :: Js.chars file) as [|k ks] eqn:Ek; [by destruct kept|].
    by destruct isAbsolute. }
  rewrite Hgoal.
  rewrite <- (str_chars (join folder dir +:+ "/" +:+ file)). f_equal.
  rewrite !chars_append, Hj. change (Js.chars "/") with ["/"%char].
  by rewrite <- !app_assoc.
Qed.

Lemma plainName_storage :
  plainName (Js.chars Defaults.RAG_STORAGE_DIR)
  /\ plainName (Js.chars Defaults.RAG_DB_FILE)
  /\ plainName (Js.chars Defaults.RAG_INDEX_FILE).
Proof.
  split_and!; (split_and!; [done|done|done|]); by apply (bool_decide_unpack _).
Qed.

(** The two files lie right below the storage directory. *)
Lemma under_ragDir folderPath :
  Storage.dbPath (Storage.getPaths folderPath)
  = Storage.ragDir (Storage.getPaths folderPath) +:+ "/" +:+ Defaults.RAG_DB_FILE
  /\ Storage.indexPath (Storage.getPaths folderPath)
     = Storage.ragDir (Storage.getPaths folderPath) +:+ "/" +:+ Defaults.RAG_INDEX_FILE.
Proof.
  destruct plainName_storage as (Hd & Hdb & Hix).
  unfold Storage.getPaths. cbn [Storage.dbPath Storage.indexPath Storage.ragDir].
  by rewrite !join_join.
Qed.

End PathFacts.

(** ** Saving and loading *)

Section RoundTripFacts.

Lemma ofNumber_finite n : finite n -> Json.ofNumber n = JNum (Json.reread n).
Proof. unfold finite, Json.ofNumber, Json.reread. by intros ->. Qed.

Lemma asNumber_ofNumber n : finite n -> Json.asNumber (Some (Json.ofNumber n)) = Json.reread n.
Proof. intros H. by rewrite ofNumber_finite. Qed.

(** A number that is written and read unchanged is finite, and read as it
    is. *)
Lemma stable_finite n : Json.stable n -> finite n /\ Json.reread n = n.
Proof.
  unfold Json.stable, Json.ofNumber, finite, Json.reread.
  destruct (is_finite n); [|done]. intros [= H]. by split.
Qed.

(** What is read of a finite number is equal to it in the sense of [===]. *)
Lemma reread_eqb n : finite n -> PrimFloat.eqb (Json.reread n) n = true.
Proof.
  unfold finite, Json.reread. intros Hfin.
  destruct (PrimFloat.eqb n 0) eqn:E.
  - rewrite FloatAxioms.eqb_spec in *. change (Prim2SF 0) with (SpecFloat.S754_zero false) in *.
    by destruct (Prim2SF n) as [[]|[]| |[] m e].
  - unfold is_finite, is_nan in Hfin. by destruct (PrimFloat.eqb n n).
Qed.

Lemma toPosition_ofPosition p :
  finitePosition p -> Json.toPosition (Some (Json.ofPosition p)) = rereadPosition p.
Proof.
  intros (H1 & H2 & H3). destruct p as [l c o]. unfold Json.toPosition, Json.ofPosition.
  cbn in *. rewrite (ofNumber_finite l), (ofNumber_finite c), (ofNumber_finite o) by done.
  reflexivity.
Qed.

Lemma toRange_ofRange r :
  finiteRange r -> Json.toRange (Some (Json.ofRange r)) = rereadRange r.
Proof.
  intros [H1 H2]. destruct r as [s e]. unfold Json.toRange, Json.ofRange.
  cbn [rstart rend].
  change (Some (JObj [("start", Json.ofPosition s); ("end", Json.ofPosition e)])
          ≫= Json.field "start") with (Some (Json.ofPosition s)).
  change (Some (JObj [("start", Json.ofPosition s); ("end", Json.ofPosition e)])
          ≫= Json.field "end") with (Some (Json.ofPosition e)).
  cbn in H1, H2. by rewrite !toPosition_ofPosition.
Qed.

Lemma kindOfName_kindName k : Json.kindOfName (Json.kindName k) = k.
Proof. by destruct k. Qed.

Lemma toSymbol_ofSymbol s :
  finiteSymbol s -> Json.toSymbol (Json.ofSymbol s) = rereadSymbol s.
Proof.
  intros [H1 H2]. destruct s as [n k nr cr]. unfold Json.toSymbol, Json.ofSymbol.
  change (Json.field "name" _) with (Some (JStr n)).
  change (Json.field "kind" _) with (Some (JStr (Json.kindName k))).
  change (Json.field "nameRange" _) with (Some (Json.ofRange nr)).
  change (Json.field "contentRange" _) with (Some (Json.ofRange cr)).
  cbn [Json.asString]. rewrite kindOfName_kindName. cbn in H1, H2.
  by rewrite !toRange_ofRange.
Qed.

Lemma loadChunk_ofChunk c :
  finiteChunk c -> Storage.loadChunk (Json.ofChunk c) = Some (rereadChunk c).
Proof.
  intros (Hid & Hm & He & Hs). destruct c as [id fp m ct emb syms]. cbn in *.
  unfold Storage.loadChunk, Json.ofChunk, rereadChunk. cbn [RagChunk.id RagChunk.filePath
    RagChunk.modifiedAt RagChunk.content RagChunk.embedding RagChunk.symbols].
  change (Json.field "id" _) with (Some (JStr id)).
  change (Json.field "embedding" _) with (Some (JArr (map Json.ofNumber emb))).
  change (Json.field "filePath" _) with (Some (JStr fp)).
  change (Json.field "modifiedAt" _) with (Some (Json.ofNumber m)).
  change (Json.field "content" _) with (Some (JStr ct)).
  cbv beta iota. rewrite bool_decide_false by done. cbn [Json.asString].
  rewrite asNumber_ofNumber by done.
  assert (Hemb : map (fun x => Json.asNumber (Some x)) (map Json.ofNumber emb)
                 = map Json.reread emb).
  { induction He as [|x l Hx Hl IH]; [done|]. cbn [map].
    by rewrite asNumber_ofNumber, IH. }
  rewrite Hemb. destruct syms as [syms|].
  - change (Json.field "symbols" _) with (Some (JArr (map Json.ofSymbol syms))).
    cbv beta iota. cbn [fmap option_fmap option_map]. do 3 f_equal.
    induction Hs as [|x l Hx Hl IH]; [done|]. cbn [map]. by rewrite toSymbol_ofSymbol, IH.
  - reflexivity.
Qed.

Lemma loadFileState_ofFileState st :
  finiteFileState st ->
  Storage.loadFileState (Json.ofFileState st) = Some (rereadFileState st).
Proof.
  intros [Hm Hs]. destruct st as [m s h ids]. cbn in *.
  unfold Storage.loadFileState, Json.ofFileState, rereadFileState.
  cbn [RagFileState.modifiedAt RagFileState.size RagFileState.contentHash
       RagFileState.chunkIds].
  rewrite (ofNumber_finite m), (ofNumber_finite s) by done.
  change (Json.field "modifiedAt" _) with (Some (JNum (Json.reread m))).
  change (Json.field "chunkIds" _) with (Some (JArr (map JStr ids))).
  change (Json.field "size" _) with (Some (JNum (Json.reread s))).
  change (Json.field "contentHash" _) with (Some (JStr h)).
  cbv beta iota. do 2 f_equal. induction ids as [|x l IH]; [done|]. cbn. by rewrite IH.
Qed.

(** Records of numbers that are read unchanged are read unchanged. *)
Lemma rereadPosition_stable p : stablePosition p -> finitePosition p /\ rereadPosition p = p.
Proof.
  intros (H1 & H2 & H3). destruct p as [l c o]. cbn in *.
  destruct (stable_finite _ H1) as [F1 E1], (stable_finite _ H2) as [F2 E2],
    (stable_finite _ H3) as [F3 E3].
  split; [by split_and!|]. unfold rereadPosition. cbn. by rewrite E1, E2, E3.
Qed.

Lemma rereadRange_stable r : stableRange r -> finiteRange r /\ rereadRange r = r.
Proof.
  intros [H1 H2]. destruct r as [s e]. cbn in *.
  destruct (rereadPosition_stable _ H1) as [F1 E1], (rereadPosition_stable _ H2) as [F2 E2].
  split; [by split|]. unfold rereadRange. cbn. by rewrite E1, E2.
Qed.

Lemma rereadSymbol_stable s : stableSymbol s -> finiteSymbol s /\ rereadSymbol s = s.
Proof.
  intros [H1 H2]. destruct s as [n k nr cr]. cbn in *.
  destruct (rereadRange_stable _ H1) as [F1 E1], (rereadRange_stable _ H2) as [F2 E2].
  split; [by split|]. unfold rereadSymbol. cbn. by rewrite E1, E2.
Qed.

Lemma rereadChunk_stable c : validChunk c -> finiteChunk c /\ rereadChunk c = c.
Proof.
  intros (Hid & Hm & He & Hs). destruct c as [id fp m ct emb syms]. cbn in *.
  destruct (stable_finite _ Hm) as [Fm Em].
  assert (Hemb : Forall finite emb /\ map Json.reread emb = emb).
  { induction He as [|x l Hx _ [IH1 IH2]]; [done|].
    destruct (stable_finite _ Hx) as [Fx Ex]. split; [by constructor|]. cbn.
    by rewrite Ex, IH2. }
  destruct Hemb as [Fe Ee].
  assert (Hsyms : match syms with Some l => Forall finiteSymbol l | None => True end
                  /\ (map rereadSymbol <$> syms) = syms).
  { destruct syms as [l|]; [|done]. cbn.
    induction Hs as [|x l Hx _ [IH1 IH2]]; [done|].
    destruct (rereadSymbol_stable _ Hx) as [Fx Ex]. split; [by constructor|].
    cbn. rewrite Ex. by injection IH2 as ->. }
  destruct Hsyms as [Fs Es].
  split; [by split_and!|]. unfold rereadChunk. cbn [RagChunk.id RagChunk.filePath
    RagChunk.modifiedAt RagChunk.content RagChunk.embedding RagChunk.symbols].
  by rewrite Em, Ee, Es.
Qed.

Lemma rereadFileState_stable st :
  validFileState st -> finiteFileState st /\ rereadFileState st = st.
Proof.
  intros [Hm Hs]. destruct st as [m s h ids]. cbn in *.
  destruct (stable_finite _ Hm) as [Fm Em], (stable_finite _ Hs) as [Fs Es].
  split; [by split|]. unfold rereadFileState. cbn. by rewrite Em, Es.
Qed.

Lemma validMaps_finite chunks fileStates :
  validMaps chunks fileStates ->
  finiteMaps chunks fileStates
  /\ (prod_map id rereadChunk <$> chunks) = chunks
  /\ (prod_map id rereadFileState <$> fileStates) = fileStates.
Proof.
  intros (Hnd & Hall & Hnd' & Hall').
  assert (Hc : Forall (fun e => e.1 = RagChunk.id e.2 /\ finiteChunk e.2) chunks
               /\ (prod_map id rereadChunk <$> chunks) = chunks).
  { clear Hnd. induction Hall as [|[k c] l [Hk Hv] _ [IH1 IH2]]; [done|].
    destruct (rereadChunk_stable _ Hv) as [Fc Ec]. split; [by constructor|].
    cbn. cbn in Ec. by rewrite Ec, IH2. }
  assert (Hs : Forall (fun e => finiteFileState e.2) fileStates
               /\ (prod_map id rereadFileState <$> fileStates) = fileStates).
  { clear Hnd'. induction Hall' as [|[k st] l Hv _ [IH1 IH2]]; [done|].
    destruct (rereadFileState_stable _ Hv) as [Fs Es]. split; [by constructor|].
    cbn. cbn in Es. by rewrite Es, IH2. }
  destruct Hc as [Hc1 Hc2], Hs as [Hs1 Hs2]. by split_and!.
Qed.

End RoundTripFacts.

Section LoadFacts.

Lemma keys_prod_map {V W} (g : V -> W) (l : JsMap.t V) :
  JsMap.keys (prod_map id g <$> l) = JsMap.keys l.
Proof.
  unfold JsMap.keys. induction l as [|[k v] l IH]; [done|]. cbn. by rewrite <- IH.
Qed.

Lemma foldl_loadChunk (chunks : JsMap.t RagChunk.t) : forall acc,
  Forall (fun e => e.1 = RagChunk.id e.2 /\ finiteChunk e.2) chunks ->
  NoDup (JsMap.keys acc ++ JsMap.keys chunks) ->
  foldl (fun m j => match Storage.loadChunk j with
                    | Some c => JsMap.set (RagChunk.id c) c m
                    | None => m
                    end) acc (map Json.ofChunk (JsMap.values chunks))
  = acc ++ (prod_map id rereadChunk <$> chunks).
Proof.
  induction chunks as [|[k c] chunks IH]; intros acc Hall Hnd.
  - cbn. by rewrite app_nil_r.
  - apply Forall_cons in Hall as [[Hk Hc] Hall]. cbn in Hk. subst k.
    cbn [JsMap.values fmap list_fmap map foldl snd].
    rewrite loadChunk_ofChunk by done. cbn [rereadChunk RagChunk.id].
    rewrite set_fresh.
    + change (list_fmap _ _ snd chunks) with (JsMap.values chunks).
      rewrite IH; [by rewrite <- app_assoc|done|].
      unfold JsMap.keys in *. rewrite fmap_app, <- app_assoc. exact Hnd.
    + apply NoDup_app in Hnd as (_ & H & _). intros Hin. apply (H _ Hin).
      cbn. apply list_elem_of_here.
Qed.

Lemma foldl_loadFileState (fileStates : JsMap.t RagFileState.t) : forall acc,
  Forall (fun e => finiteFileState e.2) fileStates ->
  NoDup (JsMap.keys acc ++ JsMap.keys fileStates) ->
  foldl (fun m (e : string * JSON) =>
           match Storage.loadFileState e.2 with
           | Some st => JsMap.set e.1 st m
           | None => m
           end) acc (prod_map id Json.ofFileState <$> fileStates)
  = acc ++ (prod_map id rereadFileState <$> fileStates).
Proof.
  induction fileStates as [|[k st] fileStates IH]; intros acc Hall Hnd.
  - cbn. by rewrite app_nil_r.
  - apply Forall_cons in Hall as [Hst Hall]. cbn in Hst.
    cbn [fmap list_fmap foldl prod_map fst snd id].
    rewrite loadFileState_ofFileState by done.
    rewrite set_fresh.
    + rewrite IH; [by rewrite <- app_assoc|done|].
      unfold JsMap.keys in *. rewrite fmap_app, <- app_assoc. exact Hnd.
    + apply NoDup_app in Hnd as (_ & H & _). intros Hin. apply (H _ Hin).
      cbn. apply list_elem_of_here.
Qed.

Lemma loadDb_dbPayload chunks :
  NoDup (JsMap.keys chunks) ->
  Forall (fun e => e.1 = RagChunk.id e.2 /\ finiteChunk e.2) chunks ->
  Storage.loadDb (JsonText (Storage.dbPayload chunks))
  = Some (prod_map id rereadChunk <$> chunks).
Proof.
  intros Hnd Hall. unfold Storage.loadDb, Storage.dbPayload.
  change (Json.field "version" _) with (Some (JNum 1%float)).
  change (Json.field "chunks" _) with (Some (JArr (map Json.ofChunk (JsMap.values chunks)))).
  cbv beta iota. change (PrimFloat.eqb 1 Defaults.RAG_DB_VERSION) with true. cbv iota.
  unfold JsMap.empty. by rewrite (foldl_loadChunk chunks []).
Qed.

(** The file states come back in the property order of the object that
    carried them. *)
Lemma loadIndex_indexPayload now fileStates :
  NoDup (JsMap.keys fileStates) ->
  Forall (fun e => finiteFileState e.2) fileStates ->
  exists lastIndexedAt,
    Storage.loadIndex (JsonText (Storage.indexPayload now fileStates))
    = Some (Json.propertyOrder (prod_map id rereadFileState <$> fileStates), lastIndexedAt).
Proof.
  intros Hnd Hall. unfold Storage.loadIndex, Storage.indexPayload.
  change (Json.field "version" _) with (Some (JNum 1%float)).
  change (Json.field "files" _)
    with (Some (JObj (Json.fromEntries (prod_map id Json.ofFileState <$> fileStates)))).
  cbn [mbind option_bind Storage.entriesOf]. cbv beta iota.
  change (PrimFloat.eqb 1 Defaults.RAG_INDEX_VERSION) with true. cbv iota.
  unfold JsMap.empty. eexists. do 2 f_equal. unfold Json.fromEntries.
  rewrite (foldl_set_fresh _ []) by (cbn [app]; by rewrite keys_prod_map).
  cbn [app]. rewrite !propertyOrder_fmap.
  rewrite (foldl_loadFileState _ []); [done| |].
  - by rewrite propertyOrder_Permutation.
  - cbn [app]. unfold JsMap.keys. by rewrite propertyOrder_Permutation.
Qed.

Lemma dbPath_indexPath folderPath :
  Storage.indexPath (Storage.getPaths folderPath) <> Storage.dbPath (Storage.getPaths folderPath).
Proof.
  destruct (under_ragDir folderPath) as [-> ->].
  intros H. apply (inj (String.app _)) in H. done.
Qed.

(** The disk after a save that did not reject holds the two payloads. *)
Lemma saveToDisk_done fs disk now folderPath chunks fileStates disk' :
  Storage.saveToDisk fs disk now folderPath chunks fileStates = (None, disk') ->
  disk' = <[Storage.indexPath (Storage.getPaths folderPath)
            := JsonText (Storage.indexPayload now fileStates)]>
            (<[Storage.dbPath (Storage.getPaths folderPath)
               := JsonText (Storage.dbPayload chunks)]> disk).
Proof.
  unfold Storage.saveToDisk. cbv zeta. destruct (Storage.mkdir fs _); [done|].
  destruct (Storage.writeFile fs (Storage.dbPath _) _) as [|e1 p1]; [|done].
  destruct (Storage.writeFile fs (Storage.indexPath _) _) as [|e2 p2]; [|done].
  by intros [= <-].
Qed.

(** On a file system that does not fail, a save does not reject. *)
Lemma saveToDisk_reliable disk now folderPath chunks fileStates :
  (Storage.saveToDisk Storage.reliable disk now folderPath chunks fileStates).1 = None.
Proof. reflexivity. Qed.

Lemma loadFromDisk_saved fs disk now folderPath chunks fileStates disk' :
  finiteMaps chunks fileStates ->
  Storage.saveToDisk fs disk now folderPath chunks fileStates = (None, disk') ->
  Storage.chunks (Storage.loadFromDisk disk' folderPath)
  = (prod_map id rereadChunk <$> chunks)
  /\ Storage.fileStates (Storage.loadFromDisk disk' folderPath)
     = Json.propertyOrder (prod_map id rereadFileState <$> fileStates).
Proof.
  intros (Hnd & Hall & Hnd' & Hall') ->%saveToDisk_done.
  unfold Storage.loadFromDisk, Storage.readOrEmpty. cbv zeta.
  rewrite lookup_insert_ne by apply dbPath_indexPath.
  rewrite !lookup_insert_eq. unfold default. cbn [from_option id].
  rewrite loadDb_dbPayload by done.
  destruct (loadIndex_indexPayload now fileStates Hnd' Hall') as [t ->]. done.
Qed.

(** With numbers that are read unchanged, the maps are. *)
Lemma loadFromDisk_saveToDisk fs disk now folderPath chunks fileStates disk' :
  validMaps chunks fileStates ->
  Storage.saveToDisk fs disk now folderPath chunks fileStates = (None, disk') ->
  Storage.chunks (Storage.loadFromDisk disk' folderPath) = chunks
  /\ Storage.fileStates (Storage.loadFromDisk disk' folderPath)
     = Json.propertyOrder fileStates.
Proof.
  intros Hv Hsave. destruct (validMaps_finite _ _ Hv) as (Hf & Hc & Hs).
  destruct (loadFromDisk_saved fs disk now folderPath _ _ disk' Hf Hsave) as [E1 E2].
  by rewrite E1, E2, Hc, Hs.
Qed.

End LoadFacts.

Section RereadFacts.

Lemma get_prod_map {V W} (g : V -> W) path (l : JsMap.t V) :
  JsMap.get path (prod_map id g <$> l) = g <$> JsMap.get path l.
Proof.
  induction l as [|[k v] l IH]; [done|]. cbn. by destruct (decide (k = path)).
Qed.

(** Only the negative zero is read as another number than the one saved. *)
Lemma reread_cases n : Json.reread n = n \/ n = (-0)%float.
Proof.
  unfold Json.reread. destruct (PrimFloat.eqb n 0) eqn:E; [|by left].
  rewrite FloatAxioms.eqb_spec in E. change (Prim2SF 0) with (SpecFloat.S754_zero false) in E.
  destruct (Prim2SF n) as [[]|[]| |[] m e] eqn:En; try done.
  - right. apply FloatAxioms.Prim2SF_inj. by rewrite En.
  - left. symmetry. apply FloatAxioms.Prim2SF_inj. by rewrite En.
Qed.

End RereadFacts.

Section RoundTrip.

(** C9, counterexample.  A file state whose [modifiedAt] is [Infinity], a
    number, is written as [null] and skipped by the loader: the path is
    tracked in the saved map and not in the loaded one, after a save that
    did not reject. *)
Lemma unbounded_modifiedAt_is_not_loaded :
  RagFileState.chunkIds <$> JsMap.get "a.ts" StorageTest.unbounded = Some ["id-1"]
  /\ (Storage.saveToDisk Storage.reliable ∅ 1000%float "/root" StorageTest.chunks
        StorageTest.unbounded).1 = None
  /\ JsMap.get "a.ts"
       (Storage.fileStates
          (Storage.loadFromDisk
             (Storage.saveToDisk Storage.reliable ∅ 1000%float "/root" StorageTest.chunks
                StorageTest.unbounded).2 "/root"))
     = None.
Proof. split_and!; vm_compute; reflexivity. Qed.

(** C9, amended.  For a chunks map and a file-states map whose records
    carry finite numbers, every chunk stored under its own, non-empty id,
    and a [saveToDisk] that does not reject, whatever the file system does
    otherwise: [loadFromDisk] on the same folder gives the chunks map back
    in its order, and the file states in the property order of the JSON
    object that carried them (integer-like paths first), which is a
    rearrangement of the saved map and reads the same under every path.
    Every number of a record comes back through [Json.reread]: equal to the
    saved one in the sense of [===], and the same number unless the saved
    one is the negative zero, which comes back as zero. *)
Theorem load_after_save_gives_the_maps_back
    fs disk now folderPath chunks fileStates disk' :
  finiteMaps chunks fileStates ->
  Storage.saveToDisk fs disk now folderPath chunks fileStates = (None, disk') ->
  Storage.chunks (Storage.loadFromDisk disk' folderPath)
  = (prod_map id rereadChunk <$> chunks)
  /\ Storage.fileStates (Storage.loadFromDisk disk' folderPath)
     ≡ₚ (prod_map id rereadFileState <$> fileStates)
  /\ (forall path,
        JsMap.get path (Storage.fileStates (Storage.loadFromDisk disk' folderPath))
        = rereadFileState <$> JsMap.get path fileStates)
  /\ (forall n, finite n ->
        PrimFloat.eqb (Json.reread n) n = true
        /\ (Json.reread n = n \/ n = (-0)%float /\ Json.reread n = 0%float)).
Proof.
  intros Hv Hsave.
  destruct (loadFromDisk_saved fs disk now folderPath _ _ disk' Hv Hsave) as [Hc Hs].
  split; [exact Hc|]. rewrite Hs. split; [apply propertyOrder_Permutation|].
  split.
  - intros path. rewrite <- get_prod_map. symmetry. apply get_Permutation.
    + rewrite keys_prod_map. by destruct Hv as (_ & _ & ? & _).
    + symmetry. apply propertyOrder_Permutation.
  - intros n Hn. split; [by apply reread_eqb|].
    destruct (reread_cases n) as [E| ->]; [by left|]. right. by split.
Qed.

(** A chunk whose embedding holds the negative zero, saved on a file
    system that does not fail. *)
Lemma load_after_save_gives_the_maps_back_witness :
  Storage.chunks (Storage.loadFromDisk
                    (Storage.saveToDisk Storage.reliable ∅ 1000%float "/root"
                       StorageTest.signedZero StorageTest.states).2 "/root")
  = (prod_map id rereadChunk <$> StorageTest.signedZero).
Proof.
  apply (load_after_save_gives_the_maps_back Storage.reliable ∅ 1000%float "/root"
           StorageTest.signedZero StorageTest.states).
  - unfold finiteMaps, StorageTest.signedZero, StorageTest.states, finiteChunk,
      finiteFileState, finite.
    cbn. split_and!; repeat constructor; try done; apply NoDup_nil_2 || apply not_elem_of_nil.
  - reflexivity.
Defined.

End RoundTrip.

(** ** The LRU cache: capacity and read-after-write *)

Section LruFacts.
Context {V : Type}.
Implicit Types (c : LruCache.t V) (m es : JsMap.t (LruCache.entry V)).

Lemma foldl_delete_entries es : forall m,
  foldl (fun m e => JsMap.delete e.1 m) m es = filter (fun x => x.1 ∉ es.*1) m.
Proof.
  induction es as [|e es IH]; intros m; cbn [foldl].
  - induction m as [|x m IHm]; [done|]. rewrite filter_cons_True; [by f_equal|].
    apply not_elem_of_nil.
  - rewrite IH. unfold JsMap.delete. rewrite list_filter_filter.
    induction m as [|x m IHm]; [done|]. rewrite !filter_cons.
    destruct (decide ((x.1 ∉ es.*1) /\ x.1 <> e.1)) as [[H1 H2]|H];
      destruct (decide (x.1 ∉ (e :: es).*1)) as [H'|H']; rewrite IHm; try done.
    + exfalso. apply H'. cbn. by apply not_elem_of_cons.
    + exfalso. apply H. cbn in H'. apply not_elem_of_cons in H' as [? ?]. done.
Qed.

Lemma filter_none_of_own_keys es (l : JsMap.t (LruCache.entry V)) :
  l ⊆ es -> filter (fun x => x.1 ∉ es.*1) l = [].
Proof.
  induction l as [|x l IH]; intros Hsub; [done|].
  rewrite filter_cons_False.
  - apply IH. intros y Hy. apply Hsub. by apply list_elem_of_further.
  - intros H. apply H. apply (list_elem_of_fmap_2 fst). apply Hsub. apply list_elem_of_here.
Qed.

(** Deleting the keys of the first [n] entries of a rearrangement of a map
    leaves at most [size - n] entries. *)
Lemma length_without_taken m sorted n :
  sorted ≡ₚ m ->
  (length (filter (fun x => x.1 ∉ (take n sorted).*1) m) <= length m - n)%nat.
Proof.
  intros Hp. rewrite <- Hp. remember (take n sorted).*1 as ks eqn:Eks.
  rewrite <- (take_drop n sorted) at 1. subst ks.
  rewrite filter_app, length_app, filter_none_of_own_keys by done. cbn [length].
  etrans; [apply length_filter|]. rewrite length_drop. lia.
Qed.

(** Whatever the cache held, [set] leaves at most [maxEntries] entries and
    does not throw, for a capacity that is not negative. *)
Lemma evict_size c :
  0 <= LruCache.maxEntries c ->
  Z.of_nat (LruCache.size (LruCache.evict c).2) <= LruCache.maxEntries c.
Proof.
  intros Hmax. unfold LruCache.evict, LruCache.size.
  destruct (Z.leb_spec (Z.of_nat (JsMap.size (LruCache.cache c))) (LruCache.maxEntries c));
    [done|]. cbn. rewrite foldl_delete_entries. unfold JsMap.size in *.
  match goal with
  | |- context [take ?n (sortBy ?before ?l)] =>
      pose proof (length_without_taken l (sortBy before l) n (sortBy_Permutation before l))
  end. lia.
Qed.

(** X5.  Whatever the cache held, a [set] on a cache whose capacity is not
    negative returns normally and leaves at most [maxEntries] entries. *)
Theorem set_stays_within_maxEntries now key (v : V) c :
  0 <= LruCache.maxEntries c ->
  (LruCache.set now key v c).1 = false
  /\ Z.of_nat (LruCache.size (LruCache.set now key v c).2) <= LruCache.maxEntries c.
Proof.
  intros Hmax. split.
  - rewrite set_threw. by apply Z.ltb_ge.
  - exact (evict_size (LruCache.withCache c _) Hmax).
Qed.

(** An element that sorts before none of the others stays last. *)
Lemma insertSorted_snoc {A} (before : A -> A -> bool) (x y : A) (l : list A) :
  before x y = false ->
  insertSorted before y (l ++ [x]) = insertSorted before y l ++ [x].
Proof.
  intros Hxy. induction l as [|z l IH]; cbn.
  - by rewrite Hxy.
  - destruct (before z y); [by rewrite IH|done].
Qed.

Lemma sortBy_snoc {A} (before : A -> A -> bool) (x : A) (l : list A) :
  (forall y, y ∈ l -> before x y = false) ->
  sortBy before (l ++ [x]) = sortBy before l ++ [x].
Proof.
  unfold sortBy. induction l as [|y l IH]; intros Hx; [done|]. cbn.
  rewrite IH by (intros z Hz; apply Hx; by apply list_elem_of_further).
  apply insertSorted_snoc. apply Hx. apply list_elem_of_here.
Qed.

(** The entry [set] has just written survives the eviction that follows. *)
Lemma set_entry now key (v : V) c :
  1 <= LruCache.maxEntries c ->
  Z.of_nat (LruCache.size c) <= LruCache.maxEntries c ->
  (forall e, e ∈ JsMap.values (LruCache.cache c) ->
     PrimFloat.ltb (PrimFloat.sub now (LruCache.createdAt e)) 0 = false) ->
  JsMap.get key (LruCache.cache (LruCache.set now key v c).2)
  = Some {| LruCache.value := v; LruCache.createdAt := now |}.
Proof.
  intros Hmax Hsize Hnow. unfold LruCache.set, LruCache.evict, LruCache.size in *.
  cbn [LruCache.cache LruCache.maxEntries LruCache.withCache].
  set (e := {| LruCache.value := v; LruCache.createdAt := now |}).
  destruct (Z.leb_spec (Z.of_nat (JsMap.size (JsMap.set key e (LruCache.cache c))))
              (LruCache.maxEntries c)) as [|Hover]; cbn [snd LruCache.cache LruCache.withCache].
  { apply get_set_eq. }
  destruct (decide (key ∈ JsMap.keys (LruCache.cache c))) as [Hin|Hnew].
  { exfalso. apply get_is_Some_keys in Hin as [old Hold].
    assert (E : length (JsMap.set key e (LruCache.cache c)) = length (LruCache.cache c)).
    { clear -Hold. induction (LruCache.cache c) as [|[k' v'] m IH]; [done|]. cbn in *.
      destruct (decide (k' = key)); [done|]. cbn. by rewrite IH. }
    unfold JsMap.size in *. lia. }
  rewrite set_fresh in * by done. unfold JsMap.size in *. rewrite length_app in *.
  cbn [length] in *.
  replace (Z.to_nat _) with 1%nat by lia.
  rewrite sortBy_snoc.
  2:{ intros y Hy. cbn. apply Hnow. by apply (list_elem_of_fmap_2 snd). }
  assert (Hne : LruCache.cache c <> []) by (intros E; rewrite E in *; cbn in *; lia).
  pose proof (sortBy_Permutation
    (fun a b : string * LruCache.entry V =>
       PrimFloat.ltb (PrimFloat.sub (LruCache.createdAt a.2) (LruCache.createdAt b.2)) 0)
    (LruCache.cache c)) as Hp.
  destruct (sortBy _ (LruCache.cache c)) as [|hd tl] eqn:Es.
  { apply Permutation_nil_l in Hp. congruence. }
  cbn [app take foldl].
  assert (Hhd : hd.1 <> key).
  { intros <-. apply Hnew. apply (list_elem_of_fmap_2 fst). rewrite <- Hp. apply list_elem_of_here. }
  rewrite take_0. cbn [foldl]. rewrite get_delete_ne by done. rewrite <- set_fresh by done. apply get_set_eq.
Qed.

(** X6.  Read after write: on a cache of capacity at least one that is
    within its capacity and holds no entry newer than the clock reading
    [now], [set] at [now] followed by [get] at [now'] gives the value back
    and changes nothing, unless the time to live has run out in between. *)
Theorem get_after_set now now' key (v : V) c :
  1 <= LruCache.maxEntries c ->
  Z.of_nat (LruCache.size c) <= LruCache.maxEntries c ->
  (forall e, e ∈ JsMap.values (LruCache.cache c) ->
     PrimFloat.ltb (PrimFloat.sub now (LruCache.createdAt e)) 0 = false) ->
  PrimFloat.ltb 0 (LruCache.ttlMs c)
  && PrimFloat.ltb (LruCache.ttlMs c) (PrimFloat.sub now' now) = false ->
  LruCache.get now' key (LruCache.set now key v c).2
  = (Some v, (LruCache.set now key v c).2).
Proof.
  intros Hmax Hsize Hnow Hfresh. unfold LruCache.get.
  rewrite set_entry by done. cbn [LruCache.createdAt LruCache.value].
  assert (E : LruCache.ttlMs (LruCache.set now key v c).2 = LruCache.ttlMs c).
  { unfold LruCache.set, LruCache.evict. by destruct (_ <=? _). }
  by rewrite E, Hfresh.
Qed.

End LruFacts.

(** The third write of the test: the cache stays at two entries. *)
Lemma set_stays_within_maxEntries_witness :
  (LruCache.set 3%float "third" 3%nat LruTest.twoEntries).1 = false
  /\ Z.of_nat (LruCache.size (LruCache.set 3%float "third" 3%nat LruTest.twoEntries).2)
     <= LruCache.maxEntries LruTest.twoEntries.
Proof.
  apply (set_stays_within_maxEntries 3%float "third" 3%nat LruTest.twoEntries).
  vm_compute. discriminate.
Defined.

(** The third write of the test is read back. *)
Lemma get_after_set_witness :
  LruCache.get 4%float "third" (LruCache.set 3%float "third" 3%nat LruTest.twoEntries).2
  = (Some 3%nat, (LruCache.set 3%float "third" 3%nat LruTest.twoEntries).2).
Proof.
  apply (get_after_set 3%float 4%float "third" 3%nat LruTest.twoEntries).
  - vm_compute. discriminate.
  - vm_compute. discriminate.
  - intros e He. vm_compute in He.
    apply elem_of_cons in He as [->|He]; [reflexivity|].
    apply elem_of_cons in He as [->|He]; [reflexivity|].
    by apply elem_of_nil in He.
  - reflexivity.
Defined.

(** ** Signatures: Hamming distance and the probed neighbourhood *)

Section SignatureFacts.
Import Lsh.

Lemma countDiff_sym a : forall b, countDiff a b = countDiff b a.
Proof.
  induction a as [|x a IH]; intros [|y b]; cbn; try done.
  rewrite IH. by rewrite (Ascii.eqb_sym x y).
Qed.

Lemma countDiff_bounds a : forall b, 0 <= countDiff a b <= Z.of_nat (length a).
Proof.
  induction a as [|x a IH]; intros [|y b]; cbn [countDiff length]; try lia.
  specialize (IH b). destruct (Ascii.eqb x y); lia.
Qed.

Lemma countDiff_zero a : forall b, length a = length b -> countDiff a b = 0 <-> a = b.
Proof.
  induction a as [|x a IH]; intros [|y b] Hlen; cbn in *; try done.
  injection Hlen as Hlen. specialize (IH b Hlen). pose proof (countDiff_bounds a b).
  destruct (Ascii.eqb_spec x y) as [->|Hne].
  - rewrite Z.add_0_l, IH. split; [by intros ->|by intros [= ->]].
  - split; [lia|]. intros [= ? ?]. done.
Qed.

Lemma countDiff_refl a : countDiff a a = 0.
Proof. by apply countDiff_zero. Qed.

(** X7.  [hammingDistance] is symmetric, it is zero on equal signatures
    only, and on signatures of one length it is at most that length. *)
Theorem hammingDistance_metric (a b : list ascii) :
  hammingDistance a b = hammingDistance b a
  /\ (hammingDistance a b = 0 <-> a = b)
  /\ (hammingDistance a b = MAX_SAFE_INTEGER \/ 0 <= hammingDistance a b <= Z.of_nat (length a)).
Proof.
  unfold hammingDistance. split; [|split].
  - destruct (decide (length a = length b)) as [E|E].
    + rewrite !bool_decide_eq_true_2 by done. apply countDiff_sym.
    + by rewrite !bool_decide_eq_false_2.
  - destruct (decide (length a = length b)) as [E|E].
    + rewrite bool_decide_eq_true_2 by done. by apply countDiff_zero.
    + rewrite bool_decide_eq_false_2 by done. split; [done|]. intros ->. done.
  - destruct (bool_decide _); [right; apply countDiff_bounds|by left].
Qed.

(** Overwriting one position changes the count by that position alone. *)
Lemma countDiff_insert a : forall b i x y c,
  a !! i = Some x -> b !! i = Some y ->
  countDiff a (<[i := c]> b)
  = countDiff a b - (if Ascii.eqb x y then 0 else 1) + (if Ascii.eqb x c then 0 else 1).
Proof.
  induction a as [|x0 a IH]; intros [|y0 b] i x y c Ha Hb; try done.
  destruct i as [|i].
  - cbn in *. injection Ha as ->. injection Hb as ->. lia.
  - change (<[S i := c]> (y0 :: b)) with (y0 :: <[i := c]> b). cbn [countDiff].
    rewrite (IH b i x y c Ha Hb). lia.
Qed.

Lemma flipped_ne c : Ascii.eqb c (flipped c) = false.
Proof.
  unfold flipped. destruct (Ascii.eqb_spec c "1") as [->|Hne]; [done|].
  by apply Ascii.eqb_neq.
Qed.

Lemma flip_one s i c :
  s !! i = Some c -> flipSignatureBits s [i] = <[i := flipped c]> s.
Proof. intros H. unfold flipSignatureBits. cbn. by rewrite H. Qed.

Lemma flip_two s i j c c' :
  i <> j -> s !! i = Some c -> s !! j = Some c' ->
  flipSignatureBits s [i; j] = <[j := flipped c']> (<[i := flipped c]> s).
Proof.
  intros Hij Hi Hj. unfold flipSignatureBits. cbn. rewrite Hi.
  by rewrite list_lookup_insert_ne, Hj.
Qed.

Lemma hammingDistance_same_length s v :
  length v = length s -> hammingDistance s v = countDiff s v.
Proof. intros H. unfold hammingDistance. by rewrite bool_decide_eq_true_2. Qed.

Lemma near_self s d : near s s d.
Proof.
  split; [done|]. rewrite hammingDistance_same_length by done. rewrite countDiff_refl. lia.
Qed.

Lemma near_flip_one s i d :
  (i < length s)%nat -> 1 <= d -> near s (flipSignatureBits s [i]) d.
Proof.
  intros Hi Hd. destruct (lookup_lt_is_Some_2 s i Hi) as [c Hc].
  rewrite (flip_one s i c Hc). split; [apply length_insert|].
  rewrite hammingDistance_same_length by apply length_insert.
  rewrite (countDiff_insert s s i c c _ Hc Hc), countDiff_refl, Ascii.eqb_refl, flipped_ne. lia.
Qed.

Lemma near_flip_two s i j d :
  (i < j)%nat -> (j < length s)%nat -> 2 <= d -> near s (flipSignatureBits s [i; j]) d.
Proof.
  intros Hij Hj Hd.
  destruct (lookup_lt_is_Some_2 s i ltac:(lia)) as [c Hc].
  destruct (lookup_lt_is_Some_2 s j Hj) as [c' Hc'].
  rewrite (flip_two s i j c c') by (done || lia).
  split; [by rewrite !length_insert|].
  rewrite hammingDistance_same_length by (by rewrite !length_insert).
  rewrite (countDiff_insert s _ j c' c' _ Hc').
  2:{ rewrite list_lookup_insert_ne by lia. done. }
  rewrite (countDiff_insert s s i c c _ Hc Hc), countDiff_refl, !Ascii.eqb_refl, !flipped_ne.
  lia.
Qed.

Section Variants.
Context {I : Type} (P : list ascii -> Prop) (f : I -> list ascii).

Lemma addVariant_Forall v vs : P v -> Forall P vs -> Forall P (addVariant v vs).
Proof.
  intros Hv Hvs. unfold addVariant. destruct (bool_decide _); [done|].
  apply Forall_app. split; [done|]. by apply Forall_singleton.
Qed.

Lemma foldl_addVariant_Forall (l : list I) : forall vs,
  Forall P vs -> (forall i, i ∈ l -> P (f i)) ->
  Forall P (foldl (fun vs i => addVariant (f i) vs) vs l).
Proof.
  induction l as [|i l IH]; intros vs Hvs Hl; [done|]. cbn [foldl]. apply IH.
  - apply addVariant_Forall; [|done]. apply Hl, list_elem_of_here.
  - intros j Hj. apply Hl. by apply list_elem_of_further.
Qed.

Lemma addVariant_NoDup v vs : NoDup vs -> NoDup (addVariant v vs).
Proof.
  intros H. unfold addVariant. destruct (bool_decide_reflect (v ∈ vs)); [done|].
  apply NoDup_app. split_and!; [done| |apply NoDup_singleton].
  intros x Hx Hx'. apply list_elem_of_singleton in Hx'. by subst.
Qed.

Lemma foldl_addVariant_NoDup (l : list I) : forall vs,
  NoDup vs -> NoDup (foldl (fun vs i => addVariant (f i) vs) vs l).
Proof.
  induction l as [|i l IH]; intros vs Hvs; [done|]. cbn [foldl]. apply IH.
  by apply addVariant_NoDup.
Qed.

Lemma foldl_addVariant_head (l : list I) : forall vs s,
  head vs = Some s -> head (foldl (fun vs i => addVariant (f i) vs) vs l) = Some s.
Proof.
  induction l as [|i l IH]; intros vs s Hs; [done|]. cbn [foldl]. apply IH.
  unfold addVariant. destruct (bool_decide _); [done|]. by destruct vs.
Qed.

End Variants.

(** X8.  The signatures [buildNearbySignatures] lists start with the
    signature itself, hold no signature twice, and all have the signature's
    length and differ from it in at most two positions (and in at most
    [maxDistance]): a larger [maxDistance] adds nothing. *)
Theorem buildNearbySignatures_within_two (signature : list ascii) (maxDistance : Z) :
  head (buildNearbySignatures signature maxDistance) = Some signature
  /\ NoDup (buildNearbySignatures signature maxDistance)
  /\ Forall (fun v => length v = length signature
                      /\ hammingDistance signature v <= Z.min 2 (Z.max 0 maxDistance))
       (buildNearbySignatures signature maxDistance).
Proof.
  unfold buildNearbySignatures. cbv zeta.
  set (v1 := if 1 <=? maxDistance then _ else _).
  assert (H1 : head v1 = Some signature /\ NoDup v1
               /\ Forall (fun v => near signature v maxDistance) v1).
  { subst v1. destruct (Z.leb_spec 1 maxDistance).
    - split_and!.
      + by apply foldl_addVariant_head.
      + apply foldl_addVariant_NoDup, NoDup_singleton.
      + apply foldl_addVariant_Forall; [apply Forall_singleton, near_self|].
        intros i Hi. apply elem_of_seq in Hi. apply near_flip_one; lia.
    - split_and!; [done|apply NoDup_singleton|apply Forall_singleton, near_self]. }
  clearbody v1. destruct H1 as (Hh & Hn & Hf).
  destruct (Z.leb_spec 2 maxDistance) as [Hd|Hd]; [|done].
  assert (G : forall (l : list nat) vs,
            (forall i, i ∈ l -> (i < length signature)%nat) ->
            head vs = Some signature /\ NoDup vs
            /\ Forall (fun v => near signature v maxDistance) vs ->
            let r := foldl (fun vs i =>
                        foldl (fun vs j => addVariant (flipSignatureBits signature [i; j]) vs)
                              vs (seq (S i) (length signature - S i))) vs l in
            head r = Some signature /\ NoDup r
            /\ Forall (fun v => near signature v maxDistance) r).
  { induction l as [|i l IH]; intros vs Hl H; [done|]. cbn [foldl]. apply IH.
    - intros k Hk. apply Hl. by apply list_elem_of_further.
    - destruct H as (Hh' & Hn' & Hf'). split_and!.
      + by apply foldl_addVariant_head.
      + by apply foldl_addVariant_NoDup.
      + apply foldl_addVariant_Forall; [done|]. intros j Hj. apply elem_of_seq in Hj.
        apply near_flip_two; lia. }
  apply G; [|done]. intros i Hi. apply elem_of_seq in Hi. lia.
Qed.

End SignatureFacts.

(** ** The ANN index: what [build] stores and what [query] and [rank] return *)

Section BuildFacts.
Import Lsh.

Lemma projectionRow_length n : forall t, length (projectionRow n t).1 = n.
Proof.
  induction n as [|n IH]; intros t; [done|]. cbn [projectionRow].
  destruct (mulberry32 t) as [t' draw]. specialize (IH t').
  destruct (projectionRow n t') as [row t'']. cbn in *. by rewrite IH.
Qed.

Lemma projectionRows_shape rows dimensions : forall t,
  length (projectionRows rows dimensions t) = rows
  /\ Forall (fun row => length row = dimensions) (projectionRows rows dimensions t).
Proof.
  induction rows as [|rows IH]; intros t; [by split|]. cbn [projectionRows].
  pose proof (projectionRow_length dimensions t) as Hrow.
  destruct (projectionRow dimensions t) as [row t']. destruct (IH t') as [Hl Hf].
  cbn in *. split; [by rewrite Hl|]. by apply Forall_cons.
Qed.

(** The bucket a chunk goes to. *)
Lemma get_set_cases {V} (m : JsMap.t V) k k' v :
  JsMap.get k' (JsMap.set k v m) = if decide (k = k') then Some v else JsMap.get k' m.
Proof.
  destruct (decide (k = k')) as [->|Hne]; [apply get_set_eq|by apply get_set_ne].
Qed.

Section Buckets.
Variable dimensions : nat.
Variable projection : list (list float).

Lemma step_listed buckets chunk signature id :
  listed (addToBucket dimensions projection buckets chunk) signature id
  <-> listed buckets signature id
      \/ (length (RagChunk.embedding chunk) = dimensions
          /\ signature = signatureOf projection chunk /\ id = RagChunk.id chunk).
Proof.
  unfold listed, addToBucket, signatureOf. cbv zeta.
  destruct (bool_decide_reflect (length (RagChunk.embedding chunk) = dimensions)) as [Hd|Hd].
  2:{ split; [by left|]. intros [H|(H & _)]; done. }
  set (sg := Js.str _).
  destruct (JsMap.get sg buckets) as [existing|] eqn:Eg; setoid_rewrite get_set_cases.
  - split.
    + intros (ids & Hget & Hin). destruct (decide (sg = signature)) as [<-|Hne].
      * injection Hget as <-. apply elem_of_app in Hin as [Hin|Hin].
        -- left. by exists existing.
        -- apply list_elem_of_singleton in Hin. by right.
      * left. by exists ids.
    + intros [(ids & Hget & Hin)|(_ & -> & ->)].
      * destruct (decide (sg = signature)) as [<-|Hne]; [|by exists ids].
        rewrite Eg in Hget. injection Hget as <-. eexists. split; [done|].
        apply elem_of_app. by left.
      * rewrite decide_True by done. eexists. split; [done|].
        apply elem_of_app. right. by apply list_elem_of_singleton.
  - split.
    + intros (ids & Hget & Hin). destruct (decide (sg = signature)) as [<-|Hne].
      * injection Hget as <-. apply list_elem_of_singleton in Hin. by right.
      * left. by exists ids.
    + intros [(ids & Hget & Hin)|(_ & -> & ->)].
      * destruct (decide (sg = signature)) as [<-|Hne]; [congruence|by exists ids].
      * rewrite decide_True by done. eexists. split; [done|].
        by apply list_elem_of_singleton.
Qed.

Lemma foldl_step_listed (l : list RagChunk.t) : forall buckets signature id,
  listed (foldl (addToBucket dimensions projection) buckets l) signature id
  <-> listed buckets signature id
      \/ exists chunk, chunk ∈ l /\ length (RagChunk.embedding chunk) = dimensions
                       /\ signature = signatureOf projection chunk /\ id = RagChunk.id chunk.
Proof.
  induction l as [|chunk l IH]; intros buckets signature id; cbn [foldl].
  - split; [by left|]. intros [H|(c & Hc & _)]; [done|]. by apply elem_of_nil in Hc.
  - rewrite IH, step_listed. split.
    + intros [[H|H]|(c & Hc & H)]; [by left| |].
      * right. exists chunk. split; [apply list_elem_of_here|done].
      * right. exists c. split; [by apply list_elem_of_further|done].
    + intros [H|(c & Hc & H)]; [by left; left|].
      apply elem_of_cons in Hc as [->|Hc]; [by left; right|].
      right. by exists c.
Qed.

End Buckets.

(** X9.  An index that [build] returns has the dimension of the first
    chunk's embedding, which is not zero, and [projectionDim] rows of that
    many entries; an id is listed in a bucket exactly when it is the id of a
    chunk of the map whose embedding has the index's dimension, and the
    bucket is the one of that chunk's signature. *)
Theorem build_buckets (lsh : Lsh.t) (chunks : JsMap.t RagChunk.t) (index : LshAnnIndex.t) :
  build lsh chunks = Some index ->
  (0 < LshAnnIndex.dimensions index)%nat
  /\ head (map (fun c => length (RagChunk.embedding c)) (JsMap.values chunks))
     = Some (LshAnnIndex.dimensions index)
  /\ length (LshAnnIndex.projection index) = Z.to_nat (projectionDim lsh)
  /\ Forall (fun row => length row = LshAnnIndex.dimensions index)
       (LshAnnIndex.projection index)
  /\ forall signature id,
       (exists ids, JsMap.get signature (LshAnnIndex.buckets index) = Some ids /\ id ∈ ids)
       <-> exists chunk,
             chunk ∈ JsMap.values chunks
             /\ length (RagChunk.embedding chunk) = LshAnnIndex.dimensions index
             /\ signature
                = Js.str (signatureForEmbedding (RagChunk.embedding chunk)
                            (LshAnnIndex.projection index))
             /\ id = RagChunk.id chunk.
Proof.
  unfold build. destruct (JsMap.values chunks) as [|firstChunk rest] eqn:Ev; [done|].
  destruct (bool_decide_reflect (length (RagChunk.embedding firstChunk) = 0%nat)) as [|Hne];
    [done|].
  intros [= <-]. cbn [LshAnnIndex.dimensions LshAnnIndex.projection LshAnnIndex.buckets].
  destruct (projectionRows_shape (Z.to_nat (projectionDim lsh))
              (length (RagChunk.embedding firstChunk))
              (Z.of_nat (length (RagChunk.embedding firstChunk)) * 73856093
               + projectionDim lsh * 19349663)) as [Hl Hf].
  split_and!; [lia|done|exact Hl|exact Hf|].
  intros signature id. cbv zeta.
  pose proof (foldl_step_listed (length (RagChunk.embedding firstChunk))
           (createProjection (length (RagChunk.embedding firstChunk)) (projectionDim lsh))
           (firstChunk :: rest) JsMap.empty signature id) as H.
  unfold listed, signatureOf, addToBucket in H. cbv zeta in H. rewrite H.
  split; [|by right]. intros [(ids & Hget & _)|H']; done.
Qed.

End BuildFacts.

(** The index of the test suite's one chunk. *)
Lemma build_buckets_witness :
  (0 < LshAnnIndex.dimensions Tests.defaultIndex)%nat
  /\ head (map (fun c => length (RagChunk.embedding c)) (JsMap.values Tests.xChunks))
     = Some (LshAnnIndex.dimensions Tests.defaultIndex)
  /\ length (LshAnnIndex.projection Tests.defaultIndex)
     = Z.to_nat (Lsh.projectionDim Lsh.default)
  /\ Forall (fun row => length row = LshAnnIndex.dimensions Tests.defaultIndex)
       (LshAnnIndex.projection Tests.defaultIndex)
  /\ forall signature id,
       (exists ids, JsMap.get signature (LshAnnIndex.buckets Tests.defaultIndex) = Some ids
                    /\ id ∈ ids)
       <-> exists chunk,
             chunk ∈ JsMap.values Tests.xChunks
             /\ length (RagChunk.embedding chunk) = LshAnnIndex.dimensions Tests.defaultIndex
             /\ signature
                = Js.str (Lsh.signatureForEmbedding (RagChunk.embedding chunk)
                            (LshAnnIndex.projection Tests.defaultIndex))
             /\ id = RagChunk.id chunk.
Proof.
  apply (build_buckets Lsh.default Tests.xChunks Tests.defaultIndex).
  vm_compute. reflexivity.
Defined.

(** ** The rerank pool and the ranking *)

Section QueryFacts.
Import Lsh.

Lemma add_size i cands : (JsSet.size (JsSet.add i cands) <= S (JsSet.size cands))%nat.
Proof.
  unfold JsSet.add, JsSet.size. destruct (JsSet.has i cands); [lia|].
  rewrite length_app. cbn. lia.
Qed.

(** The candidate set never grows past [maxRerankCandidates], one id apart
    when that bound is below one. *)
Lemma addIds_size lsh ids : forall cands,
  Z.of_nat (JsSet.size cands) < Z.max 1 (maxRerankCandidates lsh) ->
  Z.of_nat (JsSet.size (addIds lsh ids cands)) <= Z.max 1 (maxRerankCandidates lsh).
Proof.
  induction ids as [|i ids IH]; intros cands Hc; cbn [addIds]; [lia|].
  pose proof (add_size i cands).
  destruct (Z.leb_spec (maxRerankCandidates lsh) (Z.of_nat (JsSet.size (JsSet.add i cands))));
    [lia|].
  apply IH. lia.
Qed.

Lemma gather_size lsh index querySignature nearby : forall cands,
  Z.of_nat (JsSet.size cands) < Z.max 1 (maxRerankCandidates lsh) ->
  Z.of_nat (JsSet.size (gather lsh index querySignature nearby cands))
  <= Z.max 1 (maxRerankCandidates lsh).
Proof.
  induction nearby as [|candidateSignature nearby IH]; intros cands Hc; cbn [gather]; [lia|].
  destruct (_ <? _); [by apply IH|].
  destruct (JsMap.get _ _) as [ids|]; [|by apply IH].
  pose proof (addIds_size lsh ids cands Hc).
  destruct (Z.leb_spec (maxRerankCandidates lsh) (Z.of_nat (JsSet.size (addIds lsh ids cands))));
    [done|].
  apply IH. lia.
Qed.

Lemma omap_length_le {A B} (f : A -> option B) (l : list A) :
  (length (omap f l) <= length l)%nat.
Proof. induction l as [|x l IH]; [done|]. cbn. destruct (f x); cbn; lia. Qed.

(** X10.  The pool [query] hands to the reranker holds chunks of the map
    only, and at most [max(1, maxRerankCandidates)] of them; it is returned
    only for a query embedding of the index's dimension. *)
Theorem query_pool_bounded (lsh : Lsh.t) (index : LshAnnIndex.t)
    (queryEmbedding : list float) (chunks : JsMap.t RagChunk.t) (pool : list RagChunk.t) :
  query lsh index queryEmbedding chunks = Some pool ->
  pool ⊆ JsMap.values chunks
  /\ Z.of_nat (length pool) <= Z.max 1 (maxRerankCandidates lsh)
  /\ length queryEmbedding = LshAnnIndex.dimensions index.
Proof.
  intros H. pose proof (query_pool _ _ _ _ _ H) as Hsub.
  apply query_Some in H as (Hdim & _ & ->). split_and!; [done| |done].
  etrans; [apply inj_le, omap_length_le|].
  apply gather_size. cbn. lia.
Qed.

(** A positive cosine similarity is one of two vectors of equal length. *)
Lemma cosineSimilarity_positive a b :
  PrimFloat.ltb 0 (cosineSimilarity a b) = true -> length a = length b /\ length a <> 0%nat.
Proof.
  unfold cosineSimilarity.
  destruct (bool_decide_reflect (length a = 0%nat)) as [|Ha]; [done|].
  destruct (bool_decide_reflect (length b = 0%nat)) as [|Hb]; [done|].
  destruct (bool_decide_reflect (length a = length b)) as [Hab|]; [done|done].
Qed.

Lemma slice_subseteq {A} (l : list A) a b : Js.slice l a b ⊆ l.
Proof.
  unfold Js.slice. cbv zeta. etrans; [apply subseteq_take|apply subseteq_drop].
Qed.

(** X11.  [rank] returns at most [topK] items; each pairs a candidate with
    its cosine similarity to the query, which is positive, so that no
    candidate whose embedding has another length than the query's is
    returned. *)
Theorem rank_positive_scores (candidates : list RagChunk.t) (queryEmbedding : list float)
    (topK : Z) :
  0 <= topK ->
  Z.of_nat (length (rank candidates queryEmbedding topK)) <= topK
  /\ Forall (fun item =>
               item.1 ∈ candidates
               /\ item.2 = cosineSimilarity queryEmbedding (RagChunk.embedding item.1)
               /\ PrimFloat.ltb 0 item.2 = true
               /\ length (RagChunk.embedding item.1) = length queryEmbedding)
       (rank candidates queryEmbedding topK).
Proof.
  intros HtopK. unfold rank. split.
  - etrans; [by apply slice_length_le|]. lia.
  - apply Forall_forall. intros item Hitem. apply slice_subseteq in Hitem.
    rewrite sortBy_Permutation in Hitem. apply list_elem_of_filter in Hitem as [Hpos Hitem].
    apply list_elem_of_fmap in Hitem as (c & -> & Hc). cbn [fst snd] in *.
    split_and!; [done|done|done|]. apply cosineSimilarity_positive in Hpos as [-> _]. done.
Qed.

End QueryFacts.

(** The query of the test suite on its two chunks. *)
Lemma query_pool_bounded_witness :
  VectorTest.pool ⊆ JsMap.values VectorTest.chunks
  /\ Z.of_nat (length VectorTest.pool) <= Z.max 1 (Lsh.maxRerankCandidates VectorTest.lsh)
  /\ length [1%float; 0%float; 0%float] = LshAnnIndex.dimensions VectorTest.index.
Proof.
  apply (query_pool_bounded VectorTest.lsh VectorTest.index [1%float; 0%float; 0%float]
           VectorTest.chunks VectorTest.pool).
  vm_compute. reflexivity.
Defined.

(** The ranking of the test suite: three candidates, the best three asked. *)
Lemma rank_positive_scores_witness :
  Z.of_nat (length (Lsh.rank VectorTest.candidates [1%float; 0%float] 3)) <= 3
  /\ Forall (fun item =>
               item.1 ∈ VectorTest.candidates
               /\ item.2 = cosineSimilarity [1%float; 0%float] (RagChunk.embedding item.1)
               /\ PrimFloat.ltb 0 item.2 = true
               /\ length (RagChunk.embedding item.1) = length [1%float; 0%float])
       (Lsh.rank VectorTest.candidates [1%float; 0%float] 3).
Proof. apply (rank_positive_scores VectorTest.candidates [1%float; 0%float] 3). lia. Defined.

(** ** Cosine similarity *)

Section CosineFacts.

Lemma SFmul_comm prec emax x y :
  SpecFloat.SFmul prec emax x y = SpecFloat.SFmul prec emax y x.
Proof.
  destruct x as [sx|sx| |sx mx ex], y as [sy|sy| |sy my ey]; cbn; try reflexivity;
    rewrite ?(Bool.xorb_comm sx sy); try reflexivity.
  by rewrite (Pos.mul_comm mx my), (Z.add_comm ex ey).
Qed.

(** The binary64 product does not depend on the order of its factors. *)
Lemma float_mul_comm x y : PrimFloat.mul x y = PrimFloat.mul y x.
Proof. apply Prim2SF_inj. rewrite !mul_spec. apply SFmul_comm. Qed.

Lemma cosineSums_swap a : forall b dot normA normB,
  cosineSums b a dot normB normA
  = (let '(d, x, y) := cosineSums a b dot normA normB in (d, y, x)).
Proof.
  induction a as [|x a IH]; intros [|y b] dot normA normB; cbn [cosineSums]; try done.
  rewrite IH. by rewrite (float_mul_comm y x).
Qed.

(** X12.  [cosineSimilarity] gives the same number, bit for bit, whichever
    of the two vectors comes first. *)
Theorem cosineSimilarity_sym (a b : list float) :
  cosineSimilarity a b = cosineSimilarity b a.
Proof.
  unfold cosineSimilarity.
  destruct (bool_decide_reflect (length a = 0%nat)) as [Ha|Ha];
    destruct (bool_decide_reflect (length b = 0%nat)) as [Hb|Hb]; cbn [orb]; try done.
  destruct (bool_decide_reflect (length a = length b)) as [Hab|Hab].
  - rewrite bool_decide_eq_true_2 by done. cbn [negb].
    rewrite (cosineSums_swap a b).
    destruct (cosineSums a b 0 0 0) as [[dot normA] normB].
    rewrite (float_mul_comm (PrimFloat.sqrt normB)).
    by destruct (PrimFloat.eqb normA 0), (PrimFloat.eqb normB 0).
  - by rewrite bool_decide_eq_false_2.
Qed.

End CosineFacts.

(** ** The searcher: query keys, and where matches come from *)

Section QueryKeyFacts.
Import Js.

Lemma toLowerChar_idem c : toLowerChar (toLowerChar c) = toLowerChar c.
Proof. destruct c as [[] [] [] [] [] [] [] []]; reflexivity. Qed.

Lemma isWhiteSpace_toLowerChar c : isWhiteSpace (toLowerChar c) = isWhiteSpace c.
Proof. destruct c as [[] [] [] [] [] [] [] []]; reflexivity. Qed.

Lemma toLowerCase_idem l : toLowerCase (toLowerCase l) = toLowerCase l.
Proof.
  unfold toLowerCase. rewrite map_map. apply map_ext. intros c. apply toLowerChar_idem.
Qed.

Lemma collapse_toLowerCase l : forall inRun,
  collapseWhiteSpace inRun (toLowerCase l) = toLowerCase (collapseWhiteSpace inRun l).
Proof.
  induction l as [|c t IH]; intros inRun; [done|]. cbn.
  rewrite isWhiteSpace_toLowerChar. destruct (isWhiteSpace c), inRun; cbn; by rewrite IH.
Qed.

Lemma collapse_idem l :
  (forall inRun, collapseWhiteSpace false (collapseWhiteSpace inRun l)
                 = collapseWhiteSpace inRun l)
  /\ collapseWhiteSpace true (collapseWhiteSpace true l) = collapseWhiteSpace true l.
Proof.
  induction l as [|c t [IH1 IH2]]; [done|]. split.
  - intros inRun. cbn. destruct (isWhiteSpace c) eqn:E.
    + destruct inRun; [apply IH1|]. cbn. by rewrite IH2.
    + cbn. by rewrite E, IH1.
  - cbn. destruct (isWhiteSpace c) eqn:E; [done|]. cbn. by rewrite E, IH1.
Qed.

Lemma collapse_snoc l c : forall inRun,
  isWhiteSpace c = false ->
  collapseWhiteSpace inRun (l ++ [c]) = collapseWhiteSpace inRun l ++ [c].
Proof.
  induction l as [|a l IH]; intros inRun Hc; cbn.
  - by rewrite Hc.
  - destruct (isWhiteSpace a), inRun; cbn; by rewrite IH.
Qed.

(** No white space at either end. *)
Lemma trimmed_trim l : trimmed (trim l).
Proof.
  split.
  - destruct (trim_head l) as [->|(c & t & -> & H)]; [done|]. by apply trimStart_fix.
  - unfold trim, trimEnd. rewrite rev_involutive. apply trimStart_idem.
Qed.

Lemma trim_trimmed l : trimmed l -> trim l = l.
Proof.
  intros [H1 H2]. unfold trim, trimEnd. by rewrite H1, H2, rev_involutive.
Qed.

Lemma trimStart_cons_inv c t : trimStart (c :: t) = c :: t -> isWhiteSpace c = false.
Proof.
  cbn. destruct (isWhiteSpace c); [|done]. intros H.
  pose proof (trimStart_length t) as Hl. rewrite H in Hl. cbn in Hl. lia.
Qed.

Lemma trimmed_toLowerCase l : trimmed l -> trimmed (toLowerCase l).
Proof.
  assert (G : forall l, trimStart l = l -> trimStart (toLowerCase l) = toLowerCase l).
  { intros [|c t] H; [done|]. apply trimStart_cons_inv in H.
    apply trimStart_fix. by rewrite isWhiteSpace_toLowerChar. }
  intros [H1 H2]. split; [by apply G|].
  unfold toLowerCase in *. rewrite <- map_rev. by apply G.
Qed.

Lemma trimmed_collapse l : trimmed l -> trimmed (collapseWhiteSpace false l).
Proof.
  intros [H1 H2]. split.
  - destruct l as [|c t]; [done|]. apply trimStart_cons_inv in H1. cbn. rewrite H1.
    by apply trimStart_fix.
  - destruct l as [|c t] using rev_ind; [done|]. clear IHt.
    rewrite rev_app_distr in H2. cbn in H2. apply trimStart_cons_inv in H2.
    rewrite collapse_snoc by done. rewrite rev_app_distr. cbn [rev app].
    by apply trimStart_fix.
Qed.

(** X13.  A query key is a fixed point of [normalizeQuery]: normalising a
    key again gives the same key. *)
Theorem normalizeQuery_idem (value : string) :
  CodebaseSearcher.normalizeQuery (CodebaseSearcher.normalizeQuery value)
  = CodebaseSearcher.normalizeQuery value.
Proof.
  unfold CodebaseSearcher.normalizeQuery, str, chars.
  rewrite list_ascii_of_string_of_list_ascii. f_equal.
  set (l := trim (list_ascii_of_string value)).
  rewrite trim_trimmed by apply trimmed_toLowerCase, trimmed_collapse, trimmed_trim.
  rewrite collapse_toLowerCase, (proj1 (collapse_idem l)). apply toLowerCase_idem.
Qed.

End QueryKeyFacts.

Section MatchFacts.
Import CodebaseSearcher.

Lemma searchPool_subseteq cache queryEmbedding :
  searchPool cache queryEmbedding ⊆ JsMap.values (FolderCache.chunks cache).
Proof.
  unfold searchPool. destruct (FolderCache.annIndex cache) as [index|]; [|done].
  destruct (Lsh.query _ _ _ _) as [pool|] eqn:E; [|done]. by apply query_pool in E.
Qed.

Lemma rankPool_chunks queryEmbedding pool item :
  item ∈ rankPool queryEmbedding pool -> chunk item ∈ pool.
Proof.
  unfold rankPool. rewrite sortBy_Permutation. intros H.
  apply list_elem_of_filter in H as [_ H]. by apply list_elem_of_fmap in H as (c & -> & Hc).
Qed.

Lemma materialize_fromFolder cache cr topK :
  0 <= topK -> fromFolder cache topK (materialize cache cr topK).
Proof.
  intros HtopK. unfold materialize. split.
  - etrans; [apply inj_le, omap_length_le|]. rewrite length_seq. lia.
  - apply Forall_forall. intros item H. apply list_elem_of_omap in H as (i & _ & H).
    destruct (chunkIds cr !! i) as [cid|]; [|done].
    destruct (JsMap.get cid (FolderCache.chunks cache)) as [c|] eqn:Eg; [|done].
    injection H as <-. cbn. apply get_Some_elem in Eg.
    by apply (list_elem_of_fmap_2 snd _ (cid, c)).
Qed.

Lemma computeRanked_fromFolder s embed now cache queryKey rawQuery topK ranked s' :
  0 <= topK ->
  computeRanked s embed now cache queryKey rawQuery topK = (inr ranked, s') ->
  fromFolder cache topK ranked.
Proof.
  intros HtopK. unfold computeRanked.
  destruct (getQueryEmbedding s embed now queryKey (Js.strTrim rawQuery))
    as [[err|[queryEmbedding|]] s2]; [done| |].
  - destruct (LruCache.set _ _ _ _) as [[|] rc]; [done|]. intros [= <- _]. split.
    + etrans; [by apply slice_length_le|]. lia.
    + apply Forall_forall. intros item H. do 2 apply slice_subseteq in H.
      apply rankPool_chunks in H. by apply searchPool_subseteq in H.
  - intros [= <- _]. split; [cbn; lia|done].
Qed.

Lemma getRankedChunks_fromFolder s embed now cache rawQuery topK ranked s' :
  0 <= topK ->
  getRankedChunks s embed now cache rawQuery topK = (inr ranked, s') ->
  fromFolder cache topK ranked.
Proof.
  intros HtopK. unfold getRankedChunks.
  destruct (bool_decide _).
  { intros [= <- _]. split; [cbn; lia|done]. }
  destruct (LruCache.get _ _ _) as [[cr|] rc].
  - destruct (cacheUsable cache cr topK).
    + intros [= <- _]. by apply materialize_fromFolder.
    + by apply computeRanked_fromFolder.
  - by apply computeRanked_fromFolder.
Qed.

(** X14.  A result of [search] lists at most [max(1, topK)] matches; each
    shows the file path and the content of a chunk held in the chunks map
    of the folder searched, and [totalChunks] is the size of that map. *)
Theorem search_matches_from_folder (p : Platform) (s : t)
    (embed : list string -> EmbedReply) (now : float) (cache : FolderCache.t)
    (query : string) (topKOption : option Z) (result : RagSearchResult) (s' : t) :
  search p s embed now cache query topKOption = (inr result, s') ->
  Z.of_nat (length (matches result)) <= Z.max 1 (default Defaults.TOP_K topKOption)
  /\ Forall (fun m => exists c, c ∈ JsMap.values (FolderCache.chunks cache)
                               /\ match_filePath m = RagChunk.filePath c
                               /\ match_content m = RagChunk.content c)
       (matches result)
  /\ result_totalChunks result = JsMap.size (FolderCache.chunks cache)
  /\ result_folderPath result = FolderCache.folderPath cache
  /\ result_query result = query.
Proof.
  unfold search. cbv zeta.
  destruct (_ || _).
  { intros [= <- _]. cbn. split_and!; [lia|done..]. }
  destruct (bool_decide _).
  { intros [= <- _]. cbn. split_and!; [lia|done..]. }
  destruct (getRankedChunks _ _ _ _ _ _) as [[err|ranked] s2] eqn:Er; [done|].
  intros [= <- _]. cbn [matches result_totalChunks result_folderPath result_query].
  apply getRankedChunks_fromFolder in Er as [Hlen Hall]; [|lia].
  split_and!; [by rewrite length_map| |done..].
  apply Forall_forall. intros m Hm. apply list_elem_of_fmap in Hm as (item & -> & Hitem).
  rewrite Forall_forall in Hall. exists (chunk item). split; [by apply Hall|done].
Qed.

End MatchFacts.

(** The query of the integration test, the best match asked for. *)
Lemma search_matches_from_folder_witness :
  exists result,
    (CodebaseSearcher.search
       {| CodebaseSearcher.startedAt := 0%float; CodebaseSearcher.finishedAt := 1%float |}
       CodebaseSearcher.create Scenario.embedQuery 0%float Scenario.folderA "alpha"
       (Some 1)).1 = inr result
    /\ Z.of_nat (length (CodebaseSearcher.matches result)) <= Z.max 1 (default Defaults.TOP_K (Some 1))
    /\ Forall (fun m => exists c, c ∈ JsMap.values (FolderCache.chunks Scenario.folderA)
                                 /\ CodebaseSearcher.match_filePath m = RagChunk.filePath c
                                 /\ CodebaseSearcher.match_content m = RagChunk.content c)
         (CodebaseSearcher.matches result)
    /\ CodebaseSearcher.result_totalChunks result = JsMap.size (FolderCache.chunks Scenario.folderA)
    /\ CodebaseSearcher.result_folderPath result = FolderCache.folderPath Scenario.folderA
    /\ CodebaseSearcher.result_query result = "alpha".
Proof.
  eexists. split; [vm_compute; reflexivity|].
  eapply (search_matches_from_folder
            {| CodebaseSearcher.startedAt := 0%float; CodebaseSearcher.finishedAt := 1%float |}
            CodebaseSearcher.create Scenario.embedQuery 0%float Scenario.folderA "alpha"
            (Some 1)).
  vm_compute. reflexivity.
Defined.

(** ** Storage: unreadable files, and clearing *)

Section StorageFacts.
Import Storage.

(** X15.  [loadFromDisk] gives empty maps and no [lastIndexedAt] when both
    files are missing or empty, and when either file does not parse or
    parses to [null], whatever the other file holds. *)
Theorem loadFromDisk_nothing_or_corrupt (disk : Disk) (folderPath : string) :
  (readOrEmpty disk (dbPath (getPaths folderPath)) = EmptyFile
   /\ readOrEmpty disk (indexPath (getPaths folderPath)) = EmptyFile)
  \/ readOrEmpty disk (dbPath (getPaths folderPath)) = Unparsable
  \/ readOrEmpty disk (dbPath (getPaths folderPath)) = JsonText JNull
  \/ readOrEmpty disk (indexPath (getPaths folderPath)) = Unparsable
  \/ readOrEmpty disk (indexPath (getPaths folderPath)) = JsonText JNull ->
  loadFromDisk disk folderPath = emptyResult.
Proof.
  unfold loadFromDisk. cbv zeta. intros [[-> ->]|[->|[->|[->| ->]]]]; try done.
  - by destruct (loadDb _).
  - by destruct (loadDb _).
Qed.

Lemma prefix_append p s : String.prefix p (p +:+ s) = true.
Proof.
  induction p as [|c p IH]; [by destruct s|]. change (String c p +:+ s) with (String c (p +:+ s)).
  cbn [String.prefix]. by destruct (ascii_dec c c).
Qed.

Lemma append_assoc (a b c : string) : (a +:+ b) +:+ c = a +:+ (b +:+ c).
Proof.
  induction a as [|x a IH]; [done|].
  change (String x ((a +:+ b) +:+ c) = String x (a +:+ (b +:+ c))). by rewrite IH.
Qed.

Lemma within_below dir name : within dir (dir +:+ "/" +:+ name).
Proof. right. by rewrite <- append_assoc, prefix_append. Qed.

Lemma clearStorage_lookup_below fs disk folderPath name :
  rm fs (ragDir (getPaths folderPath)) = None ->
  clearStorage fs disk folderPath !! (ragDir (getPaths folderPath) +:+ "/" +:+ name) = None.
Proof.
  intros Hrm. unfold clearStorage. cbv zeta. rewrite Hrm. apply map_lookup_filter_None. right.
  intros x _ H. cbn in H. apply H, within_below.
Qed.

Lemma loadFromDisk_clearStorage fs disk folderPath :
  rm fs (ragDir (getPaths folderPath)) = None ->
  loadFromDisk (clearStorage fs disk folderPath) folderPath = emptyResult.
Proof.
  intros Hrm. destruct (under_ragDir folderPath) as [Hdb Hix].
  unfold loadFromDisk, readOrEmpty. cbv zeta. rewrite Hdb, Hix.
  by rewrite !clearStorage_lookup_below.
Qed.

Lemma getDbSizeBytes_clearStorage byteLength fs disk folderPath :
  rm fs (ragDir (getPaths folderPath)) = None ->
  getDbSizeBytes byteLength (clearStorage fs disk folderPath) folderPath = 0%nat.
Proof.
  intros Hrm. destruct (under_ragDir folderPath) as [Hdb _]. unfold getDbSizeBytes.
  by rewrite Hdb, clearStorage_lookup_below.
Qed.

(** What lies outside the directory is as it was, whatever [rm] did. *)
Lemma clearStorage_outside fs disk folderPath path :
  ~ within (ragDir (getPaths folderPath)) path ->
  clearStorage fs disk folderPath !! path = disk !! path.
Proof.
  intros Hout. unfold clearStorage. cbv zeta.
  destruct (rm fs _) as [remains|]; destruct (disk !! path) as [f|] eqn:E.
  - apply map_lookup_filter_Some. split; [done|]. by left.
  - apply map_lookup_filter_None. by left.
  - by apply map_lookup_filter_Some.
  - apply map_lookup_filter_None. by left.
Qed.

(** What a failed [rm] left behind is still there, and nothing else of the
    directory. *)
Lemma clearStorage_remains fs disk folderPath remains path :
  rm fs (ragDir (getPaths folderPath)) = Some remains ->
  within (ragDir (getPaths folderPath)) path ->
  clearStorage fs disk folderPath !! path
  = if remains path then disk !! path else None.
Proof.
  intros Hrm Hin. unfold clearStorage. cbv zeta. rewrite Hrm.
  destruct (remains path) eqn:Er; [destruct (disk !! path) as [f|] eqn:E|].
  - apply map_lookup_filter_Some. split; [done|]. by right.
  - apply map_lookup_filter_None. by left.
  - apply map_lookup_filter_None. right. intros x _ [H|H]; cbn in H; [done|congruence].
Qed.

(** X16.  Once [clearStorage] has run with an [rm] that did not fail,
    [loadFromDisk] finds nothing for the folder and [getDbSizeBytes] is 0.
    Whatever [rm] did, the call returns, and the files that are neither the
    folder's [.rag-ts] directory nor below it are as they were; when [rm]
    failed, the failure is swallowed and the directory holds what [rm] left
    of it.  The directory is the one [path.join] names, a normalised path,
    and the disk is read under the paths the program opens files by. *)
Theorem clearStorage_leaves_nothing (byteLength : FileContent -> nat) (fs : FileSystem)
    (disk : Disk) (folderPath : string) :
  rm fs (ragDir (getPaths folderPath)) = None ->
  loadFromDisk (clearStorage fs disk folderPath) folderPath = emptyResult
  /\ getDbSizeBytes byteLength (clearStorage fs disk folderPath) folderPath = 0%nat
  /\ (forall path,
        within (ragDir (getPaths folderPath)) path ->
        clearStorage fs disk folderPath !! path = None)
  /\ (forall fs' path,
        ~ within (ragDir (getPaths folderPath)) path ->
        clearStorage fs' disk folderPath !! path = disk !! path)
  /\ (forall fs' remains path,
        rm fs' (ragDir (getPaths folderPath)) = Some remains ->
        within (ragDir (getPaths folderPath)) path ->
        clearStorage fs' disk folderPath !! path
        = if remains path then disk !! path else None).
Proof.
  intros Hrm. split; [by apply loadFromDisk_clearStorage|].
  split; [by apply getDbSizeBytes_clearStorage|]. split_and!.
  - intros path Hin. unfold clearStorage. cbv zeta. rewrite Hrm.
    apply map_lookup_filter_None. right. by intros x _ H.
  - intros fs' path. apply clearStorage_outside.
  - intros fs' remains path. apply clearStorage_remains.
Qed.

End StorageFacts.

(** The chunk file of the first indexing, made unreadable. *)
Lemma loadFromDisk_nothing_or_corrupt_witness :
  Storage.loadFromDisk
    (<[Storage.dbPath (Storage.getPaths "/root") := Unparsable]> Scenario.firstIndex.2)
    "/root"
  = Storage.emptyResult.
Proof.
  apply (loadFromDisk_nothing_or_corrupt
           (<[Storage.dbPath (Storage.getPaths "/root") := Unparsable]> Scenario.firstIndex.2)
           "/root").
  right. left. unfold Storage.readOrEmpty. by rewrite lookup_insert_eq.
Defined.

(** The disk of the first indexing, cleared on a file system that does not
    fail. *)
Lemma clearStorage_leaves_nothing_witness :
  Storage.loadFromDisk (Storage.clearStorage Storage.reliable Scenario.firstIndex.2 "/root")
    "/root"
  = Storage.emptyResult.
Proof.
  apply (clearStorage_leaves_nothing (fun _ => 0%nat) Storage.reliable Scenario.firstIndex.2
           "/root").
  reflexivity.
Defined.

(** ** Folder paths, extension lists and the folder table *)

Section PathFacts.
Import Indexer.

Lemma dropSlashes_idem l : dropSlashes (dropSlashes l) = dropSlashes l.
Proof.
  induction l as [|c t IH]; [done|]. cbn. destruct (Ascii.eqb c "/") eqn:E; [done|].
  cbn. by rewrite E.
Qed.

Lemma dropSlashes_sublist l : dropSlashes l `sublist_of` l.
Proof.
  induction l as [|c t IH]; [done|]. cbn. destruct (Ascii.eqb c "/"); [|done].
  by apply sublist_cons.
Qed.

Lemma elem_of_rev_iff {A} (x : A) (l : list A) : x ∈ rev l <-> x ∈ l.
Proof. rewrite !list_elem_of_In. symmetry. apply in_rev. Qed.

Lemma slashed_idem c : slashed (slashed c) = slashed c.
Proof.
  unfold slashed. destruct (Ascii.eqb c (ascii_of_nat 92)) eqn:E; [done|]. by rewrite E.
Qed.

Lemma map_fixed {A} (f : A -> A) (l : list A) : Forall (fun x => f x = x) l -> map f l = l.
Proof. induction 1 as [|x l Hx _ IH]; [done|]. cbn. by rewrite Hx, IH. Qed.

Lemma normalizeFolderPath_chars path :
  Js.chars (normalizeFolderPath path)
  = rev (dropSlashes (rev (map slashed (Js.chars path)))).
Proof. unfold normalizeFolderPath, Js.chars, Js.str. apply list_ascii_of_string_of_list_ascii. Qed.

(** X17.  [normalizeFolderPath] is idempotent, it gives the same path with
    and without a trailing slash, and with backslashes for slashes; its
    result holds no backslash and does not end in a slash. *)
Theorem normalizeFolderPath_canonical (path : string) :
  normalizeFolderPath (normalizeFolderPath path) = normalizeFolderPath path
  /\ normalizeFolderPath (path +:+ "/") = normalizeFolderPath path
  /\ normalizeFolderPath (Js.str (map slashed (Js.chars path))) = normalizeFolderPath path
  /\ (ascii_of_nat 92 ∉ Js.chars (normalizeFolderPath path))
  /\ last (Js.chars (normalizeFolderPath path)) <> Some "/"%char.
Proof.
  assert (Hfix : Forall (fun c => slashed c = c)
                   (rev (dropSlashes (rev (map slashed (Js.chars path)))))).
  { apply Forall_forall. intros c Hc. rewrite elem_of_rev_iff in Hc.
    apply (sublist_subseteq _ _ (dropSlashes_sublist _)) in Hc. rewrite elem_of_rev_iff in Hc.
    apply list_elem_of_fmap in Hc as (c' & -> & _). apply slashed_idem. }
  split_and!.
  - unfold normalizeFolderPath at 1. fold slashed. rewrite normalizeFolderPath_chars.
    rewrite (map_fixed _ _ Hfix), rev_involutive, dropSlashes_idem. done.
  - unfold normalizeFolderPath. fold slashed. rewrite chars_append, map_app, rev_app_distr. done.
  - unfold normalizeFolderPath. fold slashed. unfold Js.chars at 1, Js.str at 2.
    rewrite list_ascii_of_string_of_list_ascii.
    rewrite (map_fixed slashed (map slashed _)); [done|].
    apply Forall_forall. intros c Hc. apply list_elem_of_fmap in Hc as (c' & -> & _).
    apply slashed_idem.
  - rewrite normalizeFolderPath_chars. intros Hin. rewrite Forall_forall in Hfix.
    specialize (Hfix _ Hin). by vm_compute in Hfix.
  - rewrite normalizeFolderPath_chars.
    destruct (dropSlashes _) as [|c t] eqn:E; [done|]. cbn [rev]. rewrite last_snoc.
    intros [= ->].
    pose proof (dropSlashes_idem (rev (map slashed (Js.chars path)))) as Hid.
    rewrite E in Hid. cbn in Hid.
    pose proof (sublist_length _ _ (dropSlashes_sublist t)) as Hlen.
    rewrite Hid in Hlen. cbn in Hlen. lia.
Qed.

End PathFacts.

Section ListOptionFacts.
Import Indexer.

Lemma add_NoDup x s : NoDup s -> NoDup (JsSet.add x s).
Proof.
  intros H. unfold JsSet.add, JsSet.has. destruct (bool_decide_reflect (x ∈ s)); [done|].
  apply NoDup_app. split_and!; [done| |apply NoDup_singleton].
  intros y Hy Hy'. apply list_elem_of_singleton in Hy'. by subst.
Qed.

Lemma add_elem x y s : y ∈ JsSet.add x s <-> y ∈ s \/ y = x.
Proof.
  unfold JsSet.add, JsSet.has. destruct (bool_decide_reflect (x ∈ s)) as [Hin|Hin].
  - split; [by left|]. intros [H| ->]; done.
  - rewrite elem_of_app, list_elem_of_singleton. done.
Qed.

Lemma dedupe_spec l :
  NoDup (dedupe l) /\ forall x, x ∈ dedupe l <-> x ∈ l.
Proof.
  unfold dedupe, JsSet.ofList.
  assert (G : forall s, NoDup s ->
            NoDup (foldl (fun s x => JsSet.add x s) s l)
            /\ forall x, x ∈ foldl (fun s x => JsSet.add x s) s l <-> x ∈ s \/ x ∈ l).
  { induction l as [|a l IH]; intros s Hs; cbn [foldl].
    - split; [done|]. intros x. split; [by left|]. intros [H|H]; [done|].
      by apply elem_of_nil in H.
    - destruct (IH (JsSet.add a s) (add_NoDup a s Hs)) as [Hn He]. split; [done|].
      intros x. rewrite He, add_elem, elem_of_cons. tauto. }
  destruct (G [] (NoDup_nil_2)) as [Hn He]. split; [done|].
  intros x. rewrite He. split; [|by right]. intros [H|H]; [|done]. by apply elem_of_nil in H.
Qed.

(** X18.  The extension list [normalizeExtensions] returns holds no
    extension twice and each of its extensions starts with a dot; the
    folder list [normalizeFolders] returns for a list that is not empty
    holds no name twice and no empty name. *)
Theorem normalized_lists_shape (values : list string) :
  NoDup (normalizeExtensions values)
  /\ Forall (fun e => String.prefix "." e = true) (normalizeExtensions values)
  /\ (values = [] \/
      (NoDup (normalizeFolders values)
       /\ Forall (fun name => name <> "" /\ exists v, v ∈ values /\ name = Js.strTrim v)
            (normalizeFolders values))).
Proof.
  destruct values as [|v0 values].
  { split_and!; [|by vm_compute; repeat constructor|by left].
    apply (bool_decide_unpack _). by vm_compute. }
  unfold normalizeExtensions, normalizeFolders.
  set (vs := v0 :: values). split_and!.
  - apply dedupe_spec.
  - apply Forall_forall. intros e He. apply (proj1 (proj2 (dedupe_spec _) e)) in He.
    apply list_elem_of_fmap in He as (v & -> & _).
    destruct (String.prefix "." v) eqn:E; [done|]. by destruct v.
  - right. split; [apply dedupe_spec|]. apply Forall_forall. intros name H.
    apply (proj1 (proj2 (dedupe_spec _) name)) in H.
    apply list_elem_of_filter in H as [Hne H].
    apply list_elem_of_fmap in H as (v & -> & Hv). split; [done|]. by exists v.
Qed.

(** X19.  [clearFolder] forgets the folder: the cache a later call gets
    for the same path is a new one, whatever became of the directory; and
    when the [rm] of [clearStorage] did not fail, loading that cache finds
    no chunk, no file state and a file size of 0. *)
Theorem clearFolder_forgets (env : Env) (ix : Indexer.t) (d : Storage.Disk)
    (folderPath : string) (outputFolder storagePath : option string) :
  Storage.rm (fs env) (Storage.ragDir (Storage.getPaths (normalizeFolderPath folderPath)))
  = None ->
  let cleared := clearFolder env ix d folderPath outputFolder in
  let cache := (ensureLoaded env cleared.1 cleared.2 folderPath storagePath).1 in
  ensureCache cleared.1 folderPath = newCache (normalizeFolderPath folderPath)
  /\ FolderCache.chunks cache = []
  /\ FolderCache.fileStates cache = []
  /\ FolderCache.annIndex cache = None
  /\ FolderCache.indexRevision cache = 0%nat
  /\ RagStatus.totalChunks (FolderCache.status cache) = 0%nat
  /\ RagStatus.dbSizeBytes (FolderCache.status cache) = 0%nat
  /\ RagStatus.lastIndexedAt (FolderCache.status cache) = None.
Proof.
  intros Hrm. cbv zeta. unfold clearFolder, ensureLoaded. cbn [fst snd].
  assert (E : ensureCache {| caches := JsMap.delete (normalizeFolderPath folderPath) (caches ix) |}
                folderPath = newCache (normalizeFolderPath folderPath)).
  { unfold ensureCache. cbn [caches]. by rewrite get_delete_eq. }
  rewrite E. split; [done|].
  set (c1 := match storagePath with Some p => _ | None => _ end).
  assert (H1 : FolderCache.persistedLoaded c1 = false
               /\ FolderCache.folderPath c1 = normalizeFolderPath folderPath
               /\ FolderCache.indexRevision c1 = 0%nat
               /\ RagStatus.lastIndexedAt (FolderCache.status c1) = None).
  { subst c1. destruct storagePath as [p|]; [|done]. by destruct (bool_decide _). }
  destruct H1 as (Hp & Hf & Hr & Hl). unfold loadInto. rewrite Hp, Hf.
  rewrite loadFromDisk_clearStorage by done.
  cbn -[Storage.getDbSizeBytes Storage.clearStorage].
  rewrite Hf, getDbSizeBytes_clearStorage by done. done.
Qed.

End ListOptionFacts.

(** The folder of the first indexing, cleared on a file system that does
    not fail. *)
Lemma clearFolder_forgets_witness :
  FolderCache.chunks
    (Indexer.ensureLoaded (Scenario.envOf "/root" Scenario.tree)
       (Indexer.clearFolder (Scenario.envOf "/root" Scenario.tree) Scenario.firstIndex.1.2
          Scenario.firstIndex.2 "/root" None).1
       (Indexer.clearFolder (Scenario.envOf "/root" Scenario.tree) Scenario.firstIndex.1.2
          Scenario.firstIndex.2 "/root" None).2 "/root" None).1
  = [].
Proof.
  apply (clearFolder_forgets (Scenario.envOf "/root" Scenario.tree) Scenario.firstIndex.1.2
           Scenario.firstIndex.2 "/root" None None).
  reflexivity.
Defined.

(** ** Calls that complete *)

Section CompletedFacts.
Import Indexer.

(** A call completes through the scan, the processing of the candidates
    and the last stretch. *)
Lemma run_Ok env ix d folderPath options j :
  run env ix d folderPath options = (Ok tt, j) ->
  exists candidates changedIndex j3,
    scanned env (loaded env ix d folderPath options) options = inr candidates
    /\ abortedAfterScan options = false
    /\ process env options candidates
         {| cache := setStatus (patch (preparingPatch (length candidates)))
                       (loaded env ix d folderPath options);
            disk := d; tick := 2; embedCalls := 0 |}
       = (Ok changedIndex, j3)
    /\ finish env changedIndex j3 = (Ok tt, j).
Proof.
  intros Hrun. pose proof (run_cases env ix d folderPath options) as H. cbv zeta in H.
  destruct (scanned env _ options) as [e|candidates]; [congruence|].
  destruct (abortedAfterScan options); [congruence|].
  destruct (process env options candidates _) as [[ch|e|] j3] eqn:Ep; [|congruence..].
  exists candidates, ch, j3. split_and!; try done. congruence.
Qed.

#[local] Instance sameCounts_preorder : PreOrder sameCounts.
Proof.
  split; [by intros c|]. intros c1 c2 c3 (H1 & H2 & H3) (H1' & H2' & H3').
  unfold sameCounts. split_and!; congruence.
Qed.

Lemma deletionPass_status currentFiles c :
  FolderCache.status (deletionPass currentFiles c).1 = FolderCache.status c.
Proof.
  unfold deletionPass.
  assert (G : forall ks acc,
            FolderCache.status
              (foldl (fun acc existingFilePath =>
                        if bool_decide (existingFilePath ∈ currentFiles) then acc
                        else (dropFile existingFilePath acc.1, true)) acc ks).1
            = FolderCache.status acc.1).
  { induction ks as [|k ks IH]; intros acc; cbn [foldl]; [done|]. rewrite IH.
    by destruct (bool_decide _). }
  apply G.
Qed.

(** The content-hash pass counts every file once: as skipped, or in the
    list it returns. *)
Lemma hashPass_counts env files : forall j,
  match hashPass env files j with
  | (Ok filesToProcess, j') =>
      (RagStatus.skippedUnchanged (FolderCache.status (cache j')) + length filesToProcess
       = RagStatus.skippedUnchanged (FolderCache.status (cache j)) + length files)%nat
      /\ RagStatus.totalFiles (FolderCache.status (cache j'))
         = RagStatus.totalFiles (FolderCache.status (cache j))
  | _ => True
  end.
Proof.
  induction files as [|f files IH]; intros j; cbn [hashPass]; [done|].
  unfold bind at 1.
  assert (H : match hashCheck env f j with
              | (Ok r, j1) =>
                  (RagStatus.skippedUnchanged (FolderCache.status (cache j1))
                   + (match r with Some _ => 1 | None => 0 end)
                   = RagStatus.skippedUnchanged (FolderCache.status (cache j)) + 1)%nat
                  /\ RagStatus.totalFiles (FolderCache.status (cache j1))
                     = RagStatus.totalFiles (FolderCache.status (cache j))
              | _ => True
              end).
  { unfold hashCheck.
    cbv beta iota zeta delta [bind suspend lift getCache modifyCache ret throw cache fst snd].
    destruct (readFile env _) as [e|content]; [done|].
    destruct (JsMap.get _ _) as [previous|]; [|cbn; lia].
    destruct (_ && _); cbn; lia. }
  destruct (hashCheck env f j) as [[r|e|] j1]; [|done|done]. destruct H as [H1 H2].
  unfold bind at 1. specialize (IH j1).
  destruct (hashPass env files j1) as [[more|e|] j2]; [|done|done]. destruct IH as [H3 H4].
  cbn [ret length]. destruct r; cbn [length]; split; lia || congruence.
Qed.

(** The processing of the candidates counts each of them once. *)
Lemma process_counts env options candidates j :
  match process env options candidates j with
  | (Ok _, j') =>
      (RagStatus.skippedUnchanged (FolderCache.status (cache j'))
       + RagStatus.filesToEmbed (FolderCache.status (cache j'))
       = RagStatus.skippedUnchanged (FolderCache.status (cache j)) + length candidates)%nat
      /\ RagStatus.totalFiles (FolderCache.status (cache j'))
         = RagStatus.totalFiles (FolderCache.status (cache j))
  | _ => True
  end.
Proof.
  rewrite process_eq. unfold hashPhase, embedPhase. unfold bind at 1 2.
  set (c2 := (deletionPass (map CandidateFile.relativePath candidates) (cache j)).1).
  pose proof (hashPass_counts env (changedFiles c2 candidates) (afterDeletion candidates j))
    as Hh.
  destruct (hashPass env _ _) as [[fps|e|] j1]; [|done|done]. destruct Hh as [H1 H2].
  cbv beta iota zeta delta [bind patchStatus modifyCache ret fst snd].
  match goal with
  | |- context [runWithConcurrency ?e ?s ?b ?n fps ?j0] =>
      pose proof (runWithConcurrency_keeps sameCounts (map tp_file fps)
                    ltac:(by intros; split_and!) e s b n fps
                    ltac:(apply Forall_forall; intros p Hp; by apply list_elem_of_fmap_2) j0)
        as Hk;
      destruct (runWithConcurrency e s b n fps j0) as [[[]|e'|] j2]; [|done|done]
  end.
  destruct Hk as (K1 & K2 & K3). cbn [snd cache setStatus FolderCache.status patch
    toEmbedPatch p_totalFiles p_filesToEmbed p_skippedUnchanged default from_option id
    RagStatus.totalFiles RagStatus.filesToEmbed RagStatus.skippedUnchanged] in K1, K2, K3.
  rewrite K1, K2, K3.
  unfold afterDeletion in H1, H2. cbn [cache] in H1, H2. fold c2 in H1, H2.
  assert (Hc2 : FolderCache.status c2 = FolderCache.status (cache j))
    by apply deletionPass_status.
  cbn [addSkipped setStatus FolderCache.status patch skippedPatch p_totalFiles
       p_skippedUnchanged default from_option id RagStatus.totalFiles
       RagStatus.skippedUnchanged] in H1, H2.
  rewrite Hc2 in H1, H2.
  assert (Hlen : (length (changedFiles c2 candidates) <= length candidates)%nat)
    by apply length_filter.
  split; [lia|congruence].
Qed.

(** X20.  The status of a call that completed: the phase is "ready",
    [totalFiles] is the number of files the scan listed, every one of them
    is counted either in [skippedUnchanged] or in [filesToEmbed], and
    [totalChunks] is the size of the chunks map. *)
Theorem completed_index_counts env ix d folderPath options j candidates :
  run env ix d folderPath options = (Ok tt, j) ->
  scanned env (loaded env ix d folderPath options) options = inr candidates ->
  RagStatus.phase (FolderCache.status (cache j)) = PhaseReady
  /\ RagStatus.totalFiles (FolderCache.status (cache j)) = length candidates
  /\ (RagStatus.skippedUnchanged (FolderCache.status (cache j))
      + RagStatus.filesToEmbed (FolderCache.status (cache j)) = length candidates)%nat
  /\ RagStatus.totalChunks (FolderCache.status (cache j))
     = JsMap.size (FolderCache.chunks (cache j))
  /\ RagStatus.fileChangeDrift (FolderCache.status (cache j)) = 0%nat.
Proof.
  intros Hrun Hscan.
  destruct (run_Ok _ _ _ _ _ _ Hrun) as (cands & ch & j3 & Hscan' & _ & Hp & Hf).
  rewrite Hscan in Hscan'. injection Hscan' as <-.
  match type of Hp with
  | process _ _ _ ?j2 = _ => pose proof (process_counts env options candidates j2) as Hc
  end.
  rewrite Hp in Hc. destruct Hc as [Hc1 Hc2]. cbn in Hc1, Hc2.
  destruct (finish_spec env ch j3) as (j' & Hf' & H1 & H2 & H3 & H4 & _).
  rewrite Hf in Hf'. injection Hf' as _ <-.
  destruct (finish_status env ch j3) as (S1 & S2 & _). rewrite Hf in S1, S2.
  split_and!; [done|congruence|lia|exact S1|exact S2].
Qed.

#[local] Instance sameAnnIndex_preorder : PreOrder sameAnnIndex.
Proof. split; [by intros c|]. intros c1 c2 c3 H1 H2. unfold sameAnnIndex in *. congruence. Qed.

Lemma process_annIndex env options candidates :
  keeps (onCache sameAnnIndex) (process env options candidates).
Proof. apply (process_keeps sameAnnIndex); unfold sameAnnIndex; intros; reflexivity. Qed.

Lemma loaded_annIndex env ix d folderPath options :
  (FolderCache.persistedLoaded (ensureCache ix folderPath) = true ->
   annIndexFresh (ensureCache ix folderPath)) ->
  annIndexFresh (loaded env ix d folderPath options).
Proof.
  intros H. unfold loaded, loadInto, annIndexFresh in *.
  change (FolderCache.persistedLoaded (configure options (ensureCache ix folderPath)))
    with (FolderCache.persistedLoaded (ensureCache ix folderPath)).
  destruct (FolderCache.persistedLoaded (ensureCache ix folderPath)); [by apply H|].
  cbv zeta. destruct (Storage.lastIndexedAt _) as [t|]; [destruct (truthyNumber t)|];
    reflexivity.
Qed.

(** X21.  After a call that completed, the ANN index of the folder is the
    one [build] makes of the folder's chunks map, provided this held of a
    cache that was loaded before the call. *)
Theorem completed_index_annIndex env ix d folderPath options j :
  run env ix d folderPath options = (Ok tt, j) ->
  (FolderCache.persistedLoaded (ensureCache ix folderPath) = true ->
   annIndexFresh (ensureCache ix folderPath)) ->
  FolderCache.annIndex (cache j) = Lsh.build Lsh.default (FolderCache.chunks (cache j)).
Proof.
  intros Hrun Hfresh.
  destruct (run_Ok _ _ _ _ _ _ Hrun) as (candidates & ch & j3 & _ & _ & Hp & Hf).
  destruct (finish_spec env ch j3) as (j' & Hf' & _ & _ & _ & _ & Hch & _).
  rewrite Hf in Hf'. injection Hf' as _ <-.
  destruct (finish_status env ch j3) as (_ & _ & Hann & _). rewrite Hf in Hann.
  cbn [snd] in Hann. rewrite Hann, Hch. destruct ch; [reflexivity|].
  match type of Hp with
  | process _ _ _ ?j2 = _ =>
      pose proof (process_annIndex env options candidates j2) as Ha;
      pose proof (process_chunks env options candidates j2) as Hc
  end.
  rewrite Hp in Ha, Hc. unfold onCache, sameAnnIndex in Ha. cbn [snd cache] in Ha.
  specialize (Hc eq_refl). cbn [cache] in Hc.
  rewrite Ha, Hc. apply (loaded_annIndex env ix d folderPath options Hfresh).
Qed.

End CompletedFacts.

(** The first indexing of the two Markdown files, by a new indexer. *)
Lemma completed_index_annIndex_witness :
  let j := (Indexer.run (Scenario.envOf "/root" Scenario.tree) Indexer.create ∅ "/root/"
              Scenario.markdownOnly).2 in
  FolderCache.annIndex (Indexer.cache j)
  = Lsh.build Lsh.default (FolderCache.chunks (Indexer.cache j)).
Proof.
  cbv zeta.
  apply (completed_index_annIndex (Scenario.envOf "/root" Scenario.tree) Indexer.create ∅
           "/root/" Scenario.markdownOnly).
  - vm_compute. reflexivity.
  - vm_compute. discriminate.
Defined.

(** The first indexing of the two Markdown files. *)
Lemma completed_index_counts_witness :
  let j := (Indexer.run (Scenario.envOf "/root" Scenario.tree) Indexer.create ∅ "/root/"
              Scenario.markdownOnly).2 in
  RagStatus.phase (FolderCache.status (Indexer.cache j)) = PhaseReady
  /\ RagStatus.totalFiles (FolderCache.status (Indexer.cache j))
     = length (map (Scenario.candidateOf "/root") Scenario.tree)
  /\ (RagStatus.skippedUnchanged (FolderCache.status (Indexer.cache j))
      + RagStatus.filesToEmbed (FolderCache.status (Indexer.cache j))
      = length (map (Scenario.candidateOf "/root") Scenario.tree))%nat
  /\ RagStatus.totalChunks (FolderCache.status (Indexer.cache j))
     = JsMap.size (FolderCache.chunks (Indexer.cache j))
  /\ RagStatus.fileChangeDrift (FolderCache.status (Indexer.cache j)) = 0%nat.
Proof.
  cbv zeta.
  apply (completed_index_counts (Scenario.envOf "/root" Scenario.tree) Indexer.create ∅
           "/root/" Scenario.markdownOnly _ (map (Scenario.candidateOf "/root") Scenario.tree)).
  - vm_compute. reflexivity.
  - vm_compute. reflexivity.
Defined.

(** ** Every selected file is embedded, under every schedule *)

Section ProgressFacts.
Import Indexer.

Lemma batchLoop_step env sig b items n r p crs i vectors j r' j' :
  itemOf r = Some p ->
  batchLoop env sig b p crs i vectors j = (Ok r', j') ->
  runnerStep items n r (cache j) n r' (cache j').
Proof.
  intros Hr. unfold batchLoop. cbv zeta. destruct (PrimFloat.ltb _ _).
  - unfold bind at 1. unfold checkSignal.
    destruct sig as [s|]; [destruct (abortedAt s <=? tick j)%nat; [done|]|];
      cbv beta iota zeta delta [bind callEmbed ret cache fst snd]; intros [= <- <-];
      cbn [cache]; by apply (step_await items n r _ p).
  - cbv beta iota zeta delta [bind modifyCache ret cache fst snd]. intros [= <- <-].
    cbn [cache]. by apply step_commit.
Qed.

(** A resumption that does not throw is one of the steps. *)
Lemma resume_step env sig b items n r j st j' :
  resume env sig b items n r j = (Ok st, j') ->
  runnerStep items n r (cache j) st.1 st.2 (cache j').
Proof.
  destruct r as [|p|p crs i vectors reply|]; cbn [resume].
  - unfold bind at 1. unfold checkSignal at 1.
    assert (G : match items !! n with
                | Some p => checkSignal sig;;; ret (S n, Chunking p)
                | None => ret (S n, Returned)
                end j = (Ok st, j') ->
                runnerStep items n LoopHead (cache j) st.1 st.2 (cache j')).
    { destruct (items !! n) as [p|] eqn:E.
      - unfold bind, checkSignal.
        destruct sig as [s|]; [destruct (abortedAt s <=? tick j)%nat; [done|]|];
          intros [= <- <-]; by apply step_take.
      - intros [= <- <-]. by apply step_return. }
    destruct sig as [s|]; [destruct (abortedAt s <=? tick j)%nat; [done|]|]; exact G.
  - unfold bind at 1.
    destruct (batchLoop _ _ _ _ _ _ _ j) as [[r'|e|] j1] eqn:Eb; [|done|done].
    intros [= <- <-]. by eapply batchLoop_step.
  - unfold bind at 1. destruct reply as [e|embedded]; [done|]. cbn [lift ret].
    unfold bind at 1.
    destruct (batchLoop _ _ _ _ _ _ _ j) as [[r'|e|] j1] eqn:Eb; [|done|done].
    intros [= <- <-]. by eapply batchLoop_step.
  - intros [= <- <-]. apply step_idle.
Qed.

Lemma runWithConcurrency_eq env sig b concurrency items :
  items <> [] ->
  runWithConcurrency env sig b concurrency items
  = (st <- startRunners env sig b items
             (runnerCount concurrency (length items)) 0 ;;
     runScheduled env sig b items (schedule env) st.1 st.2).
Proof. by destruct items. Qed.

(** A [concurrency] that is a number starts a runner when there is an
    item; NaN starts none. *)
Lemma runnerCount_pos concurrency length :
  is_nan concurrency = false -> (0 < length)%nat ->
  (1 <= runnerCount concurrency length)%nat.
Proof. intros H Hl. unfold runnerCount. rewrite H. lia. Qed.

Lemma runnerCount_nan concurrency length :
  is_nan concurrency = true -> runnerCount concurrency length = 0%nat.
Proof. intros H. unfold runnerCount. by rewrite H. Qed.

(** With no runner the call returns at once, the job as it was. *)
Lemma runWithConcurrency_nan env sig b concurrency items j :
  is_nan concurrency = true ->
  runWithConcurrency env sig b concurrency items j = (Ok tt, j).
Proof.
  intros H. destruct items as [|p items]; [done|].
  unfold runWithConcurrency. rewrite runnerCount_nan by done.
  unfold bind. cbn [startRunners ret fst snd]. by destruct (schedule env).
Qed.

(** An invariant of the shared counter, the runners and the cache that
    every step keeps holds when the pool has run to its end. *)
Section Invariant.
Context (items : list ToProcess).
Context (Inv : nat -> list Runner -> FolderCache.t -> Prop).
Hypothesis Inv_step :
  forall n runners k r c n' r' c',
    Inv n runners c -> runners !! k = Some r ->
    runnerStep items n r c n' r' c' ->
    Inv n' (<[k := r']> runners) c'.
Hypothesis Inv_start :
  forall n runners c, Inv n runners c -> Inv n (runners ++ [LoopHead]) c.

Lemma startRunners_Inv env sig b count : forall n started j n' runners j',
  Inv n started (cache j) ->
  startRunners env sig b items count n j = (Ok (n', runners), j') ->
  Inv n' (started ++ runners) (cache j') /\ length runners = count.
Proof.
  induction count as [|count IH]; intros n started j n' runners j' HI; cbn [startRunners].
  - intros [= <- <- <-]. by rewrite app_nil_r.
  - unfold bind at 1.
    destruct (resume env sig b items n LoopHead j) as [[st|e|] j1] eqn:Er; [|done|done].
    unfold bind at 1.
    destruct (startRunners env sig b items count st.1 j1) as [[rest|e|] j2] eqn:Es;
      [|done|done].
    intros [= <- <- <-]. apply resume_step in Er.
    assert (HI1 : Inv st.1 (started ++ [st.2]) (cache j1)).
    { pose proof (Inv_step n (started ++ [LoopHead]) (length started) LoopHead (cache j)
                    st.1 st.2 (cache j1) (Inv_start _ _ _ HI)) as H.
      rewrite insert_app_r_alt, Nat.sub_diag in H by lia. apply H; [|done].
      by rewrite lookup_app_r, Nat.sub_diag by lia. }
    destruct rest as [n2 rs]. destruct (IH st.1 (started ++ [st.2]) j1 n2 rs j2 HI1 Es)
      as [HI2 Hlen].
    cbn [fst snd]. rewrite <- app_assoc in HI2. cbn [app] in HI2. split; [done|].
    cbn. by rewrite Hlen.
Qed.

Lemma runScheduled_Inv env sig b schedule : forall n runners j j',
  Inv n runners (cache j) ->
  runScheduled env sig b items schedule n runners j = (Ok tt, j') ->
  exists n' runners',
    Inv n' runners' (cache j') /\ forallb isReturned runners' = true
    /\ length runners' = length runners.
Proof.
  induction schedule as [|k later IH]; intros n runners j j' HI; cbn [runScheduled].
  - destruct (forallb isReturned runners) eqn:E; [|done].
    intros [= <-]. by exists n, runners.
  - destruct (forallb isReturned runners) eqn:E.
    { intros [= <-]. by exists n, runners. }
    destruct (runners !! k) as [r|] eqn:Ek; [|by apply IH].
    destruct (isReturned r); [by apply IH|].
    unfold bind at 1. cbn [suspend].
    unfold bind at 1.
    destruct (resume env sig b items n r _) as [[st|e|] j1] eqn:Er; [|done|done].
    intros Hrun. apply resume_step in Er. cbn [cache] in Er.
    destruct (IH st.1 (<[k := st.2]> runners) j1 j'
                (Inv_step _ _ _ _ _ _ _ _ HI Ek Er) Hrun) as (n' & rs' & H1 & H2 & H3).
    exists n', rs'. split_and!; [done|done|]. by rewrite H3, length_insert.
Qed.

Lemma runWithConcurrency_Inv env sig b concurrency j j' :
  is_nan concurrency = false ->
  items <> [] ->
  Inv 0 [] (cache j) ->
  runWithConcurrency env sig b concurrency items j = (Ok tt, j') ->
  exists n' runners',
    Inv n' runners' (cache j') /\ forallb isReturned runners' = true /\ runners' <> [].
Proof.
  intros Hnan Hne HI. rewrite runWithConcurrency_eq by done. unfold bind at 1.
  destruct (startRunners _ _ _ _ _ _ j) as [[[n1 rs]|e|] j1] eqn:Es; [|done|done].
  cbn [fst snd]. intros Hrun.
  destruct (startRunners_Inv _ _ _ _ _ [] _ _ _ _ HI Es) as [HI1 Hlen]. cbn [app] in HI1.
  destruct (runScheduled_Inv _ _ _ _ _ _ _ _ HI1 Hrun) as (n' & rs' & H1 & H2 & H3).
  exists n', rs'. split_and!; [done|done|]. intros ->. cbn in H3.
  assert (length items <> 0%nat) by (by intros ?%nil_length_inv).
  pose proof (runnerCount_pos concurrency (length items) Hnan). lia.
Qed.

End Invariant.

Lemma elem_of_insert_inv {A} (l : list A) k x y :
  y ∈ <[k := x]> l -> y = x \/ y ∈ l.
Proof.
  intros H. apply list_elem_of_lookup in H as [i Hi].
  apply list_lookup_insert_Some in Hi as [(_ & -> & _)|[_ Hi]]; [by left|].
  right. by eapply list_elem_of_lookup_2.
Qed.

Lemma elem_of_insert_other {A} (l : list A) k x y z :
  l !! k = Some z -> y ∈ l -> y <> z -> y ∈ <[k := x]> l.
Proof.
  intros Hk Hy Hne. apply list_elem_of_lookup in Hy as [i Hi].
  apply list_elem_of_lookup. exists i. rewrite list_lookup_insert_ne; [done|].
  intros ->. congruence.
Qed.

Lemma working_insert runners k r r' :
  runners !! k = Some r ->
  (working (<[k := r']> runners) + length (omap itemOf [r])
   = working runners + length (omap itemOf [r']))%nat.
Proof.
  intros Hk. unfold working.
  rewrite <- (take_drop_middle runners k r Hk) at 2.
  rewrite insert_take_drop by (by eapply lookup_lt_Some).
  rewrite !omap_app, !length_app.
  change (r' :: drop (S k) runners) with ([r'] ++ drop (S k) runners).
  change (r :: drop (S k) runners) with ([r] ++ drop (S k) runners).
  rewrite !omap_app, !length_app. lia.
Qed.

Lemma countInv_step items n runners k r c n' r' c' :
  countInv items n runners c -> runners !! k = Some r ->
  runnerStep items n r c n' r' c' ->
  countInv items n' (<[k := r']> runners) c'.
Proof.
  intros [Hc Hr] Hk Hstep. pose proof (working_insert runners k r r' Hk) as Hw.
  assert (Hret : forall x n2, (n <= n2)%nat -> x ∈ <[k := r']> runners -> isReturned x = true ->
                   (isReturned r' = true -> (length items <= n2)%nat) ->
                   (length items <= n2)%nat).
  { intros x n2 Hn Hx Hxr Hr'. apply elem_of_insert_inv in Hx as [->|Hx]; [by apply Hr'|].
    specialize (Hr x Hx Hxr). lia. }
  destruct Hstep as [n p c Hp|n c Hp|n r r' p c H1 H2|n r p crs vs c H1|n c].
  - apply lookup_lt_Some in Hp. split.
    + cbn in Hw. lia.
    + intros x Hx Hxr. apply (Hret x (S n)); [lia|done|done|done].
  - apply lookup_ge_None in Hp. split.
    + cbn in Hw. lia.
    + intros x Hx Hxr. apply (Hret x (S n)); [lia|done|done|lia].
  - split.
    + cbn in Hw. rewrite H1, H2 in Hw. lia.
    + intros x Hx Hxr. apply (Hret x n); [lia|done|done|by destruct r'].
  - split.
    + cbn in Hw. rewrite H1 in Hw. cbn in Hw. unfold embeddedFiles in *. cbn. lia.
    + intros x Hx Hxr. apply (Hret x n); [lia|done|done|done].
  - split.
    + cbn in Hw. lia.
    + intros x Hx Hxr. apply (Hret x n); [lia|done|done|].
      intros _. apply (Hr Returned); [by eapply list_elem_of_lookup_2|done].
Qed.

Lemma countInv_start items n runners c :
  countInv items n runners c -> countInv items n (runners ++ [LoopHead]) c.
Proof.
  intros [Hc Hr]. split.
  - unfold working in *. rewrite omap_app, length_app. cbn. lia.
  - intros r Hin Hret. apply elem_of_app in Hin as [Hin|Hin]; [by apply (Hr r)|].
    apply list_elem_of_singleton in Hin. by subst.
Qed.

Lemma working_returned runners : forallb isReturned runners = true -> working runners = 0%nat.
Proof.
  unfold working. induction runners as [|r rs IH]; [done|]. cbn.
  destruct r; cbn; done.
Qed.

(** When the pool has run to its end, [embeddedFiles] has grown by the
    number of items. *)
Lemma runWithConcurrency_embeddedFiles env sig b concurrency items j j' :
  is_nan concurrency = false ->
  embeddedFiles (cache j) = 0%nat ->
  runWithConcurrency env sig b concurrency items j = (Ok tt, j') ->
  embeddedFiles (cache j') = length items.
Proof.
  intros Hnan H0 Hrun. destruct (decide (items = [])) as [->|Hne].
  { cbn in Hrun. injection Hrun as <-. done. }
  destruct (runWithConcurrency_Inv items (countInv items) (countInv_step items)
              (countInv_start items) env sig b concurrency j j' Hnan Hne)
    as (n & rs & [Hc Hr] & Hall & Hrs); [|done|].
  { split; [|by intros r Hr%elem_of_nil]. cbn. lia. }
  rewrite (working_returned rs Hall) in Hc.
  destruct rs as [|r rs]; [done|]. cbn in Hall. apply andb_prop in Hall as [Hret _].
  specialize (Hr r ltac:(apply list_elem_of_here) Hret). lia.
Qed.

(** X22.  After a call that completed with a [concurrency] that is a
    number, [embeddedFiles] equals [filesToEmbed]: every file selected for
    embedding has been committed, once, in whatever order the runtime
    resumed the runners.  With [concurrency: NaN] no runner is started: the
    call completes all the same and [embeddedFiles] is 0, whatever
    [filesToEmbed] says. *)
Theorem completed_index_embeds_every_file env ix d folderPath options j :
  run env ix d folderPath options = (Ok tt, j) ->
  RagStatus.embeddedFiles (FolderCache.status (cache j))
  = if is_nan (default Defaults.FILE_EMBED_CONCURRENCY (concurrency options)) then 0%nat
    else RagStatus.filesToEmbed (FolderCache.status (cache j)).
Proof.
  intros Hrun.
  destruct (run_Ok _ _ _ _ _ _ Hrun) as (candidates & ch & j3 & _ & _ & Hp & Hf).
  assert (H3 : RagStatus.embeddedFiles (FolderCache.status (cache j3))
               = if is_nan (default Defaults.FILE_EMBED_CONCURRENCY (concurrency options))
                 then 0%nat
                 else RagStatus.filesToEmbed (FolderCache.status (cache j3))).
  { revert Hp. rewrite process_eq. unfold hashPhase, embedPhase. unfold bind at 1 2.
    destruct (hashPass env _ _) as [[fps|e|] j1]; [|done|done].
    cbv beta iota zeta delta [bind patchStatus modifyCache ret fst snd].
    destruct (is_nan _) eqn:Hnan.
    - rewrite runWithConcurrency_nan by done. intros [= _ <-]. reflexivity.
    - match goal with
      | |- context [runWithConcurrency ?e ?s ?b ?n fps ?j0] =>
          pose proof (runWithConcurrency_embeddedFiles e s b n fps j0) as He;
          pose proof (runWithConcurrency_filesToEmbed e s b n fps j0) as Hk;
          destruct (runWithConcurrency e s b n fps j0) as [[[]|e'|] j2]; [|done|done]
      end.
      intros [= _ <-]. specialize (He j2 Hnan eq_refl eq_refl). unfold embeddedFiles in He.
      unfold onCache, sameFilesToEmbed in Hk. cbn in Hk. rewrite He, Hk. done. }
  destruct (finish_spec env ch j3) as (j' & Hf' & _ & _ & H2 & _).
  rewrite Hf in Hf'. injection Hf' as _ <-. rewrite H2.
  destruct (finish_status env ch j3) as (_ & _ & _ & _ & _ & He & _). rewrite Hf in He. cbn [snd] in He. by rewrite He.
Qed.

End ProgressFacts.

(** The first indexing of the two Markdown files, two runners taking turns. *)
Lemma completed_index_embeds_every_file_witness :
  let j := (Indexer.run (Scenario.envOf "/root" Scenario.tree) Indexer.create ∅ "/root/"
              Scenario.markdownOnly).2 in
  RagStatus.embeddedFiles (FolderCache.status (Indexer.cache j))
  = RagStatus.filesToEmbed (FolderCache.status (Indexer.cache j)).
Proof.
  cbv zeta.
  apply (completed_index_embeds_every_file (Scenario.envOf "/root" Scenario.tree)
           Indexer.create ∅ "/root/" Scenario.markdownOnly).
  vm_compute. reflexivity.
Defined.

(** ** After a call that completed, the file states match the scan *)

Section SettledFacts.
Import Indexer.

Context (candidates : list CandidateFile.t).
Hypothesis paths_NoDup : NoDup (map CandidateFile.relativePath candidates).
Hypothesis files_numbered : Forall numbered candidates.

Lemma same_path_same_file f g :
  f ∈ candidates -> g ∈ candidates ->
  CandidateFile.relativePath f = CandidateFile.relativePath g -> f = g.
Proof.
  clear files_numbered. induction candidates as [|x l IH]; intros Hf Hg Hp.
  { by apply elem_of_nil in Hf. }
  cbn in paths_NoDup. apply NoDup_cons in paths_NoDup as [Hx Hl].
  apply elem_of_cons in Hf as [->|Hf]; apply elem_of_cons in Hg as [->|Hg]; [done| | |by apply IH].
  - exfalso. apply Hx. rewrite Hp. by apply list_elem_of_fmap_2.
  - exfalso. apply Hx. rewrite <- Hp. by apply list_elem_of_fmap_2.
Qed.

#[local] Instance staysSettled_preorder file : PreOrder (staysSettled file).
Proof. split; [by intros c H|]. intros c1 c2 c3 H1 H2 H. by apply H2, H1. Qed.

(** Writing the state of a candidate settles it and unsettles no other. *)
Lemma set_state_settles file g st c c' :
  file ∈ candidates -> g ∈ candidates ->
  RagFileState.modifiedAt st = CandidateFile.modifiedAt g ->
  RagFileState.size st = CandidateFile.size g ->
  FolderCache.fileStates c'
  = JsMap.set (CandidateFile.relativePath g) st (FolderCache.fileStates c) ->
  (settled c' g) /\ staysSettled file c c'.
Proof.
  intros Hfile Hg Hm Hs Hfs.
  assert (Hg' : settled c' g).
  { unfold settled, metadataUnchanged. rewrite Hfs, get_set_eq, Hm, Hs.
    rewrite Forall_forall in files_numbered. destruct (files_numbered g Hg) as [-> ->]. done. }
  split; [done|]. intros H.
  destruct (decide (CandidateFile.relativePath g = CandidateFile.relativePath file)) as [E|E].
  - by rewrite <- (same_path_same_file g file Hg Hfile E).
  - unfold settled, metadataUnchanged in *. by rewrite Hfs, get_set_ne.
Qed.

Lemma commitFile_settles file p crs vs c :
  file ∈ candidates -> tp_file p ∈ candidates ->
  settled (commitFile p crs vs c) (tp_file p) /\ staysSettled file c (commitFile p crs vs c).
Proof.
  intros Hf Hp. by refine (set_state_settles file (tp_file p) _ c (commitFile p crs vs c) Hf Hp _ _ eq_refl).
Qed.

Lemma refreshState_settles file g prev c :
  file ∈ candidates -> g ∈ candidates ->
  settled (refreshState g prev c) g /\ staysSettled file c (refreshState g prev c).
Proof.
  intros Hf Hg. by refine (set_state_settles file g _ c (refreshState g prev c) Hf Hg _ _ eq_refl).
Qed.

Lemma dropFile_settled file path c :
  file ∈ candidates -> path ∉ map CandidateFile.relativePath candidates ->
  staysSettled file c (dropFile path c).
Proof.
  intros Hf Hpath H. unfold settled, metadataUnchanged in *.
  cbn [dropFile setMaps FolderCache.fileStates]. rewrite get_delete_ne; [done|].
  intros ->. apply Hpath. by apply list_elem_of_fmap_2.
Qed.

(** A settled candidate stays settled through the rest of the call. *)
Lemma afterDeletion_settled env options deleted changed file :
  file ∈ candidates -> changed ⊆ candidates ->
  keeps (onCache (staysSettled file))
    (sel <- hashPhase env deleted changed ;; embedPhase env options sel).
Proof.
  intros Hf Hsub. apply (afterDeletion_keeps (staysSettled file) candidates); [| | |done].
  - by intros f c H.
  - intros g prev c Hg _. by apply refreshState_settles.
  - intros p crs vs c Hp. by apply commitFile_settles.
Qed.

Lemma hashPass_stays env files file :
  file ∈ candidates -> files ⊆ candidates ->
  keeps (onCache (staysSettled file)) (hashPass env files).
Proof.
  intros Hf Hsub. apply (hashPass_keeps (staysSettled file) candidates); [|done].
  intros g prev c Hg _. by apply refreshState_settles.
Qed.

Lemma runWithConcurrency_stays env sig b concurrency items file :
  file ∈ candidates -> Forall (fun p => tp_file p ∈ candidates) items ->
  keeps (onCache (staysSettled file)) (runWithConcurrency env sig b concurrency items).
Proof.
  intros Hf Hitems. apply (runWithConcurrency_keeps (staysSettled file) candidates); [|done].
  intros p crs vs c Hp. by apply commitFile_settles.
Qed.

(** The content-hash pass settles every file it does not return. *)
Lemma hashPass_settled env files : forall j,
  files ⊆ candidates ->
  match hashPass env files j with
  | (Ok filesToProcess, j') =>
      forall f, f ∈ files -> settled (cache j') f \/ f ∈ map tp_file filesToProcess
  | _ => True
  end.
Proof.
  induction files as [|f files IH]; intros j Hsub; cbn [hashPass].
  { intros g Hg. by apply elem_of_nil in Hg. }
  assert (Hf : f ∈ candidates) by (apply Hsub, list_elem_of_here).
  assert (Hsub' : files ⊆ candidates).
  { intros x Hx. apply Hsub. by apply list_elem_of_further. }
  unfold bind at 1.
  assert (H : match hashCheck env f j with
              | (Ok (Some p), j1) => tp_file p = f
              | (Ok None, j1) => settled (cache j1) f
              | _ => True
              end).
  { unfold hashCheck.
    cbv beta iota zeta delta [bind suspend lift getCache modifyCache ret throw cache fst snd].
    destruct (readFile env _) as [e|content]; [done|].
    destruct (JsMap.get _ _) as [previous|]; [|done].
    destruct (_ && _); [|done]. cbn [cache].
    exact (proj1 (refreshState_settles f f previous _ Hf Hf)). }
  destruct (hashCheck env f j) as [[r|e|] j1]; [|done|done].
  unfold bind at 1. specialize (IH j1 Hsub').
  pose proof (hashPass_stays env files f Hf Hsub' j1) as Hk.
  destruct (hashPass env files j1) as [[more|e|] j2]; [|done|done].
  cbn [ret]. intros g Hg. apply elem_of_cons in Hg as [->|Hg].
  - destruct r as [p|].
    + right. cbn. rewrite H. apply list_elem_of_here.
    + left. by apply Hk.
  - destruct (IH g Hg) as [?|Hin]; [by left|]. right. destruct r; [|done].
    cbn. by apply list_elem_of_further.
Qed.

Lemma settledInv_step items n runners k r c n' r' c' :
  settledInv candidates items n runners c -> runners !! k = Some r ->
  runnerStep items n r c n' r' c' ->
  Forall (fun p => tp_file p ∈ candidates) items ->
  settledInv candidates items n' (<[k := r']> runners) c'.
Proof.
  intros (H1 & H2 & H3) Hk Hstep Hitems. rewrite Forall_forall in Hitems.
  assert (Hr : r ∈ runners) by (by eapply list_elem_of_lookup_2).
  assert (Hk' : (k < length runners)%nat) by (by eapply lookup_lt_Some).
  assert (Hnew : r' ∈ <[k := r']> runners).
  { eapply list_elem_of_lookup_2. by apply list_lookup_insert_eq. }
  assert (Hkeep : forall x, x ∈ runners -> x = r \/ x ∈ <[k := r']> runners).
  { intros x Hx. apply list_elem_of_lookup in Hx as [i Hi].
    destruct (decide (i = k)) as [->|Hne]; [left; congruence|right].
    apply list_elem_of_lookup. exists i. by rewrite list_lookup_insert_ne. }
  destruct Hstep as [n p c Hp|n c Hp|n r r' p c I1 I2|n r p crs vs c I1|n c].
  - split_and!.
    + intros i q Hq Hi. destruct (decide (i = n)) as [->|Hne].
      * right. exists (Chunking p). split; [done|]. cbn. congruence.
      * destruct (H1 i q Hq ltac:(lia)) as [?|(x & Hx & Hxq)]; [by left|].
        right. exists x. split; [|done]. by destruct (Hkeep x Hx) as [->|?].
    + intros x Hx Hxr. apply elem_of_insert_inv in Hx as [->|Hx]; [done|].
      specialize (H2 x Hx Hxr). lia.
    + intros x q Hx Hxq. apply elem_of_insert_inv in Hx as [->|Hx]; [|by eapply H3].
      injection Hxq as <-. apply Hitems. by eapply list_elem_of_lookup_2.
  - pose proof (lookup_ge_None_1 _ _ Hp) as Hlen. split_and!.
    + intros i q Hq Hi. pose proof (lookup_lt_Some _ _ _ Hq).
      destruct (H1 i q Hq ltac:(lia)) as [?|(x & Hx & Hxq)]; [by left|].
      right. exists x. split; [|done]. by destruct (Hkeep x Hx) as [->|?].
    + intros x Hx Hxr. lia.
    + intros x q Hx Hxq. apply elem_of_insert_inv in Hx as [->|Hx]; [done|by eapply H3].
  - split_and!.
    + intros i q Hq Hi. destruct (H1 i q Hq Hi) as [?|(x & Hx & Hxq)]; [by left|].
      right. destruct (Hkeep x Hx) as [->|Hin].
      * exists r'. split; [done|]. congruence.
      * by exists x.
    + intros x Hx Hxr. apply elem_of_insert_inv in Hx as [->|Hx]; [by destruct r'|].
      by apply (H2 x).
    + intros x q Hx Hxq. apply elem_of_insert_inv in Hx as [->|Hx]; [|by eapply H3].
      apply (H3 r q); [done|congruence].
  - assert (Hp : tp_file p ∈ candidates) by (by eapply H3).
    split_and!.
    + intros i q Hq Hi. assert (Hqc : tp_file q ∈ candidates).
      { apply Hitems. by eapply list_elem_of_lookup_2. }
      destruct (commitFile_settles (tp_file q) p crs vs c Hqc Hp) as [Hself Hstay].
      destruct (H1 i q Hq Hi) as [Hs|(x & Hx & Hxq)]; [left; by apply Hstay|].
      destruct (Hkeep x Hx) as [->|Hin].
      * left. rewrite I1 in Hxq. injection Hxq as <-. exact Hself.
      * right. by exists x.
    + intros x Hx Hxr. apply elem_of_insert_inv in Hx as [->|Hx]; [done|]. by apply (H2 x).
    + intros x q Hx Hxq. apply elem_of_insert_inv in Hx as [->|Hx]; [done|by eapply H3].
  - rewrite list_insert_id by done. done.
Qed.

Lemma settledInv_start items n runners c :
  settledInv candidates items n runners c ->
  settledInv candidates items n (runners ++ [LoopHead]) c.
Proof.
  intros (H1 & H2 & H3). split_and!.
  - intros i q Hq Hi. destruct (H1 i q Hq Hi) as [?|(x & Hx & Hxq)]; [by left|].
    right. exists x. split; [|done]. apply elem_of_app. by left.
  - intros x Hx Hxr. apply elem_of_app in Hx as [Hx|Hx]; [by apply (H2 x)|].
    apply list_elem_of_singleton in Hx. by subst.
  - intros x q Hx Hxq. apply elem_of_app in Hx as [Hx|Hx]; [by eapply H3|].
    apply list_elem_of_singleton in Hx. by subst.
Qed.

(** When the pool has run to its end, every item is settled. *)
Lemma runWithConcurrency_settled env sig b concurrency items j j' :
  is_nan concurrency = false ->
  Forall (fun p => tp_file p ∈ candidates) items ->
  runWithConcurrency env sig b concurrency items j = (Ok tt, j') ->
  forall p, p ∈ items -> settled (cache j') (tp_file p).
Proof.
  intros Hnan Hitems Hrun p Hp. destruct (decide (items = [])) as [->|Hne].
  { by apply elem_of_nil in Hp. }
  destruct (runWithConcurrency_Inv items (settledInv candidates items)
              (fun n rs k r c n' r' c' HI Hk Hs =>
                 settledInv_step items n rs k r c n' r' c' HI Hk Hs Hitems)
              (settledInv_start items) env sig b concurrency j j' Hnan Hne)
    as (n & rs & (H1 & H2 & _) & Hall & Hrs); [|done|].
  { split_and!; [intros; lia|by intros r Hr%elem_of_nil|by intros r q Hr%elem_of_nil]. }
  destruct rs as [|r0 rs]; [done|]. pose proof Hall as Hall'. cbn in Hall.
  apply andb_prop in Hall as [Hret _].
  specialize (H2 r0 ltac:(apply list_elem_of_here) Hret).
  apply list_elem_of_lookup in Hp as [i Hi]. pose proof (lookup_lt_Some _ _ _ Hi).
  destruct (H1 i p Hi ltac:(lia)) as [?|(x & Hx & Hxq)]; [done|].
  rewrite forallb_forall in Hall'. apply list_elem_of_In in Hx.
  specialize (Hall' x Hx). by destruct x.
Qed.

(** The processing of the candidates settles every one of them. *)
Lemma process_settled env options j j' changedIndex :
  is_nan (default Defaults.FILE_EMBED_CONCURRENCY (concurrency options)) = false ->
  process env options candidates j = (Ok changedIndex, j') ->
  forall file, file ∈ candidates -> settled (cache j') file.
Proof.
  rewrite process_eq. intros Hnan Hp file Hfile.
  set (c2 := (deletionPass (map CandidateFile.relativePath candidates) (cache j)).1) in *.
  destruct (metadataUnchanged c2 file) eqn:E; last first.
  - assert (Hch : file ∈ changedFiles c2 candidates) by (by apply list_elem_of_filter).
    revert Hp. unfold hashPhase, embedPhase. unfold bind at 1 2.
    pose proof (hashPass_settled env (changedFiles c2 candidates) (afterDeletion candidates j)
                  (changedFiles_subseteq candidates c2)) as Hh.
    pose proof (hashPass_files env (changedFiles c2 candidates) (afterDeletion candidates j))
      as Hfiles.
    destruct (hashPass env _ _) as [[fps|e|] j1]; [|done|done]. cbn [fst] in Hfiles.
    assert (Hitems : Forall (fun p => tp_file p ∈ candidates) fps).
    { eapply Forall_impl; [exact Hfiles|]. intros p Hp.
      by apply (changedFiles_subseteq candidates c2). }
    cbv beta iota zeta delta [bind patchStatus modifyCache ret fst snd].
    match goal with
    | |- context [runWithConcurrency ?e ?s ?b ?n fps ?j0] =>
        pose proof (runWithConcurrency_settled e s b n fps j0) as Hs;
        pose proof (runWithConcurrency_stays e s b n fps file Hfile Hitems j0) as Hk;
        destruct (runWithConcurrency e s b n fps j0) as [[[]|e'|] j2]; [|done|done]
    end.
    intros [= _ <-]. destruct (Hh file Hch) as [Hset|Hin].
    + apply Hk. exact Hset.
    + apply list_elem_of_fmap in Hin as (p & -> & Hp). by apply (Hs j2 Hnan).
  - pose proof (afterDeletion_settled env options
                  (deletionPass (map CandidateFile.relativePath candidates) (cache j)).2
                  (changedFiles c2 candidates) file Hfile
                  (changedFiles_subseteq candidates c2) (afterDeletion candidates j)) as Hk.
    rewrite Hp in Hk. apply Hk. unfold afterDeletion. cbn [cache]. fold c2. exact E.
Qed.

End SettledFacts.

Section TrackedFacts.
Import Indexer.

#[local] Instance staysUntracked_order path : PreOrder (staysUntracked path).
Proof. split; [by intros c H|]. intros c1 c2 c3 H1 H2 H. by apply H2, H1. Qed.

(** A path the scan does not list is not tracked once the candidates have
    been processed. *)
Lemma process_untracked env options candidates path j :
  path ∉ map CandidateFile.relativePath candidates ->
  JsMap.get path (FolderCache.fileStates (cache (process env options candidates j).2)) = None.
Proof.
  intros Hpath.
  destruct (decide (path ∈ JsMap.keys (FolderCache.fileStates (cache j)))) as [Hin|Hin].
  - apply afterDeletion_untracked. unfold deletedPaths. by apply list_elem_of_filter.
  - apply get_None_keys in Hin.
    refine (process_keeps (staysUntracked path) candidates _ _ _ _ env options j Hin);
      unfold staysUntracked.
    + by intros f c H.
    + intros path' c _ H. cbn [dropFile setMaps FolderCache.fileStates].
      destruct (decide (path' = path)) as [->|Hne]; [apply get_delete_eq|].
      by rewrite get_delete_ne.
    + intros file prev c Hfile _ H.
      cbn [refreshState addSkipped setStatus setMaps FolderCache.fileStates].
      rewrite get_set_ne; [done|]. intros <-. apply Hpath. by apply list_elem_of_fmap_2.
    + intros p crs vs c Hfile H. cbn [commitFile setStatus setMaps FolderCache.fileStates].
      rewrite get_set_ne; [done|]. intros <-. apply Hpath.
      by apply (list_elem_of_fmap_2 CandidateFile.relativePath).
Qed.

(** After a call that completed, every file of the scan passes the metadata
    test and every tracked path is a path of the scan. *)
Lemma completed_index_settled env ix d folderPath options j candidates :
  is_nan (default Defaults.FILE_EMBED_CONCURRENCY (concurrency options)) = false ->
  run env ix d folderPath options = (Ok tt, j) ->
  scanned env (loaded env ix d folderPath options) options = inr candidates ->
  NoDup (map CandidateFile.relativePath candidates) ->
  Forall numbered candidates ->
  Forall (fun file => metadataUnchanged (cache j) file = true) candidates
  /\ Forall (fun p => p ∈ map CandidateFile.relativePath candidates)
       (JsMap.keys (FolderCache.fileStates (cache j))).
Proof.
  intros Hnan Hrun Hscan Hnd Hnum.
  destruct (run_Ok _ _ _ _ _ _ Hrun) as (cands & ch & j3 & Hscan' & _ & Hp & Hf).
  rewrite Hscan in Hscan'. injection Hscan' as <-.
  destruct (finish_spec env ch j3) as (j' & Hf' & _ & _ & _ & _ & _ & Hfs & _).
  rewrite Hf in Hf'. injection Hf' as _ <-.
  assert (Hm : forall c file, metadataUnchanged c file
               = match JsMap.get (CandidateFile.relativePath file) (FolderCache.fileStates c) with
                 | Some previous =>
                     PrimFloat.eqb (RagFileState.modifiedAt previous)
                       (CandidateFile.modifiedAt file)
                     && PrimFloat.eqb (RagFileState.size previous) (CandidateFile.size file)
                 | None => false
                 end) by done.
  split.
  - apply Forall_forall. intros file Hfile. rewrite Hm, Hfs, <- Hm.
    by apply (process_settled candidates Hnd Hnum env options _ j3 ch Hnan Hp).
  - match type of Hp with
    | process _ _ _ ?j2 = _ =>
        pose proof (fun path => process_untracked env options candidates path j2) as Hu
    end.
    rewrite Hp in Hu. cbn [snd] in Hu. rewrite Hfs.
    apply Forall_forall. intros path Hpath.
    destruct (decide (path ∈ map CandidateFile.relativePath candidates)) as [|Hn]; [done|].
    exfalso. apply get_is_Some_keys in Hpath as [st Hst]. rewrite (Hu path Hn) in Hst. done.
Qed.

(** X23.  After a call that completed with a [concurrency] that is a
    number (with NaN no runner is started and the changed files stay as
    they were), the file states match the scan of the call: every file the
    scan listed is tracked with the [modifiedAt] and [size] listed, so that
    the metadata test would skip it, and no other path is tracked.  The
    scan lists no path twice and no NaN. *)
Theorem completed_index_tracks_the_scan env ix d folderPath options j candidates :
  is_nan (default Defaults.FILE_EMBED_CONCURRENCY (concurrency options)) = false ->
  run env ix d folderPath options = (Ok tt, j) ->
  scanned env (loaded env ix d folderPath options) options = inr candidates ->
  NoDup (map CandidateFile.relativePath candidates) ->
  Forall numbered candidates ->
  changedFiles (cache j) candidates = [] /\ deletedPaths (cache j) candidates = [].
Proof.
  intros Hnan Hrun Hscan Hnd Hnum.
  destruct (completed_index_settled env ix d folderPath options j candidates
              Hnan Hrun Hscan Hnd Hnum) as [Hall Hkeys].
  split.
  - unfold changedFiles. clear -Hall. induction Hall as [|file l H _ IH]; [done|].
    rewrite filter_cons_False; [done|]. by rewrite H.
  - unfold deletedPaths. clear -Hkeys. induction Hkeys as [|path l H _ IH]; [done|].
    rewrite filter_cons_False; [done|]. intros Hn. by apply Hn.
Qed.

End TrackedFacts.

(** The first indexing of the two Markdown files. *)
Lemma completed_index_tracks_the_scan_witness :
  let j := (Indexer.run (Scenario.envOf "/root" Scenario.tree) Indexer.create ∅ "/root/"
              Scenario.markdownOnly).2 in
  Indexer.changedFiles (Indexer.cache j) (map (Scenario.candidateOf "/root") Scenario.tree) = []
  /\ Indexer.deletedPaths (Indexer.cache j) (map (Scenario.candidateOf "/root") Scenario.tree)
     = [].
Proof.
  cbv zeta.
  apply (completed_index_tracks_the_scan (Scenario.envOf "/root" Scenario.tree)
           Indexer.create ∅ "/root/" Scenario.markdownOnly).
  - reflexivity.
  - vm_compute. reflexivity.
  - vm_compute. reflexivity.
  - apply (bool_decide_unpack _). vm_compute. reflexivity.
  - repeat constructor.
Defined.

(** ** The token, read by the runners *)

Section TokenFacts.
Import Indexer.

Context (env : Env) (s : AbortSignal).

Lemma checkSignal_aborted j :
  (abortedAt s <= tick j)%nat ->
  checkSignal (Some s) j = (Throw (abortException s), j).
Proof. intros H. unfold checkSignal. apply Nat.leb_le in H. by rewrite H. Qed.

Lemma checkSignal_passed j u j' :
  checkSignal (Some s) j = (Ok u, j') -> j' = j /\ (tick j < abortedAt s)%nat.
Proof.
  unfold checkSignal. destruct (Nat.leb_spec (abortedAt s) (tick j)); [done|].
  intros [= <-]. by split.
Qed.

Lemma batchLoop_tick sig b p crs i vectors j :
  tick (batchLoop env sig b p crs i vectors j).2 = tick j.
Proof.
  unfold batchLoop. cbv zeta. destruct (PrimFloat.ltb _ _).
  - unfold bind at 1. unfold checkSignal.
    destruct sig as [s'|]; [destruct (abortedAt s' <=? tick j)%nat; [done|]|]; done.
  - done.
Qed.

Lemma resume_tick sig b items n r j :
  tick (resume env sig b items n r j).2 = tick j.
Proof.
  destruct r as [|p|p crs i vectors reply|]; cbn [resume].
  - unfold bind at 1. unfold checkSignal at 1.
    assert (G : tick (match items !! n with
                      | Some p => checkSignal sig;;; ret (S n, Chunking p)
                      | None => ret (S n, Returned)
                      end j).2 = tick j).
    { destruct (items !! n) as [p|]; [|done]. unfold bind, checkSignal.
      destruct sig as [s'|]; [destruct (abortedAt s' <=? tick j)%nat|]; done. }
    destruct sig as [s'|]; [destruct (abortedAt s' <=? tick j)%nat; [done|]|]; exact G.
  - unfold bind at 1. pose proof (batchLoop_tick sig b p
      (chunk env (tp_content p)
         (Js.str (Js.toLowerCase (Js.chars (extname (CandidateFile.relativePath (tp_file p)))))))
      0%float [] j) as H.
    destruct (batchLoop _ _ _ _ _ _ _ j) as [[r'|e|] j1]; exact H.
  - unfold bind at 1. destruct reply as [e|embedded]; [done|]. cbn [lift ret].
    unfold bind at 1.
    pose proof (batchLoop_tick sig b p crs (PrimFloat.add i b) (vectors ++ embedded) j) as H.
    destruct (batchLoop _ _ _ _ _ _ _ j) as [[r'|e|] j1]; exact H.
  - done.
Qed.

(** A runner resumed where it reads the token, the token aborted: the
    token's exception is thrown, and nothing else is done. *)
Lemma resume_aborted b items n r j :
  (abortedAt s <= tick j)%nat -> readsToken env b r ->
  resume env (Some s) b items n r j = (Throw (abortException s), j).
Proof.
  intros Ha Hr. destruct r as [|p|p crs i vectors [e|embedded]|]; cbn [resume]; try done.
  - unfold bind at 1. by rewrite checkSignal_aborted.
  - unfold bind at 1. unfold batchLoop. cbv zeta. cbn [readsToken] in Hr. rewrite length_map, Hr.
    unfold bind at 1. by rewrite checkSignal_aborted.
  - cbn [lift]. unfold bind at 1. cbn [ret]. unfold bind at 1.
    unfold batchLoop. cbv zeta. cbn [readsToken] in Hr. rewrite length_map, Hr.
    unfold bind at 1. by rewrite checkSignal_aborted.
Qed.

(** A runner returns only from the head of its loop, where it has read the
    token as not aborted. *)
Lemma resume_returned b items n r j st j' :
  isReturned r = false ->
  resume env (Some s) b items n r j = (Ok st, j') ->
  isReturned st.2 = true ->
  (tick j < abortedAt s)%nat.
Proof.
  intros Hr. destruct r as [|p|p crs i vectors reply|]; cbn [resume]; [| | |done].
  - unfold bind at 1. destruct (checkSignal (Some s) j) as [[u|e|] j1] eqn:E; [|done|done].
    by apply checkSignal_passed in E as [_ ?].
  - unfold bind at 1. unfold batchLoop. cbv zeta. destruct (PrimFloat.ltb _ _).
    + unfold bind at 1. destruct (checkSignal (Some s) j) as [[u|e|] j1]; [|done|done].
      by intros [= <- <-].
    + by intros [= <- <-].
  - unfold bind at 1. destruct reply as [e|embedded]; [done|]. cbn [lift ret].
    unfold bind at 1. unfold batchLoop. cbv zeta. destruct (PrimFloat.ltb _ _).
    + unfold bind at 1. destruct (checkSignal (Some s) j) as [[u|e|] j1]; [|done|done].
      by intros [= <- <-].
    + by intros [= <- <-].
Qed.

Lemma startRunners_tick sig b items count : forall n j,
  tick (startRunners env sig b items count n j).2 = tick j.
Proof.
  induction count as [|count IH]; intros n j; cbn [startRunners]; [done|].
  unfold bind at 1. pose proof (resume_tick sig b items n LoopHead j) as H1.
  destruct (resume env sig b items n LoopHead j) as [[st|e|] j1]; [|done|done].
  unfold bind at 1. pose proof (IH st.1 j1) as H2.
  destruct (startRunners env sig b items count st.1 j1) as [[rest|e|] j2]; cbn in *; congruence.
Qed.

(** The first runner reads the token when it is started, and takes the
    first item. *)
Lemma startRunners_first b items count n p j st j' :
  items !! n = Some p ->
  startRunners env (Some s) b items (S count) n j = (Ok st, j') ->
  (tick j < abortedAt s)%nat /\ forallb isReturned st.2 = false.
Proof.
  intros Hp. cbn [startRunners resume]. unfold bind at 1 2. rewrite Hp.
  destruct (checkSignal (Some s) j) as [[u|e|] j1] eqn:E; [|done|done].
  apply checkSignal_passed in E as [-> Hlt]. unfold bind at 1.
  destruct (checkSignal (Some s) j) as [[u'|e|] j1]; [|done|done]. cbn [ret fst snd].
  unfold bind at 1.
  destruct (startRunners env (Some s) b items count (S n) j1) as [[rest|e|] j2]; [|done|done].
  by intros [= <- <-].
Qed.

Lemma runScheduled_settled sig b items schedule n runners j :
  forallb isReturned runners = true ->
  runScheduled env sig b items schedule n runners j = (Ok tt, j).
Proof. intros H. destruct schedule; cbn [runScheduled]; by rewrite H. Qed.

(** When the pool has run to its end, its last act was the return of a
    runner: the token was read as not aborted then. *)
Lemma runScheduled_last b items schedule : forall n runners j j',
  forallb isReturned runners = false ->
  runScheduled env (Some s) b items schedule n runners j = (Ok tt, j') ->
  (tick j' < abortedAt s)%nat.
Proof.
  induction schedule as [|k later IH]; intros n runners j j' Hrun; cbn [runScheduled];
    rewrite Hrun; [done|].
  destruct (runners !! k) as [r|] eqn:Ek; [|by apply IH].
  destruct (isReturned r) eqn:Er; [by apply IH|].
  unfold bind at 1. cbn [suspend]. unfold bind at 1.
  match goal with
  | |- context [resume env (Some s) b items n r ?j0] =>
      pose proof (resume_tick (Some s) b items n r j0) as Ht;
      destruct (resume env (Some s) b items n r j0) as [[st|e|] j1] eqn:Eres; [|done|done]
  end.
  cbn [snd tick] in Ht.
  destruct (forallb isReturned (<[k := st.2]> runners)) eqn:Eall; [|by apply IH].
  rewrite runScheduled_settled by done. intros [= <-].
  assert (Hst : isReturned st.2 = true).
  { rewrite forallb_forall in Eall. apply Eall, list_elem_of_In.
    apply list_elem_of_lookup. exists k. apply list_lookup_insert_eq.
    by eapply lookup_lt_Some. }
  pose proof (resume_returned b items n r _ st j1 Er Eres Hst) as Hlt. cbn [tick] in Hlt.
  lia.
Qed.

(** The pool throws the token's exception at once when the token is aborted
    and there is an item to take. *)
Lemma runWithConcurrency_aborted b concurrency items j :
  items <> [] -> is_nan concurrency = false -> (abortedAt s <= tick j)%nat ->
  runWithConcurrency env (Some s) b concurrency items j = (Throw (abortException s), j).
Proof.
  intros Hne Hnan Ha. rewrite runWithConcurrency_eq by done.
  pose proof (runnerCount_pos concurrency (length items) Hnan) as Hc.
  destruct (runnerCount concurrency (length items)) as [|count].
  { destruct items; [done|]. cbn in Hc. lia. }
  unfold bind at 1. cbn [startRunners]. unfold bind at 1.
  by rewrite (resume_aborted b items 0 LoopHead j Ha I).
Qed.

(** A pool that had an item to take and has run to its end never read the
    token as aborted. *)
Lemma runWithConcurrency_last b concurrency items j j' :
  items <> [] -> is_nan concurrency = false ->
  runWithConcurrency env (Some s) b concurrency items j = (Ok tt, j') ->
  (tick j' < abortedAt s)%nat.
Proof.
  intros Hne Hnan. rewrite runWithConcurrency_eq by done.
  pose proof (runnerCount_pos concurrency (length items) Hnan) as Hc.
  destruct (runnerCount concurrency (length items)) as [|count].
  { destruct items; [done|]. cbn in Hc. lia. }
  destruct items as [|p items]; [done|]. unfold bind at 1.
  destruct (startRunners env (Some s) b (p :: items) (S count) 0 j) as [[st|e|] j1] eqn:Es;
    [|done|done].
  destruct (startRunners_first b (p :: items) count 0 p j st j1 eq_refl Es) as [_ Hall].
  by apply runScheduled_last.
Qed.

End TokenFacts.

Section CancelledCalls.
Import Indexer.

Lemma finish_tick env changedIndex j j' :
  finish env changedIndex j = (Ok tt, j') ->
  tick j' = (tick j + if changedIndex then 2 else 1)%nat.
Proof.
  destruct changedIndex.
  - cbv beta iota zeta delta [finish bind now getCache patchStatus modifyCache persist
      suspend setDbSize ret cache disk tick embedCalls fst snd].
    cbn [rebuildAnnIndex setIndex setStatus FolderCache.folderPath FolderCache.chunks
         FolderCache.fileStates FolderCache.indexRevision FolderCache.persistedLoaded
         FolderCache.annIndex].
    destruct (Storage.saveToDisk _ _ _ _ _ _) as [[e|] d']; [done|].
    intros [= <-]. cbn. lia.
  - intros [= <-]. cbn. lia.
Qed.

(** The token is aborted when the selection is over and a file is to be
    embedded: the processing ends in the token's exception. *)
Lemma process_aborted env options s candidates j sel j1 :
  signal options = Some s ->
  selectPhase env candidates j = (Ok sel, j1) ->
  sel.2 <> [] ->
  is_nan (default Defaults.FILE_EMBED_CONCURRENCY (concurrency options)) = false ->
  (abortedAt s <= tick j1)%nat ->
  process env options candidates j = (Throw (abortException s), j1).
Proof.
  intros Hs Hsel Hne Hnan Ha. unfold process. unfold bind at 1. rewrite Hsel.
  unfold embedPhase. unfold bind at 1. rewrite Hs.
  by rewrite runWithConcurrency_aborted.
Qed.

(** A processing that embedded files and got through never read the token
    as aborted, and reports a change. *)
Lemma process_last env options s candidates j changedIndex j3 :
  signal options = Some s ->
  is_nan (default Defaults.FILE_EMBED_CONCURRENCY (concurrency options)) = false ->
  process env options candidates j = (Ok changedIndex, j3) ->
  RagStatus.filesToEmbed (FolderCache.status (cache j3)) <> 0%nat ->
  (tick j3 < abortedAt s)%nat /\ changedIndex = true.
Proof.
  intros Hs Hnan. rewrite process_eq. unfold hashPhase, embedPhase. unfold bind at 1 2.
  destruct (hashPass env _ _) as [[fps|e|] j1]; [|done|done].
  cbv beta iota zeta delta [bind patchStatus modifyCache ret fst snd]. rewrite Hs.
  match goal with
  | |- context [runWithConcurrency ?e ?sg ?b ?n fps ?j0] =>
      pose proof (runWithConcurrency_filesToEmbed e sg b n fps j0) as Hk;
      pose proof (runWithConcurrency_last e s b n fps j0) as Hl;
      destruct (runWithConcurrency e sg b n fps j0) as [[[]|e'|] j2]; [|done|done]
  end.
  intros [= <- <-] Hfiles. unfold onCache, sameFilesToEmbed in Hk. simpl in Hk.
  rewrite Hk in Hfiles.
  assert (Hne : fps <> []) by (by intros ->).
  split; [by apply (Hl j2)|]. rewrite bool_decide_eq_false_2 by done. apply orb_true_r.
Qed.

(** C4, amended.  A call of [index] reads its token after the scan, when
    the runners are started and whenever a runner is resumed at the head of
    its loop or with a batch left to embed; a token that is aborted then
    ends the call in the token's exception: after the scan always, at the
    start of the embedding when a file was selected (and [concurrency] is a
    number, so that a runner is started), later at the first such
    resumption.  A call that completes has read the token as not aborted
    every time, the last time two suspension points before its end when it
    embedded files: a token aborted later, while the index is saved, is not
    noticed.  When the call ends in an exception before the save, the disk
    is as it was before the call and the folder's [indexRevision] is the one
    from before the call; the final phase is "idle" when the exception is a
    [DOMException] named [AbortError] and "error" otherwise.  The token's
    exception is of that kind when the token was aborted without a reason of
    the caller's: the phase is then "idle" and the message is "Indexing was
    cancelled", which contains "cancelled". *)
Theorem aborted_token_cancels_the_call env ix d folderPath options s :
  signal options = Some s ->
  (forall candidates,
     scanned env (loaded env ix d folderPath options) options = inr candidates ->
     (abortedAt s <= 2)%nat ->
     (attempt env ix d folderPath options).1 = Throw (abortException s))
  /\ (forall candidates sel j1,
        scanned env (loaded env ix d folderPath options) options = inr candidates ->
        (2 < abortedAt s)%nat ->
        selectPhase env candidates
          {| cache := setStatus (patch (preparingPatch (length candidates)))
                        (loaded env ix d folderPath options);
             disk := d; tick := 2; embedCalls := 0 |}
        = (Ok sel, j1) ->
        sel.2 <> [] ->
        is_nan (default Defaults.FILE_EMBED_CONCURRENCY (concurrency options)) = false ->
        (abortedAt s <= tick j1)%nat ->
        (attempt env ix d folderPath options).1 = Throw (abortException s))
  /\ (forall batchSize items nextIndex r j,
        (abortedAt s <= tick j)%nat -> readsToken env batchSize r ->
        resume env (Some s) batchSize items nextIndex r j = (Throw (abortException s), j))
  /\ (forall batchSize items k later nextIndex runners r j,
        runners !! k = Some r -> readsToken env batchSize r ->
        (abortedAt s <= S (tick j))%nat ->
        (runScheduled env (Some s) batchSize items (k :: later) nextIndex runners j).1
        = Throw (abortException s))
  /\ (forall j,
        run env ix d folderPath options = (Ok tt, j) ->
        (2 < abortedAt s)%nat
        /\ (is_nan (default Defaults.FILE_EMBED_CONCURRENCY (concurrency options)) = false ->
            RagStatus.filesToEmbed (FolderCache.status (cache j)) <> 0%nat ->
            (tick j < abortedAt s + 2)%nat))
  /\ (forall e,
        (attempt env ix d folderPath options).1 = Throw e ->
        (run env ix d folderPath options).1 = Throw e
        /\ (index env ix d folderPath options).2 = d
        /\ FolderCache.indexRevision (finalCache (run env ix d folderPath options))
           = FolderCache.indexRevision (ensureCache ix folderPath)
        /\ RagStatus.phase <$> (index env ix d folderPath options).1.1
           = Some (if isAbortError e then PhaseIdle else PhaseError)
        /\ (e = abortException s -> reason s = None ->
            RagStatus.phase <$> (index env ix d folderPath options).1.1 = Some PhaseIdle
            /\ (index env ix d folderPath options).1.1 ≫= RagStatus.message
               = Some "Indexing was cancelled"
            /\ Js.includes "cancelled" "Indexing was cancelled" = true)).
Proof.
  intros Hs. pose proof (attempt_cases env ix d folderPath options) as Hcases.
  cbv zeta in Hcases. split_and!.
  - intros candidates Hscan Ha. rewrite Hscan in Hcases. unfold abortedAfterScan in Hcases.
    rewrite Hs in Hcases. apply Nat.leb_le in Ha. rewrite Ha in Hcases. by rewrite Hcases.
  - intros candidates sel j1 Hscan Ha Hsel Hne Hnan Hlate. rewrite Hscan in Hcases.
    unfold abortedAfterScan in Hcases. rewrite Hs in Hcases.
    apply Nat.leb_gt in Ha. rewrite Ha in Hcases. rewrite Hcases.
    by rewrite (process_aborted env options s candidates _ sel j1).
  - intros b items n r j Ha Hr. by apply resume_aborted.
  - intros b items k later n runners r j Hk Hr Ha. cbn [runScheduled].
    assert (Hnot : isReturned r = false) by (by destruct r).
    assert (Hall : forallb isReturned runners = false).
    { destruct (forallb isReturned runners) eqn:E; [|done].
      rewrite forallb_forall in E. rewrite <- Hnot. symmetry.
      apply E, list_elem_of_In. by eapply list_elem_of_lookup_2. }
    rewrite Hall, Hk, Hnot. unfold bind at 1. cbn [suspend]. unfold bind at 1.
    by rewrite resume_aborted.
  - intros j Hrun. rewrite run_attempt in Hrun.
    destruct (scanned env _ options) as [e'|candidates]; [by rewrite Hcases in Hrun|].
    unfold abortedAfterScan in Hcases. rewrite Hs in Hcases.
    destruct (Nat.leb_spec (abortedAt s) 2) as [Hle|Hgt]; [by rewrite Hcases in Hrun|].
    split; [done|]. intros Hnan Hfiles. rewrite Hcases in Hrun.
    destruct (process env options candidates _) as [[ch|e'|] j3] eqn:Ep; [|done|done].
    destruct (finish_spec env ch j3) as (j' & Hf & _ & _ & Hn & _).
    rewrite Hrun in Hf. injection Hf as _ <-. rewrite Hn in Hfiles.
    destruct (process_last env options s candidates _ ch j3 Hs Hnan Ep Hfiles) as [Hlt ->].
    rewrite (finish_tick env true j3 j Hrun). lia.
  - intros e He. pose proof (run_Throw env ix d folderPath options e He) as Hrun.
    destruct (attempt_keeps env ix d folderPath options) as [Hd Hr].
    unfold index, finalCache. cbv zeta. rewrite Hrun. cbn [fst snd].
    destruct (onError_status e (cache (attempt env ix d folderPath options).2)) as [Hp Hm].
    split_and!.
    + done.
    + exact Hd.
    + rewrite onError_revision. exact Hr.
    + cbn [fmap option_fmap option_map]. by rewrite Hp.
    + intros -> Hnone. unfold abortException in *. rewrite Hnone in *. cbn [default] in *.
      split_and!; [cbn [fmap option_fmap option_map]; by rewrite Hp
                  |cbn [mbind option_bind]; by rewrite Hm|by vm_compute].
Qed.

End CancelledCalls.

(** The cancellation test of the repository on the two-file tree: the
    token aborts while the provider answers its second call, the runner
    reads it at the head of its loop, and nothing is on the disk.  And a
    token that aborts while the second file is read for its hash: the first
    runner reads it when it is started. *)
Lemma aborted_token_cancels_the_call_witness :
  (Indexer.index (Scenario.envOf "/root" Scenario.tree) Indexer.create ∅ "/root/"
     Scenario.cancelling).2 = ∅
  /\ RagStatus.phase <$>
       (Indexer.index (Scenario.envOf "/root" Scenario.tree) Indexer.create ∅ "/root/"
          Scenario.cancelling).1.1
     = Some PhaseIdle
  /\ (Indexer.index (Scenario.envOf "/root" Scenario.tree) Indexer.create ∅ "/root/"
        Scenario.cancelling).1.1 ≫= RagStatus.message
     = Some "Indexing was cancelled"
  /\ (attempt (Scenario.envOf "/root" Scenario.tree) Indexer.create ∅ "/root/"
        (Scenario.withSignal {| Indexer.abortedAt := 4; Indexer.reason := None |})).1
     = Indexer.Throw Indexer.AbortError.
Proof.
  destruct (aborted_token_cancels_the_call (Scenario.envOf "/root" Scenario.tree)
              Indexer.create ∅ "/root/" Scenario.cancelling
              {| Indexer.abortedAt := 9; Indexer.reason := None |} eq_refl)
    as (_ & _ & _ & _ & _ & Hthrow).
  destruct (Hthrow Indexer.AbortError) as (_ & Hd & _ & _ & Hidle).
  { vm_compute. reflexivity. }
  destruct (Hidle eq_refl eq_refl) as (Hp & Hm & _).
  destruct (aborted_token_cancels_the_call (Scenario.envOf "/root" Scenario.tree)
              Indexer.create ∅ "/root/"
              (Scenario.withSignal {| Indexer.abortedAt := 4; Indexer.reason := None |})
              {| Indexer.abortedAt := 4; Indexer.reason := None |} eq_refl)
    as (_ & Hstart & _).
  split_and!; [exact Hd|exact Hp|exact Hm|].
  eapply Hstart.
  - vm_compute. reflexivity.
  - cbn. lia.
  - vm_compute. reflexivity.
  - discriminate.
  - reflexivity.
  - cbn. lia.
Defined.

(** ** What a call wrote is what a new indexer loads *)

Section ReloadFacts.
Import Indexer.

(** What loading puts into a cache that was not loaded yet. *)
Lemma loadInto_loads env d c :
  FolderCache.persistedLoaded c = false ->
  FolderCache.chunks (loadInto env d c)
  = Storage.chunks (Storage.loadFromDisk d (FolderCache.folderPath c))
  /\ FolderCache.fileStates (loadInto env d c)
     = Storage.fileStates (Storage.loadFromDisk d (FolderCache.folderPath c))
  /\ RagStatus.totalChunks (FolderCache.status (loadInto env d c))
     = JsMap.size (Storage.chunks (Storage.loadFromDisk d (FolderCache.folderPath c))).
Proof.
  intros H. unfold loadInto. rewrite H. cbv zeta.
  destruct (Storage.lastIndexedAt _) as [t|]; [destruct (truthyNumber t)|]; done.
Qed.

(** X24.  After a call that completed and advanced the revision, a new
    indexer that loads the folder from the disk the call left holds the
    chunks map of the call and the same file state under every path.  The
    maps of the call are such as [JSON] carries unchanged, and the folder's
    cache came from [ensureCache]. *)
Theorem new_indexer_loads_what_was_indexed env env' ix d folderPath options j :
  run env ix d folderPath options = (Ok tt, j) ->
  FolderCache.indexRevision (cache j)
  <> FolderCache.indexRevision (ensureCache ix folderPath) ->
  FolderCache.folderPath (ensureCache ix folderPath) = normalizeFolderPath folderPath ->
  validMaps (FolderCache.chunks (cache j)) (FolderCache.fileStates (cache j)) ->
  FolderCache.chunks (ensureLoaded env' create (disk j) folderPath None).1
  = FolderCache.chunks (cache j)
  /\ (forall path,
        JsMap.get path
          (FolderCache.fileStates (ensureLoaded env' create (disk j) folderPath None).1)
        = JsMap.get path (FolderCache.fileStates (cache j)))
  /\ RagStatus.totalChunks
       (FolderCache.status (ensureLoaded env' create (disk j) folderPath None).1)
     = JsMap.size (FolderCache.chunks (cache j)).
Proof.
  intros Hrun Hrev Hpath Hvalid.
  destruct (run_Ok _ _ _ _ _ _ Hrun) as (candidates & ch & j3 & _ & _ & Hp & Hf).
  destruct (finish_spec env ch j3) as (j' & Hf' & _ & _ & _ & _ & Hc & Hs & _ & Hr & Hd).
  rewrite Hf in Hf'. injection Hf' as Hout <-.
  match type of Hp with
  | process _ _ _ ?j2 = _ =>
      pose proof (process_revision env options candidates j2) as Hr3;
      pose proof (process_folderPath env options candidates j2) as Hp3
  end.
  rewrite Hp in Hr3, Hp3. unfold onCache, sameRevision, sameFolderPath in Hr3, Hp3.
  cbn [snd cache setStatus FolderCache.indexRevision FolderCache.folderPath] in Hr3, Hp3.
  rewrite loaded_revision in Hr3. rewrite loaded_folderPath, Hpath in Hp3.
  destruct ch; [|congruence]. unfold finishOutcome in Hout. unfold saveOf in Hout, Hd.
  rewrite Hp3, <- Hc, <- Hs in Hout, Hd.
  destruct (Storage.saveToDisk (fs env) (disk j3) (dateNow env (tick j3))
              (normalizeFolderPath folderPath) (FolderCache.chunks (cache j))
              (FolderCache.fileStates (cache j))) as [[e|] d'] eqn:Esave; [done|].
  cbn [snd] in Hd. subst d'.
  destruct (loadFromDisk_saveToDisk _ _ _ _ _ _ _ Hvalid Esave) as [L1 L2].
  destruct (loadInto_loads env' (disk j) (newCache (normalizeFolderPath folderPath)) eq_refl)
    as (E1 & E2 & E3).
  cbn [newCache FolderCache.folderPath] in E1, E2, E3.
  unfold ensureLoaded, ensureCache. cbn [caches create JsMap.get JsMap.empty default
    from_option fst id]. rewrite E1, E2, E3, L1, L2. split_and!; [done| |done].
  intros path. symmetry. apply get_Permutation; [by destruct Hvalid as (_ & _ & ? & _)|].
  symmetry. apply propertyOrder_Permutation.
Qed.

End ReloadFacts.

(** The first indexing of the two Markdown files, loaded again. *)
Lemma new_indexer_loads_what_was_indexed_witness :
  let j := (Indexer.run (Scenario.envOf "/root" Scenario.tree) Indexer.create ∅ "/root/"
              Scenario.markdownOnly).2 in
  FolderCache.chunks
    (Indexer.ensureLoaded (Scenario.envOf "/root" Scenario.tree) Indexer.create
       (Indexer.disk j) "/root/" None).1
  = FolderCache.chunks (Indexer.cache j).
Proof.
  cbv zeta.
  apply (new_indexer_loads_what_was_indexed (Scenario.envOf "/root" Scenario.tree)
           (Scenario.envOf "/root" Scenario.tree) Indexer.create ∅ "/root/"
           Scenario.markdownOnly).
  - vm_compute. reflexivity.
  - vm_compute. discriminate.
  - vm_compute. reflexivity.
  - unfold validMaps. split_and!.
    + apply (bool_decide_unpack _). vm_compute. reflexivity.
    + vm_compute. repeat constructor; discriminate.
    + apply (bool_decide_unpack _). vm_compute. reflexivity.
    + vm_compute. repeat constructor.
Defined.

(** ** The windows of the text chunker leave no gap *)

Section CoverFacts.
Import TextChunker.

Lemma windows_cover tc cl fuel : forall start ws,
  1 <= chunkSize tc -> 0 <= chunkOverlap tc -> 0 <= start ->
  windows fuel tc cl start = Some ws ->
  forall i, start <= i < Z.of_nat (length cl) -> exists w, w ∈ ws /\ fst w <= i < snd w.
Proof.
  induction fuel as [|fuel IH]; intros start ws Hsize Hover Hstart; cbn [windows]; [done|].
  cbv zeta. destruct (Z.ltb_spec start (Z.of_nat (length cl))) as [Hlt|Hge]; [|intros _ i Hi; lia].
  destruct (windowEnd_bounds tc cl Hsize start) as [Hb _]; [lia|].
  destruct (Z.geb_spec (windowEnd tc cl start) (Z.of_nat (length cl))) as [Hend|Hend].
  - intros [= <-] i Hi. exists (start, windowEnd tc cl start).
    split; [apply list_elem_of_here|]. cbn. lia.
  - destruct (windows fuel tc cl _) as [rest|] eqn:E; [|done]. intros [= <-] i Hi.
    destruct (Z.lt_ge_cases i (windowEnd tc cl start)) as [Hin|Hout].
    + exists (start, windowEnd tc cl start). split; [apply list_elem_of_here|]. cbn. lia.
    + destruct (IH (Z.max (start + 1) (windowEnd tc cl start - chunkOverlap tc)) rest
                  Hsize Hover ltac:(lia) E i ltac:(lia)) as (w & Hw & Hiw).
      exists w. split; [by apply list_elem_of_further|done].
Qed.

(** X25.  For a chunk size of at least one and an overlap that is not
    negative, the windows [chunk] cuts leave no gap: every position of the
    cleaned text lies in one of them. *)
Theorem text_chunker_windows_cover (tc : TextChunker.t) (content : string)
    (ws : list (Z * Z)) (i : Z) :
  1 <= chunkSize tc -> 0 <= chunkOverlap tc ->
  windows (S (length (clean content))) tc (clean content) 0 = Some ws ->
  0 <= i < Z.of_nat (length (clean content)) ->
  exists w, w ∈ ws /\ fst w <= i < snd w.
Proof.
  intros Hsize Hover Hws Hi.
  exact (windows_cover tc (clean content) _ 0 ws Hsize Hover (Z.le_refl 0) Hws i Hi).
Qed.

End CoverFacts.

(** Eleven characters cut into windows of eight with an overlap of one. *)
Lemma text_chunker_windows_cover_witness :
  exists w, w ∈ [(0, 8); (7, 11)] /\ fst w <= 9 < snd w.
Proof.
  apply (text_chunker_windows_cover
           {| TextChunker.chunkSize := 8; TextChunker.chunkOverlap := 1 |}
           "abcdefghijk" [(0, 8); (7, 11)] 9); [cbn; lia|cbn; lia|vm_compute; reflexivity|vm_compute; split; discriminate || reflexivity].
Defined.

(** ** CodeChunker: symbol spans and the merging of small chunks *)

Section SpanFacts.
Import CodeChunker.

Lemma clampOffset_bounds offset sourceLength : 0 <= clampOffset offset sourceLength.
Proof. unfold clampOffset. destruct (is_finite offset); lia. Qed.

Lemma clampOffset_le offset sourceLength :
  0 < clampOffset offset sourceLength -> clampOffset offset sourceLength <= sourceLength.
Proof. unfold clampOffset. destruct (is_finite offset); lia. Qed.

Lemma spansFrom_spec sourceLength ordered : forall lastEndIndex,
  0 <= lastEndIndex ->
  Forall (fun s => lastEndIndex <= startIndex s /\ startIndex s < endIndex s <= sourceLength)
    (spansFrom sourceLength ordered lastEndIndex)
  /\ forall i s1 s2,
       spansFrom sourceLength ordered lastEndIndex !! i = Some s1 ->
       spansFrom sourceLength ordered lastEndIndex !! S i = Some s2 ->
       endIndex s1 <= startIndex s2.
Proof.
  induction ordered as [|s rest IH]; intros lastEndIndex Hlast; cbn [spansFrom].
  { split; [done|]. by intros i s1 s2 H. }
  cbv zeta.
  set (startIx := clampOffset (offset (rstart (ts_contentRange s))) sourceLength).
  set (endIx := clampOffset (offset (rend (ts_contentRange s))) sourceLength).
  pose proof (clampOffset_bounds (offset (rstart (ts_contentRange s))) sourceLength) as Hs.
  pose proof (clampOffset_le (offset (rend (ts_contentRange s))) sourceLength) as He.
  fold startIx in Hs. fold endIx in He.
  destruct (Z.leb_spec endIx startIx); [by apply IH|].
  destruct (Z.leb_spec endIx (Z.max startIx lastEndIndex)); [by apply IH|].
  destruct (IH endIx ltac:(lia)) as [Hall Hnext]. split.
  - apply Forall_cons. split; [cbn; lia|].
    eapply Forall_impl; [exact Hall|]. cbn. intros x. lia.
  - intros [|i] s1 s2 H1 H2.
    + cbn in H1. injection H1 as <-. cbn [endIndex].
      change (spansFrom sourceLength rest endIx !! 0%nat = Some s2) in H2.
      destruct (spansFrom sourceLength rest endIx) as [|x l]; [done|].
      cbn in H2. injection H2 as <-. apply Forall_cons in Hall as [[Hx _] _]. exact Hx.
    + by apply (Hnext i).
Qed.

(** X26.  The spans [extractSymbolsFromTreeSitterTs] returns lie within
    the source, none is empty, and each starts at or after the end of the
    one before it: no two spans overlap, whatever offsets the extractor
    reported. *)
Theorem symbol_spans_do_not_overlap (source : string) (symbols : list TreeSitterCodeSymbol) :
  Forall (fun s => 0 <= startIndex s /\ startIndex s < endIndex s <= Js.strLength source)
    (extractSymbolsFromTreeSitterTs source symbols)
  /\ forall i s1 s2,
       extractSymbolsFromTreeSitterTs source symbols !! i = Some s1 ->
       extractSymbolsFromTreeSitterTs source symbols !! S i = Some s2 ->
       endIndex s1 <= startIndex s2.
Proof.
  unfold extractSymbolsFromTreeSitterTs.
  destruct (spansFrom_spec (Js.strLength source) (sortBy startsBefore symbols) 0 (Z.le_refl 0))
    as [Hall Hnext].
  split; [|exact Hnext]. eapply Forall_impl; [exact Hall|]. cbn. intros s. lia.
Qed.

End SpanFacts.

Section MergeFacts.
Import CodeChunker.

Lemma joinLines_cons l rest :
  rest <> [] ->
  CodebaseSearcher.joinLines (l :: rest)
  = l +:+ String Js.LF (CodebaseSearcher.joinLines rest).
Proof. by destruct rest. Qed.

(** Two neighbours joined by a line feed read the same in the text. *)
Lemma joinLines_absorb before a b after :
  CodebaseSearcher.joinLines (before ++ (a +:+ String Js.LF b) :: after)
  = CodebaseSearcher.joinLines (before ++ a :: b :: after).
Proof.
  induction before as [|x before IH].
  - cbn [app]. rewrite (joinLines_cons a (b :: after)) by done.
    destruct after as [|c after]; [done|].
    rewrite (joinLines_cons _ (c :: after)), (joinLines_cons b (c :: after)) by done.
    by rewrite append_assoc.
  - cbn [app]. rewrite !joinLines_cons by (by destruct before). by rewrite IH.
Qed.

Lemma text_absorb before prev chunk after :
  CodebaseSearcher.joinLines (map cr_content (before ++ absorb prev chunk :: after))
  = CodebaseSearcher.joinLines (map cr_content (before ++ prev :: chunk :: after))
  /\ concat (map symbolsOf (before ++ absorb prev chunk :: after))
     = concat (map symbolsOf (before ++ prev :: chunk :: after)).
Proof.
  split.
  - rewrite !map_app. cbn [map absorb cr_content]. apply joinLines_absorb.
  - rewrite !map_app, !concat_app. f_equal. cbn [map concat]. rewrite app_assoc. f_equal.
    unfold symbolsOf, absorb. cbn [cr_symbols].
    destruct (cr_symbols chunk); cbn; [done|by rewrite app_nil_r].
Qed.

Lemma mergeStep_text merged chunk rest :
  CodebaseSearcher.joinLines (map cr_content (rev (mergeStep merged chunk) ++ rest))
  = CodebaseSearcher.joinLines (map cr_content (rev merged ++ chunk :: rest))
  /\ concat (map symbolsOf (rev (mergeStep merged chunk) ++ rest))
     = concat (map symbolsOf (rev merged ++ chunk :: rest)).
Proof.
  destruct merged as [|prev before]; [done|]. cbn [mergeStep].
  destruct (_ <=? _).
  - cbn [rev]. by rewrite <- !app_assoc.
  - cbn [rev]. rewrite <- !app_assoc. cbn [app]. apply text_absorb.
Qed.

Lemma foldl_mergeStep_text chunks : forall merged,
  CodebaseSearcher.joinLines (map cr_content (rev (foldl mergeStep merged chunks)))
  = CodebaseSearcher.joinLines (map cr_content (rev merged ++ chunks))
  /\ concat (map symbolsOf (rev (foldl mergeStep merged chunks)))
     = concat (map symbolsOf (rev merged ++ chunks)).
Proof.
  induction chunks as [|chunk chunks IH]; intros merged; cbn [foldl].
  - by rewrite app_nil_r.
  - destruct (IH (mergeStep merged chunk)) as [-> ->]. apply mergeStep_text.
Qed.

Lemma mergeBackward_text merged :
  CodebaseSearcher.joinLines (map cr_content (rev (mergeBackward merged)))
  = CodebaseSearcher.joinLines (map cr_content (rev merged))
  /\ concat (map symbolsOf (rev (mergeBackward merged))) = concat (map symbolsOf (rev merged)).
Proof.
  destruct merged as [|last [|prev before]]; [done|done|]. cbn [mergeBackward].
  destruct (_ <? _); [|done]. cbn [rev]. rewrite <- !app_assoc. cbn [app].
  apply text_absorb.
Qed.

(** X27.  [mergeSmallChunks] loses nothing: the contents of the chunks it
    returns, joined by line feeds, are the contents of the chunks it was
    given, joined by line feeds; and the symbols are the same, in the same
    order. *)
Theorem mergeSmallChunks_keeps_text (chunks : list ChunkResult) :
  CodebaseSearcher.joinLines (map cr_content (mergeSmallChunks chunks))
  = CodebaseSearcher.joinLines (map cr_content chunks)
  /\ concat (map symbolsOf (mergeSmallChunks chunks)) = concat (map symbolsOf chunks).
Proof.
  unfold mergeSmallChunks. destruct (_ <=? _)%nat; [done|].
  destruct (mergeBackward_text (foldl mergeStep [] chunks)) as [-> ->].
  apply (foldl_mergeStep_text chunks []).
Qed.

Lemma strLength_append a b : Js.strLength (a +:+ b) = Js.strLength a + Js.strLength b.
Proof. unfold Js.strLength. rewrite chars_append, length_app. lia. Qed.

Lemma absorb_longer prev chunk : longEnough prev -> longEnough (absorb prev chunk).
Proof.
  unfold longEnough, absorb. cbn [cr_content]. rewrite strLength_append.
  intros H. pose proof (Nat2Z.is_nonneg (length (Js.chars (String Js.LF (cr_content chunk))))).
  unfold Js.strLength at 2. lia.
Qed.

(** In the array of the loop every chunk but the first pushed is long
    enough. *)
Lemma mergeStep_long merged chunk :
  Forall longEnough (removelast merged) ->
  Forall longEnough (removelast (mergeStep merged chunk)).
Proof.
  intros H. destruct merged as [|prev before]; [done|]. cbn [mergeStep].
  destruct (Z.leb_spec MIN_CHUNK_SIZE (Js.strLength (cr_content chunk))).
  - change (removelast (chunk :: prev :: before)) with (chunk :: removelast (prev :: before)).
    by apply Forall_cons.
  - destruct before as [|x before]; [done|].
    change (removelast (prev :: x :: before)) with (prev :: removelast (x :: before)) in H.
    change (removelast (absorb prev chunk :: x :: before))
      with (absorb prev chunk :: removelast (x :: before)).
    apply Forall_cons in H as [Hp Hr]. apply Forall_cons. split; [|done].
    by apply absorb_longer.
Qed.

Lemma foldl_mergeStep_long chunks : forall merged,
  Forall longEnough (removelast merged) ->
  Forall longEnough (removelast (foldl mergeStep merged chunks)).
Proof.
  induction chunks as [|chunk chunks IH]; intros merged H; cbn [foldl]; [done|].
  by apply IH, mergeStep_long.
Qed.

Lemma tail_rev {A} (l : list A) : tail (rev l) = rev (removelast l).
Proof.
  induction l as [|x l IH] using rev_ind; [done|].
  rewrite removelast_last, rev_app_distr. done.
Qed.

(** X28.  In what [mergeSmallChunks] returns every chunk but the first has
    at least [MIN_CHUNK_SIZE] characters; the closing backward merge never
    applies, so the result is the array the loop built. *)
Theorem mergeSmallChunks_sizes (chunks : list ChunkResult) :
  Forall longEnough (tail (mergeSmallChunks chunks))
  /\ mergeBackward (foldl mergeStep [] chunks) = foldl mergeStep [] chunks.
Proof.
  pose proof (foldl_mergeStep_long chunks [] ltac:(done)) as Hlong.
  assert (Hdead : mergeBackward (foldl mergeStep [] chunks) = foldl mergeStep [] chunks).
  { destruct (foldl mergeStep [] chunks) as [|last [|prev before]]; [done|done|].
    change (removelast (last :: prev :: before))
      with (last :: removelast (prev :: before)) in Hlong.
    apply Forall_cons in Hlong as [Hl _]. unfold longEnough in Hl. cbn [mergeBackward].
    destruct (Z.ltb_spec (Js.strLength (cr_content last)) MIN_CHUNK_SIZE); [lia|done]. }
  split; [|exact Hdead]. unfold mergeSmallChunks.
  destruct (length chunks <=? 1)%nat eqn:E.
  - destruct chunks as [|c [|c' l]]; [done|done|done].
  - rewrite Hdead, tail_rev. by apply Forall_rev.
Qed.

End MergeFacts.

(** ** CodeChunker: the symbols of [chunkWithAst] *)

Section BlankFacts.
Import Js.

Lemma nonBlank_iff s : nonBlank s <-> Exists (fun c => isWhiteSpace c = false) (chars s).
Proof.
  unfold nonBlank, strTrim. rewrite <- trim_nonempty_iff. split.
  - intros H Hn. apply H. by rewrite Hn.
  - intros H Hn. by apply H, str_nil.
Qed.

Lemma nonBlank_append_l a b : nonBlank a -> nonBlank (a +:+ b).
Proof. rewrite !nonBlank_iff, chars_append, Exists_app. by left. Qed.

Lemma nonBlank_append_r a b : nonBlank b -> nonBlank (a +:+ b).
Proof. rewrite !nonBlank_iff, chars_append, Exists_app. by right. Qed.

Lemma nonBlank_line a b : nonBlank b -> nonBlank (a +:+ String LF b).
Proof.
  intros H. apply nonBlank_append_r. revert H. rewrite !nonBlank_iff.
  change (chars (String LF b)) with (LF :: chars b). by apply Exists_cons_tl.
Qed.

Lemma nonBlank_strTrim s : nonBlank s -> nonBlank (strTrim s).
Proof.
  unfold nonBlank. intros H. unfold strTrim at 1. unfold strTrim at 1.
  by rewrite chars_str, trim_idem.
Qed.

(** The text chunker always returns, and with a chunk when the text is not
    blank. *)
Lemma chunk_some (tc : TextChunker.t) (content : string) :
  1 <= TextChunker.chunkSize tc ->
  exists chunks, TextChunker.chunk tc content = Some chunks
                 /\ (nonBlank content -> chunks <> []).
Proof.
  intros Hsize. remember (TextChunker.clean content) as cl eqn:Ecl.
  destruct (windows_total tc cl (S (length cl)) 0) as [ws Hws]; [lia|].
  destruct (windows_spec tc cl Hsize _ _ _ (Z.le_refl 0) Hws) as (Hh & Hne & Hf & _).
  exists (TextChunker.emit cl ws). split.
  { unfold TextChunker.chunk. rewrite <- Ecl. destruct cl; [|by rewrite Hws].
    cbn in Hws. by injection Hws as <-. }
  intros Hnb Hemp.
  assert (Hcl : cl <> []).
  { rewrite Ecl. unfold TextChunker.clean. apply trim_nonempty_iff.
    apply (replaceCrLf_nonblank (length (chars content))); [done|]. by apply nonBlank_iff. }
  destruct (trim_head (replaceCrLf (chars content))) as [Ht|(c & t & Ht & Hc)];
    [unfold TextChunker.clean in Ecl; congruence|].
  unfold TextChunker.clean in Ecl.
  destruct ws as [|w ws']; [apply Hne; [rewrite Ecl, Ht; cbn; lia|done]|].
  apply Forall_cons in Hf as [(Hw1 & Hw2 & _) _].
  pose proof (Hh w eq_refl) as H0.
  subst cl. rewrite Ht in *.
  unfold TextChunker.emit in Hemp. simpl in Hemp.
  destruct (TextChunker.windowText (c :: t) w) eqn:Etext; [|done].
  unfold TextChunker.windowText in Etext. rewrite H0 in Etext.
  destruct (slice_from_0_head c t (snd w)) as [t'' Hsl]; [lia|].
  rewrite Hsl in Etext. by apply trim_nonempty in Etext.
Qed.

End BlankFacts.

Section SymbolFacts.
Import CodeChunker.

Variable cc : CodeChunker.t.
Hypothesis size_pos : 1 <= TextChunker.chunkSize cc.

Lemma symbolsField_default l : default [] (symbolsField l) = l.
Proof. by destruct l. Qed.

Lemma symbols_concat_app (a b : list ChunkResult) :
  concat (map symbolsOf (a ++ b)) = concat (map symbolsOf a) ++ concat (map symbolsOf b).
Proof. by rewrite map_app, concat_app. Qed.

Lemma flushPending_spec st :
  pendingSound st ->
  exists st', flushPending cc st = Some st'
              /\ pendingSymbols st' = []
              /\ cursor st' = cursor st
              /\ forall sym, kept st sym -> sym ∈ concat (map symbolsOf (results st')).
Proof.
  intros Hsound. unfold flushPending.
  destruct (bool_decide (Js.strTrim (pendingContent st) = "")) eqn:Eb.
  { apply bool_decide_eq_true in Eb. eexists. split; [done|]. cbn.
    split; [done|]. split; [done|]. intros sym [H|H]; [done|].
    destruct (pendingSymbols st) as [|x l] eqn:E; [by apply elem_of_nil in H|].
    destruct Hsound; [by rewrite E|done]. }
  apply bool_decide_eq_false in Eb.
  destruct (TextChunker.chunkSize cc <? Js.strLength (pendingContent st)).
  - destruct (chunk_some cc (pendingContent st) size_pos) as (subChunks & -> & Hne).
    cbn. eexists. split; [done|]. cbn. split; [done|]. split; [done|].
    intros sym [H|H]; rewrite symbols_concat_app, elem_of_app; [by left|right].
    destruct subChunks as [|sub subChunks]; [by destruct Hne|].
    cbn [map concat]. apply elem_of_app. left. unfold symbolsOf at 1. cbn [cr_symbols].
    by rewrite symbolsField_default.
  - eexists. split; [done|]. cbn. split; [done|]. split; [done|].
    intros sym [H|H]; rewrite symbols_concat_app, elem_of_app; [by left|right].
    cbn [map concat]. apply elem_of_app. left. unfold symbolsOf. cbn [cr_symbols].
    by rewrite symbolsField_default.
Qed.

Lemma flushIfOver_spec text st :
  pendingSound st ->
  exists st', flushIfOver cc text st = Some st'
              /\ pendingSound st'
              /\ cursor st' = cursor st
              /\ forall sym, kept st sym -> kept st' sym.
Proof.
  intros Hsound. unfold flushIfOver. destruct (_ && _).
  - destruct (flushPending_spec st Hsound) as (st' & -> & Hs & Hc & Hk).
    exists st'. split; [done|]. split; [by intros H|]. split; [done|].
    intros sym H. left. by apply Hk.
  - by exists st.
Qed.

Lemma appendToPending_sound text st :
  pendingSound st -> pendingSound (appendToPending text st).
Proof.
  unfold pendingSound, appendToPending. cbn. intros Hsound Hne.
  destruct (0 <? Js.strLength (pendingContent st)) eqn:E.
  - by apply nonBlank_append_l, Hsound.
  - specialize (Hsound Hne). apply nonBlank_iff in Hsound.
    unfold Js.strLength in E. destruct (Js.chars (pendingContent st)); [|done].
    by apply Exists_nil in Hsound.
Qed.

Lemma appendToPending_nonBlank text st :
  nonBlank text -> nonBlank (pendingContent (appendToPending text st)).
Proof.
  intros H. unfold appendToPending. cbn. destruct (0 <? _); [|done]. by apply nonBlank_line.
Qed.

Lemma spanStep_spec content st span :
  pendingSound st ->
  exists st', spanStep cc content st span = Some st'
              /\ pendingSound st'
              /\ (forall sym, kept st sym -> kept st' sym)
              /\ (nonBlank (sliceOf content (startIndex span) (endIndex span)) ->
                  kept st' (symbol span)).
Proof.
  intros Hsound. unfold spanStep.
  match goal with
  | |- exists st', mbind _ ?m = Some st' /\ _ =>
      assert (H1 : exists st1, m = Some st1
                    /\ pendingSound st1 /\ forall sym, kept st sym -> kept st1 sym)
  end.
  { destruct (cursor st <? startIndex span); [|by exists st]. cbv zeta.
    destruct (bool_decide _); [by exists st|].
    destruct (flushIfOver_spec (Js.strTrim (sliceOf content (cursor st) (startIndex span)))
                st Hsound) as (st' & -> & Hs & _ & Hk).
    eexists. split; [done|]. split; [by apply appendToPending_sound|].
    intros sym H. by apply Hk in H. }
  destruct H1 as (st1 & -> & Hs1 & Hk1). cbn [mbind option_bind]. cbv zeta.
  destruct (bool_decide (Js.strTrim (sliceOf content (startIndex span) (endIndex span)) = ""))
    eqn:Eb.
  { apply bool_decide_eq_true in Eb. eexists. split; [done|]. split; [done|].
    split; [intros sym H; by apply Hk1 in H|]. by intros H. }
  apply bool_decide_eq_false in Eb.
  destruct (flushIfOver_spec (sliceOf content (startIndex span) (endIndex span)) st1 Hs1)
    as (st2 & -> & Hs2 & _ & Hk2).
  eexists. split; [done|]. split; [|split].
  - intros _. by apply appendToPending_nonBlank.
  - intros sym H. apply Hk1, Hk2 in H. destruct H as [H|H]; [by left|right].
    cbn. apply elem_of_app. by left.
  - intros _. right. cbn. apply elem_of_app. right. by apply list_elem_of_here.
Qed.

Lemma spansLoop_spec content spans : forall st,
  pendingSound st ->
  exists st', spansLoop cc content spans st = Some st'
              /\ pendingSound st'
              /\ (forall sym, kept st sym -> kept st' sym)
              /\ forall span, span ∈ spans ->
                   nonBlank (sliceOf content (startIndex span) (endIndex span)) ->
                   kept st' (symbol span).
Proof.
  induction spans as [|span rest IH]; intros st Hsound; cbn [spansLoop].
  { exists st. split; [done|]. split; [done|]. split; [done|]. by intros span H%elem_of_nil. }
  destruct (spanStep_spec content st span Hsound) as (st1 & -> & Hs1 & Hk1 & Hnew).
  destruct (IH st1 Hs1) as (st' & E & Hs' & Hk' & Hall). cbn [mbind option_bind].
  exists st'. split; [done|]. split; [done|]. split; [by intros sym H%Hk1%Hk'|].
  intros x [->|Hx]%elem_of_cons Hnb; [by apply Hk', Hnew|by apply Hall].
Qed.

Lemma trailingChunks_some content cursor :
  is_Some (trailingChunks cc content cursor).
Proof.
  unfold trailingChunks. destruct (_ <? _); [|done]. cbv zeta.
  destruct (bool_decide _); [done|].
  by destruct (chunk_some cc (Js.strTrim (sliceOf content cursor (Js.strLength content)))
                 size_pos) as (chunks & -> & _).
Qed.

Lemma mergeSmallChunks_symbols chunks :
  concat (map symbolsOf (mergeSmallChunks chunks)) = concat (map symbolsOf chunks).
Proof.
  unfold mergeSmallChunks. destruct (_ <=? _)%nat; [done|].
  destruct (mergeBackward_text (foldl mergeStep [] chunks)) as [_ ->].
  apply (foldl_mergeStep_text chunks []).
Qed.

Lemma symbols_of_some_chunk sym chunks :
  sym ∈ concat (map symbolsOf chunks) ->
  exists chunk syms, chunk ∈ chunks /\ cr_symbols chunk = Some syms /\ sym ∈ syms.
Proof.
  induction chunks as [|c chunks IH]; cbn [map concat]; [by intros H%elem_of_nil|].
  intros [H|H]%elem_of_app.
  - unfold symbolsOf in H. destruct (cr_symbols c) as [syms|] eqn:E;
      [|by apply elem_of_nil in H].
    exists c, syms. split; [by apply list_elem_of_here|done].
  - destruct (IH H) as (chunk & syms & Hc & Hs & Hin).
    exists chunk, syms. split; [by apply list_elem_of_further|done].
Qed.

(** X29.  With a chunk size of at least one, [chunkWithAst] returns,
    whatever the extractor did: it threw, or returned no span, spans of
    blank text only, or others.  When it returned symbols, the symbol of
    every span whose text is not blank is in the symbols of one of the
    chunks returned: flushing, sub-chunking and the merging of small chunks
    drop no symbol. *)
Theorem chunkWithAst_keeps_symbols (content : string)
    (extracted : option (list TreeSitterCodeSymbol)) :
  exists chunks,
    chunkWithAst cc content extracted = Some chunks
    /\ forall symbols span,
         extracted = Some symbols ->
         span ∈ extractSymbolsFromTreeSitterTs content symbols ->
         nonBlank (sliceOf content (startIndex span) (endIndex span)) ->
         exists chunk syms,
           chunk ∈ chunks /\ cr_symbols chunk = Some syms /\ symbol span ∈ syms.
Proof.
  destruct (chunk_some cc content size_pos) as (plain & Hplain & _).
  unfold chunkWithAst. destruct extracted as [symbols|]; [|by exists plain].
  destruct (extractSymbolsFromTreeSitterTs content symbols) as [|s0 spans] eqn:E.
  { exists plain. split; [done|]. intros ? span [= <-]. rewrite E. by intros H%elem_of_nil. }
  destruct (spansLoop_spec content (s0 :: spans)
              {| results := []; pendingContent := ""; pendingSymbols := []; cursor := 0 |})
    as (st & -> & Hs & _ & Hall); [unfold pendingSound; cbn; congruence|].
  cbn [mbind option_bind].
  destruct (flushPending_spec st Hs) as (st' & -> & _ & _ & Hk).
  cbn [mbind option_bind].
  destruct (trailingChunks_some content (cursor st')) as [trailing ->].
  cbn [mbind option_bind].
  assert (Hin : forall span, span ∈ s0 :: spans ->
            nonBlank (sliceOf content (startIndex span) (endIndex span)) ->
            symbol span ∈ concat (map symbolsOf (results st' ++ trailing))).
  { intros span Hspan Hnb. rewrite symbols_concat_app, elem_of_app. left.
    by apply Hk, Hall. }
  destruct (results st' ++ trailing) as [|c produced] eqn:Ep.
  - exists plain. split; [done|]. intros ? span [= <-]. rewrite E. intros Hspan Hnb.
    by apply Hin, elem_of_nil in Hspan.
  - eexists. split; [done|]. intros ? span [= <-]. rewrite E. intros Hspan Hnb.
    apply symbols_of_some_chunk. rewrite mergeSmallChunks_symbols. by apply Hin.
Qed.

End SymbolFacts.

(** A function of fifteen characters, chunked with the sizes eight and
    one. *)
Lemma chunkWithAst_keeps_symbols_witness :
  exists chunks,
    CodeChunker.chunkWithAst {| TextChunker.chunkSize := 8; TextChunker.chunkOverlap := 1 |}
      "function f() {}"
      (Some [{| CodeChunker.ts_name := Some "f"; CodeChunker.ts_kind := "function";
                CodeChunker.ts_nameRange :=
                  {| rstart := {| line := 1; column := 9; offset := 9 |};
                     rend := {| line := 1; column := 10; offset := 10 |} |};
                CodeChunker.ts_contentRange :=
                  {| rstart := {| line := 1; column := 0; offset := 0 |};
                     rend := {| line := 1; column := 15; offset := 15 |} |} |}])
    = Some chunks
    /\ exists chunk syms,
         chunk ∈ chunks /\ cr_symbols chunk = Some syms
         /\ {| sym_name := "f"; sym_kind := KFunction;
               nameRange := {| rstart := {| line := 1; column := 9; offset := 9 |};
                               rend := {| line := 1; column := 10; offset := 10 |} |};
               contentRange := {| rstart := {| line := 1; column := 0; offset := 0 |};
                                  rend := {| line := 1; column := 15; offset := 15 |} |} |}
            ∈ syms.
Proof.
  destruct (chunkWithAst_keeps_symbols
              {| TextChunker.chunkSize := 8; TextChunker.chunkOverlap := 1 |}
              ltac:(cbn; lia) "function f() {}"
              (Some [{| CodeChunker.ts_name := Some "f"; CodeChunker.ts_kind := "function";
                        CodeChunker.ts_nameRange :=
                          {| rstart := {| line := 1; column := 9; offset := 9 |};
                             rend := {| line := 1; column := 10; offset := 10 |} |};
                        CodeChunker.ts_contentRange :=
                          {| rstart := {| line := 1; column := 0; offset := 0 |};
                             rend := {| line := 1; column := 15; offset := 15 |} |} |}]))
    as (chunks & Hchunks & Hkeeps).
  exists chunks. split; [exact Hchunks|].
  refine (Hkeeps _ {| CodeChunker.symbol := _; CodeChunker.startIndex := 0;
                      CodeChunker.endIndex := 15 |} eq_refl _ _).
  - vm_compute. constructor.
  - vm_compute. done.
Defined.

(** ** The health check after a completed call *)

Section HealthFacts.
Import Indexer Health.

Lemma countChanged_settled c candidates :
  Forall (fun file => metadataUnchanged c file = true) candidates ->
  countChanged c candidates = (0, 0)%nat.
Proof.
  unfold countChanged. generalize (0, 0)%nat. intros acc H. revert acc.
  induction H as [|file l Hfile _ IH]; intros acc; cbn [foldl]; [done|].
  unfold metadataUnchanged in Hfile.
  destruct (JsMap.get _ _) as [previous|]; [|done].
  apply andb_prop in Hfile as [-> ->]. cbn [negb orb]. apply IH.
Qed.

Lemma countDeleted_tracked c candidates :
  Forall (fun p => p ∈ map CandidateFile.relativePath candidates)
    (JsMap.keys (FolderCache.fileStates c)) ->
  countDeleted c candidates = 0%nat.
Proof.
  unfold countDeleted. generalize 0%nat. intros n H. revert n.
  induction H as [|path l Hpath _ IH]; intros n; cbn [foldl]; [done|].
  by rewrite bool_decide_eq_true_2.
Qed.

#[local] Instance sameLoaded_preorder : PreOrder sameLoaded.
Proof. split; [by intros c|]. intros c1 c2 c3 H1 H2. unfold sameLoaded in *. congruence. Qed.

Lemma process_sameLoaded env options candidates :
  keeps (onCache sameLoaded) (process env options candidates).
Proof. apply (process_keeps sameLoaded); unfold sameLoaded; intros; reflexivity. Qed.

Lemma loaded_persistedLoaded env ix d folderPath options :
  FolderCache.persistedLoaded (loaded env ix d folderPath options) = true.
Proof.
  unfold loaded, loadInto.
  destruct (FolderCache.persistedLoaded (configure options (ensureCache ix folderPath))) eqn:E;
    [done|].
  cbv zeta. destruct (Storage.lastIndexedAt _) as [t|]; [destruct (truthyNumber t)|];
    reflexivity.
Qed.

(** The last stretch of a call resets the drift counts, whether the save
    rejects or not. *)
Lemma finish_noDrift env changedIndex j :
  noDrift (FolderCache.status (cache (finish env changedIndex j).2)).
Proof.
  destruct changedIndex.
  - cbv beta iota zeta delta [finish bind now getCache patchStatus modifyCache persist
      suspend setDbSize ret cache disk tick embedCalls fst snd].
    cbn [rebuildAnnIndex setIndex setStatus FolderCache.folderPath FolderCache.chunks
         FolderCache.fileStates FolderCache.indexRevision FolderCache.persistedLoaded
         FolderCache.annIndex].
    destruct (Storage.saveToDisk _ _ _ _ _ _) as [[e|] d']; cbn; by split_and!.
  - cbn. by split_and!.
Qed.

(** The cache a completed call leaves: loaded, ready, without drift. *)
Lemma completed_index_status env ix d folderPath options j candidates :
  run env ix d folderPath options = (Ok tt, j) ->
  scanned env (loaded env ix d folderPath options) options = inr candidates ->
  FolderCache.persistedLoaded (cache j) = true
  /\ RagStatus.phase (FolderCache.status (cache j)) = PhaseReady
  /\ noDrift (FolderCache.status (cache j))
  /\ RagStatus.totalFiles (FolderCache.status (cache j)) = length candidates.
Proof.
  intros Hrun Hscan.
  destruct (run_Ok _ _ _ _ _ _ Hrun) as (cands & ch & j3 & Hscan' & _ & Hp & Hf).
  rewrite Hscan in Hscan'. injection Hscan' as <-.
  match type of Hp with
  | process _ _ _ ?j2 = _ =>
      pose proof (process_counts env options candidates j2) as Hc;
      pose proof (process_sameLoaded env options candidates j2) as Hl
  end.
  rewrite Hp in Hc, Hl. destruct Hc as [_ Hc]. cbn in Hc.
  unfold onCache, sameLoaded in Hl. cbn [snd cache setStatus FolderCache.persistedLoaded] in Hl.
  rewrite loaded_persistedLoaded in Hl.
  destruct (finish_spec env ch j3) as (j' & Hf' & H1 & H2 & _).
  rewrite Hf in Hf'. injection Hf' as _ <-.
  destruct (finish_status env ch j3) as (_ & _ & _ & Hpl & _). rewrite Hf in Hpl.
  pose proof (finish_noDrift env ch j3) as Hnd. rewrite Hf in Hnd.
  split_and!; [|done|exact Hnd|congruence].
  cbn [snd] in Hpl. by rewrite Hpl.
Qed.

(** X30.  A health check on the cache that a completed call left, the
    call made with a [concurrency] that is a number, finds no drift when its
    scan lists what the scan of the call listed, or fails: it returns, the
    four drift counts are zero, [totalFiles] is the number of files listed
    and the file states are untouched.  The scan lists no path twice and no
    NaN. *)
Theorem health_check_after_index (env env' : Env) (ix : Indexer.t) (d : Storage.Disk)
    (folderPath : string) (options : IndexOptions) (j : Job)
    (candidates : list CandidateFile.t) :
  is_nan (default Defaults.FILE_EMBED_CONCURRENCY (concurrency options)) = false ->
  run env ix d folderPath options = (Ok tt, j) ->
  scanned env (loaded env ix d folderPath options) options = inr candidates ->
  NoDup (map CandidateFile.relativePath candidates) ->
  Forall numbered candidates ->
  seesOnly candidates (healthScan env' (cache j)) ->
  exists j',
    refreshHealth env' j = (Ok tt, j')
    /\ noDrift (FolderCache.status (cache j'))
    /\ RagStatus.totalFiles (FolderCache.status (cache j')) = length candidates
    /\ FolderCache.fileStates (cache j') = FolderCache.fileStates (cache j).
Proof.
  intros Hnan Hrun Hscan Hnd Hnum Hsees.
  destruct (completed_index_settled env ix d folderPath options j candidates
              Hnan Hrun Hscan Hnd Hnum) as [Hall Hkeys].
  destruct (completed_index_status env ix d folderPath options j candidates Hrun Hscan)
    as (Hloaded & _ & Hdrift & Htotal).
  unfold refreshHealth, bind, ensurePersistedLoaded, getCache. cbn [cache disk tick].
  assert (Hload : loadInto env' (disk j) (cache j) = cache j)
    by (unfold loadInto; by rewrite Hloaded).
  rewrite Hload.
  destruct (notWatched (cache j)).
  { eexists. split; [reflexivity|]. cbn. by split_and!. }
  unfold now at 1. cbn [cache tick].
  destruct (checkedLately _ _).
  { eexists. split; [reflexivity|]. by split_and!. }
  unfold suspend at 1. cbn [cache tick].
  destruct (healthScan env' (cache j)) as [e|seen].
  { eexists. split; [reflexivity|]. cbn. by split_and!. }
  cbn in Hsees. subst seen.
  eexists. split; [reflexivity|]. cbn.
  rewrite (countChanged_settled _ _ Hall), (countDeleted_tracked _ _ Hkeys).
  by split_and!.
Qed.

End HealthFacts.

(** The first indexing of the two Markdown files, and a health check that
    sees the same tree. *)
Lemma health_check_after_index_witness :
  let env := Scenario.envOf "/root" Scenario.tree in
  let j := (Indexer.run env Indexer.create ∅ "/root/" Scenario.markdownOnly).2 in
  exists j',
    Health.refreshHealth env j = (Indexer.Ok tt, j')
    /\ noDrift (FolderCache.status (Indexer.cache j'))
    /\ RagStatus.totalFiles (FolderCache.status (Indexer.cache j'))
       = length (map (Scenario.candidateOf "/root") Scenario.tree)
    /\ FolderCache.fileStates (Indexer.cache j') = FolderCache.fileStates (Indexer.cache j).
Proof.
  cbv zeta.
  apply (health_check_after_index (Scenario.envOf "/root" Scenario.tree)
           (Scenario.envOf "/root" Scenario.tree) Indexer.create ∅ "/root/"
           Scenario.markdownOnly).
  - reflexivity.
  - vm_compute. reflexivity.
  - vm_compute. reflexivity.
  - apply (bool_decide_unpack _). vm_compute. reflexivity.
  - repeat constructor.
  - vm_compute. reflexivity.
Defined.
